(** * MaaFormatter: tokenizer, comment-preserving parser and layout engine

    A shallow embedding of [MaaFormatter.ts] (classes [MaaLexer],
    [MaaParser] and [MaaPipelineFormatter]) together with the properties
    of the formatter that the specification states.

    JavaScript strings are sequences of UTF-16 code units; they are
    modelled as lists of [N].  Exceptions are modelled by the [result]
    type.  The two loops of the tokenizer and of the parser are driven by
    a fuel argument that the entry points set high enough, which is proved
    below ([tokenize_loop_fuel], [parse_total]). *)

From Stdlib Require Import String Ascii.
From stdpp Require Import base decidable option list numbers gmap.

Set Warnings "-register-all,-clear-no-such-hyp".

(** ** JavaScript strings *)

Abbreviation jsstring := (list N).

(** [js "abc"] is the JavaScript string with the same (ASCII) characters. *)
Definition js (s : string) : jsstring :=
  map N_of_ascii (list_ascii_of_string s).

(** [jsq "{'a': 1}"] is the JavaScript string in which every single quote
    of the text stands for a double quote. *)
Definition jsq (s : string) : jsstring :=
  map (λ c, if (c =? 39)%N then 34%N else c) (js s).

Definition LF : N := 10.
Definition CR : N := 13.
Definition TAB : N := 9.
Definition SPACE : N := 32.
Definition QUOTE : N := 34.
Definition BACKSLASH : N := 92.

(** [parts.join(sep)] *)
Fixpoint join (sep : jsstring) (parts : list jsstring) : jsstring :=
  match parts with
  | [] => []
  | [p] => p
  | p :: ps => p ++ sep ++ join sep ps
  end.

(** [s.repeat(n)] *)
Fixpoint repeat_str (s : jsstring) (n : nat) : jsstring :=
  match n with
  | O => []
  | S n' => s ++ repeat_str s n'
  end.

(** [s.startsWith(p)] *)
Fixpoint startsWith (s p : jsstring) : bool :=
  match p, s with
  | [], _ => true
  | c :: p', d :: s' => (c =? d)%N && startsWith s' p'
  | _ :: _, [] => false
  end.

(** [s.endsWith("\n")] *)
Definition endsWithLF (s : jsstring) : bool :=
  match last s with
  | Some c => (c =? LF)%N
  | None => false
  end.

(** Line terminators of ECMAScript: the characters that [.] does not match. *)
Definition is_line_terminator (c : N) : bool :=
  ((c =? 10) || (c =? 13) || (c =? 0x2028) || (c =? 0x2029))%N.

(** The class [\s]: white space and line terminators. *)
Definition is_space (c : N) : bool :=
  ((c =? 9) || (c =? 10) || (c =? 11) || (c =? 12) || (c =? 13) || (c =? 32)
   || (c =? 0xA0) || (c =? 0x1680) || ((0x2000 <=? c) && (c <=? 0x200A))
   || (c =? 0x2028) || (c =? 0x2029) || (c =? 0x202F) || (c =? 0x205F)
   || (c =? 0x3000) || (c =? 0xFEFF))%N.

(** The class [\d]. *)
Definition is_digit (c : N) : bool := ((48 <=? c) && (c <=? 57))%N.

(** Longest prefix of [l] whose elements satisfy [p], and the rest. *)
Fixpoint span (p : N -> bool) (l : jsstring) : jsstring * jsstring :=
  match l with
  | [] => ([], [])
  | c :: l' =>
      if p c then let '(a, b) := span p l' in (c :: a, b) else ([], l)
  end.

(** The text after a span does not start with a character of the class. *)
Definition stops (p : N -> bool) (rest : jsstring) : Prop :=
  match rest with
  | [] => True
  | c :: _ => p c = false
  end.

(** [s.trimEnd()] *)
Definition trimEnd (s : jsstring) : jsstring :=
  reverse (span is_space (reverse s)).2.

(** [s.replace(/\r?\n/g, newline)] *)
Fixpoint replace_newlines (newline : jsstring) (s : jsstring) : jsstring :=
  match s with
  | [] => []
  | c :: s' =>
      if (c =? CR)%N then
        match s' with
        | d :: s'' =>
            if (d =? LF)%N then newline ++ replace_newlines newline s''
            else c :: replace_newlines newline s'
        | [] => [c]
        end
      else if (c =? LF)%N then newline ++ replace_newlines newline s'
      else c :: replace_newlines newline s'
  end.

(** [(value.match(/\n/g) || []).length] *)
Definition count_newlines (value : jsstring) : nat :=
  length (filter (λ c, c = LF) value).

(** Decimal digits of a natural number, as in a template literal. *)
Fixpoint nat_digits (fuel n : nat) (acc : jsstring) : jsstring :=
  match fuel with
  | O => acc
  | S fuel' =>
      let d := (48 + N.of_nat (n `mod` 10))%N in
      if decide (n < 10) then d :: acc
      else nat_digits fuel' (n `div` 10) (d :: acc)
  end.

Definition nat_to_string (n : nat) : jsstring := nat_digits (S n) n [].

(** ** JSON.stringify and JSON.parse on strings *)

Definition hex_digit (n : N) : N :=
  (if n <? 10 then 48 + n else 87 + n)%N.

(** [UnicodeEscape(C)]: a backslash, [u] and four lowercase hexadecimal
    digits. *)
Definition unicode_escape (c : N) : jsstring :=
  [92; 117; hex_digit ((c / 4096) `mod` 16); hex_digit ((c / 256) `mod` 16);
   hex_digit ((c / 16) `mod` 16); hex_digit (c `mod` 16)]%N.

Definition is_high_surrogate (c : N) : bool :=
  ((0xD800 <=? c) && (c <=? 0xDBFF))%N.
Definition is_low_surrogate (c : N) : bool :=
  ((0xDC00 <=? c) && (c <=? 0xDFFF))%N.

(** One code unit that is not a surrogate, as [QuoteJSONString] writes it. *)
Definition quote_char (c : N) : jsstring :=
  (if c =? 8 then [92; 98]
   else if c =? 9 then [92; 116]
   else if c =? 10 then [92; 110]
   else if c =? 12 then [92; 102]
   else if c =? 13 then [92; 114]
   else if c =? 34 then [92; 34]
   else if c =? 92 then [92; 92]
   else if c <? 32 then unicode_escape c
   else [c])%N.

(** The characters between the quotes of [JSON.stringify(s)]: a surrogate
    pair is kept, a lone surrogate is escaped. *)
Fixpoint quote_body (s : jsstring) : jsstring :=
  match s with
  | [] => []
  | c :: s' =>
      if is_high_surrogate c then
        match s' with
        | d :: s'' =>
            if is_low_surrogate d then c :: d :: quote_body s''
            else unicode_escape c ++ quote_body s'
        | [] => unicode_escape c
        end
      else if is_low_surrogate c then unicode_escape c ++ quote_body s'
      else quote_char c ++ quote_body s'
  end.

(** [JSON.stringify(s)] for a string [s]. *)
Definition JSON_stringify_string (s : jsstring) : jsstring :=
  QUOTE :: quote_body s ++ [QUOTE].

Definition hex_value (c : N) : option N :=
  (if (48 <=? c) && (c <=? 57) then Some (c - 48)
   else if (97 <=? c) && (c <=? 102) then Some (c - 87)
   else if (65 <=? c) && (c <=? 70) then Some (c - 55)
   else None)%N.

(** The character an escape letter stands for. *)
Definition unescape_char (c : N) : option N :=
  (if c =? 34 then Some 34
   else if c =? 92 then Some 92
   else if c =? 47 then Some 47
   else if c =? 98 then Some 8
   else if c =? 102 then Some 12
   else if c =? 110 then Some 10
   else if c =? 114 then Some 13
   else if c =? 116 then Some 9
   else None)%N.

(** JSON white space, which may follow the value given to [JSON.parse]. *)
Definition is_json_space (c : N) : bool :=
  ((c =? 9) || (c =? 10) || (c =? 13) || (c =? 32))%N.

(** The characters after the opening quote of a JSON string literal:
    decoded up to the closing quote, after which only white space may
    follow.  [None] is a [SyntaxError]. *)
Fixpoint unquote_body (s : jsstring) : option jsstring :=
  match s with
  | [] => None
  | c :: s1 =>
      if (c =? 34)%N then
        if forallb is_json_space s1 then Some [] else None
      else if (c =? 92)%N then
        match s1 with
        | [] => None
        | e :: s2 =>
            if (e =? 117)%N then
              match s2 with
              | h1 :: h2 :: h3 :: h4 :: s3 =>
                  v1 ← hex_value h1; v2 ← hex_value h2;
                  v3 ← hex_value h3; v4 ← hex_value h4;
                  r ← unquote_body s3;
                  Some ((v1 * 4096 + v2 * 256 + v3 * 16 + v4)%N :: r)
              | _ => None
              end
            else
              u ← unescape_char e; r ← unquote_body s2; Some (u :: r)
        end
      else if (c <? 32)%N then None
      else r ← unquote_body s1; Some (c :: r)
  end.

(** [JSON.parse(text)] for a text that starts with a quote, as every
    [STRING] token does; [None] stands for the [SyntaxError] thrown. *)
Definition JSON_parse_string (text : jsstring) : option jsstring :=
  match text with
  | c :: s1 => if (c =? 34)%N then unquote_body s1 else None
  | [] => None
  end.

(** ** Exceptions *)

Inductive exn : Type :=
  | Error (message : jsstring)   (* [throw new Error(message)] *)
  | SyntaxError.                 (* thrown by [JSON.parse] *)

Inductive result (A : Type) : Type :=
  | Ok (a : A)
  | Throw (e : exn)
  | OutOfFuel.
Arguments Ok {A} a.
Arguments Throw {A} e.
Arguments OutOfFuel {A}.

Global Instance result_ret : MRet result := λ A a, Ok a.
Global Instance result_bind : MBind result := λ A B k r,
  match r with
  | Ok a => k a
  | Throw e => Throw e
  | OutOfFuel => OutOfFuel
  end.

(** ** Tokens *)

Inductive TokenType : Type :=
  | LBRACE | RBRACE | LBRACKET | RBRACKET | COLON | COMMA
  | STRING | NUMBER | BOOLEAN | NULL | COMMENT | WHITESPACE.

Global Instance TokenType_eq_dec : EqDecision TokenType.
Proof. solve_decision. Defined.

(** The number a member of the enum stands for, as a template literal
    prints it. *)
Definition TokenType_index (t : TokenType) : nat :=
  match t with
  | LBRACE => 0 | RBRACE => 1 | LBRACKET => 2 | RBRACKET => 3
  | COLON => 4 | COMMA => 5 | STRING => 6 | NUMBER => 7
  | BOOLEAN => 8 | NULL => 9 | COMMENT => 10 | WHITESPACE => 11
  end.

Record Token : Type := mkToken {
  type : TokenType;
  value : jsstring;
  line : nat
}.

(** ** MaaLexer

    A sticky regular expression is applied at the cursor and none of the
    patterns looks behind it, so each pattern is a function of the text
    that starts at the cursor: it returns the matched text and the text
    that follows it. *)

Definition pattern : Type := jsstring -> option (jsstring * jsstring).

(** [/\*[\s\S]*?\*/]: the text after the opening, up to and including the
    first closing delimiter. *)
Fixpoint block_comment_end (s : jsstring) : option (jsstring * jsstring) :=
  match s with
  | [] => None
  | c :: s1 =>
      let continue :=
        '(body, rest) ← block_comment_end s1; Some (c :: body, rest) in
      if (c =? 42)%N then
        match s1 with
        | d :: s2 => if (d =? 47)%N then Some ([c; d], s2) else continue
        | [] => None
        end
      else continue
  end.

(** [/\/\/.*|\/\*[\s\S]*?\*\//y] *)
Definition COMMENT_regex : pattern := λ text,
  match text with
  | c :: d :: s =>
      if ((c =? 47) && (d =? 47))%N then
        let '(body, rest) := span (λ x, negb (is_line_terminator x)) s in
        Some (c :: d :: body, rest)
      else if ((c =? 47) && (d =? 42))%N then
        '(body, rest) ← block_comment_end s; Some (c :: d :: body, rest)
      else None
  | _ => None
  end.

(** The starred group of the string pattern followed by the closing quote,
    with the backtracking of the regular expression engine: at every
    character the escape alternative is tried first, then the
    any-character-but-a-quote alternative, and when neither leads to a
    match the star stops and the closing quote is matched. *)
Fixpoint string_tail (s : jsstring) : option (jsstring * jsstring) :=
  match s with
  | [] => None
  | c :: s1 =>
      let escape :=
        if (c =? 92)%N then
          match s1 with
          | d :: s2 =>
              if is_line_terminator d then None
              else '(body, rest) ← string_tail s2; Some (c :: d :: body, rest)
          | [] => None
          end
        else None in
      match escape with
      | Some r => Some r
      | None =>
          let other :=
            if (c =? 34)%N then None
            else '(body, rest) ← string_tail s1; Some (c :: body, rest) in
          match other with
          | Some r => Some r
          | None => if (c =? 34)%N then Some ([c], s1) else None
          end
      end
  end.

(** [/Q(?:\\.|[^Q])*Q/y], where Q stands for the double quote. *)
Definition STRING_regex : pattern := λ text,
  match text with
  | c :: s =>
      if (c =? 34)%N then
        '(body, rest) ← string_tail s; Some (c :: body, rest)
      else None
  | [] => None
  end.

(** [\d+], or nothing when no digit is there. *)
Definition digits1 (s : jsstring) : option (jsstring * jsstring) :=
  let '(ds, rest) := span is_digit s in
  match ds with [] => None | _ => Some (ds, rest) end.

(** [-?] *)
Definition opt_minus (s : jsstring) : jsstring * jsstring :=
  match s with
  | c :: s1 => if (c =? 45)%N then ([c], s1) else ([], s)
  | [] => ([], s)
  end.

(** The integer part: a zero, or a digit from 1 to 9 followed by any
    number of digits. *)
Definition int_part (s : jsstring) : option (jsstring * jsstring) :=
  match s with
  | c :: s1 =>
      if (c =? 48)%N then Some ([c], s1)
      else if ((49 <=? c) && (c <=? 57))%N then
        let '(ds, rest) := span is_digit s1 in Some (c :: ds, rest)
      else None
  | [] => None
  end.

(** [(?:\.\d+)?] *)
Definition opt_fraction (s : jsstring) : jsstring * jsstring :=
  match s with
  | c :: s1 =>
      if (c =? 46)%N then
        match digits1 s1 with
        | Some (ds, rest) => (c :: ds, rest)
        | None => ([], s)
        end
      else ([], s)
  | [] => ([], s)
  end.

(** [(?:[eE][+-]?\d+)?] *)
Definition opt_exponent (s : jsstring) : jsstring * jsstring :=
  match s with
  | c :: s1 =>
      if ((c =? 101) || (c =? 69))%N then
        let '(sign, s2) :=
          match s1 with
          | d :: s2 => if ((d =? 43) || (d =? 45))%N then ([d], s2) else ([], s1)
          | [] => ([], s1)
          end in
        match digits1 s2 with
        | Some (ds, rest) => (c :: sign ++ ds, rest)
        | None => ([], s)
        end
      else ([], s)
  | [] => ([], s)
  end.

(** The number pattern: an optional minus, the integer part, an optional
    fraction and an optional exponent, each group greedy. *)
Definition NUMBER_regex : pattern := λ text,
  let '(sign, s1) := opt_minus text in
  '(int, s2) ← int_part s1;
  let '(frac, s3) := opt_fraction s2 in
  let '(exp, s4) := opt_exponent s3 in
  Some (sign ++ int ++ frac ++ exp, s4).

(** A pattern that matches one fixed word. *)
Fixpoint literal (word : jsstring) (text : jsstring)
  : option (jsstring * jsstring) :=
  match word with
  | [] => Some ([], text)
  | w :: word' =>
      match text with
      | c :: text' =>
          if (c =? w)%N then
            '(m, rest) ← literal word' text'; Some (c :: m, rest)
          else None
      | [] => None
      end
  end.

(** [/true|false/y] *)
Definition BOOLEAN_regex : pattern := λ text,
  match literal (js "true") text with
  | Some r => Some r
  | None => literal (js "false") text
  end.

(** [/null/y] *)
Definition NULL_regex : pattern := literal (js "null").

(** [/\s+/y] *)
Definition WHITESPACE_regex : pattern := λ text,
  let '(ws, rest) := span is_space text in
  match ws with [] => None | _ => Some (ws, rest) end.

Definition PATTERNS : list (TokenType * pattern) :=
  [ (COMMENT, COMMENT_regex);
    (STRING, STRING_regex);
    (NUMBER, NUMBER_regex);
    (BOOLEAN, BOOLEAN_regex);
    (NULL, NULL_regex);
    (LBRACE, literal (js "{"));
    (RBRACE, literal (js "}"));
    (LBRACKET, literal (js "["));
    (RBRACKET, literal (js "]"));
    (COLON, literal (js ":"));
    (COMMA, literal (js ","));
    (WHITESPACE, WHITESPACE_regex) ].

(** The [for] loop over the patterns: the first one that matches at the
    cursor, with its match and the text after it. *)
Fixpoint first_match (ps : list (TokenType * pattern)) (text : jsstring)
  : option (TokenType * jsstring * jsstring) :=
  match ps with
  | [] => None
  | (ty, regex) :: ps' =>
      match regex text with
      | Some (v, rest) => Some (ty, v, rest)
      | None => first_match ps' text
      end
  end.

(** The [while] loop of [tokenize], from the cursor on: [text] is what is
    left of the input and [line] the current line. *)
Fixpoint tokenize_loop (fuel : nat) (text : jsstring) (line : nat)
  : result (list Token) :=
  match text with
  | [] => Ok []
  | c :: _ =>
      match fuel with
      | O => OutOfFuel
      | S fuel' =>
          match first_match PATTERNS text with
          | Some (ty, v, rest) =>
              tokens ← tokenize_loop fuel' rest (line + count_newlines v);
              Ok (if decide (ty ≠ WHITESPACE)
                  then mkToken ty v line :: tokens else tokens)
          | None =>
              Throw (Error (js "Unexpected character at line "
                            ++ nat_to_string line ++ js ": " ++ [c]))
          end
      end
  end.

(** The loop started at a cursor, with fuel for the text that is left. *)
Definition tokenize_from (text : jsstring) (line : nat)
  : result (list Token) :=
  tokenize_loop (length text) text line.

Definition tokenize (text : jsstring) : result (list Token) :=
  tokenize_from text 1.

(** ** What a text lexes to *)

(** The type and the text of a token. *)
Definition kv_of (t : Token) : TokenType * jsstring := (type t, value t).

(** The tokenizer accepts [text], from whatever line it starts, and the
    types and texts of its tokens are [kvs]. *)
Definition lexes (text : jsstring) (kvs : list (TokenType * jsstring))
  : Prop :=
  ∀ line, ∃ tokens,
    tokenize_from text line = Ok tokens ∧ map kv_of tokens = kvs.

(** A text that the comment pattern matches from its first to its last
    character. *)
Definition comment_text (s : jsstring) : Prop :=
  COMMENT_regex s = Some (s, []).

(** What follows a value in a rendering: nothing, a comma, a line
    terminator or a closing delimiter. *)
Definition value_follow (rest : jsstring) : Prop :=
  match rest with
  | [] => True
  | c :: _ => c = 44%N ∨ c = LF ∨ c = CR ∨ c = 93%N ∨ c = 125%N
  end.

(** What follows a comment in a rendering: a line terminator. *)
Definition comment_follow (rest : jsstring) : Prop :=
  match rest with
  | [] => True
  | c :: _ => c = LF ∨ c = CR
  end.

(** A text that starts with a line terminator. *)
Definition newline_start (s : jsstring) : Prop :=
  ∃ c r, s = c :: r ∧ (c = LF ∨ c = CR).

(** ** Numbers

    The number a literal denotes is an IEEE double, obtained with
    [parseFloat] and printed with [JSON.stringify]; both are built into the
    language and are taken as parameters of the model. *)

Class JsNumber : Type := {
  num : Type;
  parseFloat : jsstring -> num;
  JSON_stringify_number : num -> jsstring
}.

(** A text that the number pattern matches from its first to its last
    character. *)
Definition number_literal (s : jsstring) : bool :=
  match NUMBER_regex s with
  | Some (_, []) => true
  | _ => false
  end.

(** What the formatter needs of the numbers of JavaScript: a number prints
    as [null] (an infinity) or as a number literal, and the literal that
    is printed denotes a number that prints the same. *)
Class JsNumberLaws `{JsNumber} : Prop := {
  stringify_number_shape v :
    JSON_stringify_number v = js "null"
    ∨ number_literal (JSON_stringify_number v) = true;
  stringify_number_stable v :
    number_literal (JSON_stringify_number v) = true →
    JSON_stringify_number (parseFloat (JSON_stringify_number v))
    = JSON_stringify_number v
}.

(** The numbers of the examples: a number is kept as the literal that
    denotes it.  This is what JavaScript does on the literals that it
    prints back as they are written, such as [0], [1], [20] or [-4.5], and
    the examples use no other. *)
Definition literal_numbers : JsNumber := {|
  num := jsstring;
  parseFloat := λ s, s;
  JSON_stringify_number := λ v, if number_literal v then v else js "null"
|}.

(** ** The syntax tree *)

Record JsonComment : Type := mkComment {
  text : jsstring;
  isBlock : bool
}.

(** A child of an object: a comment or a key-value pair. *)
Inductive ObjectChild (A : Type) : Type :=
  | OComment (c : JsonComment)
  | OPair (key : jsstring) (val : A).
Arguments OComment {A} c.
Arguments OPair {A} key val.

Inductive AstNode `{JsNumber} : Type :=
  | JsonString (v : jsstring) (rawText : jsstring)
  | JsonNumber (v : num) (rawText : jsstring)
  | JsonBoolean (v : bool) (rawText : jsstring)
  | JsonNull (rawText : jsstring)
  | Comment (c : JsonComment)
  | JsonArray (children : list AstNode)
  | JsonObject (children : list (ObjectChild AstNode)).

Section Nodes.
Context `{JsNumber}.

(** [node instanceof JsonComment] and the like. *)
Definition isComment (node : AstNode) : bool :=
  match node with Comment _ => true | _ => false end.
Definition isNumber (node : AstNode) : bool :=
  match node with JsonNumber _ _ => true | _ => false end.
Definition isArray (node : AstNode) : bool :=
  match node with JsonArray _ => true | _ => false end.
Definition isObject (node : AstNode) : bool :=
  match node with JsonObject _ => true | _ => false end.
Definition isOComment (child : ObjectChild AstNode) : bool :=
  match child with OComment _ => true | OPair _ _ => false end.
End Nodes.

(** ** The tokens and the comments of a tree *)

(** A text without control characters. *)
Definition printable (s : jsstring) : Prop := Forall (λ c, (32 ≤ c)%N) s.

Section Reading.
Context `{JsNumber}.
(** The line terminator of the output. *)
Variable nl : jsstring.

Definition isScalar (node : AstNode) : bool :=
  match node with
  | JsonString _ _ | JsonNumber _ _ | JsonBoolean _ _ | JsonNull _ => true
  | _ => false
  end.

(** The token of a number as it is printed: an infinity is printed as
    [null]. *)
Definition number_tokens (v : num) : list (TokenType * jsstring) :=
  let s := JSON_stringify_number v in
  if decide (s = js "null") then [(NULL, s)] else [(NUMBER, s)].

(** The comma after a value child that is followed by another one. *)
Definition comma_token {A : Type} (isCmt : A -> bool) (later : list A)
  : list (TokenType * jsstring) :=
  if existsb (λ c, negb (isCmt c)) later then [(COMMA, js ",")] else [].

(** The token of a comment in the output: its line terminators are those
    of the output. *)
Definition comment_token (c : JsonComment) : TokenType * jsstring :=
  (COMMENT, replace_newlines nl (text c)).

Section Children.
Variable node_tokens : AstNode -> list (TokenType * jsstring).

Fixpoint array_tokens (children : list AstNode)
  : list (TokenType * jsstring) :=
  match children with
  | [] => []
  | child :: later =>
      node_tokens child
      ++ (if isComment child then [] else comma_token isComment later)
      ++ array_tokens later
  end.

Fixpoint object_tokens (children : list (ObjectChild AstNode))
  : list (TokenType * jsstring) :=
  match children with
  | [] => []
  | OComment c :: later => comment_token c :: object_tokens later
  | OPair key val :: later =>
      [(STRING, JSON_stringify_string key); (COLON, js ":")]
      ++ node_tokens val ++ comma_token isOComment later
      ++ object_tokens later
  end.
End Children.

(** The types and texts of the tokens of the rendering of a tree. *)
Fixpoint node_tokens (node : AstNode) : list (TokenType * jsstring) :=
  match node with
  | JsonString v _ => [(STRING, JSON_stringify_string v)]
  | JsonNumber v _ => number_tokens v
  | JsonBoolean v _ => [(BOOLEAN, if v then js "true" else js "false")]
  | JsonNull _ => [(NULL, js "null")]
  | Comment c => [comment_token c]
  | JsonArray children =>
      [(LBRACKET, js "[")] ++ array_tokens node_tokens children
      ++ [(RBRACKET, js "]")]
  | JsonObject children =>
      [(LBRACE, js "{")] ++ object_tokens node_tokens children
      ++ [(RBRACE, js "}")]
  end.

Section All.
Variable P : AstNode -> Prop.

Fixpoint all_nodes (children : list AstNode) : Prop :=
  match children with
  | [] => True
  | child :: later => P child ∧ all_nodes later
  end.

Fixpoint all_values (children : list (ObjectChild AstNode)) : Prop :=
  match children with
  | [] => True
  | OComment c :: later => comment_text (text c) ∧ all_values later
  | OPair _ val :: later =>
      isComment val = false ∧ P val ∧ all_values later
  end.
End All.

(** A pair whose value is a scalar. *)
Definition scalar_pair (child : ObjectChild AstNode) : Prop :=
  match child with
  | OComment _ => False
  | OPair _ val => isScalar val
  end.

(** Every comment of the tree is a text that the comment pattern
    matches and no value of a pair is a comment, as in the trees that
    the parser builds. *)
Fixpoint wf_node (node : AstNode) : Prop :=
  match node with
  | Comment c => comment_text (text c)
  | JsonArray children => all_nodes wf_node children
  | JsonObject children => all_values wf_node children
  | _ => True
  end.

Section Collect.
Variable node_comments : AstNode -> list jsstring.

Fixpoint array_comments (children : list AstNode) : list jsstring :=
  match children with
  | [] => []
  | child :: later => node_comments child ++ array_comments later
  end.

Fixpoint object_comments (children : list (ObjectChild AstNode))
  : list jsstring :=
  match children with
  | [] => []
  | OComment c :: later => text c :: object_comments later
  | OPair _ val :: later => node_comments val ++ object_comments later
  end.
End Collect.

(** The texts of the comments of a tree, in the order of the document. *)
Fixpoint node_comments (node : AstNode) : list jsstring :=
  match node with
  | Comment c => [text c]
  | JsonArray children => array_comments node_comments children
  | JsonObject children => object_comments node_comments children
  | _ => []
  end.
End Reading.

(** The texts of the comment tokens, in order. *)
Definition token_comments (tokens : list Token) : list jsstring :=
  map value (filter (λ t, type t = COMMENT) tokens).

Definition kv_comments (kvs : list (TokenType * jsstring)) : list jsstring :=
  map snd (filter (λ kv, kv.1 = COMMENT) kvs).

(** The comment tokens are texts that the comment pattern matches, as
    those that the tokenizer builds. *)
Definition lexed_comments (tokens : list Token) : Prop :=
  Forall (λ t, type t = COMMENT → comment_text (value t)) tokens.

(** ** MaaParser

    The parser reads the tokens from its position on; a function of the
    parser takes the tokens that are left and returns them with its
    result. *)

Section Parser.
Context `{JsNumber}.

Definition peek (tokens : list Token) : option Token := head tokens.

Definition consume (expectedType : option TokenType) (tokens : list Token)
  : result (Token * list Token) :=
  match tokens with
  | [] => Throw (Error (js "Unexpected end of input"))
  | token :: rest =>
      match expectedType with
      | Some ty =>
          if decide (type token ≠ ty) then
            Throw (Error (js "Expected token type "
                          ++ nat_to_string (TokenType_index ty)
                          ++ js ", got "
                          ++ nat_to_string (TokenType_index (type token))
                          ++ js " at line " ++ nat_to_string (line token)))
          else Ok (token, rest)
      | None => Ok (token, rest)
      end
  end.

(** [new JsonComment(token.value, token.value.startsWith("/*"))] *)
Definition comment_of (token : Token) : JsonComment :=
  mkComment (value token) (startsWith (value token) (js "/*")).

Definition parseComment (tokens : list Token)
  : result (JsonComment * list Token) :=
  '(token, rest) ← consume (Some COMMENT) tokens;
  Ok (comment_of token, rest).

(** [while (this.peek()?.type === TokenType.COMMENT)
      comments.push(this.parseComment())] *)
Fixpoint parseComments (comments : list JsonComment) (tokens : list Token)
  : list JsonComment * list Token :=
  match tokens with
  | token :: rest =>
      if decide (type token = COMMENT) then
        parseComments (comments ++ [comment_of token]) rest
      else (comments, tokens)
  | [] => (comments, tokens)
  end.

(** [JSON.parse] of a string token. *)
Definition JSON_parse (v : jsstring) : result jsstring :=
  match JSON_parse_string v with
  | Some s => Ok s
  | None => Throw SyntaxError
  end.

Fixpoint parseValue (fuel : nat) (tokens : list Token) {struct fuel}
  : result (AstNode * list Token) :=
  match fuel with
  | O => OutOfFuel
  | S fuel' =>
      match tokens with
      | [] => Throw (Error (js "Unexpected end of input"))
      | token :: _ =>
          match type token with
          | LBRACE =>
              '(_, rest) ← consume (Some LBRACE) tokens;
              parseObject fuel' [] rest
          | LBRACKET =>
              '(_, rest) ← consume (Some LBRACKET) tokens;
              parseArray fuel' [] rest
          | STRING =>
              '(t, rest) ← consume None tokens;
              s ← JSON_parse (value t);
              Ok (JsonString s (value t), rest)
          | NUMBER =>
              '(t, rest) ← consume None tokens;
              Ok (JsonNumber (parseFloat (value t)) (value t), rest)
          | BOOLEAN =>
              '(t, rest) ← consume None tokens;
              Ok (JsonBoolean (bool_decide (value t = js "true")) (value t),
                  rest)
          | NULL =>
              '(t, rest) ← consume None tokens;
              Ok (JsonNull (value t), rest)
          | COMMENT =>
              '(c, rest) ← parseComment tokens;
              Ok (Comment c, rest)
          | _ =>
              Throw (Error (js "Unexpected token " ++ value token
                            ++ js " at line " ++ nat_to_string (line token)))
          end
      end
  end

(** The loop of [parseObject], after the opening brace; [children] is
    [obj.children]. *)
with parseObject (fuel : nat) (children : list (ObjectChild AstNode))
       (tokens : list Token) {struct fuel}
  : result (AstNode * list Token) :=
  match fuel with
  | O => OutOfFuel
  | S fuel' =>
      match tokens with
      | [] => Throw (Error (js "Unclosed object"))
      | token :: _ =>
          if decide (type token = RBRACE) then
            '(_, rest) ← consume None tokens;
            Ok (JsonObject children, rest)
          else if decide (type token = COMMENT) then
            '(c, rest) ← parseComment tokens;
            parseObject fuel' (children ++ [OComment c]) rest
          else if decide (type token = COMMA) then
            '(_, rest) ← consume None tokens;
            parseObject fuel' children rest
          else if decide (type token = STRING) then
            '(keyToken, rest) ← consume None tokens;
            keyStr ← JSON_parse (value keyToken);
            let '(cs1, rest) := parseComments [] rest in
            '(_, rest) ← consume (Some COLON) rest;
            let '(cs2, rest) := parseComments [] rest in
            '(v, rest) ← parseValue fuel' rest;
            parseObject fuel'
              (children ++ map OComment cs1 ++ map OComment cs2
                 ++ [OPair keyStr v]) rest
          else
            Throw (Error (js "Expected string key or comment in object, got "
                          ++ value token))
      end
  end

(** The loop of [parseArray], after the opening bracket; [children] is
    [arr.children]. *)
with parseArray (fuel : nat) (children : list AstNode)
       (tokens : list Token) {struct fuel}
  : result (AstNode * list Token) :=
  match fuel with
  | O => OutOfFuel
  | S fuel' =>
      match tokens with
      | [] => Throw (Error (js "Unclosed array"))
      | token :: _ =>
          if decide (type token = RBRACKET) then
            '(_, rest) ← consume None tokens;
            Ok (JsonArray children, rest)
          else if decide (type token = COMMENT) then
            '(c, rest) ← parseComment tokens;
            parseArray fuel' (children ++ [Comment c]) rest
          else if decide (type token = COMMA) then
            '(_, rest) ← consume None tokens;
            parseArray fuel' children rest
          else
            '(v, rest) ← parseValue fuel' tokens;
            parseArray fuel' (children ++ [v]) rest
      end
  end.

(** [parse], together with the tokens that it leaves unread. *)
Definition parse_rest (tokens : list Token)
  : result (AstNode * list Token) :=
  let '(rootComments, rest) := parseComments [] tokens in
  match peek rest with
  | None => Ok (JsonObject (map OComment rootComments), rest)
  | Some _ =>
      '(root, rest') ← parseValue (2 * length rest + 1) rest;
      Ok (match root with
          | JsonObject children =>
              JsonObject (map OComment rootComments ++ children)
          | JsonArray children =>
              JsonArray (map Comment rootComments ++ children)
          | _ => root
          end, rest')
  end.

Definition parse (tokens : list Token) : result AstNode :=
  '(root, _) ← parse_rest tokens; Ok root.
End Parser.

(** The messages of the errors that the parser throws when the tokens
    end inside a value. *)
Definition end_message (m : jsstring) : Prop :=
  m = js "Unclosed object" ∨ m = js "Unclosed array"
  ∨ m = js "Unexpected end of input".

(** The tokens are comments, all of them. *)
Definition only_comments (tokens : list Token) : Prop :=
  Forall (λ t, type t = COMMENT) tokens.

(** *** Where the tokens end

    The place at which a list of tokens ends, read off the tokens alone:
    the containers that are open, the innermost first, each with what is
    expected next in it.  In an object a key, a comment, a comma or the
    closing brace is expected ([InObject]), after a key its colon
    ([AfterKey]) and after the colon the value ([AfterColon]); in an
    array a value, a comment, a comma or the closing bracket
    ([InArray]). *)
Inductive Frame : Type := InObject | AfterKey | AfterColon | InArray.

(** A value has been read: the pair that waited for it is complete. *)
Definition value_read (stack : list Frame) : list Frame :=
  match stack with
  | AfterColon :: below => InObject :: below
  | _ => stack
  end.

Definition frame_step (stack : list Frame) (t : Token) : list Frame :=
  match type t with
  | LBRACE => InObject :: stack
  | LBRACKET => InArray :: stack
  | RBRACE | RBRACKET => value_read (tail stack)
  | STRING =>
      match stack with
      | InObject :: below => AfterKey :: below
      | _ => value_read stack
      end
  | COLON =>
      match stack with
      | AfterKey :: below => AfterColon :: below
      | _ => stack
      end
  | NUMBER | BOOLEAN | NULL => value_read stack
  | COMMENT | COMMA | WHITESPACE => stack
  end.

Definition open_frames (tokens : list Token) : list Frame :=
  foldl frame_step [] tokens.

(** The message of the error for the tokens that end in a frame. *)
Definition end_of_tokens (f : Frame) : jsstring :=
  match f with
  | InObject => js "Unclosed object"
  | InArray => js "Unclosed array"
  | AfterKey | AfterColon => js "Unexpected end of input"
  end.

(** ** Configuration *)

Inductive IndentStyle : Type := space | tab.
Inductive NewlineStyle : Type := NL_LF | NL_CRLF.

Record IndentConfig : Type := {
  style : IndentStyle;
  width : nat
}.

Record PosixConfig : Type := {
  insert_final_newline : bool
}.

Record FormattingConfig : Type := {
  simple_array_threshold : nat;
  coordinate_fields : list jsstring;
  control_flow_fields : list jsstring;
  always_multiline_fields : list jsstring
}.

Record FileHandlingConfig : Type := {
  preserve_comments : bool;
  output_suffix : jsstring;
  encoding : jsstring;
  newline : NewlineStyle
}.

Record MaaFormatConfig : Type := {
  version : option jsstring;
  indent : IndentConfig;
  posix : PosixConfig;
  formatting : FormattingConfig;
  file_handling : FileHandlingConfig
}.

Definition DEFAULT_CONFIG : MaaFormatConfig := {|
  version := Some (js "1.0");
  indent := {| style := tab; width := 1 |};
  posix := {| insert_final_newline := false |};
  formatting := {|
    simple_array_threshold := 50;
    coordinate_fields :=
      map js ["roi"; "roi_offset"; "target"; "target_offset"; "begin";
              "begin_offset"; "end"; "end_offset"; "lower"; "upper"]%string;
    control_flow_fields :=
      map js ["next"; "interrupt"; "on_error"; "template"]%string;
    always_multiline_fields :=
      map js ["custom_action_param"; "custom_param"; "parameters"; "params";
              "options"; "config"]%string
  |};
  file_handling := {|
    preserve_comments := true;
    output_suffix := js "";
    encoding := js "utf-8";
    newline := NL_LF
  |}
|}.

(** ** MaaPipelineFormatter *)

Record MaaPipelineFormatter : Type := {
  config : MaaFormatConfig;
  indentStr : jsstring;
  coordinateFields : gset jsstring;
  controlFlowFields : gset jsstring;
  alwaysMultilineFields : gset jsstring
}.

(** The constructor. *)
Definition new_MaaPipelineFormatter (config : MaaFormatConfig)
  : MaaPipelineFormatter :=
  let indentChar :=
    match style (indent config) with tab => [TAB] | space => [SPACE] end in
  {| config := config;
     indentStr := repeat_str indentChar (width (indent config));
     coordinateFields := list_to_set (coordinate_fields (formatting config));
     controlFlowFields :=
       list_to_set (control_flow_fields (formatting config));
     alwaysMultilineFields :=
       list_to_set (always_multiline_fields (formatting config)) |}.

(** [l.map((c, i) => f(i, c))], with the index counted from [i]. *)
Section Mapi.
Context {A B : Type} (f : Z -> A -> B).
Fixpoint mapi_from (i : Z) (l : list A) : list B :=
  match l with
  | [] => []
  | x :: l' => f i x :: mapi_from (i + 1)%Z l'
  end.
End Mapi.
Definition mapi {A B : Type} (f : Z -> A -> B) (l : list A) : list B :=
  mapi_from f 0%Z l.

(** The indices of the children that are not comments, counted from [i]:
    [valueIndices] of [formatNode] when [i] is zero. *)
Definition value_indices {A : Type} (isCmt : A -> bool) (i : Z) (l : list A)
  : list Z :=
  filter (λ i, i ≠ (-1)%Z)
    (mapi_from (λ i c, if isCmt c then (-1)%Z else i) i l).

Section Formatter.
Context `{JsNumber}.
Variable this : MaaPipelineFormatter.

Definition threshold : nat :=
  simple_array_threshold (formatting (config this)).

Definition isCoordinateArray (key : jsstring) (children : list AstNode)
  : bool :=
  if bool_decide (key ∈ coordinateFields this) then
    forallb (λ child,
      if isComment child then false
      else if negb (isNumber child) then false
      else true) children
  else false.

(** The functions of the class call each other; those that [formatNode]
    calls take it as the argument [formatNode]. *)
Section Open.
Variable formatNode : AstNode -> nat -> jsstring -> bool -> jsstring.

Definition formatInlineArray_body (children : list AstNode) : jsstring :=
  let parts := map (λ child, formatNode child 0%nat [] true) children in
  js "[" ++ join (js ", ") parts ++ js "]".

Definition formatInlineObject_body
  (children : list (ObjectChild AstNode)) : jsstring :=
  let parts :=
    omap (λ child,
      match child with
      | OComment _ => None
      | OPair key val =>
          let kStr := JSON_stringify_string key in
          let vStr := formatNode val 0%nat [] true in
          Some (kStr ++ js ": " ++ vStr)
      end) children in
  js "{" ++ join (js ", ") parts ++ js "}".

Definition shouldInlineArray_body (key : jsstring)
  (children : list AstNode) : bool :=
  if decide (length children = 0%nat) then true
  else if existsb (λ c, isComment c || isObject c || isArray c) children
  then false
  else if isCoordinateArray key children then true
  else if bool_decide (key ∈ controlFlowFields this) then false
  else
    let tempStr := formatInlineArray_body children in
    bool_decide (length tempStr ≤ threshold).

Definition shouldInlineObject_body (key : jsstring)
  (children : list (ObjectChild AstNode)) : bool :=
  if decide (length children = 0%nat) then true
  else if bool_decide (key ∈ alwaysMultilineFields this) then false
  else if existsb isOComment children then false
  else if existsb (λ child,
             match child with
             | OComment _ => false
             | OPair _ val => isObject val || isArray val
             end) children
  then false
  else
    let tempStr := formatInlineObject_body children in
    bool_decide (length tempStr ≤ threshold).
End Open.

(** [valueIndices] and [lastValueIdx] of [formatNode]. *)
Definition lastValueIdx {A : Type} (isCmt : A -> bool) (children : list A)
  : Z :=
  let valueIndices :=
    filter (λ i, i ≠ (-1)%Z)
      (mapi (λ i c, if isCmt c then (-1)%Z else i) children) in
  if decide (0 < length valueIndices)%nat
  then default (-1)%Z (valueIndices !! (length valueIndices - 1)%nat)
  else (-1)%Z.

Fixpoint formatNode (node : AstNode) (level : nat) (parentKey : jsstring)
  (inlineMode : bool) {struct node} : jsstring :=
  match node with
  | JsonString v _ => JSON_stringify_string v
  | JsonNumber v _ => JSON_stringify_number v
  | JsonBoolean v _ => if v then js "true" else js "false"
  | JsonNull _ => js "null"
  | Comment c => if inlineMode then [] else text c
  | JsonArray children =>
      if inlineMode then formatInlineArray_body formatNode children
      else if shouldInlineArray_body formatNode parentKey children
      then formatInlineArray_body formatNode children
      else
        let indent := repeat_str (indentStr this) (level + 1) in
        let lastIdx := lastValueIdx isComment children in
        let lines :=
          mapi (λ i child,
            let childStr := formatNode child (level + 1)%nat [] false in
            if isComment child then indent ++ childStr
            else
              let comma :=
                if bool_decide (i < Z.of_nat (length children))%Z
                   && bool_decide (i ≠ lastIdx)
                then js "," else js "" in
              indent ++ childStr ++ comma) children in
        join [LF]
          ([js "["] ++ lines ++ [repeat_str (indentStr this) level ++ js "]"])
  | JsonObject children =>
      if inlineMode then formatInlineObject_body formatNode children
      else if shouldInlineObject_body formatNode parentKey children
      then formatInlineObject_body formatNode children
      else
        let indent := repeat_str (indentStr this) (level + 1) in
        let lastIdx := lastValueIdx isOComment children in
        let lines :=
          mapi (λ i child,
            match child with
            | OComment c => indent ++ text c
            | OPair key val =>
                let keyStr := JSON_stringify_string key in
                let valStr := formatNode val (level + 1)%nat key false in
                let comma :=
                  if bool_decide (i < Z.of_nat (length children))%Z
                     && bool_decide (i ≠ lastIdx)
                  then js "," else js "" in
                indent ++ keyStr ++ js ": " ++ valStr ++ comma
            end) children in
        join [LF]
          ([js "{"] ++ lines ++ [repeat_str (indentStr this) level ++ js "}"])
  end.

Definition formatInlineArray := formatInlineArray_body formatNode.
Definition formatInlineObject := formatInlineObject_body formatNode.
Definition shouldInlineArray := shouldInlineArray_body formatNode.
Definition shouldInlineObject := shouldInlineObject_body formatNode.

Definition format (text : jsstring) : result jsstring :=
  tokens ← tokenize text;
  ast ← parse tokens;
  let formatted := formatNode ast 0 [] false in
  let formatted :=
    if insert_final_newline (posix (config this)) then
      if bool_decide (formatted ≠ []) && negb (endsWithLF formatted)
      then formatted ++ [LF] else formatted
    else
      if bool_decide (formatted ≠ []) && endsWithLF formatted
      then trimEnd formatted else formatted in
  let newline :=
    match newline (file_handling (config this)) with
    | NL_CRLF => [CR; LF]
    | NL_LF => [LF]
    end in
  Ok (replace_newlines newline formatted).

(** The last two steps of [format]: the final newline and the line
    terminators. *)
Definition finish (formatted : jsstring) : jsstring :=
  let formatted :=
    if insert_final_newline (posix (config this)) then
      if bool_decide (formatted ≠ []) && negb (endsWithLF formatted)
      then formatted ++ [LF] else formatted
    else
      if bool_decide (formatted ≠ []) && endsWithLF formatted
      then trimEnd formatted else formatted in
  let newline :=
    match newline (file_handling (config this)) with
    | NL_CRLF => [CR; LF]
    | NL_LF => [LF]
    end in
  replace_newlines newline formatted.
End Formatter.

(** ** The layout rules, as the specification words them *)

Section LayoutRules.
Context `{JsNumber}.
Variable cfg : MaaFormatConfig.

Local Abbreviation this := (new_MaaPipelineFormatter cfg).

(** A child that keeps an array from being rendered on one line. *)
Definition blocks_inline (c : AstNode) : Prop :=
  isComment c ∨ isObject c ∨ isArray c.

(** When an array under the key [k] renders inline. *)
Definition array_inline_rule (k : jsstring) (children : list AstNode)
  : Prop :=
  children = [] ∨
  (Forall (λ c, ¬ blocks_inline c) children ∧
   ((k ∈ coordinate_fields (formatting cfg) ∧ Forall isNumber children) ∨
    ((k ∉ control_flow_fields (formatting cfg)) ∧
     length (formatInlineArray this children)
       ≤ simple_array_threshold (formatting cfg)))).

(** The value of a pair is an object or an array. *)
Definition nested_value (child : ObjectChild AstNode) : Prop :=
  match child with
  | OComment _ => False
  | OPair _ val => isObject val ∨ isArray val
  end.

(** When an object under the key [k] renders inline. *)
Definition object_inline_rule (k : jsstring)
  (children : list (ObjectChild AstNode)) : Prop :=
  children = [] ∨
  ((k ∉ always_multiline_fields (formatting cfg)) ∧
   Forall (λ c, ¬ isOComment c) children ∧
   Forall (λ c, ¬ nested_value c) children ∧
   length (formatInlineObject this children)
     ≤ simple_array_threshold (formatting cfg)).

(** The indentation of the children of a container at [level]. *)
Definition child_indent (level : nat) : jsstring :=
  repeat_str (indentStr this) (level + 1).

(** The comma after a value child: present unless no value child
    follows, comments being skipped. *)
Definition comma_before {A : Type} (isCmt : A -> bool) (later : list A)
  : jsstring :=
  if existsb (λ c, negb (isCmt c)) later then js "," else js "".

(** The lines of the children of an expanded array, one per child. *)
Fixpoint array_child_lines (level : nat) (children : list AstNode)
  : list jsstring :=
  match children with
  | [] => []
  | child :: later =>
      (child_indent level
         ++ formatNode this child (level + 1) [] false
         ++ (if isComment child then js ""
             else comma_before isComment later))
      :: array_child_lines level later
  end.

(** The lines of the children of an expanded object, one per child. *)
Fixpoint object_child_lines (level : nat)
  (children : list (ObjectChild AstNode)) : list jsstring :=
  match children with
  | [] => []
  | OComment c :: later =>
      (child_indent level ++ text c) :: object_child_lines level later
  | OPair key val :: later =>
      (child_indent level ++ JSON_stringify_string key ++ js ": "
         ++ formatNode this val (level + 1) key false
         ++ comma_before isOComment later)
      :: object_child_lines level later
  end.

(** The expanded rendering: the opening delimiter, the children's
    lines, and the closing delimiter at the container's own level. *)
Definition expanded_array (level : nat) (children : list AstNode)
  : jsstring :=
  join [LF] ([js "["] ++ array_child_lines level children
               ++ [repeat_str (indentStr this) level ++ js "]"]).

Definition expanded_object (level : nat)
  (children : list (ObjectChild AstNode)) : jsstring :=
  join [LF] ([js "{"] ++ object_child_lines level children
               ++ [repeat_str (indentStr this) level ++ js "}"]).
End LayoutRules.

(** ** The number grammar of JSON, as the specification words it *)

Definition digit_run (s : jsstring) : Prop := s ≠ [] ∧ Forall is_digit s.

Definition json_sign (s : jsstring) : Prop := s = [] ∨ s = js "-".

(** No leading zero, unless the integer part is exactly zero. *)
Definition json_int (s : jsstring) : Prop :=
  s = js "0" ∨
  ∃ d ds, s = d :: ds ∧ (49 ≤ d ≤ 57)%N ∧ Forall is_digit ds.

Definition json_frac (s : jsstring) : Prop :=
  s = [] ∨ ∃ ds, s = js "." ++ ds ∧ digit_run ds.

Definition json_exp (s : jsstring) : Prop :=
  s = [] ∨
  ∃ e sign ds, s = e :: sign ++ ds ∧ (e = 101 ∨ e = 69)%N ∧
    (sign = [] ∨ sign = js "+" ∨ sign = js "-") ∧ digit_run ds.

Definition json_number (s : jsstring) : Prop :=
  ∃ sign int frac exp, s = sign ++ int ++ frac ++ exp ∧
    json_sign sign ∧ json_int int ∧ json_frac frac ∧ json_exp exp.

(** A text that cannot continue a number: it is empty or starts with a
    character that is no digit, no point and no exponent letter. *)
Definition number_follow (rest : jsstring) : Prop :=
  match rest with
  | [] => True
  | c :: _ => is_digit c = false ∧ c ≠ 46%N ∧ c ≠ 101%N ∧ c ≠ 69%N
  end.

(** A text that is not empty and does not end in white space. *)
Definition plain_last (s : jsstring) : Prop :=
  ∃ c, last s = Some c ∧ is_space c = false.

(** ** Examples of documents *)

Definition default_formatter : MaaPipelineFormatter :=
  new_MaaPipelineFormatter DEFAULT_CONFIG.

(** A configuration with another final-newline policy, or with another
    line-ending style. *)
Definition with_final_newline (b : bool) (cfg : MaaFormatConfig)
  : MaaFormatConfig := {|
  version := version cfg;
  indent := indent cfg;
  posix := {| insert_final_newline := b |};
  formatting := formatting cfg;
  file_handling := file_handling cfg
|}.

Definition with_newline (style : NewlineStyle) (cfg : MaaFormatConfig)
  : MaaFormatConfig := {|
  version := version cfg;
  indent := indent cfg;
  posix := posix cfg;
  formatting := formatting cfg;
  file_handling := {|
    preserve_comments := preserve_comments (file_handling cfg);
    output_suffix := output_suffix (file_handling cfg);
    encoding := encoding (file_handling cfg);
    newline := style
  |}
|}.

(** The line terminator of a configuration. *)
Definition newline_text (cfg : MaaFormatConfig) : jsstring :=
  match newline (file_handling cfg) with
  | NL_CRLF => [CR; LF]
  | NL_LF => [LF]
  end.

(** Every line feed of the text comes right after a carriage return. *)
Definition lf_follows_cr (s : jsstring) : Prop :=
  ∀ i, s !! i = Some LF → ∃ j, i = S j ∧ s !! j = Some CR.

(** The text holds a carriage return that no line feed follows. *)
Fixpoint lone_cr (s : jsstring) : bool :=
  match s with
  | [] => false
  | c :: s' =>
      ((c =? CR)%N
       && negb (match s' with d :: _ => (d =? LF)%N | [] => false end))
      || lone_cr s'
  end.

(** A tree whose rendering, with the line terminators of the
    configuration, lexes to the tokens of the tree. *)
Definition relexes `{JsNumber} (cfg : MaaFormatConfig) (node : AstNode)
  : Prop :=
  wf_node node → isComment node = false →
  ∀ level key rest kvs,
    value_follow rest → lexes rest kvs →
    lexes (replace_newlines (newline_text cfg)
             (formatNode (new_MaaPipelineFormatter cfg) node level key false)
           ++ rest)
      (node_tokens (newline_text cfg) node ++ kvs).

(** ** The tree that is read back from a rendering *)

Section Reading_back.
Context `{JsNumber}.
Variable nl : jsstring.

(** The comment that the parser builds from the token of a comment of
    the output. *)
Definition reparsed_comment (c : JsonComment) : JsonComment :=
  let t := replace_newlines nl (text c) in
  mkComment t (startsWith t (js "/*")).

(** The tree that the parser builds from the tokens of the rendering of
    a tree: the raw texts are those of the rendering, a number that is
    printed as [null] is read as [null]. *)
Fixpoint reparsed (node : AstNode) : AstNode :=
  match node with
  | JsonString v _ => JsonString v (JSON_stringify_string v)
  | JsonNumber v _ =>
      let s := JSON_stringify_number v in
      if decide (s = js "null") then JsonNull s
      else JsonNumber (parseFloat s) s
  | JsonBoolean v _ => JsonBoolean v (if v then js "true" else js "false")
  | JsonNull _ => JsonNull (js "null")
  | Comment c => Comment (reparsed_comment c)
  | JsonArray children => JsonArray (map reparsed children)
  | JsonObject children =>
      JsonObject (map (λ child,
                    match child with
                    | OComment c => OComment (reparsed_comment c)
                    | OPair key val => OPair key (reparsed val)
                    end) children)
  end.

(** A comment whose text, once its line terminators are rewritten, is
    left as it is when they are rewritten again. *)
Definition stable_comment (c : JsonComment) : Prop :=
  replace_newlines nl (replace_newlines nl (text c))
  = replace_newlines nl (text c).

Section Fields.
Variable P : AstNode -> Prop.

Fixpoint all_fields (children : list (ObjectChild AstNode)) : Prop :=
  match children with
  | [] => True
  | OComment c :: later => stable_comment c ∧ all_fields later
  | OPair _ val :: later => P val ∧ all_fields later
  end.
End Fields.

(** Every comment of the tree is stable and no number of the tree is
    printed as [null]. *)
Fixpoint stable_node (node : AstNode) : Prop :=
  match node with
  | JsonNumber v _ => JSON_stringify_number v ≠ js "null"
  | Comment c => stable_comment c
  | JsonArray children => all_nodes stable_node children
  | JsonObject children => all_fields stable_node children
  | _ => True
  end.
End Reading_back.

(** A tree whose reading back is rendered, up to the line terminators
    of the configuration, as the tree itself. *)
Definition reformats `{JsNumber} (cfg : MaaFormatConfig) (node : AstNode)
  : Prop :=
  wf_node node → stable_node (newline_text cfg) node →
  ∀ level key,
    replace_newlines (newline_text cfg)
      (formatNode (new_MaaPipelineFormatter cfg)
         (reparsed (newline_text cfg) node) level key false)
    = replace_newlines (newline_text cfg)
        (formatNode (new_MaaPipelineFormatter cfg) node level key false).

(** A tree whose rendering holds a carriage return that no line feed
    follows exactly when one of its comments does. *)
Definition returns_kept `{JsNumber} (cfg : MaaFormatConfig) (node : AstNode)
  : Prop :=
  wf_node node →
  ∀ level key,
    lone_cr (formatNode (new_MaaPipelineFormatter cfg) node level key false)
    = existsb lone_cr (node_comments node).

(** What the parser builds from the tokens of the rendering of a tree:
    the tree read back. *)
Definition reparses `{JsNumber} (nl : jsstring) (node : AstNode) : Prop :=
  wf_node node → isComment node = false →
  ∀ ts rest, map kv_of ts = node_tokens nl node →
    ∃ fuel, parseValue fuel (ts ++ rest) = Ok (reparsed nl node, rest).

(** The default configuration with another threshold. *)
Definition config_with_threshold (n : nat) : MaaFormatConfig := {|
  version := version DEFAULT_CONFIG;
  indent := indent DEFAULT_CONFIG;
  posix := posix DEFAULT_CONFIG;
  formatting := {|
    simple_array_threshold := n;
    coordinate_fields := coordinate_fields (formatting DEFAULT_CONFIG);
    control_flow_fields := control_flow_fields (formatting DEFAULT_CONFIG);
    always_multiline_fields :=
      always_multiline_fields (formatting DEFAULT_CONFIG)
  |};
  file_handling := file_handling DEFAULT_CONFIG
|}.

(** The array [[1, 2]] and the object [{"a": 1}] of the examples. *)
Definition array_1_2 : list (@AstNode literal_numbers) :=
  [JsonNumber (js "1" : @num literal_numbers) (js "1");
   JsonNumber (js "2" : @num literal_numbers) (js "2")].

Definition object_a_1 : list (ObjectChild (@AstNode literal_numbers)) :=
  [OPair (js "a") (JsonNumber (js "1" : @num literal_numbers) (js "1"))].

(** A number after a comment, and an object with comments before it and
    inside of it, one of them over two lines that CR LF separates. *)
Definition commented_number : jsstring := js "// c" ++ [LF] ++ js "1".

Definition commented_object : jsstring :=
  js "// c" ++ [LF] ++ jsq "{'a': /* d" ++ [CR; LF]
  ++ js "e */ [1, 2] // f" ++ [LF] ++ js "}".

(** An array with a block comment that holds two carriage returns and a
    line feed. *)
Definition stray_return_comment : jsstring :=
  js "[/*" ++ [CR; CR; LF] ++ js "*/]".

(** An array with a block comment that holds a carriage return and no
    line feed. *)
Definition lone_return_comment : jsstring :=
  js "[/*a" ++ [CR] ++ js "b*/]".

(** An array with a comment before it, one inside of it and one after
    it; and an array with a block comment over two lines that CR LF
    separates. *)
Definition trailing_comment : jsstring :=
  js "// c" ++ [LF] ++ js "[1 /* d */] // t".

Definition crlf_comment : jsstring :=
  js "[/* a" ++ [CR; LF] ++ js "b */]".

(** Numbers with a literal, [1e999], that denotes an infinity, which is
    printed as [null]; the other literals are kept as in
    [literal_numbers]. *)
Definition overflowing_numbers : JsNumber := {|
  num := jsstring;
  parseFloat := λ s, s;
  JSON_stringify_number := λ v,
    if decide (v = js "1e999") then js "null"
    else if number_literal v then v else js "null"
|}.

(** An object with the coordinates [roi], nine numbers that overflow. *)
Definition overflowing_roi : jsstring :=
  jsq "{'roi': [1e999, 1e999, 1e999, 1e999, 1e999, 1e999, 1e999, 1e999, 1e999]}".

(** ** The layout of the tokens in the text *)

(** The text that tokens make with the white space before each of
    them. *)
Fixpoint interleave (gaps : list jsstring) (tokens : list Token)
  : jsstring :=
  match gaps, tokens with
  | g :: gaps', t :: tokens' => g ++ value t ++ interleave gaps' tokens'
  | _, _ => []
  end.

(** The text before the token of index [i]. *)
Definition text_before (i : nat) (gaps : list jsstring)
  (tokens : list Token) : jsstring :=
  interleave (take i gaps) (take i tokens) ++ default [] (gaps !! i).

(** [s.includes(p)] *)
Fixpoint includes (s p : jsstring) : bool :=
  startsWith s p
  || match s with
     | [] => false
     | _ :: s' => includes s' p
     end.

(** The tokens without the commas. *)
Definition drop_commas (tokens : list Token) : list Token :=
  filter (λ t, type t ≠ COMMA) tokens.

(** Two lists of tokens with the same types and texts; the lines may
    differ. *)
Definition same_tokens (tokens tokens' : list Token) : Prop :=
  map kv_of tokens = map kv_of tokens'.

(** ** The errors of the parser *)

(** The error for a token that starts no value. *)
Definition unexpected_token (t : Token) : exn :=
  Error (js "Unexpected token " ++ value t
         ++ js " at line " ++ nat_to_string (line t)).

(** The error for a token where a key is expected. *)
Definition expected_key (t : Token) : exn :=
  Error (js "Expected string key or comment in object, got " ++ value t).

(** The error for a token where the colon after a key is expected. *)
Definition expected_colon (t : Token) : exn :=
  Error (js "Expected token type " ++ nat_to_string (TokenType_index COLON)
         ++ js ", got " ++ nat_to_string (TokenType_index (type t))
         ++ js " at line " ++ nat_to_string (line t)).

(** The errors that [parse] throws on [tokens]. *)
Definition parse_error (tokens : list Token) (e : exn) : Prop :=
  (e = SyntaxError
   ∧ ∃ t, t ∈ tokens ∧ type t = STRING
          ∧ JSON_parse_string (value t) = None)
  ∨ (∃ m, e = Error m ∧ end_message m)
  ∨ (∃ t, t ∈ tokens
          ∧ type t ∈ [RBRACE; RBRACKET; COLON; COMMA; WHITESPACE]
          ∧ e = unexpected_token t)
  ∨ (∃ t, t ∈ tokens
          ∧ (type t ∉ [RBRACE; COMMENT; COMMA; STRING])
          ∧ e = expected_key t)
  ∨ (∃ t, t ∈ tokens ∧ type t ≠ COLON ∧ e = expected_colon t).

(** ** The extension: the text of a document and its edits *)

(** [s.trimStart()] and [s.trim()] *)
Definition trimStart (s : jsstring) : jsstring := (span is_space s).2.

Definition trim (s : jsstring) : jsstring := trimEnd (trimStart s).

(** [vscode.TextEdit.replace(new vscode.Range(document.positionAt(a),
    document.positionAt(b)), newText)]: the range is given by the offsets
    of its ends. *)
Record TextEdit : Type := mkTextEdit {
  range_start : nat;
  range_end : nat;
  newText : jsstring
}.

(** The text of a document after an edit, and after the edits that
    [doFormat] returns, which are one at most. *)
Definition apply_edit (text : jsstring) (e : TextEdit) : jsstring :=
  take (range_start e) text ++ newText e ++ drop (range_end e) text.

Definition apply_edits (text : jsstring) (edits : list TextEdit) : jsstring :=
  foldl apply_edit text edits.

(** ** The extension: reading a configuration file

    [readConfig] of [extension.ts] merges the value that [JSON.parse]
    gives for the text of the file into a copy of the defaults. *)

Section Config_file.
Context `{JsNumber}.

(** The values of JSON; an object is given by its own properties. *)
Inductive JsValue : Type :=
  | JNull
  | JBool (b : bool)
  | JNum (n : num)
  | JStr (s : jsstring)
  | JArr (items : list JsValue)
  | JObj (props : gmap jsstring JsValue).

(** [ToBoolean] on a number is false on the zeros and on NaN. *)
Variable ToBoolean_number : num -> bool.

Definition ToBoolean (v : JsValue) : bool :=
  match v with
  | JNull => false
  | JBool b => b
  | JNum n => ToBoolean_number n
  | JStr s => bool_decide (s ≠ [])
  | JArr _ | JObj _ => true
  end.

(** The own enumerable properties of a value, which [Object.assign]
    copies: the properties of an object, the elements of an array under
    their indices, the characters of a string under theirs; a boolean
    and a number have none. *)
Definition own_properties (v : JsValue) : gmap jsstring JsValue :=
  match v with
  | JObj props => props
  | JArr items => list_to_map (imap (λ i x, (nat_to_string i, x)) items)
  | JStr s => list_to_map (imap (λ i c, (nat_to_string i, JStr [c])) s)
  | _ => ∅
  end.

(** [Object.assign(target, source)] on the own properties of the target:
    every property of the source is set on the target.  Setting
    [__proto__] changes the prototype of the target and makes no property
    of its own. *)
Definition Object_assign (target : gmap jsstring JsValue) (source : JsValue)
  : gmap jsstring JsValue :=
  delete (js "__proto__") (own_properties source) ∪ target.

(** [value.key] for a key of the configuration, which no prototype has:
    [None] when the access throws, which it does on [null]; [Some None]
    when it gives [undefined]. *)
Definition get_key (v : JsValue) (key : jsstring) : option (option JsValue) :=
  match v with
  | JNull => None
  | JObj props => Some (props !! key)
  | _ => Some None
  end.

(** The configuration object: the properties of its four sections, and
    its version. *)
Record ConfigObject : Type := mkConfigObject {
  c_version : option JsValue;
  c_indent : gmap jsstring JsValue;
  c_posix : gmap jsstring JsValue;
  c_formatting : gmap jsstring JsValue;
  c_file_handling : gmap jsstring JsValue
}.

(** [JSON.parse(JSON.stringify(config))] for a configuration. *)
Definition number_of_nat (n : nat) : num := parseFloat (nat_to_string n).

Definition config_object (config : MaaFormatConfig) : ConfigObject := {|
  c_version := JStr <$> version config;
  c_indent :=
    {[ js "style" := JStr (match style (indent config) with
                           | tab => js "tab"
                           | space => js "space"
                           end);
       js "width" := JNum (number_of_nat (width (indent config))) ]};
  c_posix :=
    {[ js "insert_final_newline"
       := JBool (insert_final_newline (posix config)) ]};
  c_formatting :=
    {[ js "simple_array_threshold"
       := JNum (number_of_nat (simple_array_threshold (formatting config)));
       js "coordinate_fields"
       := JArr (map JStr (coordinate_fields (formatting config)));
       js "control_flow_fields"
       := JArr (map JStr (control_flow_fields (formatting config)));
       js "always_multiline_fields"
       := JArr (map JStr (always_multiline_fields (formatting config))) ]};
  c_file_handling :=
    {[ js "preserve_comments"
       := JBool (preserve_comments (file_handling config));
       js "output_suffix" := JStr (output_suffix (file_handling config));
       js "encoding" := JStr (encoding (file_handling config));
       js "newline" := JStr (match newline (file_handling config) with
                             | NL_LF => js "LF"
                             | NL_CRLF => js "CRLF"
                             end) ]}
|}.

(** [if (userConfig.key) Object.assign(merged.key, userConfig.key)] *)
Definition merge_section (target : gmap jsstring JsValue)
  (given : option JsValue) : gmap jsstring JsValue :=
  match given with
  | Some v => if ToBoolean v then Object_assign target v else target
  | None => target
  end.

(** [if (userConfig.version) merged.version = userConfig.version] *)
Definition merge_version (target given : option JsValue) : option JsValue :=
  match given with
  | Some v => if ToBoolean v then Some v else target
  | None => target
  end.

(** The body of the [try] of [readConfig], from the value that
    [JSON.parse] has returned; [None] when it throws. *)
Definition merge_config (userConfig : JsValue) : option ConfigObject :=
  let merged := config_object DEFAULT_CONFIG in
  u_indent ← get_key userConfig (js "indent");
  u_posix ← get_key userConfig (js "posix");
  u_formatting ← get_key userConfig (js "formatting");
  u_file_handling ← get_key userConfig (js "file_handling");
  u_version ← get_key userConfig (js "version");
  Some {| c_indent := merge_section (c_indent merged) u_indent;
          c_posix := merge_section (c_posix merged) u_posix;
          c_formatting := merge_section (c_formatting merged) u_formatting;
          c_file_handling :=
            merge_section (c_file_handling merged) u_file_handling;
          c_version := merge_version (c_version merged) u_version |}.

(** [readConfig(uri)], from the outcome of reading the file and of
    [JSON.parse] on its text, [None] when one of them throws: the
    configuration that it returns, and whether it shows the error
    message. *)
Definition readConfig (parsed : option JsValue) : ConfigObject * bool :=
  match parsed ≫= merge_config with
  | Some merged => (merged, false)
  | None => (config_object DEFAULT_CONFIG, true)
  end.

(** The value of a configuration object, as [JSON.parse] gives it for the
    text that [JSON.stringify] writes. *)
Definition object_value (c : ConfigObject) : JsValue :=
  JObj (match c_version c with
        | Some v => <[js "version" := v]>
        | None => λ m, m
        end
          {[ js "indent" := JObj (c_indent c);
             js "posix" := JObj (c_posix c);
             js "formatting" := JObj (c_formatting c);
             js "file_handling" := JObj (c_file_handling c) ]}).

(** The sections of a configuration. *)
Inductive ConfigSection : Type :=
  | S_indent | S_posix | S_formatting | S_file_handling.

Definition section_key (s : ConfigSection) : jsstring :=
  match s with
  | S_indent => js "indent"
  | S_posix => js "posix"
  | S_formatting => js "formatting"
  | S_file_handling => js "file_handling"
  end.

Definition section_of (s : ConfigSection) (c : ConfigObject)
  : gmap jsstring JsValue :=
  match s with
  | S_indent => c_indent c
  | S_posix => c_posix c
  | S_formatting => c_formatting c
  | S_file_handling => c_file_handling c
  end.
End Config_file.

(** What the configurations that [readConfig] returns have in common: a
    version that is truthy, every field of the defaults in each section,
    and no property [__proto__]. *)
Definition merged_config `{JsNumber} (ToBoolean_number : num -> bool)
  (m : ConfigObject) : Prop :=
  (∃ v, c_version m = Some v ∧ ToBoolean ToBoolean_number v)
  ∧ ∀ s, dom (section_of s (config_object DEFAULT_CONFIG))
           ⊆ dom (section_of s m)
         ∧ section_of s m !! js "__proto__" = None.

(** A configuration file that gives the width of the indentation only,
    for the numbers that are kept as their literals. *)
Definition literal_truthy (n : @num literal_numbers) : bool :=
  bool_decide (n ≠ js "0").

Definition width_only : @JsValue literal_numbers :=
  JObj {[ js "indent" := JObj {[ js "width" := JNum (js "4" : @num literal_numbers) ]} ]}.

(** A configuration with another threshold. *)
Definition with_threshold (n : nat) (cfg : MaaFormatConfig)
  : MaaFormatConfig := {|
  version := version cfg;
  indent := indent cfg;
  posix := posix cfg;
  formatting := {|
    simple_array_threshold := n;
    coordinate_fields := coordinate_fields (formatting cfg);
    control_flow_fields := control_flow_fields (formatting cfg);
    always_multiline_fields := always_multiline_fields (formatting cfg)
  |};
  file_handling := file_handling cfg
|}.

(** ** The extension: which documents are formatted *)

(** The key [k] is a key of an object of the tree. *)
Inductive has_key `{JsNumber} (k : jsstring) : AstNode -> Prop :=
  | key_of_object children val :
      OPair k val ∈ children -> has_key k (JsonObject children)
  | key_in_value children key val :
      OPair key val ∈ children -> has_key k val ->
      has_key k (JsonObject children)
  | key_in_item children child :
      child ∈ children -> has_key k child -> has_key k (JsonArray children).

(** What the functions read of a [vscode.TextDocument]. *)
Record TextDocument : Type := mkTextDocument {
  languageId : jsstring;
  fileName : jsstring;
  getText : jsstring
}.

Section Detection.
(** [path.extname(p)], [path.basename(p, ext)] and [s.toLowerCase()] are
    parameters of the model. *)
Variable extname : jsstring -> jsstring.
Variable basename : jsstring -> jsstring -> jsstring.
Variable toLowerCase : jsstring -> jsstring.

Definition isJsonDocument (document : TextDocument) : bool :=
  if bool_decide (languageId document = js "json")
     || bool_decide (languageId document = js "jsonc") then true
  else if bool_decide (toLowerCase (extname (fileName document)) = js ".json")
  then true
  else false.

(** [filePatterns] is the setting [maapipeline-format.filePatterns]. *)
Definition isMaaPipelineJsonFile (filePatterns : list jsstring)
  (document : TextDocument) : bool :=
  if negb (isJsonDocument document) then false
  else
    let fileName := toLowerCase (basename (fileName document) (js ".json")) in
    if existsb (λ pattern, includes fileName (toLowerCase pattern))
         filePatterns
    then true
    else
      let text := getText document in
      if includes text (jsq "'roi'") || includes text (jsq "'recognition'")
         || includes text (jsq "'action'") || includes text (jsq "'target'")
      then true
      else false.
End Detection.

(** ** The extension: formatting a document

    [doFormat] of [extension.ts] loads the configuration for the
    document, builds a formatter from it and formats the text of the
    document; it catches what these steps throw. *)

(** The files that [loadOrGenerateConfiguration] looks for in the folder
    of the workspace: [.maapipeline-format], the directory [.vscode] and
    [.vscode/maapipeline-format].  A file is [None] when [fileExists]
    finds none; when it finds one, the file is given by the outcome of
    reading it and of [JSON.parse] on its text, as [readConfig] takes
    it. *)
Record Workspace `{JsNumber} : Type := mkWorkspace {
  root_config : option (option JsValue);
  vscode_directory : bool;
  vscode_config : option (option JsValue)
}.

(** Whether [fs.createDirectory] and [fs.writeFile] succeed when
    [loadOrGenerateConfiguration] calls them. *)
Record Outcomes : Type := mkOutcomes {
  creates_directory : bool;
  writes_file : bool
}.

(** What the constructor and [format] throw: [repeat] a [RangeError],
    [new Set] a [TypeError], the tokenizer and the parser their errors. *)
Inductive Failure : Type :=
  | RangeError
  | TypeError
  | Thrown (error : exn).

(** The messages that the extension shows: the information that the
    default configuration was created, the error of [readConfig] and the
    error of [doFormat]. *)
Inductive Message : Type :=
  | Created_default_configuration
  | Failed_to_parse_config
  | Formatting_failed (error : Failure).

(** The strings that the iterator of a string yields: its code points, a
    surrogate pair being one of them. *)
Definition is_leading_surrogate (c : N) : bool :=
  ((0xD800 <=? c) && (c <=? 0xDBFF))%N.
Definition is_trailing_surrogate (c : N) : bool :=
  ((0xDC00 <=? c) && (c <=? 0xDFFF))%N.

Fixpoint code_points (s : jsstring) : list jsstring :=
  match s with
  | [] => []
  | c :: s' =>
      match s' with
      | d :: s'' =>
          if is_leading_surrogate c && is_trailing_surrogate d
          then [c; d] :: code_points s''
          else [c] :: code_points s'
      | [] => [[c]]
      end
  end.

Section Extension.
Context `{JsNumber}.
Variable ToBoolean_number : num -> bool.

(** [indentChar.repeat(v)] on a value [v] of the configuration file: the
    count is the integer part of the number that [v] converts to, and
    [repeat] throws a [RangeError] when it is negative or infinite, or
    when the string would be too long, which is [None] here.  The
    conversion is a parameter of the model. *)
Variable repeat_count : JsValue -> option nat.

(** [length <= v] on a value [v] of the configuration file compares the
    length with the number that [v] converts to.  [threshold_of v] is a
    natural number [n] such that the comparison holds exactly for the
    lengths up to [n], among the lengths of strings, which are below
    2^53; it is a parameter of the model. *)
Variable threshold_of : JsValue -> nat.

(** The strings that [new Set(v)] holds, which are what [has] is asked
    for: none for [undefined] and [null], the strings among the elements
    of an array, the code points of a string.  A boolean, a number and
    an object are not iterable: [new Set] throws a [TypeError], which is
    [None] here. *)
Definition set_strings (v : option JsValue) : option (list jsstring) :=
  match v with
  | None | Some JNull => Some []
  | Some (JArr items) =>
      Some (omap (λ x, match x with JStr s => Some s | _ => None end) items)
  | Some (JStr s) => Some (code_points s)
  | Some (JBool _) | Some (JNum _) | Some (JObj _) => None
  end.

(** The configuration as the constructor and [format] read it off a
    configuration object, [None] standing for [undefined]: the style is
    a tab when the value is the string [tab], the newline CR LF when the
    value is the string [CRLF], the final newline is asked for when the
    value is truthy.  The fields that the formatter does not read are
    those of the defaults.  The failure is the exception of the
    constructor, which computes the indentation first and the three sets
    after it. *)
Definition formatter_config (c : ConfigObject) : Failure + MaaFormatConfig :=
  match match c_indent c !! js "width" with
        | Some v => repeat_count v
        | None => Some 0
        end with
  | None => inl RangeError
  | Some count =>
      match set_strings (c_formatting c !! js "coordinate_fields"),
            set_strings (c_formatting c !! js "control_flow_fields"),
            set_strings (c_formatting c !! js "always_multiline_fields") with
      | Some coordinate, Some control_flow, Some always_multiline =>
          inr {|
            version := version DEFAULT_CONFIG;
            indent := {|
              style := match c_indent c !! js "style" with
                       | Some (JStr s) =>
                           if decide (s = js "tab") then tab else space
                       | _ => space
                       end;
              width := count
            |};
            posix := {|
              insert_final_newline :=
                match c_posix c !! js "insert_final_newline" with
                | Some v => ToBoolean ToBoolean_number v
                | None => false
                end
            |};
            formatting := {|
              simple_array_threshold :=
                match c_formatting c !! js "simple_array_threshold" with
                | Some v => threshold_of v
                | None => 0
                end;
              coordinate_fields := coordinate;
              control_flow_fields := control_flow;
              always_multiline_fields := always_multiline
            |};
            file_handling := {|
              preserve_comments :=
                preserve_comments (file_handling DEFAULT_CONFIG);
              output_suffix := output_suffix (file_handling DEFAULT_CONFIG);
              encoding := encoding (file_handling DEFAULT_CONFIG);
              newline := match c_file_handling c !! js "newline" with
                         | Some (JStr s) =>
                             if decide (s = js "CRLF") then NL_CRLF
                             else NL_LF
                         | _ => NL_LF
                         end
            |}
          |}
      | _, _, _ => inl TypeError
      end
  end.

(** [readConfig(uri)] with the message that it shows. *)
Definition read_file (parsed : option JsValue) : ConfigObject * list Message :=
  let '(config, failed) := readConfig ToBoolean_number parsed in
  (config, if failed then [Failed_to_parse_config] else []).

(** The workspace after the default configuration is written. *)
Definition generated : Workspace := {|
  root_config := None;
  vscode_directory := true;
  vscode_config := Some (Some (object_value (config_object DEFAULT_CONFIG)))
|}.

(** [loadOrGenerateConfiguration(document)], for the workspace folder of
    the document, [None] when it has none: the configuration, the
    messages that are shown and the workspace that is left. *)
Definition loadOrGenerateConfiguration (workspaceFolder : option Workspace)
  (outcomes : Outcomes) : ConfigObject * list Message * option Workspace :=
  match workspaceFolder with
  | None => (config_object DEFAULT_CONFIG, [], None)
  | Some w =>
      match root_config w with
      | Some parsed =>
          let '(config, shown) := read_file parsed in
          (config, shown, workspaceFolder)
      | None =>
          match vscode_config w with
          | Some parsed =>
              let '(config, shown) := read_file parsed in
              (config, shown, workspaceFolder)
          | None =>
              if negb (vscode_directory w)
                 && negb (creates_directory outcomes)
              then (config_object DEFAULT_CONFIG, [], workspaceFolder)
              else if writes_file outcomes
              then (config_object DEFAULT_CONFIG,
                    [Created_default_configuration], Some generated)
              else (config_object DEFAULT_CONFIG, [],
                    Some {| root_config := None;
                            vscode_directory := true;
                            vscode_config := None |})
          end
      end
  end.

(** [doFormat(document)], for the workspace folder and the text of the
    document: the edits that it returns, the messages that are shown and
    the workspace that is left. *)
Definition doFormat (workspaceFolder : option Workspace)
  (outcomes : Outcomes) (text : jsstring)
  : result (list TextEdit * list Message * option Workspace) :=
  if decide (length (trim text) = 0) then Ok ([], [], workspaceFolder)
  else
    let '(config, shown, workspace) :=
      loadOrGenerateConfiguration workspaceFolder outcomes in
    match formatter_config config with
    | inl error => Ok ([], shown ++ [Formatting_failed error], workspace)
    | inr config =>
        match format (new_MaaPipelineFormatter config) text with
        | Ok formattedText =>
            if decide (formattedText ≠ text)
            then Ok ([mkTextEdit 0 (length text) formattedText], shown,
                     workspace)
            else Ok ([], shown, workspace)
        | Throw error =>
            Ok ([], shown ++ [Formatting_failed (Thrown error)], workspace)
        | OutOfFuel => OutOfFuel
        end
    end.
End Extension.

(** The parameters on the values of the default configuration, for the
    numbers that are kept as their literals: the width is one and the
    threshold fifty. *)
Definition default_count (v : @JsValue literal_numbers) : option nat :=
  Some 1.
Definition default_threshold (v : @JsValue literal_numbers) : nat := 50.

(** A workspace without a configuration file, in which the file can be
    written. *)
Definition empty_workspace : option (@Workspace literal_numbers) :=
  Some {| root_config := None; vscode_directory := false;
          vscode_config := None |}.
(** * Properties *)

(** ** The last value index *)

Section LastValue.
Context {A : Type} (isCmt : A -> bool).

Local Abbreviation indices := (value_indices isCmt).

Lemma mapi_from_app {B C : Type} (f : Z -> B -> C) i l1 l2 :
  mapi_from f i (l1 ++ l2)
  = mapi_from f i l1 ++ mapi_from f (i + Z.of_nat (length l1)) l2.
Proof.
  revert i. induction l1 as [|x l1 IH]; intros i; simpl.
  - by rewrite Z.add_0_r.
  - rewrite IH. do 3 f_equal. lia.
Qed.

Lemma value_indices_app i l1 l2 :
  indices i (l1 ++ l2)
  = indices i l1 ++ indices (i + Z.of_nat (length l1)) l2.
Proof. unfold value_indices. by rewrite mapi_from_app, filter_app. Qed.

Lemma value_indices_bound i l x :
  (0 ≤ i)%Z → x ∈ indices i l → (i ≤ x)%Z.
Proof.
  revert i. induction l as [|c l IH]; intros i Hi; unfold value_indices; simpl.
  - by intros ?%elem_of_nil.
  - destruct (isCmt c).
    + rewrite filter_cons_False by (intros ?; lia).
      intros Hx. apply IH in Hx; lia.
    + rewrite filter_cons_True by lia.
      intros [->|Hx]%elem_of_cons; [lia|]. apply IH in Hx; lia.
Qed.

Lemma value_indices_nil i l :
  (0 ≤ i)%Z →
  indices i l = [] ↔ existsb (λ c, negb (isCmt c)) l = false.
Proof.
  revert i. induction l as [|c l IH]; intros i Hi; unfold value_indices; simpl.
  - done.
  - destruct (isCmt c); simpl.
    + rewrite filter_cons_False by (intros ?; lia). apply IH; lia.
    + rewrite filter_cons_True by lia. done.
Qed.

Lemma lastValueIdx_last l :
  lastValueIdx isCmt l = default (-1)%Z (last (indices 0 l)).
Proof.
  unfold lastValueIdx, mapi. fold (indices 0%Z l).
  destruct (indices 0 l) as [|x vi] eqn:E.
  - done.
  - destruct (decide _) as [?|Hn]; [|exfalso; simpl in Hn; lia].
    rewrite last_lookup. simpl. by rewrite Nat.sub_0_r.
Qed.

(** A value child is the last one exactly when only comments follow. *)
Lemma lastValueIdx_at pre c later :
  isCmt c = false →
  bool_decide (Z.of_nat (length pre) ≠ lastValueIdx isCmt (pre ++ c :: later))
  = existsb (λ c, negb (isCmt c)) later.
Proof.
  intros Hc. rewrite lastValueIdx_last, value_indices_app, Z.add_0_l.
  assert (indices (Z.of_nat (length pre)) (c :: later)
          = Z.of_nat (length pre)
            :: indices (Z.of_nat (length pre) + 1) later) as ->.
  { unfold value_indices. simpl. rewrite Hc.
    by rewrite filter_cons_True by lia. }
  destruct (existsb _ later) eqn:E.
  - apply bool_decide_eq_true.
    destruct (indices (Z.of_nat (length pre) + 1) later)
      as [|x vi] eqn:Evi.
    { apply value_indices_nil in Evi; [congruence|lia]. }
    rewrite (cons_middle (Z.of_nat (length pre))), app_assoc, last_app.
    destruct (last (x :: vi)) as [y|] eqn:Ey.
    2:{ by apply last_None in Ey. }
    assert (y ∈ indices (Z.of_nat (length pre) + 1) later) as Hy.
    { rewrite Evi. apply last_Some in Ey as [l' ->]. set_solver. }
    apply value_indices_bound in Hy; simpl; lia.
  - apply bool_decide_eq_false. intros Hne. apply Hne.
    rewrite (proj2 (value_indices_nil (Z.of_nat (length pre) + 1) later
                      ltac:(lia)) E).
    by rewrite last_snoc.
Qed.
End LastValue.

(** ** The layout decisions *)

Section Layout.
Context `{JsNumber}.
Variable cfg : MaaFormatConfig.
Local Abbreviation this := (new_MaaPipelineFormatter cfg).

Lemma formatNode_array children level k :
  formatNode this (JsonArray children) level k false
  = if shouldInlineArray this k children
    then formatInlineArray this children
    else join [LF]
           ([js "["]
            ++ mapi (λ i child,
                 let childStr := formatNode this child (level + 1) [] false in
                 if isComment child then child_indent cfg level ++ childStr
                 else child_indent cfg level ++ childStr
                      ++ (if bool_decide (i < Z.of_nat (length children))%Z
                             && bool_decide
                                  (i ≠ lastValueIdx isComment children)
                          then js "," else js "")) children
            ++ [repeat_str (indentStr this) level ++ js "]"]).
Proof. reflexivity. Qed.

Lemma formatNode_object children level k :
  formatNode this (JsonObject children) level k false
  = if shouldInlineObject this k children
    then formatInlineObject this children
    else join [LF]
           ([js "{"]
            ++ mapi (λ i child,
                 match child with
                 | OComment c => child_indent cfg level ++ text c
                 | OPair key val =>
                     child_indent cfg level ++ JSON_stringify_string key
                     ++ js ": "
                     ++ formatNode this val (level + 1) key false
                     ++ (if bool_decide (i < Z.of_nat (length children))%Z
                            && bool_decide
                                 (i ≠ lastValueIdx isOComment children)
                         then js "," else js "")
                 end) children
            ++ [repeat_str (indentStr this) level ++ js "}"]).
Proof. reflexivity. Qed.

Lemma array_lines_from level whole pre later :
  whole = pre ++ later →
  mapi_from (λ i child,
      let childStr := formatNode this child (level + 1) [] false in
      if isComment child then child_indent cfg level ++ childStr
      else child_indent cfg level ++ childStr
           ++ (if bool_decide (i < Z.of_nat (length whole))%Z
                  && bool_decide (i ≠ lastValueIdx isComment whole)
               then js "," else js ""))
    (Z.of_nat (length pre)) later
  = array_child_lines cfg level later.
Proof.
  revert pre. induction later as [|c later IH]; intros pre ->; [done|].
  simpl mapi_from. simpl array_child_lines. f_equal.
  - destruct (isComment c) eqn:Hc; [by rewrite app_nil_r|].
    rewrite lastValueIdx_at by done.
    rewrite bool_decide_eq_true_2; [done|].
    rewrite length_app. simpl. lia.
  - replace (Z.of_nat (length pre) + 1)%Z
      with (Z.of_nat (length (pre ++ [c])))
      by (rewrite length_app; simpl; lia).
    apply IH. by rewrite <- (assoc_L (++)).
Qed.

Lemma object_child_lines_cons level c later :
  object_child_lines cfg level (c :: later)
  = match c with
    | OComment c => child_indent cfg level ++ text c
    | OPair key val =>
        child_indent cfg level ++ JSON_stringify_string key ++ js ": "
        ++ formatNode this val (level + 1) key false
        ++ comma_before isOComment later
    end :: object_child_lines cfg level later.
Proof. by destruct c. Qed.

Lemma object_lines_from level whole pre later :
  whole = pre ++ later →
  mapi_from (λ i child,
      match child with
      | OComment c => child_indent cfg level ++ text c
      | OPair key val =>
          child_indent cfg level ++ JSON_stringify_string key ++ js ": "
          ++ formatNode this val (level + 1) key false
          ++ (if bool_decide (i < Z.of_nat (length whole))%Z
                 && bool_decide (i ≠ lastValueIdx isOComment whole)
              then js "," else js "")
      end)
    (Z.of_nat (length pre)) later
  = object_child_lines cfg level later.
Proof.
  revert pre. induction later as [|c later IH]; intros pre ->; [done|].
  simpl mapi_from. rewrite object_child_lines_cons. f_equal.
  - destruct c as [c|key val]; [done|].
    rewrite (lastValueIdx_at isOComment) by done.
    rewrite bool_decide_eq_true_2; [done|].
    rewrite length_app. simpl. lia.
  - replace (Z.of_nat (length pre) + 1)%Z
      with (Z.of_nat (length (pre ++ [c])))
      by (rewrite length_app; simpl; lia).
    apply IH. by rewrite <- (assoc_L (++)).
Qed.

Lemma formatNode_array_cases children level k :
  formatNode this (JsonArray children) level k false
  = if shouldInlineArray this k children
    then formatInlineArray this children
    else expanded_array cfg level children.
Proof.
  rewrite formatNode_array. destruct (shouldInlineArray _ _ _); [done|].
  unfold expanded_array, mapi.
  by rewrite <- (array_lines_from level children [] children).
Qed.

Lemma formatNode_object_cases children level k :
  formatNode this (JsonObject children) level k false
  = if shouldInlineObject this k children
    then formatInlineObject this children
    else expanded_object cfg level children.
Proof.
  rewrite formatNode_object. destruct (shouldInlineObject _ _ _); [done|].
  unfold expanded_object, mapi.
  by rewrite <- (object_lines_from level children [] children).
Qed.
End Layout.

Section Decisions.
Context `{JsNumber}.
Variable cfg : MaaFormatConfig.
Local Abbreviation this := (new_MaaPipelineFormatter cfg).

Lemma blockers_false (children : list AstNode) :
  existsb (λ c, isComment c || isObject c || isArray c) children = false
  ↔ Forall (λ c, ¬ blocks_inline c) children.
Proof.
  induction children as [|c l IH]; simpl.
  - split; [constructor|done].
  - rewrite orb_false_iff, IH, Forall_cons. unfold blocks_inline.
    destruct (isComment c), (isObject c), (isArray c); simpl; naive_solver.
Qed.

Lemma isCoordinateArray_true k (children : list AstNode) :
  isCoordinateArray this k children = true
  ↔ k ∈ coordinate_fields (formatting cfg) ∧ Forall isNumber children.
Proof.
  unfold isCoordinateArray. simpl. case_bool_decide as Hk.
  - rewrite elem_of_list_to_set in Hk.
    assert (forallb (λ child : AstNode,
              if isComment child then false
              else if negb (isNumber child) then false else true) children
            = true ↔ Forall isNumber children) as ->; [|naive_solver].
    induction children as [|c l IH]; simpl.
    + split; [constructor|done].
    + rewrite andb_true_iff, IH, Forall_cons.
      destruct c; simpl; naive_solver.
  - rewrite elem_of_list_to_set in Hk. naive_solver.
Qed.

Lemma shouldInlineArray_rule k children :
  shouldInlineArray this k children = true ↔ array_inline_rule cfg k children.
Proof.
  unfold shouldInlineArray, shouldInlineArray_body, array_inline_rule.
  fold (formatInlineArray this children).
  destruct (decide (length children = 0)) as [Hlen|Hlen].
  { apply length_zero_iff_nil in Hlen. naive_solver. }
  assert (children ≠ []) as Hne by (by intros ->).
  destruct (existsb _ children) eqn:Hb.
  { split; [done|]. intros [?|[Hall _]]; [done|].
    apply blockers_false in Hall. congruence. }
  apply blockers_false in Hb.
  destruct (isCoordinateArray this k children) eqn:Hc.
  { apply isCoordinateArray_true in Hc. naive_solver. }
  assert (¬ (k ∈ coordinate_fields (formatting cfg)
             ∧ Forall isNumber children)) as Hnc.
  { rewrite <- isCoordinateArray_true. congruence. }
  simpl controlFlowFields. case_bool_decide as Hk.
  { rewrite elem_of_list_to_set in Hk. naive_solver. }
  rewrite elem_of_list_to_set in Hk.
  rewrite bool_decide_eq_true. unfold threshold. simpl config.
  naive_solver.
Qed.

Lemma nested_false (children : list (ObjectChild AstNode)) :
  existsb (λ child,
    match child with
    | OComment _ => false
    | OPair _ val => isObject val || isArray val
    end) children = false
  ↔ Forall (λ c, ¬ nested_value c) children.
Proof.
  induction children as [|c l IH]; simpl.
  - split; [constructor|done].
  - rewrite orb_false_iff, IH, Forall_cons.
    destruct c as [c|key val]; simpl; [naive_solver|].
    destruct (isObject val), (isArray val); simpl; naive_solver.
Qed.

Lemma ocomments_false (children : list (ObjectChild AstNode)) :
  existsb isOComment children = false
  ↔ Forall (λ c, ¬ isOComment c) children.
Proof.
  induction children as [|c l IH]; simpl.
  - split; [constructor|done].
  - rewrite orb_false_iff, IH, Forall_cons.
    destruct c; simpl; naive_solver.
Qed.

Lemma shouldInlineObject_rule k children :
  shouldInlineObject this k children = true
  ↔ object_inline_rule cfg k children.
Proof.
  unfold shouldInlineObject, shouldInlineObject_body, object_inline_rule.
  fold (formatInlineObject this children).
  destruct (decide (length children = 0)) as [Hlen|Hlen].
  { apply length_zero_iff_nil in Hlen. naive_solver. }
  assert (children ≠ []) as Hne by (by intros ->).
  simpl alwaysMultilineFields. case_bool_decide as Hk.
  { rewrite elem_of_list_to_set in Hk. naive_solver. }
  rewrite elem_of_list_to_set in Hk.
  destruct (existsb isOComment children) eqn:Hb.
  { split; [done|]. intros [?|(_ & Hall & _)]; [done|].
    apply ocomments_false in Hall. congruence. }
  apply ocomments_false in Hb.
  destruct (existsb _ children) eqn:Hn.
  { split; [done|]. intros [?|(_ & _ & Hall & _)]; [done|].
    apply nested_false in Hall. congruence. }
  apply nested_false in Hn.
  rewrite bool_decide_eq_true. unfold threshold. simpl config.
  naive_solver.
Qed.
End Decisions.

(** ** The claims on the layout *)

(** C3. An array renders inline exactly when the rule of the specification
    holds: it is empty, or it has no comment, object or array child and
    either its key is a coordinate field and all its children are numbers,
    or its key is no control-flow field and the inline text is no longer
    than the threshold; otherwise it renders expanded.  So a non-empty
    array under a control-flow key that is no numeric coordinate array is
    expanded whatever its length, as [next] is in the example. *)
Theorem array_inline_decision :
  (∀ (Num : JsNumber) cfg k children level,
     let this := new_MaaPipelineFormatter cfg in
     (array_inline_rule cfg k children
      ∧ formatNode this (JsonArray children) level k false
        = formatInlineArray this children)
     ∨ (¬ array_inline_rule cfg k children
        ∧ formatNode this (JsonArray children) level k false
          = expanded_array cfg level children))
  ∧ (∀ (Num : JsNumber) cfg k children level,
       children ≠ [] →
       k ∈ control_flow_fields (formatting cfg) →
       ¬ (k ∈ coordinate_fields (formatting cfg) ∧ Forall isNumber children) →
       formatNode (new_MaaPipelineFormatter cfg) (JsonArray children)
         level k false
       = expanded_array cfg level children)
  ∧ @format literal_numbers default_formatter
      (jsq "{'next': ['taskA', 'taskB']}")
    = Ok (join [LF]
            [ js "{";
              [TAB] ++ jsq "'next': [";
              [TAB; TAB] ++ jsq "'taskA',";
              [TAB; TAB] ++ jsq "'taskB'";
              [TAB] ++ js "]";
              js "}" ]).
Proof.
  split; [|split].
  - intros Num cfg k children level this.
    unfold this. rewrite formatNode_array_cases.
    destruct (shouldInlineArray _ k children) eqn:E.
    + left. split; [|done]. by apply shouldInlineArray_rule.
    + right. split; [|done]. rewrite <- shouldInlineArray_rule. congruence.
  - intros Num cfg k children level Hne Hk Hcoord.
    rewrite formatNode_array_cases.
    destruct (shouldInlineArray _ k children) eqn:E; [|done].
    apply shouldInlineArray_rule in E as [?|(_ & [?|[? _]])]; done.
  - vm_compute. reflexivity.
Qed.

(** C4. An object renders inline exactly when the rule of the
    specification holds: it is empty, or its key is no always-multiline
    field, it has no comment child, none of its values is an object or an
    array, and the inline text is no longer than the threshold; otherwise
    it renders expanded.  With the default configuration the object under
    [params] in the example is expanded although its inline text, of 8
    characters, is below the threshold of 50. *)
Theorem object_inline_decision :
  (∀ (Num : JsNumber) cfg k children level,
     let this := new_MaaPipelineFormatter cfg in
     (object_inline_rule cfg k children
      ∧ formatNode this (JsonObject children) level k false
        = formatInlineObject this children)
     ∨ (¬ object_inline_rule cfg k children
        ∧ formatNode this (JsonObject children) level k false
          = expanded_object cfg level children))
  ∧ @format literal_numbers default_formatter (jsq "{'params': {'a': 1}}")
    = Ok (join [LF]
            [ js "{";
              [TAB] ++ jsq "'params': {";
              [TAB; TAB] ++ jsq "'a': 1";
              [TAB] ++ js "}";
              js "}" ])
  ∧ formatInlineObject default_formatter object_a_1 = jsq "{'a': 1}"
  ∧ length (jsq "{'a': 1}")
    ≤ simple_array_threshold (formatting DEFAULT_CONFIG).
Proof.
  split; [|split; [|split]].
  - intros Num cfg k children level this.
    unfold this. rewrite formatNode_object_cases.
    destruct (shouldInlineObject _ k children) eqn:E.
    + left. split; [|done]. by apply shouldInlineObject_rule.
    + right. split; [|done]. rewrite <- shouldInlineObject_rule. congruence.
  - vm_compute. reflexivity.
  - vm_compute. reflexivity.
  - vm_compute. lia.
Qed.

(** C5, as amended.  The comparison with the threshold is
    less-than-or-equal.  An array or object that satisfies the other
    conditions of its inline rule renders inline when its inline text is
    exactly as long as the threshold.  When the text is one character
    longer it renders expanded, provided that the length decides: the
    container is not empty and, for an array, it is not an array of
    numbers under a coordinate key.  An empty array, an array of numbers
    under a coordinate key and an empty object render inline whatever
    the threshold is. *)
Theorem threshold_boundary (Num : JsNumber) cfg k level :
  let this := new_MaaPipelineFormatter cfg in
  let limit := simple_array_threshold (formatting cfg) in
  (∀ children,
     Forall (λ c, ¬ blocks_inline c) children →
     k ∉ control_flow_fields (formatting cfg) →
     length (formatInlineArray this children) = limit →
     formatNode this (JsonArray children) level k false
     = formatInlineArray this children)
  ∧ (∀ children,
       children ≠ [] →
       Forall (λ c, ¬ blocks_inline c) children →
       ¬ (k ∈ coordinate_fields (formatting cfg)
          ∧ Forall isNumber children) →
       k ∉ control_flow_fields (formatting cfg) →
       length (formatInlineArray this children) = S limit →
       formatNode this (JsonArray children) level k false
       = expanded_array cfg level children)
  ∧ (∀ children,
       k ∉ always_multiline_fields (formatting cfg) →
       Forall (λ c, ¬ isOComment c) children →
       Forall (λ c, ¬ nested_value c) children →
       length (formatInlineObject this children) = limit →
       formatNode this (JsonObject children) level k false
       = formatInlineObject this children)
  ∧ (∀ children,
       children ≠ [] →
       k ∉ always_multiline_fields (formatting cfg) →
       Forall (λ c, ¬ isOComment c) children →
       Forall (λ c, ¬ nested_value c) children →
       length (formatInlineObject this children) = S limit →
       formatNode this (JsonObject children) level k false
       = expanded_object cfg level children)
  ∧ (∀ children,
       children = []
       ∨ (k ∈ coordinate_fields (formatting cfg)
          ∧ Forall isNumber children) →
       formatNode this (JsonArray children) level k false
       = formatInlineArray this children)
  ∧ formatNode this (JsonObject []) level k false
    = formatInlineObject this [].
Proof.
  intros this limit. unfold this, limit. repeat split.
  - intros children Hall Hk Hlen. rewrite formatNode_array_cases.
    rewrite (proj2 (shouldInlineArray_rule cfg k children)); [done|].
    right. split; [done|]. right. split; [done|]. by rewrite Hlen.
  - intros children Hne Hall Hcoord Hk Hlen. rewrite formatNode_array_cases.
    destruct (shouldInlineArray _ k children) eqn:E; [|done].
    apply shouldInlineArray_rule in E as [?|(_ & [?|[_ Hle]])]; [done..|].
    rewrite Hlen in Hle. lia.
  - intros children Hk Hc Hn Hlen. rewrite formatNode_object_cases.
    rewrite (proj2 (shouldInlineObject_rule cfg k children)); [done|].
    right. repeat split; [done..|]. by rewrite Hlen.
  - intros children Hne Hk Hc Hn Hlen. rewrite formatNode_object_cases.
    destruct (shouldInlineObject _ k children) eqn:E; [|done].
    apply shouldInlineObject_rule in E as [?|(_ & _ & _ & Hle)]; [done|].
    rewrite Hlen in Hle. lia.
  - intros children Hcase. rewrite formatNode_array_cases.
    rewrite (proj2 (shouldInlineArray_rule cfg k children)); [done|].
    destruct Hcase as [?|[Hk Hnum]]; [by left|right].
    split; [|by left].
    eapply Forall_impl; [exact Hnum|].
    intros c Hc [?|[?|?]]; by destruct c.
Qed.

(** C6. An array or object that is not rendered inline is rendered as its
    opening delimiter, one line per child one indentation deeper, and the
    closing delimiter at the container's own indentation, the lines
    joined by line feeds.  The line of a comment child has no comma; the
    line of a value child ends in a comma unless no value child follows
    it, the comments after it being skipped. *)
Theorem comma_placement (Num : JsNumber) cfg k level :
  let this := new_MaaPipelineFormatter cfg in
  (∀ children,
     formatNode this (JsonArray children) level k false
     = if shouldInlineArray this k children
       then formatInlineArray this children
       else join [LF]
              ([js "["] ++ array_child_lines cfg level children
                 ++ [repeat_str (indentStr this) level ++ js "]"]))
  ∧ (∀ children,
       formatNode this (JsonObject children) level k false
       = if shouldInlineObject this k children
         then formatInlineObject this children
         else join [LF]
                ([js "{"] ++ object_child_lines cfg level children
                   ++ [repeat_str (indentStr this) level ++ js "}"]))
  ∧ (∀ (child : AstNode) later,
       array_child_lines cfg level (child :: later)
       = (repeat_str (indentStr this) (level + 1)
            ++ formatNode this child (level + 1) [] false
            ++ (if isComment child then []
                else if existsb (λ c, negb (isComment c)) later
                     then js "," else []))
         :: array_child_lines cfg level later)
  ∧ (∀ c key (val : AstNode) later,
       object_child_lines cfg level (OComment c :: later)
       = (repeat_str (indentStr this) (level + 1) ++ text c)
         :: object_child_lines cfg level later
       ∧ object_child_lines cfg level (OPair key val :: later)
         = (repeat_str (indentStr this) (level + 1)
              ++ JSON_stringify_string key ++ js ": "
              ++ formatNode this val (level + 1) key false
              ++ (if existsb (λ c, negb (isOComment c)) later
                  then js "," else []))
           :: object_child_lines cfg level later).
Proof.
  intros this. unfold this. repeat split.
  - intros children. apply formatNode_array_cases.
  - intros children. apply formatNode_object_cases.
Qed.

Lemma threshold_boundary_witness :
  (formatNode (new_MaaPipelineFormatter (config_with_threshold 6))
     (JsonArray array_1_2) 0 (js "x") false = js "[1, 2]"
   ∧ formatNode (new_MaaPipelineFormatter (config_with_threshold 5))
       (JsonArray array_1_2) 0 (js "x") false
     = join [LF] [js "["; [TAB] ++ js "1,"; [TAB] ++ js "2"; js "]"])
  ∧ (formatNode (new_MaaPipelineFormatter (config_with_threshold 8))
       (JsonObject object_a_1) 0 (js "x") false = jsq "{'a': 1}"
     ∧ formatNode (new_MaaPipelineFormatter (config_with_threshold 7))
         (JsonObject object_a_1) 0 (js "x") false
       = join [LF] [js "{"; [TAB] ++ jsq "'a': 1"; js "}"]).
Proof.
  pose proof (threshold_boundary literal_numbers (config_with_threshold 6)
                (js "x") 0) as (Ha6 & _ & _ & _).
  pose proof (threshold_boundary literal_numbers (config_with_threshold 5)
                (js "x") 0) as (_ & Ha5 & _ & _).
  pose proof (threshold_boundary literal_numbers (config_with_threshold 8)
                (js "x") 0) as (_ & _ & Ho8 & _).
  pose proof (threshold_boundary literal_numbers (config_with_threshold 7)
                (js "x") 0) as (_ & _ & _ & Ho7 & _).
  split; split.
  - rewrite (Ha6 array_1_2); [reflexivity| | |reflexivity].
    + repeat constructor; unfold blocks_inline; simpl; tauto.
    + vm_compute. set_solver.
  - rewrite (Ha5 array_1_2); [reflexivity|discriminate| | | |reflexivity].
    + repeat constructor; unfold blocks_inline; simpl; tauto.
    + intros [Hk _]. revert Hk. vm_compute. set_solver.
    + vm_compute. set_solver.
  - rewrite (Ho8 object_a_1); [reflexivity| | | |reflexivity].
    + vm_compute. set_solver.
    + repeat constructor; simpl; tauto.
    + repeat constructor; simpl; tauto.
  - rewrite (Ho7 object_a_1); [reflexivity|discriminate| | | |reflexivity].
    + vm_compute. set_solver.
    + repeat constructor; simpl; tauto.
    + repeat constructor; simpl; tauto.
Defined.

(** C5, counterexamples: the array of numbers [[1, 2]] under the
    coordinate key [roi], whose inline text has six characters, renders
    inline with the threshold five; the empty array and the empty
    object, of two characters, render inline with the threshold one. *)
Lemma threshold_not_decisive :
  (length (formatInlineArray
             (new_MaaPipelineFormatter (config_with_threshold 5)) array_1_2)
   = 6
   ∧ formatNode (new_MaaPipelineFormatter (config_with_threshold 5))
       (JsonArray array_1_2) 0 (js "roi") false
     = js "[1, 2]"
   ∧ @format literal_numbers
       (new_MaaPipelineFormatter (config_with_threshold 5))
       (jsq "{'roi': [1, 2]}")
     = Ok (js "{" ++ [LF; TAB] ++ jsq "'roi': [1, 2]" ++ [LF] ++ js "}"))
  ∧ (length (formatInlineArray
               (new_MaaPipelineFormatter (config_with_threshold 1))
               ([] : list (@AstNode literal_numbers)))
     = 2
     ∧ formatNode (new_MaaPipelineFormatter (config_with_threshold 1))
         (JsonArray ([] : list (@AstNode literal_numbers))) 0 (js "x") false
       = js "[]")
  ∧ (length (formatInlineObject
               (new_MaaPipelineFormatter (config_with_threshold 1))
               ([] : list (ObjectChild (@AstNode literal_numbers))))
     = 2
     ∧ formatNode (new_MaaPipelineFormatter (config_with_threshold 1))
         (@JsonObject literal_numbers []) 0 (js "x") false
       = js "{}").
Proof. repeat split; vm_compute; reflexivity. Qed.

(** ** The patterns of the tokenizer *)

(** Turns the boolean tests on characters among the hypotheses into
    equations and inequalities. *)
Ltac char_tests :=
  repeat match goal with
  | H : (_ || _) = true |- _ => apply orb_true_iff in H as [H|H]
  | H : (_ || _) = false |- _ => apply orb_false_iff in H as [? ?]
  | H : (_ && _) = true |- _ => apply andb_true_iff in H as [? ?]
  | H : (_ && _) = false |- _ => apply andb_false_iff in H as [H|H]
  | H : negb _ = true |- _ => apply negb_true_iff in H
  | H : negb _ = false |- _ => apply negb_false_iff in H
  | H : (_ =? _)%N = true |- _ => apply N.eqb_eq in H
  | H : (_ =? _)%N = false |- _ => apply N.eqb_neq in H
  | H : (_ <=? _)%N = true |- _ => apply N.leb_le in H
  | H : (_ <=? _)%N = false |- _ => apply N.leb_gt in H
  | H : (_ <? _)%N = true |- _ => apply N.ltb_lt in H
  | H : (_ <? _)%N = false |- _ => apply N.ltb_ge in H
  end.

Lemma span_app p l a b : span p l = (a, b) → l = a ++ b.
Proof.
  revert a b. induction l as [|c l IH]; intros a b; simpl.
  - by intros [= <- <-].
  - destruct (p c); [|by intros [= <- <-]].
    destruct (span p l) as [a' b']. intros [= <- <-].
    by rewrite (IH a' b').
Qed.

Lemma span_Forall (p : N → bool) l a b : span p l = (a, b) → Forall (λ c, p c) a.
Proof.
  revert a b. induction l as [|c l IH]; intros a b; simpl.
  - intros [= <- <-]. constructor.
  - destruct (p c) eqn:Hc; [|intros [= <- <-]; constructor].
    destruct (span p l) as [a' b']. intros [= <- <-].
    constructor; [by rewrite Hc|]. by eapply IH.
Qed.

Lemma span_stops p l a b : span p l = (a, b) → stops p b.
Proof.
  revert a b. induction l as [|c l IH]; intros a b; simpl.
  - by intros [= <- <-].
  - destruct (p c) eqn:Hc; [|by intros [= <- <-]].
    destruct (span p l) as [a' b']. intros [= <- <-]. by eapply IH.
Qed.

Lemma span_exact (p : N → bool) a b :
  Forall (λ c, p c) a → stops p b → span p (a ++ b) = (a, b).
Proof.
  intros Ha Hb. induction Ha as [|c a Hc Ha IH]; simpl.
  - destruct b as [|d b]; [done|]. simpl in *. by rewrite Hb.
  - apply Is_true_true in Hc. by rewrite Hc, IH.
Qed.

Lemma digits1_spec s ds rest :
  digits1 s = Some (ds, rest) →
  s = ds ++ rest ∧ digit_run ds ∧ stops is_digit rest.
Proof.
  unfold digits1. destruct (span is_digit s) as [a b] eqn:E.
  destruct a as [|c a]; [done|]. intros [= <- <-].
  split; [by apply (span_app is_digit)|].
  split; [|by eapply span_stops].
  split; [done|]. by eapply span_Forall.
Qed.

Lemma digits1_exact ds rest :
  digit_run ds → stops is_digit rest → digits1 (ds ++ rest) = Some (ds, rest).
Proof.
  intros [Hne Hds] Hrest. unfold digits1.
  rewrite span_exact by done. by destruct ds.
Qed.

Lemma digits1_none s : stops is_digit s → digits1 s = None.
Proof.
  unfold digits1. destruct s as [|c s]; [done|]. simpl. by intros ->.
Qed.

Lemma opt_minus_spec s sign rest :
  opt_minus s = (sign, rest) → s = sign ++ rest ∧ json_sign sign.
Proof.
  unfold opt_minus, json_sign. destruct s as [|c s].
  - intros [= <- <-]. auto.
  - destruct (N.eqb_spec c 45) as [->|?]; intros [= <- <-]; auto.
Qed.

Lemma int_part_spec s i rest :
  int_part s = Some (i, rest) → s = i ++ rest ∧ json_int i.
Proof.
  unfold int_part, json_int. destruct s as [|c s]; [done|].
  destruct (N.eqb_spec c 48) as [->|?].
  { intros [= <- <-]. auto. }
  destruct (N.leb_spec 49 c) as [H1|?]; [|done].
  destruct (N.leb_spec c 57) as [H2|?]; [|done]. simpl.
  destruct (span is_digit s) as [ds r] eqn:E. intros [= <- <-].
  split; [by rewrite (span_app _ _ _ _ E)|].
  right. exists c, ds. split; [done|].
  split; [lia|]. by eapply span_Forall.
Qed.

Lemma opt_fraction_spec s f rest :
  opt_fraction s = (f, rest) → s = f ++ rest ∧ json_frac f.
Proof.
  unfold opt_fraction, json_frac. destruct s as [|c s].
  { intros [= <- <-]. auto. }
  destruct (N.eqb_spec c 46) as [->|?]; [|intros [= <- <-]; auto].
  destruct (digits1 s) as [[ds r]|] eqn:E; [|intros [= <- <-]; auto].
  apply digits1_spec in E as (-> & Hds & _). intros [= <- <-].
  split; [done|]. right. by exists ds.
Qed.

Lemma opt_exponent_spec s e rest :
  opt_exponent s = (e, rest) → s = e ++ rest ∧ json_exp e.
Proof.
  unfold opt_exponent, json_exp. destruct s as [|c s].
  { intros [= <- <-]. auto. }
  destruct ((c =? 101) || (c =? 69))%N eqn:Hc; [|intros [= <- <-]; auto].
  assert (c = 101 ∨ c = 69)%N as Hc' by (char_tests; auto). clear Hc.
  set (sg := match s with
             | d :: s2 => if ((d =? 43) || (d =? 45))%N then ([d], s2)
                          else ([], s)
             | [] => ([], s)
             end).
  assert (s = sg.1 ++ sg.2
          ∧ (sg.1 = [] ∨ sg.1 = js "+" ∨ sg.1 = js "-")) as [Hs Hsg].
  { unfold sg. destruct s as [|d s2]; [auto|].
    destruct (N.eqb_spec d 43) as [->|?]; [simpl; auto|].
    destruct (N.eqb_spec d 45) as [->|?]; simpl; auto. }
  destruct sg as [sign s2]. simpl in *.
  destruct (digits1 s2) as [[ds r]|] eqn:E; [|intros [= <- <-]; auto].
  apply digits1_spec in E as (-> & Hds & _). intros [= <- <-].
  split.
  { rewrite Hs. simpl. by rewrite <- (assoc_L (++)). }
  right. by exists c, sign, ds.
Qed.

Lemma NUMBER_regex_sound text v rest :
  NUMBER_regex text = Some (v, rest) → text = v ++ rest ∧ json_number v.
Proof.
  unfold NUMBER_regex.
  destruct (opt_minus text) as [sign s1] eqn:E1.
  destruct (int_part s1) as [[i s2]|] eqn:E2; [|done]. simpl.
  destruct (opt_fraction s2) as [f s3] eqn:E3.
  destruct (opt_exponent s3) as [e s4] eqn:E4.
  intros [= <- <-].
  apply opt_minus_spec in E1 as [-> ?]. apply int_part_spec in E2 as [-> ?].
  apply opt_fraction_spec in E3 as [-> ?].
  apply opt_exponent_spec in E4 as [-> ?].
  split; [by rewrite <- !(assoc_L (++))|]. by exists sign, i, f, e.
Qed.

Arguments digits1 : simpl never.

Lemma number_follow_stops rest : number_follow rest → stops is_digit rest.
Proof. destruct rest; [done|]. by intros [? _]. Qed.

Lemma opt_exponent_exact e rest :
  json_exp e → number_follow rest → opt_exponent (e ++ rest) = (e, rest).
Proof.
  intros [->|(c & sign & ds & -> & Hc & Hsign & Hds)] Hrest.
  - destruct rest as [|c rest]; [done|]. simpl in *.
    destruct Hrest as (_ & _ & ? & ?).
    destruct (N.eqb_spec c 101); [done|]. by destruct (N.eqb_spec c 69).
  - assert (((c =? 101) || (c =? 69))%N = true) as Hc'.
    { destruct Hc as [-> | ->]; done. }
    pose proof Hds as [Hne Hall].
    destruct ds as [|d ds]; [done|]. apply Forall_cons in Hall as [Hd _].
    assert (d ≠ 43 ∧ d ≠ 45)%N as [??].
    { unfold is_digit in Hd. apply Is_true_true in Hd. clear Hc'.
      char_tests; lia. }
    pose proof (digits1_exact (d :: ds) rest Hds
                  (number_follow_stops rest Hrest)) as E.
    simpl in E. simpl. rewrite Hc'.
    destruct Hsign as [->|[->| ->]]; simpl.
    + destruct (N.eqb_spec d 43); [done|]. destruct (N.eqb_spec d 45); [done|].
      simpl. by rewrite E.
    + by rewrite E.
    + by rewrite E.
Qed.

(** The first character of an exponent, when there is one, is an exponent
    letter. *)
Lemma json_exp_follow e rest :
  json_exp e → number_follow rest →
  match e ++ rest with
  | [] => True
  | c :: _ => is_digit c = false ∧ c ≠ 46%N
  end.
Proof.
  intros [->|(c & sign & ds & -> & Hc & _)] Hrest.
  - destruct rest; [done|]. simpl in *. tauto.
  - simpl. destruct Hc as [-> | ->]; done.
Qed.

Lemma opt_fraction_exact f rest :
  json_frac f →
  match rest with
  | [] => True
  | c :: _ => is_digit c = false ∧ c ≠ 46%N
  end →
  opt_fraction (f ++ rest) = (f, rest).
Proof.
  intros [->|(ds & -> & Hds)] Hrest.
  - destruct rest as [|c rest]; [done|]. simpl in *.
    destruct Hrest as [_ ?]. by destruct (N.eqb_spec c 46).
  - simpl. rewrite (digits1_exact ds rest); [done|done|].
    destruct rest; [done|]. simpl. tauto.
Qed.

Lemma json_frac_follow f rest :
  json_frac f →
  match rest with
  | [] => True
  | c :: _ => is_digit c = false ∧ c ≠ 46%N
  end →
  stops is_digit (f ++ rest).
Proof.
  intros [->|(ds & -> & Hds)] Hrest.
  - destruct rest; [done|]. simpl in *. tauto.
  - done.
Qed.

Lemma int_part_exact i rest :
  json_int i → stops is_digit rest → int_part (i ++ rest) = Some (i, rest).
Proof.
  intros [->|(d & ds & -> & Hd & Hds)] Hrest; [done|].
  simpl. destruct (N.eqb_spec d 48); [lia|].
  destruct (N.leb_spec 49 d); [|lia]. destruct (N.leb_spec d 57); [|lia].
  simpl. by rewrite span_exact.
Qed.

Lemma json_int_first i rest :
  json_int i → ∃ d r, i ++ rest = d :: r ∧ d ≠ 45%N.
Proof.
  intros [->|(d & ds & -> & Hd & Hds)].
  - by exists 48%N, rest.
  - exists d, (ds ++ rest). split; [done|lia].
Qed.

Lemma opt_minus_exact sign rest :
  json_sign sign →
  (∃ d r, rest = d :: r ∧ d ≠ 45%N) →
  opt_minus (sign ++ rest) = (sign, rest).
Proof.
  intros [-> | ->] (d & r & -> & Hd); simpl; [|done].
  by destruct (N.eqb_spec d 45).
Qed.

Lemma NUMBER_regex_complete s rest :
  json_number s → number_follow rest →
  NUMBER_regex (s ++ rest) = Some (s, rest).
Proof.
  intros (sign & i & f & e & -> & Hsign & Hi & Hf & He) Hrest.
  unfold NUMBER_regex. rewrite <- !(assoc_L (++)).
  rewrite (opt_minus_exact sign) by (done || by apply json_int_first).
  rewrite (int_part_exact i)
    by (done || by apply json_frac_follow, json_exp_follow).
  simpl.
  rewrite (opt_fraction_exact f) by (done || by apply json_exp_follow).
  by rewrite (opt_exponent_exact e).
Qed.

Lemma number_literal_json s : number_literal s = true ↔ json_number s.
Proof.
  unfold number_literal. split.
  - destruct (NUMBER_regex s) as [[v rest]|] eqn:E; [|done].
    destruct rest; [|done]. intros _.
    apply NUMBER_regex_sound in E as [-> ?]. by rewrite app_nil_r.
  - intros Hs. pose proof (NUMBER_regex_complete s [] Hs I) as E.
    rewrite app_nil_r in E. by rewrite E.
Qed.

(** ** Every pattern matches a non-empty prefix of the text *)

(** Induction on the length of a list. *)
Lemma length_ind {A : Type} (P : list A → Prop) :
  (∀ l, (∀ l', length l' < length l → P l') → P l) → ∀ l, P l.
Proof.
  intros Hstep l. remember (length l) as n eqn:Hn. revert l Hn.
  induction n as [n IH] using lt_wf_ind. intros l ->.
  apply Hstep. intros l' Hl'. by apply (IH (length l')).
Qed.

Lemma block_comment_end_app s body rest :
  block_comment_end s = Some (body, rest) → s = body ++ rest ∧ body ≠ [].
Proof.
  revert body rest. induction s as [|c s IH]; intros body rest; [done|].
  simpl.
  assert (('(body, rest) ← block_comment_end s; Some (c :: body, rest))
          = Some (body, rest) → c :: s = body ++ rest ∧ body ≠ []) as Hcont.
  { destruct (block_comment_end s) as [[b r]|]; [|done]. simpl.
    intros [= <- <-]. by destruct (IH b r eq_refl) as [-> _]. }
  destruct (c =? 42)%N; [|done].
  destruct s as [|d s]; [done|].
  destruct (d =? 47)%N; [|done]. by intros [= <- <-].
Qed.

Lemma COMMENT_regex_app text v rest :
  COMMENT_regex text = Some (v, rest) → text = v ++ rest ∧ v ≠ [].
Proof.
  unfold COMMENT_regex. destruct text as [|c [|d s]]; [done..|].
  destruct ((c =? 47) && (d =? 47))%N.
  { destruct (span _ s) as [body r] eqn:E. intros [= <- <-].
    by rewrite (span_app _ _ _ _ E). }
  destruct ((c =? 47) && (d =? 42))%N; [|done].
  destruct (block_comment_end s) as [[body r]|] eqn:E; [|done]. simpl.
  intros [= <- <-]. by apply block_comment_end_app in E as [-> _].
Qed.

Lemma string_tail_app s body rest :
  string_tail s = Some (body, rest) → s = body ++ rest ∧ body ≠ [].
Proof.
  revert body rest.
  induction s as [s IH] using length_ind.
  intros body rest. destruct s as [|c s]; [done|]. simpl.
  destruct (if (c =? 92)%N then _ else _) as [[b r]|] eqn:E1.
  { intros [= <- <-]. destruct (c =? 92)%N; [|done].
    destruct s as [|d s2]; [done|]. destruct (is_line_terminator d); [done|].
    destruct (string_tail s2) as [[b' r']|] eqn:E2; [|done]. simpl in E1.
    injection E1 as <- <-.
    apply IH in E2 as [-> _]; [done|simpl; lia]. }
  destruct (if (c =? 34)%N then _ else _) as [[b r]|] eqn:E2.
  { intros [= <- <-]. destruct (c =? 34)%N; [done|].
    destruct (string_tail s) as [[b' r']|] eqn:E3; [|done]. simpl in E2.
    injection E2 as <- <-.
    apply IH in E3 as [-> _]; [done|simpl; lia]. }
  destruct (c =? 34)%N; [|done]. by intros [= <- <-].
Qed.

Lemma STRING_regex_app text v rest :
  STRING_regex text = Some (v, rest) → text = v ++ rest ∧ v ≠ [].
Proof.
  unfold STRING_regex. destruct text as [|c s]; [done|].
  destruct (c =? 34)%N; [|done].
  destruct (string_tail s) as [[b r]|] eqn:E; [|done]. simpl.
  intros [= <- <-]. by apply string_tail_app in E as [-> _].
Qed.

Lemma NUMBER_regex_app text v rest :
  NUMBER_regex text = Some (v, rest) → text = v ++ rest ∧ v ≠ [].
Proof.
  intros E. apply NUMBER_regex_sound in E as [-> Hv]. split; [done|].
  destruct Hv as (sign & i & f & e & -> & _ & Hi & _).
  destruct Hi as [->|(d & ds & -> & _)]; by destruct sign.
Qed.

Lemma literal_spec word text m rest :
  literal word text = Some (m, rest) → m = word ∧ text = word ++ rest.
Proof.
  revert text m. induction word as [|w word IH]; intros text m; simpl.
  - by intros [= <- <-].
  - destruct text as [|c text]; [done|].
    destruct (N.eqb_spec c w) as [->|?]; [|done].
    destruct (literal word text) as [[m' r]|] eqn:E; [|done]. simpl.
    intros [= <- <-]. by apply IH in E as [-> ->].
Qed.

Lemma literal_exact word rest : literal word (word ++ rest) = Some (word, rest).
Proof.
  induction word as [|w word IH]; simpl; [done|].
  by rewrite N.eqb_refl, IH.
Qed.

Lemma BOOLEAN_regex_app text v rest :
  BOOLEAN_regex text = Some (v, rest) → text = v ++ rest ∧ v ≠ [].
Proof.
  unfold BOOLEAN_regex.
  destruct (literal (js "true") text) as [[m r]|] eqn:E.
  - intros [= <- <-]. by apply literal_spec in E as [-> ->].
  - intros E'. by apply literal_spec in E' as [-> ->].
Qed.

Lemma WHITESPACE_regex_app text v rest :
  WHITESPACE_regex text = Some (v, rest) → text = v ++ rest ∧ v ≠ [].
Proof.
  unfold WHITESPACE_regex. destruct (span is_space text) as [ws r] eqn:E.
  destruct ws as [|c ws]; [done|]. intros [= <- <-].
  by rewrite (span_app _ _ _ _ E).
Qed.

Lemma first_match_app text ty v rest :
  first_match PATTERNS text = Some (ty, v, rest) → text = v ++ rest ∧ v ≠ [].
Proof.
  unfold PATTERNS, first_match.
  destruct (COMMENT_regex text) as [[v' r]|] eqn:E;
    [intros [= <- <- <-]; by apply COMMENT_regex_app|].
  destruct (STRING_regex text) as [[v' r]|] eqn:E1;
    [intros [= <- <- <-]; by apply STRING_regex_app|].
  destruct (NUMBER_regex text) as [[v' r]|] eqn:E2;
    [intros [= <- <- <-]; by apply NUMBER_regex_app|].
  destruct (BOOLEAN_regex text) as [[v' r]|] eqn:E3;
    [intros [= <- <- <-]; by apply BOOLEAN_regex_app|].
  unfold NULL_regex.
  repeat (match goal with
          | |- context [literal ?w text] =>
              destruct (literal w text) as [[v' r]|] eqn:?;
              [intros [= <- <- <-];
               match goal with
               | H : literal _ _ = Some _ |- _ =>
                   by apply literal_spec in H as [-> ->]
               end|]
          end).
  destruct (WHITESPACE_regex text) as [[v' r]|] eqn:E4; [|done].
  intros [= <- <- <-]. by apply WHITESPACE_regex_app.
Qed.

(** ** The tokenizer never runs out of fuel *)

Arguments first_match : simpl never.

Lemma tokenize_loop_fuel fuel text line :
  length text ≤ fuel →
  tokenize_loop fuel text line = tokenize_from text line.
Proof.
  unfold tokenize_from. revert text line.
  induction fuel as [fuel IH] using lt_wf_ind. intros text line Hlen.
  destruct text as [|c text]; [by destruct fuel|].
  destruct fuel as [|fuel]; [simpl in Hlen; lia|].
  simpl in *.
  destruct (first_match PATTERNS (c :: text)) as [[[ty v] rest]|] eqn:E;
    [|done].
  apply first_match_app in E as [E Hv].
  assert (length rest ≤ length text) as Hrest.
  { apply (f_equal length) in E. rewrite length_app in E. simpl in E.
    destruct v; [done|]. simpl in E. lia. }
  rewrite (IH fuel) by lia.
  rewrite (IH (length text)) by lia. done.
Qed.

Lemma tokenize_from_nil line : tokenize_from [] line = Ok [].
Proof. done. Qed.

(** The loop of the tokenizer, one iteration unfolded. *)
Lemma tokenize_from_cons c text line :
  tokenize_from (c :: text) line
  = match first_match PATTERNS (c :: text) with
    | Some (ty, v, rest) =>
        tokens ← tokenize_from rest (line + count_newlines v);
        Ok (if decide (ty ≠ WHITESPACE)
            then mkToken ty v line :: tokens else tokens)
    | None =>
        Throw (Error (js "Unexpected character at line "
                      ++ nat_to_string line ++ js ": " ++ [c]))
    end.
Proof.
  unfold tokenize_from at 1. simpl.
  destruct (first_match PATTERNS (c :: text)) as [[[ty v] rest]|] eqn:E;
    [|done].
  apply first_match_app in E as [E Hv].
  rewrite tokenize_loop_fuel; [done|].
  apply (f_equal length) in E. rewrite length_app in E. simpl in E.
  destruct v; [done|]. simpl in E. lia.
Qed.

Lemma tokenize_from_total text line : tokenize_from text line ≠ OutOfFuel.
Proof.
  revert line. induction text as [text IH] using length_ind.
  intros line. destruct text as [|c text]; [done|].
  rewrite tokenize_from_cons.
  destruct (first_match PATTERNS (c :: text)) as [[[ty v] rest]|] eqn:E;
    [|done].
  apply first_match_app in E as [E Hv].
  assert (length rest < length (c :: text)) as Hrest.
  { apply (f_equal length) in E. rewrite length_app in E.
    destruct v; [done|]. simpl in *. lia. }
  specialize (IH rest Hrest (line + count_newlines v)).
  destruct (tokenize_from rest _); done.
Qed.

(** ** The claim on numeric literals *)

Lemma first_match_plus rest : first_match PATTERNS (js "+" ++ rest) = None.
Proof.
  change (js "+" ++ rest) with (43%N :: rest).
  unfold PATTERNS, first_match.
  assert (COMMENT_regex (43%N :: rest) = None) as -> by (by destruct rest).
  reflexivity.
Qed.

Lemma first_match_zero_digit d rest :
  is_digit d →
  first_match PATTERNS (js "0" ++ d :: rest)
  = Some (NUMBER, js "0", d :: rest).
Proof.
  intros Hd. change (js "0" ++ d :: rest) with (48%N :: d :: rest).
  unfold PATTERNS, first_match.
  assert (COMMENT_regex (48%N :: d :: rest) = None) as -> by done.
  assert (STRING_regex (48%N :: d :: rest) = None) as -> by done.
  assert (NUMBER_regex (48%N :: d :: rest) = Some (js "0", d :: rest))
    as ->; [|done].
  unfold NUMBER_regex. cbn -[opt_fraction opt_exponent].
  unfold is_digit in Hd. apply Is_true_true in Hd.
  assert (d ≠ 46 ∧ d ≠ 101 ∧ d ≠ 69)%N as (? & ? & ?) by (char_tests; lia).
  unfold opt_fraction, opt_exponent.
  destruct (N.eqb_spec d 46); [done|].
  destruct (N.eqb_spec d 101); [done|]. by destruct (N.eqb_spec d 69).
Qed.

(** C8, as amended.  The number pattern matches the number grammar of
    JSON and nothing else: what it matches at the cursor is a JSON number,
    and a JSON number at the cursor is matched whole when the text after
    it cannot continue a number.  A plus sign at the cursor is rejected
    with the error for an unexpected character.  A zero followed by a
    digit is not rejected: the zero is a number token and the tokenizer
    goes on with the digit. *)
Theorem number_pattern_strictness :
  (∀ text v rest,
     NUMBER_regex text = Some (v, rest) → text = v ++ rest ∧ json_number v)
  ∧ (∀ s rest,
       json_number s → number_follow rest →
       NUMBER_regex (s ++ rest) = Some (s, rest))
  ∧ (∀ rest line,
       tokenize_from (js "+" ++ rest) line
       = Throw (Error (js "Unexpected character at line "
                       ++ nat_to_string line ++ js ": +")))
  ∧ (∀ d rest line,
       is_digit d →
       tokenize_from (js "0" ++ d :: rest) line
       = tokens ← tokenize_from (d :: rest) line;
         Ok (mkToken NUMBER (js "0") line :: tokens)).
Proof.
  split; [exact NUMBER_regex_sound|].
  split; [exact NUMBER_regex_complete|].
  split.
  - intros rest line. change (js "+" ++ rest) with (43%N :: rest).
    rewrite tokenize_from_cons.
    change (43%N :: rest) with (js "+" ++ rest).
    by rewrite first_match_plus.
  - intros d rest line Hd. change (js "0" ++ d :: rest) with (48%N :: d :: rest).
    rewrite tokenize_from_cons.
    change (48%N :: d :: rest) with (js "0" ++ d :: rest).
    rewrite first_match_zero_digit by done.
    change (count_newlines (js "0")) with 0. by rewrite Nat.add_0_r.
Qed.

(** C8, counterexample: the spelling [01] is not rejected; it is read as
    the two number tokens [0] and [1]. *)
Lemma leading_zero_accepted :
  tokenize (js "01")
  = Ok [mkToken NUMBER (js "0") 1; mkToken NUMBER (js "1") 1].
Proof. vm_compute. reflexivity. Qed.

(** ** The parser: one step of each function *)

Section ParserSteps.
Context `{JsNumber}.

Lemma parseObject_step fuel children token rest :
  parseObject (S fuel) children (token :: rest)
  = if decide (type token = RBRACE) then Ok (JsonObject children, rest)
    else if decide (type token = COMMENT) then
      parseObject fuel (children ++ [OComment (comment_of token)]) rest
    else if decide (type token = COMMA) then parseObject fuel children rest
    else if decide (type token = STRING) then
      keyStr ← JSON_parse (value token);
      let '(cs1, rest) := parseComments [] rest in
      '(_, rest) ← consume (Some COLON) rest;
      let '(cs2, rest) := parseComments [] rest in
      '(v, rest) ← parseValue fuel rest;
      parseObject fuel
        (children ++ map OComment cs1 ++ map OComment cs2 ++ [OPair keyStr v])
        rest
    else Throw (Error (js "Expected string key or comment in object, got "
                       ++ value token)).
Proof.
  simpl. repeat case_decide; try done.
  unfold parseComment, consume. by case_decide.
Qed.

Lemma parseArray_step fuel children token rest :
  parseArray (S fuel) children (token :: rest)
  = if decide (type token = RBRACKET) then Ok (JsonArray children, rest)
    else if decide (type token = COMMENT) then
      parseArray fuel (children ++ [Comment (comment_of token)]) rest
    else if decide (type token = COMMA) then parseArray fuel children rest
    else
      '(v, rest) ← parseValue fuel (token :: rest);
      parseArray fuel (children ++ [v]) rest.
Proof.
  simpl. repeat case_decide; try done.
  unfold parseComment, consume. by case_decide.
Qed.

Lemma parseValue_step fuel token rest :
  parseValue (S fuel) (token :: rest)
  = match type token with
    | LBRACE => parseObject fuel [] rest
    | LBRACKET => parseArray fuel [] rest
    | STRING =>
        s ← JSON_parse (value token); Ok (JsonString s (value token), rest)
    | NUMBER =>
        Ok (JsonNumber (parseFloat (value token)) (value token), rest)
    | BOOLEAN =>
        Ok (JsonBoolean (bool_decide (value token = js "true")) (value token),
            rest)
    | NULL => Ok (JsonNull (value token), rest)
    | COMMENT => Ok (Comment (comment_of token), rest)
    | _ => Throw (Error (js "Unexpected token " ++ value token
                         ++ js " at line " ++ nat_to_string (line token)))
    end.
Proof.
  simpl. unfold parseComment, consume.
  destruct (type token) eqn:E; try done; by case_decide.
Qed.

Lemma parseComments_length comments tokens cs rest :
  parseComments comments tokens = (cs, rest) → length rest ≤ length tokens.
Proof.
  revert comments. induction tokens as [|t ts IH]; intros comments; simpl.
  - by intros [= <- <-].
  - case_decide; [|by intros [= <- <-]].
    intros E. apply IH in E. lia.
Qed.

Lemma consume_Ok expected tokens t rest :
  consume expected tokens = Ok (t, rest) → tokens = t :: rest.
Proof.
  unfold consume. destruct tokens as [|t' ts]; [done|].
  destruct expected as [ty|]; [case_decide; [done|]|]; by intros [= <- <-].
Qed.

(** Splits the goal on the outcome of the computation that a bind of the
    goal or of the hypothesis [H] runs first. *)
Ltac bind_cases H :=
  match type of H with
  | context [mbind _ ?r] =>
      let E := fresh "E" in
      destruct r as [[? ?]| |] eqn:E; simpl in H; try done
  end.

Lemma parse_shortens fuel :
  (∀ tokens node rest,
     parseValue fuel tokens = Ok (node, rest) → length rest < length tokens)
  ∧ (∀ children tokens node rest,
       parseObject fuel children tokens = Ok (node, rest) →
       length rest < length tokens)
  ∧ (∀ children tokens node rest,
       parseArray fuel children tokens = Ok (node, rest) →
       length rest < length tokens).
Proof.
  induction fuel as [|fuel (IHv & IHo & IHa)]; [done|].
  split; [|split].
  - intros [|token tokens] node rest; [done|].
    rewrite parseValue_step. destruct (type token).
    + intros E%IHo. simpl. lia.
    + done.
    + intros E%IHa. simpl. lia.
    + done.
    + done.
    + done.
    + destruct (JSON_parse (value token)); simpl; [|done..].
      intros [= <- <-]. simpl. lia.
    + intros [= <- <-]. simpl. lia.
    + intros [= <- <-]. simpl. lia.
    + intros [= <- <-]. simpl. lia.
    + intros [= <- <-]. simpl. lia.
    + done.
  - intros children [|token tokens] node rest; [done|].
    rewrite parseObject_step. repeat case_decide.
    + intros [= <- <-]. simpl. lia.
    + intros E%IHo. simpl. lia.
    + intros E%IHo. simpl. lia.
    + destruct (JSON_parse (value token)); simpl; [|done..].
      destruct (parseComments [] tokens) as [cs1 r1] eqn:E1.
      apply parseComments_length in E1.
      destruct (consume (Some COLON) r1) as [[t r2]| |] eqn:E2; simpl;
        [|done..].
      apply consume_Ok in E2 as ->.
      destruct (parseComments [] r2) as [cs2 r3] eqn:E3.
      apply parseComments_length in E3.
      destruct (parseValue fuel r3) as [[v r4]| |] eqn:E4; simpl; [|done..].
      apply IHv in E4. intros E5%IHo. simpl in *. lia.
    + done.
  - intros children [|token tokens] node rest; [done|].
    rewrite parseArray_step. repeat case_decide.
    + intros [= <- <-]. simpl. lia.
    + intros E%IHa. simpl. lia.
    + intros E%IHa. simpl. lia.
    + destruct (parseValue fuel (token :: tokens)) as [[v r]| |] eqn:E;
        simpl; [|done..].
      apply IHv in E. intros E'%IHa. simpl in *. lia.
Qed.

Lemma parse_fuel_mono fuel :
  (∀ tokens r fuel',
     parseValue fuel tokens = r → r ≠ OutOfFuel → fuel ≤ fuel' →
     parseValue fuel' tokens = r)
  ∧ (∀ children tokens r fuel',
       parseObject fuel children tokens = r → r ≠ OutOfFuel → fuel ≤ fuel' →
       parseObject fuel' children tokens = r)
  ∧ (∀ children tokens r fuel',
       parseArray fuel children tokens = r → r ≠ OutOfFuel → fuel ≤ fuel' →
       parseArray fuel' children tokens = r).
Proof.
  induction fuel as [|fuel (IHv & IHo & IHa)].
  { repeat split; intros; simpl in *; congruence. }
  split; [|split].
  - intros tokens r [|fuel'] <- Hr Hle; [lia|].
    destruct tokens as [|token tokens]; [done|].
    rewrite parseValue_step in Hr. rewrite !parseValue_step.
    destruct (type token); try done.
    + apply IHo; [done|done|lia].
    + apply IHa; [done|done|lia].
  - intros children tokens r [|fuel'] <- Hr Hle; [lia|].
    destruct tokens as [|token tokens]; [done|].
    rewrite parseObject_step in Hr. rewrite !parseObject_step.
    repeat case_decide; try done.
    + apply IHo; [done|done|lia].
    + apply IHo; [done|done|lia].
    + destruct (JSON_parse (value token)); simpl in *; [|done..].
      destruct (parseComments [] tokens) as [cs1 r1].
      destruct (consume (Some COLON) r1) as [[t r2]| |]; simpl in *; [|done..].
      destruct (parseComments [] r2) as [cs2 r3].
      destruct (parseValue fuel r3) as [[v r4]| |] eqn:E4; simpl in *.
      * rewrite (IHv r3 _ fuel' E4) by (done || lia). simpl.
        apply IHo; [done|done|lia].
      * by rewrite (IHv r3 _ fuel' E4) by (done || lia).
      * done.
  - intros children tokens r [|fuel'] <- Hr Hle; [lia|].
    destruct tokens as [|token tokens]; [done|].
    rewrite parseArray_step in Hr. rewrite !parseArray_step.
    repeat case_decide; try done.
    + apply IHa; [done|done|lia].
    + apply IHa; [done|done|lia].
    + destruct (parseValue fuel (token :: tokens)) as [[v r4]| |] eqn:E4;
        simpl in *.
      * rewrite (IHv _ _ fuel' E4) by (done || lia). simpl.
        apply IHa; [done|done|lia].
      * by rewrite (IHv _ _ fuel' E4) by (done || lia).
      * done.
Qed.

Lemma parse_total fuel :
  (∀ tokens, 2 * length tokens < fuel → parseValue fuel tokens ≠ OutOfFuel)
  ∧ (∀ children tokens,
       2 * length tokens + 1 < fuel →
       parseObject fuel children tokens ≠ OutOfFuel)
  ∧ (∀ children tokens,
       2 * length tokens + 1 < fuel →
       parseArray fuel children tokens ≠ OutOfFuel).
Proof.
  induction fuel as [|fuel (IHv & IHo & IHa)].
  { repeat split; intros; lia. }
  split; [|split].
  - intros [|token tokens] Hlen; [done|].
    rewrite parseValue_step. simpl in Hlen.
    destruct (type token); try done.
    + apply IHo. lia.
    + apply IHa. lia.
    + unfold JSON_parse. by destruct (JSON_parse_string (value token)).
  - intros children [|token tokens] Hlen; [done|].
    rewrite parseObject_step. simpl in Hlen.
    repeat case_decide; try done.
    + apply IHo. lia.
    + apply IHo. lia.
    + unfold JSON_parse.
      destruct (JSON_parse_string (value token)); simpl; [|done].
      destruct (parseComments [] tokens) as [cs1 r1] eqn:E1.
      apply parseComments_length in E1.
      destruct (consume (Some COLON) r1) as [[t r2]| |] eqn:E2; simpl;
        [|done|].
      2:{ by destruct r1 as [|? ?]; simpl in E2; [|case_decide]. }
      apply consume_Ok in E2 as ->.
      destruct (parseComments [] r2) as [cs2 r3] eqn:E3.
      apply parseComments_length in E3.
      pose proof (IHv r3) as Hv.
      destruct (parseValue fuel r3) as [[v r4]| |] eqn:E4; simpl; [|done|].
      2:{ intros _. apply Hv; [simpl in *; lia|done]. }
      apply (proj1 (parse_shortens fuel)) in E4.
      apply IHo. simpl in *. lia.
  - intros children [|token tokens] Hlen; [done|].
    rewrite parseArray_step. simpl in Hlen.
    repeat case_decide; try done.
    + apply IHa. lia.
    + apply IHa. lia.
    + pose proof (IHv (token :: tokens)) as Hv.
      destruct (parseValue fuel (token :: tokens)) as [[v r4]| |] eqn:E4;
        simpl; [|done|].
      2:{ intros _. apply Hv; [simpl in *; lia|done]. }
      apply (proj1 (parse_shortens fuel)) in E4.
      apply IHa. simpl in *. lia.
Qed.

(** ** Tokens after the value, and tokens that are missing *)

Lemma consume_app expected tokens t rest extra :
  consume expected tokens = Ok (t, rest) →
  consume expected (tokens ++ extra) = Ok (t, rest ++ extra).
Proof.
  unfold consume. destruct tokens as [|t' ts]; [done|]. simpl.
  destruct expected as [ty|]; [case_decide; [done|]|]; by intros [= <- <-].
Qed.

Lemma parseComments_app comments tokens cs rest extra :
  parseComments comments tokens = (cs, rest) →
  (rest ≠ [] ∧ parseComments comments (tokens ++ extra) = (cs, rest ++ extra))
  ∨ (rest = [] ∧ only_comments tokens
     ∧ parseComments comments (tokens ++ extra) = parseComments cs extra).
Proof.
  revert comments. induction tokens as [|t ts IH]; intros comments; simpl.
  - intros [= <- <-]. right. split; [done|]. split; [constructor|done].
  - case_decide as Ht.
    + intros E. destruct (IH _ E) as [?|(? & ? & ?)]; [by left|right].
      split; [done|]. split; [by constructor|done].
    + intros [= <- <-]. by left.
Qed.

Lemma parse_extend fuel :
  (∀ tokens node rest extra,
     parseValue fuel tokens = Ok (node, rest) →
     parseValue fuel (tokens ++ extra) = Ok (node, rest ++ extra))
  ∧ (∀ children tokens node rest extra,
       parseObject fuel children tokens = Ok (node, rest) →
       parseObject fuel children (tokens ++ extra) = Ok (node, rest ++ extra))
  ∧ (∀ children tokens node rest extra,
       parseArray fuel children tokens = Ok (node, rest) →
       parseArray fuel children (tokens ++ extra) = Ok (node, rest ++ extra)).
Proof.
  induction fuel as [|fuel (IHv & IHo & IHa)]; [done|].
  split; [|split].
  - intros [|token tokens] node rest extra; [done|].
    rewrite <- app_comm_cons, !parseValue_step.
    destruct (type token); try done;
      try (by intros [= <- <-]); [by apply IHo|by apply IHa|].
    destruct (JSON_parse (value token)); simpl; [|done..].
    by intros [= <- <-].
  - intros children [|token tokens] node rest extra; [done|].
    rewrite <- app_comm_cons, !parseObject_step.
    repeat case_decide; try done; try (by intros [= <- <-]);
      [by apply IHo..|].
    destruct (JSON_parse (value token)); simpl; [|done..].
    destruct (parseComments [] tokens) as [cs1 r1] eqn:E1.
    destruct (parseComments_app _ _ _ _ extra E1) as [[? ->]|(-> & _)];
      [|done].
    destruct (consume (Some COLON) r1) as [[t r2]| |] eqn:E2; simpl;
      [|done..].
    rewrite (consume_app _ _ _ _ extra E2). simpl.
    destruct (parseComments [] r2) as [cs2 r3] eqn:E3.
    destruct (parseValue fuel r3) as [[v r4]| |] eqn:E4; simpl; [|done..].
    destruct (parseComments_app _ _ _ _ extra E3) as [[? ->]|(-> & _)].
    2:{ by destruct fuel. }
    rewrite (IHv _ _ _ extra E4). simpl. by apply IHo.
  - intros children [|token tokens] node rest extra; [done|].
    rewrite <- app_comm_cons, !parseArray_step.
    repeat case_decide; try done; try (by intros [= <- <-]);
      [by apply IHa..|].
    destruct (parseValue fuel (token :: tokens)) as [[v r4]| |] eqn:E4;
      simpl; [|done..].
    rewrite app_comm_cons, (IHv _ _ _ extra E4). simpl. by apply IHa.
Qed.

Lemma parse_truncate fuel :
  (∀ tokens ext node rest,
     parseValue fuel (tokens ++ ext) = Ok (node, rest) →
     (∃ rest', rest = rest' ++ ext ∧ parseValue fuel tokens = Ok (node, rest'))
     ∨ (length rest < length ext
        ∧ ∃ m, parseValue fuel tokens = Throw (Error m) ∧ end_message m))
  ∧ (∀ children tokens ext node rest,
       parseObject fuel children (tokens ++ ext) = Ok (node, rest) →
       (∃ rest', rest = rest' ++ ext
                 ∧ parseObject fuel children tokens = Ok (node, rest'))
       ∨ (length rest < length ext
          ∧ ∃ m, parseObject fuel children tokens = Throw (Error m)
                 ∧ end_message m))
  ∧ (∀ children tokens ext node rest,
       parseArray fuel children (tokens ++ ext) = Ok (node, rest) →
       (∃ rest', rest = rest' ++ ext
                 ∧ parseArray fuel children tokens = Ok (node, rest'))
       ∨ (length rest < length ext
          ∧ ∃ m, parseArray fuel children tokens = Throw (Error m)
                 ∧ end_message m)).
Proof.
  induction fuel as [|fuel (IHv & IHo & IHa)]; [done|].
  pose proof (parse_shortens fuel) as (Sv & So & Sa).
  pose proof (parse_shortens (S fuel)) as (Sv' & So' & Sa').
  unfold end_message.
  split; [|split].
  - intros [|token tokens] ext node rest.
    { intros E%Sv'. right. split; [done|]. eexists. split; [done|]. auto. }
    rewrite <- app_comm_cons, !parseValue_step.
    destruct (type token); try done;
      try (intros [= <- <-]; left; by eexists); [by apply IHo|by apply IHa|].
    destruct (JSON_parse (value token)); simpl; [|done..].
    intros [= <- <-]; left; by eexists.
  - intros children [|token tokens] ext node rest.
    { intros E%So'. right. split; [done|]. eexists. split; [done|]. auto. }
    rewrite <- app_comm_cons, !parseObject_step.
    repeat case_decide; try done;
      try (intros [= <- <-]; left; by eexists); [by apply IHo..|].
    destruct (JSON_parse (value token)); simpl; [|done..].
    destruct (parseComments [] tokens) as [cs1 r1'] eqn:E1.
    destruct (parseComments [] (tokens ++ ext)) as [cs1' r1] eqn:E1'.
    destruct (consume (Some COLON) r1) as [[t r2]| |] eqn:E2; simpl;
      [|done..].
    pose proof (consume_Ok _ _ _ _ E2) as Hr1.
    destruct (parseComments [] r2) as [cs2' r3] eqn:E3'.
    destruct (parseValue fuel r3) as [[v r4]| |] eqn:E4; simpl; [|done..].
    intros E5.
    destruct (parseComments_app _ _ _ _ ext E1) as [[? E]|(-> & _ & E)];
      rewrite E1' in E.
    2:{ right. symmetry in E. apply parseComments_length in E.
        apply parseComments_length in E3'. apply Sv in E4. apply So in E5.
        subst r1. simpl in *. split; [lia|]. eexists. split; [done|]. auto. }
    injection E as -> ->.
    destruct (consume (Some COLON) r1') as [[t' r2']| |] eqn:E2'.
    2,3: by destruct r1' as [|t' r2']; simpl in *; [|case_decide].
    rewrite (consume_app _ _ _ _ ext E2') in E2. injection E2 as <- <-.
    simpl.
    destruct (parseComments [] r2') as [cs2 r3'] eqn:E3.
    destruct (parseComments_app _ _ _ _ ext E3) as [[? E]|(-> & _ & E)];
      rewrite E3' in E.
    2:{ right. symmetry in E. apply parseComments_length in E.
        assert (fuel ≠ 0) by (intros ->; by simpl in E4).
        apply Sv in E4. apply So in E5.
        split; [lia|]. destruct fuel; [done|].
        eexists. split; [simpl; done|]. auto. }
    injection E as -> ->.
    destruct (IHv _ _ _ _ E4) as [(r4' & -> & ->)|(? & m & -> & ?)]; simpl.
    + by apply IHo.
    + right. apply So in E5. split; [lia|]. by exists m.
  - intros children [|token tokens] ext node rest.
    { intros E%Sa'. right. split; [done|]. eexists. split; [done|]. auto. }
    rewrite <- app_comm_cons, !parseArray_step.
    repeat case_decide; try done;
      try (intros [= <- <-]; left; by eexists); [by apply IHa..|].
    rewrite app_comm_cons.
    destruct (parseValue fuel ((token :: tokens) ++ ext)) as [[v r4]| |] eqn:E4;
      simpl; [|done..].
    intros E5.
    destruct (IHv _ _ _ _ E4) as [(r4' & -> & ->)|(? & m & -> & ?)]; simpl.
    + by apply IHa.
    + right. apply Sa in E5. split; [lia|]. by exists m.
Qed.
End ParserSteps.

(** ** The claims on the parser *)

Section ParserClaims.
Context `{JsNumber}.

Lemma parseComments_rest comments tokens cs rest :
  parseComments comments tokens = (cs, rest) →
  ¬ only_comments tokens → rest ≠ [].
Proof.
  intros E Hnot.
  by destruct (parseComments_app _ _ _ _ [] E) as [[? _]|(_ & ? & _)].
Qed.

Lemma parse_rest_extend tokens extra root rest :
  ¬ only_comments tokens →
  parse_rest tokens = Ok (root, rest) →
  parse_rest (tokens ++ extra) = Ok (root, rest ++ extra).
Proof.
  intros Hnot. unfold parse_rest.
  destruct (parseComments [] tokens) as [cs r] eqn:E.
  pose proof (parseComments_rest _ _ _ _ E Hnot) as Hr.
  destruct (parseComments_app _ _ _ _ extra E) as [[_ ->]|[? _]]; [|done].
  destruct r as [|t r]; [done|]. simpl peek.
  destruct (parseValue _ (t :: r)) as [[root0 rest0]| |] eqn:Ev; simpl;
    [|done..].
  intros [= <- <-].
  apply (proj1 (parse_extend _)) with (extra := extra) in Ev.
  apply (proj1 (parse_fuel_mono _)) with
    (fuel' := 2 * length ((t :: r) ++ extra) + 1) in Ev;
    [|done|rewrite length_app; lia].
  simpl in Ev. simpl. by rewrite Ev.
Qed.

Lemma parse_rest_truncate tokens ext root rest :
  ¬ only_comments tokens →
  parse_rest (tokens ++ ext) = Ok (root, rest) →
  length rest < length ext →
  ∃ m, end_message m ∧ parse_rest tokens = Throw (Error m).
Proof.
  intros Hnot. unfold parse_rest.
  destruct (parseComments [] tokens) as [cs r] eqn:E.
  pose proof (parseComments_rest _ _ _ _ E Hnot) as Hr.
  destruct (parseComments_app _ _ _ _ ext E) as [[_ ->]|[? _]]; [|done].
  destruct r as [|t r]; [done|]. simpl peek.
  destruct (parseValue _ ((t :: r) ++ ext)) as [[root0 rest0]| |] eqn:Ev;
    simpl; [|done..].
  intros [= <- <-] Hlen.
  apply (proj1 (parse_truncate _)) in Ev
    as [(rest' & -> & _)|(_ & m & Ev & Hm)].
  { rewrite length_app in Hlen. lia. }
  exists m. split; [done|].
  pose proof (proj1 (parse_total (2 * length (t :: r) + 1)) (t :: r)
                ltac:(lia)) as Htotal.
  assert (2 * length (t :: r) + 1 ≤ 2 * length ((t :: r) ++ ext) + 1) as Hle
    by (rewrite length_app; lia).
  rewrite (proj1 (parse_fuel_mono _) _ _ _ eq_refl Htotal Hle) in Ev.
  simpl in Ev |- *. by rewrite Ev.
Qed.
End ParserClaims.

(** ** The place where the tokens end *)

Section Frames.
Context `{JsNumber}.

Lemma parseComments_suffix comments tokens cs rest :
  parseComments comments tokens = (cs, rest) → rest `suffix_of` tokens.
Proof.
  revert comments. induction tokens as [|t ts IH]; intros comments; simpl.
  - by intros [= <- <-].
  - case_decide; [|by intros [= <- <-]].
    intros E%IH. by apply suffix_cons_r.
Qed.

Lemma parse_suffix fuel :
  (∀ tokens node rest,
     parseValue fuel tokens = Ok (node, rest) → rest `suffix_of` tokens)
  ∧ (∀ children tokens node rest,
       parseObject fuel children tokens = Ok (node, rest) →
       rest `suffix_of` tokens)
  ∧ (∀ children tokens node rest,
       parseArray fuel children tokens = Ok (node, rest) →
       rest `suffix_of` tokens).
Proof.
  induction fuel as [|fuel (IHv & IHo & IHa)]; [done|].
  split; [|split].
  - intros [|token tokens] node rest; [done|].
    rewrite parseValue_step. destruct (type token); try done;
      try (intros [= <- <-]; by apply suffix_cons_r).
    + intros E%IHo. by apply suffix_cons_r.
    + intros E%IHa. by apply suffix_cons_r.
    + destruct (JSON_parse (value token)); simpl; [|done..].
      intros [= <- <-]. by apply suffix_cons_r.
  - intros children [|token tokens] node rest; [done|].
    rewrite parseObject_step. repeat case_decide; try done.
    + intros [= <- <-]. by apply suffix_cons_r.
    + intros E%IHo. by apply suffix_cons_r.
    + intros E%IHo. by apply suffix_cons_r.
    + destruct (JSON_parse (value token)); simpl; [|done..].
      destruct (parseComments [] tokens) as [cs1 r1] eqn:E1.
      apply parseComments_suffix in E1.
      destruct (consume (Some COLON) r1) as [[t r2]| |] eqn:E2; simpl;
        [|done..].
      apply consume_Ok in E2 as ->.
      destruct (parseComments [] r2) as [cs2 r3] eqn:E3.
      apply parseComments_suffix in E3.
      destruct (parseValue fuel r3) as [[v r4]| |] eqn:E4; simpl; [|done..].
      apply IHv in E4. intros E5%IHo. apply suffix_cons_r.
      etrans; [exact E5|]. etrans; [exact E4|]. etrans; [exact E3|].
      etrans; [|exact E1]. by apply suffix_cons_r.
  - intros children [|token tokens] node rest; [done|].
    rewrite parseArray_step. repeat case_decide; try done.
    + intros [= <- <-]. by apply suffix_cons_r.
    + intros E%IHa. by apply suffix_cons_r.
    + intros E%IHa. by apply suffix_cons_r.
    + destruct (parseValue fuel (token :: tokens)) as [[v r]| |] eqn:E;
        simpl; [|done..].
      apply IHv in E. intros E'%IHa. by etrans.
Qed.

Lemma parse_rest_suffix tokens root rest :
  parse_rest tokens = Ok (root, rest) → rest `suffix_of` tokens.
Proof.
  unfold parse_rest.
  destruct (parseComments [] tokens) as [cs r] eqn:E.
  apply parseComments_suffix in E.
  destruct r as [|t r]; simpl peek.
  { by intros [= <- <-]. }
  destruct (parseValue _ (t :: r)) as [[root0 rest0]| |] eqn:Ev; simpl;
    [|done..].
  intros [= <- <-]. apply (proj1 (parse_suffix _)) in Ev. by etrans.
Qed.

Lemma parseComments_split comments tokens cs rest :
  parseComments comments tokens = (cs, rest) →
  ∃ pre, tokens = pre ++ rest ∧ only_comments pre
         ∧ match rest with [] => True | t :: _ => type t ≠ COMMENT end.
Proof.
  revert comments. induction tokens as [|t ts IH]; intros comments; simpl.
  - intros [= <- <-]. exists []. split; [done|]. split; [constructor|done].
  - case_decide as Ht.
    + intros E. destruct (IH _ E) as (pre & -> & Hpre & Hrest).
      exists (t :: pre). split; [done|]. split; [by constructor|done].
    + intros [= <- <-]. exists []. split; [done|]. split; [constructor|done].
Qed.

Lemma frames_comments stack tokens :
  only_comments tokens → foldl frame_step stack tokens = stack.
Proof.
  induction 1 as [|t ts Ht _ IH]; [done|].
  simpl. unfold frame_step at 2. by rewrite Ht.
Qed.

Lemma frame_step_value stack t :
  head stack ≠ Some InObject →
  type t ∈ [STRING; NUMBER; BOOLEAN; NULL] →
  frame_step stack t = value_read stack.
Proof.
  intros Hst Ht. unfold frame_step.
  destruct (type t); try done; try (exfalso; set_solver).
  by destruct stack as [|[] ?].
Qed.

Ltac fold_frames :=
  repeat match goal with
  | |- context [foldl frame_step (frame_step ?s ?t) ?l] =>
      change (foldl frame_step (frame_step s t) l)
        with (foldl frame_step s (t :: l))
  end.

Lemma parse_frames fuel :
  (∀ stack tokens ext node rest,
     head stack ≠ Some InObject →
     match tokens with [] => False | t :: _ => type t ≠ COMMENT end →
     parseValue fuel (tokens ++ ext) = Ok (node, rest) →
     (∃ used rest', tokens = used ++ rest' ∧ rest = rest' ++ ext
        ∧ parseValue fuel tokens = Ok (node, rest')
        ∧ foldl frame_step stack used = value_read stack)
     ∨ (length rest < length ext
        ∧ ∃ f below, foldl frame_step stack tokens = f :: below
            ∧ parseValue fuel tokens = Throw (Error (end_of_tokens f))))
  ∧ (∀ stack children tokens ext node rest,
       parseObject fuel children (tokens ++ ext) = Ok (node, rest) →
       (∃ used rest', tokens = used ++ rest' ∧ rest = rest' ++ ext
          ∧ parseObject fuel children tokens = Ok (node, rest')
          ∧ foldl frame_step (InObject :: stack) used = value_read stack)
       ∨ (length rest < length ext
          ∧ ∃ f below, foldl frame_step (InObject :: stack) tokens = f :: below
              ∧ parseObject fuel children tokens
                = Throw (Error (end_of_tokens f))))
  ∧ (∀ stack children tokens ext node rest,
       parseArray fuel children (tokens ++ ext) = Ok (node, rest) →
       (∃ used rest', tokens = used ++ rest' ∧ rest = rest' ++ ext
          ∧ parseArray fuel children tokens = Ok (node, rest')
          ∧ foldl frame_step (InArray :: stack) used = value_read stack)
       ∨ (length rest < length ext
          ∧ ∃ f below, foldl frame_step (InArray :: stack) tokens = f :: below
              ∧ parseArray fuel children tokens
                = Throw (Error (end_of_tokens f)))).
Proof.
  induction fuel as [|fuel (IHv & IHo & IHa)]; [done|].
  pose proof (parse_shortens fuel) as (Sv & So & Sa).
  pose proof (parse_shortens (S fuel)) as (Sv' & So' & Sa').
  split; [|split].
  - intros stack [|token tokens] ext node rest Hst Hhead; [done|].
    rewrite <- app_comm_cons, !parseValue_step.
    destruct (type token) eqn:Ety; try done.
    + intros E.
      destruct (IHo stack _ _ _ _ _ E)
        as [(used & rest' & -> & -> & E' & Hf)|(Hlen & f & below & Hf & E')].
      * left. exists (token :: used), rest'. repeat split; [done|].
        simpl. unfold frame_step at 2. by rewrite Ety.
      * right. split; [done|]. exists f, below. split; [|done].
        simpl. unfold frame_step at 2. by rewrite Ety.
    + intros E.
      destruct (IHa stack _ _ _ _ _ E)
        as [(used & rest' & -> & -> & E' & Hf)|(Hlen & f & below & Hf & E')].
      * left. exists (token :: used), rest'. repeat split; [done|].
        simpl. unfold frame_step at 2. by rewrite Ety.
      * right. split; [done|]. exists f, below. split; [|done].
        simpl. unfold frame_step at 2. by rewrite Ety.
    + destruct (JSON_parse (value token)); simpl; [|done..].
      intros [= <- <-]. left. exists [token], tokens.
      repeat split. simpl. apply frame_step_value; [done|].
      rewrite Ety. set_solver.
    + intros [= <- <-]. left. exists [token], tokens.
      repeat split. simpl. apply frame_step_value; [done|].
      rewrite Ety. set_solver.
    + intros [= <- <-]. left. exists [token], tokens.
      repeat split. simpl. apply frame_step_value; [done|].
      rewrite Ety. set_solver.
    + intros [= <- <-]. left. exists [token], tokens.
      repeat split. simpl. apply frame_step_value; [done|].
      rewrite Ety. set_solver.
  - intros stack children [|token tokens] ext node rest.
    { intros E%So'. right. split; [done|]. by exists InObject, stack. }
    rewrite <- app_comm_cons, !parseObject_step.
    case_decide as Ety.
    { intros [= <- <-]. left. exists [token], tokens. repeat split.
      simpl. unfold frame_step. by rewrite Ety. }
    case_decide as Ety1.
    { intros E.
      destruct (IHo stack _ _ _ _ _ E)
        as [(used & rest' & -> & -> & E' & Hf)|(Hlen & f & below & Hf & E')].
      * left. exists (token :: used), rest'. repeat split; [done|].
        simpl. unfold frame_step at 2. by rewrite Ety1.
      * right. split; [done|]. exists f, below. split; [|done].
        simpl. unfold frame_step at 2. by rewrite Ety1. }
    case_decide as Ety2.
    { intros E.
      destruct (IHo stack _ _ _ _ _ E)
        as [(used & rest' & -> & -> & E' & Hf)|(Hlen & f & below & Hf & E')].
      * left. exists (token :: used), rest'. repeat split; [done|].
        simpl. unfold frame_step at 2. by rewrite Ety2.
      * right. split; [done|]. exists f, below. split; [|done].
        simpl. unfold frame_step at 2. by rewrite Ety2. }
    case_decide as Ety3; [|done].
    assert (∀ l, foldl frame_step (InObject :: stack) (token :: l)
                 = foldl frame_step (AfterKey :: stack) l) as Hkey.
    { intros l. simpl. unfold frame_step at 2. by rewrite Ety3. }
    destruct (JSON_parse (value token)); simpl; [|done..].
    destruct (parseComments [] tokens) as [cs1 r1'] eqn:E1.
    destruct (parseComments [] (tokens ++ ext)) as [cs1' r1] eqn:E1'.
    destruct (consume (Some COLON) r1) as [[t r2]| |] eqn:E2; simpl;
      [|done..].
    pose proof (consume_Ok _ _ _ _ E2) as Hr1.
    destruct (parseComments [] r2) as [cs2' r3] eqn:E3'.
    destruct (parseValue fuel r3) as [[v r4]| |] eqn:E4; simpl; [|done..].
    intros E5.
    destruct (parseComments_split _ _ _ _ E1) as (pre1 & -> & Hpre1 & _).
    destruct (parseComments_app _ _ _ _ ext E1) as [[? E]|(-> & _ & E)];
      rewrite E1' in E.
    2:{ right. symmetry in E. apply parseComments_length in E.
        apply parseComments_length in E3'. apply Sv in E4. apply So in E5.
        subst r1. split; [simpl in *; lia|].
        exists AfterKey, stack. split; [|done].
        fold_frames. rewrite Hkey, app_nil_r. by apply frames_comments. }
    injection E as -> ->.
    destruct (consume (Some COLON) r1') as [[t' r2']| |] eqn:E2'.
    2,3: by destruct r1' as [|t' r2']; simpl in *; [|case_decide].
    rewrite (consume_app _ _ _ _ ext E2') in E2. injection E2 as <- <-.
    simpl.
    assert (type t' = COLON) as Hcolon.
    { unfold consume in E2'. destruct r1' as [|t0 ?]; [done|].
      case_decide as Hne; [done|]. injection E2' as <- <-.
      by destruct (decide (type t0 = COLON)). }
    pose proof (consume_Ok _ _ _ _ E2') as ->.
    assert (∀ l, foldl frame_step (InObject :: stack)
                   (token :: pre1 ++ t' :: l)
                 = foldl frame_step (AfterColon :: stack) l) as Hcol.
    { intros l. rewrite Hkey, foldl_app, (frames_comments _ pre1 Hpre1).
      simpl. unfold frame_step at 2. by rewrite Hcolon. }
    destruct (parseComments [] r2') as [cs2 r3'] eqn:E3.
    destruct (parseComments_split _ _ _ _ E3) as (pre2 & -> & Hpre2 & Hhead).
    destruct (parseComments_app _ _ _ _ ext E3) as [[? E]|(-> & _ & E)];
      rewrite E3' in E.
    2:{ right. symmetry in E. apply parseComments_length in E.
        assert (fuel ≠ 0) by (intros ->; by simpl in E4).
        apply Sv in E4. apply So in E5.
        split; [lia|]. destruct fuel; [done|].
        exists AfterColon, stack. split; [|done].
        fold_frames. rewrite Hcol, app_nil_r. by apply frames_comments. }
    injection E as -> ->.
    assert (match r3' with [] => False | t0 :: _ => type t0 ≠ COMMENT end)
      as Hhead' by (by destruct r3').
    destruct (IHv (AfterColon :: stack) _ _ _ _ ltac:(done) Hhead' E4)
      as [(used & r4' & -> & -> & -> & Hf)|(? & f & below & Hf & ->)]; simpl.
    + destruct (IHo stack _ _ _ _ _ E5)
        as [(used' & rest' & -> & -> & E' & Hf')
           |(Hlen & f & below & Hf' & E')].
      * left. exists (token :: pre1 ++ t' :: pre2 ++ used ++ used'), rest'.
        split; [by simplify_list_eq|]. split; [done|].
        split; [done|].
        fold_frames. by rewrite Hcol, !foldl_app, (frames_comments _ pre2 Hpre2), Hf.
      * right. split; [done|]. exists f, below. split; [|done].
        fold_frames. by rewrite Hcol, !foldl_app, (frames_comments _ pre2 Hpre2), Hf.
    + right. apply So in E5. split; [lia|]. exists f, below.
      split; [|done].
      fold_frames. by rewrite Hcol, foldl_app, (frames_comments _ pre2 Hpre2).
  - intros stack children [|token tokens] ext node rest.
    { intros E%Sa'. right. split; [done|]. by exists InArray, stack. }
    rewrite <- app_comm_cons, !parseArray_step.
    case_decide as Ety.
    { intros [= <- <-]. left. exists [token], tokens. repeat split.
      simpl. unfold frame_step. by rewrite Ety. }
    case_decide as Ety1.
    { intros E.
      destruct (IHa stack _ _ _ _ _ E)
        as [(used & rest' & -> & -> & E' & Hf)|(Hlen & f & below & Hf & E')].
      * left. exists (token :: used), rest'. repeat split; [done|].
        simpl. unfold frame_step at 2. by rewrite Ety1.
      * right. split; [done|]. exists f, below. split; [|done].
        simpl. unfold frame_step at 2. by rewrite Ety1. }
    case_decide as Ety2.
    { intros E.
      destruct (IHa stack _ _ _ _ _ E)
        as [(used & rest' & -> & -> & E' & Hf)|(Hlen & f & below & Hf & E')].
      * left. exists (token :: used), rest'. repeat split; [done|].
        simpl. unfold frame_step at 2. by rewrite Ety2.
      * right. split; [done|]. exists f, below. split; [|done].
        simpl. unfold frame_step at 2. by rewrite Ety2. }
    rewrite app_comm_cons.
    destruct (parseValue fuel ((token :: tokens) ++ ext)) as [[v r4]| |] eqn:E4;
      simpl; [|done..].
    intros E5.
    destruct (IHv (InArray :: stack) (token :: tokens) _ _ _
                ltac:(done) Ety1 E4)
      as [(used & r4' & Hsplit & -> & -> & Hf)|(? & f & below & Hf & ->)];
      simpl.
    + destruct (IHa stack _ _ _ _ _ E5)
        as [(used' & rest' & -> & -> & E' & Hf')
           |(Hlen & f & below & Hf' & E')].
      * left. exists (used ++ used'), rest'.
        split; [by rewrite Hsplit, <- app_assoc|]. split; [done|].
        split; [done|]. by rewrite foldl_app, Hf.
      * right. split; [done|]. exists f, below. split; [|done].
        fold_frames. by rewrite Hsplit, foldl_app, Hf.
    + right. apply Sa in E5. split; [lia|]. by exists f, below.
Qed.

Lemma parse_rest_frames tokens ext root rest :
  ¬ only_comments tokens →
  parse_rest (tokens ++ ext) = Ok (root, rest) →
  length rest < length ext →
  ∃ f below, open_frames tokens = f :: below
             ∧ parse_rest tokens = Throw (Error (end_of_tokens f)).
Proof.
  intros Hnot. unfold parse_rest.
  destruct (parseComments [] tokens) as [cs r] eqn:E.
  pose proof (parseComments_rest _ _ _ _ E Hnot) as Hr.
  destruct (parseComments_split _ _ _ _ E) as (pre & -> & Hpre & Hhead).
  destruct (parseComments_app _ _ _ _ ext E) as [[_ ->]|[? _]]; [|done].
  destruct r as [|t r]; [done|]. simpl peek.
  destruct (parseValue _ ((t :: r) ++ ext)) as [[root0 rest0]| |] eqn:Ev;
    simpl; [|done..].
  intros [= <- <-] Hlen.
  apply (proj1 (parse_frames _) []) in Ev
    as [(used & rest' & _ & -> & _)|(_ & f & below & Hf & Ev)];
    [| |done|done].
  { rewrite length_app in Hlen. lia. }
  exists f, below. split.
  { unfold open_frames. by rewrite foldl_app, (frames_comments _ pre Hpre). }
  pose proof (proj1 (parse_total (2 * length (t :: r) + 1)) (t :: r)
                ltac:(lia)) as Htotal.
  assert (2 * length (t :: r) + 1 ≤ 2 * length ((t :: r) ++ ext) + 1) as Hle
    by (rewrite length_app; lia).
  rewrite (proj1 (parse_fuel_mono _) _ _ _ eq_refl Htotal Hle) in Ev.
  simpl in Ev |- *. by rewrite Ev.
Qed.
End Frames.

Lemma format_unfold `{JsNumber} this text :
  format this text
  = tokens ← tokenize text;
    ast ← parse tokens;
    Ok (finish this (formatNode this ast 0 [] false)).
Proof. reflexivity. Qed.

(** C9, as amended.  When the tokens of a document end inside its root
    object or array, that is when they are not comments only and more
    tokens [ext] would let the parser complete the root value with a
    closing token among them, [parse] throws an error and so does
    [format]: nothing is returned.  The innermost container that is open
    where the tokens end, and the place reached in it, give the message:
    [Unclosed object] in an object where a key, a comment, a comma or the
    closing brace is expected, [Unclosed array] in an array where a
    value, a comment, a comma or the closing bracket is expected, and
    [Unexpected end of input] after a key or after its colon.  The error
    carries no line number. *)
Theorem unclosed_container_fails (Num : JsNumber) this text tokens ext
    root rest :
  tokenize text = Ok tokens →
  ¬ only_comments tokens →
  parse_rest (tokens ++ ext) = Ok (root, rest) →
  length rest < length ext →
  ∃ f below,
    open_frames tokens = f :: below
    ∧ parse tokens = Throw (Error (end_of_tokens f))
    ∧ format this text = Throw (Error (end_of_tokens f)).
Proof.
  intros Htok Hnot Hparse Hlen.
  destruct (parse_rest_frames _ _ _ _ Hnot Hparse Hlen)
    as (f & below & Hf & E).
  exists f, below. split; [done|].
  assert (parse tokens = Throw (Error (end_of_tokens f))) as Hp.
  { unfold parse. by rewrite E. }
  split; [done|]. rewrite format_unfold, Htok. simpl. by rewrite Hp.
Qed.

(** C10.  When the tokens of a document go on after its first complete
    value, [parse] returns the tree of that value (with the comments
    before it) and ignores the tokens that follow; [format] returns the
    rendering of that tree and no error. *)
Theorem trailing_tokens_ignored (Num : JsNumber) this text first trailing
    root :
  tokenize text = Ok (first ++ trailing) →
  ¬ only_comments first →
  parse_rest first = Ok (root, []) →
  parse (first ++ trailing) = Ok root
  ∧ format this text = Ok (finish this (formatNode this root 0 [] false)).
Proof.
  intros Htok Hnot Hparse.
  apply parse_rest_extend with (extra := trailing) in Hparse; [|done].
  assert (parse (first ++ trailing) = Ok root) as Hp.
  { unfold parse. by rewrite Hparse. }
  split; [done|]. rewrite format_unfold, Htok. simpl. by rewrite Hp.
Qed.

Lemma unclosed_container_fails_witness :
  @format literal_numbers default_formatter (jsq "{'a': 1")
  = Throw (Error (js "Unclosed object"))
  ∧ @format literal_numbers default_formatter (jsq "{'a': [1,")
    = Throw (Error (js "Unclosed array"))
  ∧ @format literal_numbers default_formatter (jsq "{'a' /* c */")
    = Throw (Error (js "Unexpected end of input")).
Proof.
  split; [|split].
  - destruct (unclosed_container_fails literal_numbers default_formatter
                (jsq "{'a': 1")
                [mkToken LBRACE (js "{") 1; mkToken STRING (jsq "'a'") 1;
                 mkToken COLON (js ":") 1; mkToken NUMBER (js "1") 1]
                [mkToken RBRACE (js "}") 1]
                (JsonObject
                   [OPair (js "a")
                      (JsonNumber (js "1" : @num literal_numbers) (js "1"))])
                [])
      as (f & below & Hf & _ & Hfmt).
    + vm_compute. reflexivity.
    + intros Hall. apply Forall_cons in Hall as [Hty _]. discriminate Hty.
    + vm_compute. reflexivity.
    + simpl. lia.
    + vm_compute in Hf. injection Hf as <- _. exact Hfmt.
  - destruct (unclosed_container_fails literal_numbers default_formatter
                (jsq "{'a': [1,")
                [mkToken LBRACE (js "{") 1; mkToken STRING (jsq "'a'") 1;
                 mkToken COLON (js ":") 1; mkToken LBRACKET (js "[") 1;
                 mkToken NUMBER (js "1") 1; mkToken COMMA (js ",") 1]
                [mkToken RBRACKET (js "]") 1; mkToken RBRACE (js "}") 1]
                (JsonObject
                   [OPair (js "a")
                      (JsonArray
                         [JsonNumber (js "1" : @num literal_numbers)
                            (js "1")])])
                [])
      as (f & below & Hf & _ & Hfmt).
    + vm_compute. reflexivity.
    + intros Hall. apply Forall_cons in Hall as [Hty _]. discriminate Hty.
    + vm_compute. reflexivity.
    + simpl. lia.
    + vm_compute in Hf. injection Hf as <- _. exact Hfmt.
  - destruct (unclosed_container_fails literal_numbers default_formatter
                (jsq "{'a' /* c */")
                [mkToken LBRACE (js "{") 1; mkToken STRING (jsq "'a'") 1;
                 mkToken COMMENT (js "/* c */") 1]
                [mkToken COLON (js ":") 1; mkToken NULL (js "null") 1;
                 mkToken RBRACE (js "}") 1]
                (JsonObject
                   [OComment (mkComment (js "/* c */") true);
                    OPair (js "a") (JsonNull (js "null"))])
                [])
      as (f & below & Hf & _ & Hfmt).
    + vm_compute. reflexivity.
    + intros Hall. apply Forall_cons in Hall as [Hty _]. discriminate Hty.
    + vm_compute. reflexivity.
    + simpl. lia.
    + vm_compute in Hf. injection Hf as <- _. exact Hfmt.
Defined.

(** C9, counterexample: the error for the unclosed object of the example
    is the message [Unclosed object] and nothing else, with no line
    number; and when the tokens end after the colon the message does not
    name the container. *)
Lemma unclosed_error_message :
  @format literal_numbers default_formatter (jsq "{'a': 1")
  = Throw (Error (js "Unclosed object"))
  ∧ @format literal_numbers default_formatter (jsq "{'a':")
    = Throw (Error (js "Unexpected end of input")).
Proof. split; vm_compute; reflexivity. Qed.

Lemma trailing_tokens_ignored_witness :
  @format literal_numbers default_formatter (jsq "{}{'b': 2}")
  = Ok (js "{}").
Proof.
  refine (proj2 (trailing_tokens_ignored literal_numbers default_formatter
                   (jsq "{}{'b': 2}")
                   [mkToken LBRACE (js "{") 1; mkToken RBRACE (js "}") 1]
                   [mkToken LBRACE (js "{") 1; mkToken STRING (jsq "'b'") 1;
                    mkToken COLON (js ":") 1; mkToken NUMBER (js "2") 1;
                    mkToken RBRACE (js "}") 1]
                   (JsonObject []) _ _ _)).
  - vm_compute. reflexivity.
  - intros Hall. apply Forall_cons in Hall as [Hty _]. discriminate Hty.
  - vm_compute. reflexivity.
Defined.

(** ** Rewriting the line terminators *)

Lemma join_cons sep p q ps :
  join sep (p :: q :: ps) = p ++ sep ++ join sep (q :: ps).
Proof. done. Qed.

Lemma replace_newlines_cons nl c s :
  c ≠ CR → c ≠ LF → replace_newlines nl (c :: s) = c :: replace_newlines nl s.
Proof.
  intros Hcr Hlf. simpl.
  destruct (N.eqb_spec c CR); [done|]. by destruct (N.eqb_spec c LF).
Qed.

Lemma replace_newlines_LF nl s :
  replace_newlines nl (LF :: s) = nl ++ replace_newlines nl s.
Proof. done. Qed.

Lemma replace_newlines_CRLF nl s :
  replace_newlines nl (CR :: LF :: s) = nl ++ replace_newlines nl s.
Proof. done. Qed.

Lemma replace_newlines_CR nl d s :
  d ≠ LF →
  replace_newlines nl (CR :: d :: s) = CR :: replace_newlines nl (d :: s).
Proof. intros Hd. simpl. by destruct (N.eqb_spec d LF). Qed.

(** The rewriting goes through a concatenation unless that is cut between
    a carriage return and a line feed. *)
Lemma replace_newlines_app nl s1 s2 :
  last s1 ≠ Some CR →
  replace_newlines nl (s1 ++ s2)
  = replace_newlines nl s1 ++ replace_newlines nl s2.
Proof.
  induction s1 as [s1 IH] using length_ind. intros Hlast.
  destruct s1 as [|c s1]; [done|].
  assert (s1 ≠ [] → last s1 ≠ Some CR) as Hlast'.
  { destruct s1 as [|d s1]; [done|]. by rewrite last_cons_cons in Hlast. }
  destruct (decide (c = CR)) as [->|Hcr].
  - destruct s1 as [|d s1]; [done|]. specialize (Hlast' ltac:(done)).
    destruct (decide (d = LF)) as [->|Hlf].
    + rewrite <- !app_comm_cons, !replace_newlines_CRLF.
      rewrite IH; [by rewrite (assoc_L (++))|simpl; lia|].
      destruct s1 as [|e s1]; [done|]. by rewrite last_cons_cons in Hlast'.
    + rewrite <- !app_comm_cons, !replace_newlines_CR by done.
      rewrite app_comm_cons, IH; [done|simpl; lia|done].
  - assert (last s1 ≠ Some CR) as Hs1.
    { destruct s1; [done|]. by apply Hlast'. }
    destruct (decide (c = LF)) as [->|Hlf].
    + rewrite <- app_comm_cons, !replace_newlines_LF.
      rewrite IH; [by rewrite (assoc_L (++))|simpl; lia|done].
    + rewrite <- app_comm_cons, !replace_newlines_cons by done.
      rewrite IH; [done|simpl; lia|done].
Qed.

(** A text without line feed is left as it is. *)
Lemma replace_newlines_id nl s : LF ∉ s → replace_newlines nl s = s.
Proof.
  induction s as [|c s IH]; [done|]. intros Hs.
  apply not_elem_of_cons in Hs as [Hc Hs]. specialize (IH Hs).
  simpl. destruct (N.eqb_spec c CR) as [->|?].
  - destruct s as [|d s]; [done|].
    apply not_elem_of_cons in Hs as [Hd _].
    destruct (N.eqb_spec d LF); [done|]. by rewrite IH.
  - destruct (N.eqb_spec c LF); [done|]. by rewrite IH.
Qed.

Lemma replace_newlines_join nl ps :
  Forall (λ p, last p ≠ Some CR) ps →
  replace_newlines nl (join [LF] ps) = join nl (map (replace_newlines nl) ps).
Proof.
  induction 1 as [|p ps Hp Hps IH]; [done|].
  destruct ps as [|q ps]; [done|].
  rewrite join_cons. rewrite replace_newlines_app by done.
  change ([LF] ++ join [LF] (q :: ps)) with (LF :: join [LF] (q :: ps)).
  rewrite replace_newlines_LF, IH. done.
Qed.

(** The last character of a text survives the rewriting when it is no
    line terminator. *)
Lemma replace_newlines_last nl s c :
  last s = Some c → c ≠ LF → c ≠ CR →
  last (replace_newlines nl s) = Some c.
Proof.
  intros Hlast Hlf Hcr. apply last_Some in Hlast as [s' ->].
  induction s' as [s' IH] using length_ind.
  destruct s' as [|d s'].
  { cbn [app]. rewrite replace_newlines_cons by done. done. }
  destruct (decide (d = LF)) as [->|Hd].
  { rewrite <- app_comm_cons, replace_newlines_LF, last_app.
    rewrite IH by (simpl; lia). done. }
  destruct (decide (d = CR)) as [->|Hd'].
  - destruct s' as [|e s'].
    { cbn [app]. rewrite replace_newlines_CR by done.
      by rewrite replace_newlines_cons. }
    destruct (decide (e = LF)) as [->|He].
    + rewrite <- !app_comm_cons, replace_newlines_CRLF, last_app.
      rewrite IH by (simpl; lia). done.
    + rewrite <- !app_comm_cons, replace_newlines_CR by done.
      rewrite last_cons, app_comm_cons, IH by (simpl; lia). done.
  - rewrite <- app_comm_cons, replace_newlines_cons by done.
    rewrite last_cons, IH by (simpl; lia). done.
Qed.

(** With the style CRLF every line feed of the result follows a carriage
    return. *)
Lemma replace_newlines_crlf s i :
  replace_newlines [CR; LF] s !! i = Some LF →
  ∃ j, i = S j ∧ replace_newlines [CR; LF] s !! j = Some CR.
Proof.
  revert i. induction s as [s IH] using length_ind. intros i.
  destruct s as [|c s]; [done|].
  assert (∀ s', length s' < length (c :: s) →
    ([CR; LF] ++ replace_newlines [CR; LF] s') !! i = Some LF →
    ∃ j, i = S j
         ∧ ([CR; LF] ++ replace_newlines [CR; LF] s') !! j = Some CR) as Hnl.
  { intros s' Hlen. destruct i as [|[|i]]; simpl; [done| |].
    - intros _. by exists 0.
    - intros (j & -> & Hj)%IH; [|done]. by exists (S (S j)). }
  assert (c ≠ LF → length s < length (c :: s) →
    (c :: replace_newlines [CR; LF] s) !! i = Some LF →
    ∃ j, i = S j ∧ (c :: replace_newlines [CR; LF] s) !! j = Some CR) as Hc.
  { intros Hlf Hlen. destruct i as [|i]; simpl; [congruence|].
    destruct i as [|i].
    - intros Hi. exists 0. split; [done|]. simpl.
      destruct s as [|d s]; [done|].
      revert Hi. simpl.
      destruct (N.eqb_spec d CR) as [->|?].
      + destruct s as [|e s]; [done|]. by destruct (N.eqb_spec e LF).
      + destruct (N.eqb_spec d LF) as [->|?]; [done|]. simpl. congruence.
    - intros (j & -> & Hj)%IH; [|simpl; lia]. by exists (S j). }
  destruct (decide (c = CR)) as [->|Hcr].
  - destruct s as [|d s]; [by destruct i as [|[|?]]|].
    destruct (decide (d = LF)) as [->|Hlf].
    + rewrite replace_newlines_CRLF. apply Hnl. simpl. lia.
    + rewrite replace_newlines_CR by done. apply Hc; [done|simpl; lia].
  - destruct (decide (c = LF)) as [->|Hlf].
    + rewrite replace_newlines_LF. apply Hnl. simpl. lia.
    + rewrite replace_newlines_cons by done. apply Hc; [done|simpl; lia].
Qed.

(** ** The last character of a rendering *)

Lemma join_snoc sep ps p : ∃ pre, join sep (ps ++ [p]) = pre ++ p.
Proof.
  induction ps as [|q ps [pre IH]]; [by exists []|].
  exists (q ++ sep ++ pre).
  change ((q :: ps) ++ [p]) with (q :: (ps ++ [p])).
  destruct (ps ++ [p]) as [|r l] eqn:E; [by destruct ps|].
  by rewrite join_cons, IH, <- !(assoc_L (++)).
Qed.

Lemma last_join sep ps p :
  p ≠ [] → last (join sep (ps ++ [p])) = last p.
Proof.
  intros Hp. destruct (join_snoc sep ps p) as [pre ->].
  rewrite last_app. destruct (last p) eqn:E; [done|].
  by apply last_None in E.
Qed.

Lemma digit_run_last ds : digit_run ds → ∃ c, last ds = Some c ∧ is_digit c.
Proof.
  intros [Hne Hall]. destruct (last ds) as [c|] eqn:E.
  - exists c. split; [done|].
    apply last_Some in E as [ds' ->]. by apply Forall_app in Hall as [_ [? _]%Forall_cons].
  - by apply last_None in E.
Qed.

Lemma json_number_last s : json_number s → ∃ c, last s = Some c ∧ is_digit c.
Proof.
  intros (sign & i & f & e & -> & _ & Hi & Hf & He).
  assert (∃ c, last i = Some c ∧ is_digit c) as (ci & Hci & Hdi).
  { destruct Hi as [->|(d & ds & -> & Hd & Hds)]; [by exists 48%N|].
    destruct (last ds) as [c|] eqn:E.
    - exists c. rewrite last_cons, E. split; [done|].
      apply last_Some in E as [ds' ->].
      by apply Forall_app in Hds as [_ [? _]%Forall_cons].
    - apply last_None in E as ->. exists d. split; [done|].
      unfold is_digit. apply Is_true_true, andb_true_iff.
      split; [apply N.leb_le|apply N.leb_le]; lia. }
  assert (∃ c, last (i ++ f) = Some c ∧ is_digit c) as (cf & Hcf & Hdf).
  { destruct Hf as [->|(ds & -> & Hds)].
    - rewrite app_nil_r. by exists ci.
    - apply digit_run_last in Hds as (c & Hc & ?). exists c.
      split; [|done]. rewrite last_app. simpl.
      destruct ds; [done|]. rewrite last_cons_cons. by rewrite Hc. }
  assert (∃ c, last (i ++ f ++ e) = Some c ∧ is_digit c) as (ce & Hce & Hde).
  { destruct He as [->|(c0 & sg & ds & -> & _ & _ & Hds)].
    - rewrite app_nil_r. by exists cf.
    - apply digit_run_last in Hds as (c & Hc & ?). exists c.
      split; [|done].
      rewrite (assoc_L (++)), last_app, last_cons, last_app, Hc. done. }
  exists ce. split; [|done]. by rewrite last_app, Hce.
Qed.

Lemma is_digit_not_space c : is_digit c → is_space c = false.
Proof.
  unfold is_digit. intros [H1 H2]%Is_true_true%andb_true_iff.
  apply N.leb_le in H1, H2. unfold is_space.
  repeat (apply orb_false_iff; split);
    try (apply N.eqb_neq; lia).
  apply andb_false_iff. left. apply N.leb_gt. lia.
Qed.

Arguments js : simpl never.
Arguments join : simpl never.

Section Equations.
Context `{JsNumber}.
Variable this : MaaPipelineFormatter.

Lemma formatNode_JsonArray children level k inlineMode :
  formatNode this (JsonArray children) level k inlineMode
  = if inlineMode then formatInlineArray this children
    else if shouldInlineArray this k children
    then formatInlineArray this children
    else join [LF]
           ([js "["]
            ++ mapi (λ i child,
                 let childStr := formatNode this child (level + 1) [] false in
                 if isComment child
                 then repeat_str (indentStr this) (level + 1) ++ childStr
                 else repeat_str (indentStr this) (level + 1) ++ childStr
                      ++ (if bool_decide (i < Z.of_nat (length children))%Z
                             && bool_decide
                                  (i ≠ lastValueIdx isComment children)
                          then js "," else js "")) children
            ++ [repeat_str (indentStr this) level ++ js "]"]).
Proof. reflexivity. Qed.

Lemma formatNode_JsonObject children level k inlineMode :
  formatNode this (JsonObject children) level k inlineMode
  = if inlineMode then formatInlineObject this children
    else if shouldInlineObject this k children
    then formatInlineObject this children
    else join [LF]
           ([js "{"]
            ++ mapi (λ i child,
                 match child with
                 | OComment c =>
                     repeat_str (indentStr this) (level + 1) ++ text c
                 | OPair key val =>
                     repeat_str (indentStr this) (level + 1)
                     ++ JSON_stringify_string key ++ js ": "
                     ++ formatNode this val (level + 1) key false
                     ++ (if bool_decide (i < Z.of_nat (length children))%Z
                            && bool_decide
                                 (i ≠ lastValueIdx isOComment children)
                         then js "," else js "")
                 end) children
            ++ [repeat_str (indentStr this) level ++ js "}"]).
Proof. reflexivity. Qed.
End Equations.

Section Shape.
Context `{JsNumberLaws}.
Variable this : MaaPipelineFormatter.

Lemma stringify_number_plain v : plain_last (JSON_stringify_number v).
Proof.
  destruct (stringify_number_shape v) as [->|Hlit]; [by exists 108%N|].
  apply number_literal_json, json_number_last in Hlit as (c & ? & ?).
  exists c. split; [done|]. by apply is_digit_not_space.
Qed.

Lemma formatNode_plain_last node level key inlineMode :
  isComment node = false →
  plain_last (formatNode this node level key inlineMode).
Proof.
  intros Hc. destruct node as [v raw|v raw|v raw|raw|c|children|children].
  - exists QUOTE. split; [|done]. simpl. unfold JSON_stringify_string.
    by rewrite last_cons, last_snoc.
  - apply stringify_number_plain.
  - destruct v; [by exists 101%N|by exists 101%N].
  - by exists 108%N.
  - done.
  - assert (plain_last (formatInlineArray this children)) as Hin.
    { exists 93%N. split; [|done].
      unfold formatInlineArray, formatInlineArray_body.
      by rewrite !last_app. }
    rewrite formatNode_JsonArray.
    destruct inlineMode; [done|].
    destruct (shouldInlineArray _ _ _); [done|].
    exists 93%N. split; [|done].
    rewrite (assoc_L (++)), last_join; [by rewrite last_app|].
    by destruct (repeat_str _ _).
  - assert (plain_last (formatInlineObject this children)) as Hin.
    { exists 125%N. split; [|done].
      unfold formatInlineObject, formatInlineObject_body.
      by rewrite !last_app. }
    rewrite formatNode_JsonObject.
    destruct inlineMode; [done|].
    destruct (shouldInlineObject _ _ _); [done|].
    exists 125%N. split; [|done].
    rewrite (assoc_L (++)), last_join; [by rewrite last_app|].
    by destruct (repeat_str _ _).
Qed.
End Shape.

(** ** The root of a document is no comment *)

Section Root.
Context `{JsNumber}.

Lemma parseComments_head comments tokens cs rest :
  parseComments comments tokens = (cs, rest) →
  match rest with
  | [] => True
  | t :: _ => type t ≠ COMMENT
  end.
Proof.
  revert comments. induction tokens as [|t ts IH]; intros comments; simpl.
  - by intros [= <- <-].
  - case_decide; [apply IH|]. by intros [= <- <-].
Qed.

Lemma parse_loops_shape fuel :
  (∀ children tokens node rest,
     parseObject fuel children tokens = Ok (node, rest) →
     ∃ children', node = JsonObject children')
  ∧ (∀ children tokens node rest,
       parseArray fuel children tokens = Ok (node, rest) →
       ∃ children', node = JsonArray children').
Proof.
  induction fuel as [|fuel [IHo IHa]]; [done|]. split.
  - intros children [|token tokens] node rest; [done|].
    rewrite parseObject_step. repeat case_decide; try done.
    + intros [= <- <-]. by eexists.
    + apply IHo.
    + apply IHo.
    + destruct (JSON_parse (value token)); simpl; [|done..].
      destruct (parseComments [] tokens) as [cs1 r1].
      destruct (consume (Some COLON) r1) as [[t r2]| |]; simpl; [|done..].
      destruct (parseComments [] r2) as [cs2 r3].
      destruct (parseValue fuel r3) as [[v r4]| |]; simpl; [|done..].
      apply IHo.
  - intros children [|token tokens] node rest; [done|].
    rewrite parseArray_step. repeat case_decide; try done.
    + intros [= <- <-]. by eexists.
    + apply IHa.
    + apply IHa.
    + destruct (parseValue fuel (token :: tokens)) as [[v r4]| |]; simpl;
        [|done..].
      apply IHa.
Qed.

Lemma parseValue_not_comment fuel token tokens node rest :
  type token ≠ COMMENT →
  parseValue fuel (token :: tokens) = Ok (node, rest) →
  isComment node = false.
Proof.
  intros Hty. destruct fuel as [|fuel]; [done|].
  rewrite parseValue_step. destruct (type token); try done.
  - by intros (ch & ->)%(proj1 (parse_loops_shape fuel)).
  - by intros (ch & ->)%(proj2 (parse_loops_shape fuel)).
  - destruct (JSON_parse (value token)); simpl; [|done..].
    by intros [= <- <-].
  - by intros [= <- <-].
  - by intros [= <- <-].
  - by intros [= <- <-].
Qed.

Lemma parse_not_comment tokens root :
  parse tokens = Ok root → isComment root = false.
Proof.
  unfold parse, parse_rest.
  destruct (parseComments [] tokens) as [cs r] eqn:E.
  apply parseComments_head in E.
  destruct r as [|t r]; simpl peek; [by intros [= <-]|].
  destruct (parseValue _ (t :: r)) as [[root0 rest0]| |] eqn:Ev; simpl;
    [|done..].
  apply parseValue_not_comment in Ev; [|done].
  intros [= <-]. by destruct root0.
Qed.
End Root.

(** ** The numbers of the examples *)

Lemma literal_numbers_laws : @JsNumberLaws literal_numbers.
Proof.
  split.
  - intros v. simpl. destruct (number_literal v) eqn:E; auto.
  - intros v. simpl. destruct (number_literal v) eqn:E.
    + by rewrite E.
    + intros Hnull. by vm_compute in Hnull.
Qed.

Lemma plain_last_endsWithLF s : plain_last s → endsWithLF s = false.
Proof.
  intros (c & Hc & Hsp). unfold endsWithLF. rewrite Hc.
  apply N.eqb_neq. intros ->. by vm_compute in Hsp.
Qed.

(** ** Lexing the pieces of a rendering *)

(** Writes the constant strings of the goal as lists of characters. *)
Ltac js_chars :=
  repeat match goal with
  | |- context [js ?s] =>
      let v := eval vm_compute in (js s) in change (js s) with v
  end.

Lemma COMMENT_regex_none c rest : c ≠ 47%N → COMMENT_regex (c :: rest) = None.
Proof.
  intros Hc. destruct rest as [|d rest]; [done|]. simpl.
  by destruct (N.eqb_spec c 47).
Qed.

Lemma STRING_regex_none c rest : c ≠ 34%N → STRING_regex (c :: rest) = None.
Proof. intros Hc. simpl. by destruct (N.eqb_spec c 34). Qed.

Lemma NUMBER_regex_none c rest :
  c ≠ 45%N → is_digit c = false → NUMBER_regex (c :: rest) = None.
Proof.
  intros Hc Hd. unfold NUMBER_regex, opt_minus.
  destruct (N.eqb_spec c 45); [done|]. unfold int_part.
  destruct (N.eqb_spec c 48) as [->|?]; [done|].
  assert (¬ (49 ≤ c ≤ 57)%N) as Hnot.
  { unfold is_digit in Hd.
    apply andb_false_iff in Hd as [Hd|Hd]; apply N.leb_gt in Hd; lia. }
  destruct (N.leb_spec 49 c), (N.leb_spec c 57); simpl; try done. lia.
Qed.

Lemma literal_none w word c rest : c ≠ w → literal (w :: word) (c :: rest) = None.
Proof. intros Hc. simpl. by destruct (N.eqb_spec c w). Qed.

Lemma WHITESPACE_regex_none c rest :
  is_space c = false → WHITESPACE_regex (c :: rest) = None.
Proof. intros Hc. unfold WHITESPACE_regex. simpl. by rewrite Hc. Qed.

Lemma lexes_nil : lexes [] [].
Proof. intros line. by exists []. Qed.

(** A token at the start of the text. *)
Lemma lexes_token ty v rest kvs :
  first_match PATTERNS (v ++ rest) = Some (ty, v, rest) →
  ty ≠ WHITESPACE →
  lexes rest kvs → lexes (v ++ rest) ((ty, v) :: kvs).
Proof.
  intros Hm Hty Hrest line.
  destruct (Hrest (line + count_newlines v)) as (tokens & Htok & Hkv).
  exists (mkToken ty v line :: tokens).
  destruct (v ++ rest) as [|c text] eqn:E.
  { by apply first_match_app in Hm as [_ ?]; destruct v. }
  rewrite tokenize_from_cons, Hm, Htok. simpl.
  case_decide; [|done]. split; [done|]. simpl. by rewrite Hkv.
Qed.

(** What a text lexes to does not depend on the line it starts at. *)
Lemma lexes_any_line text line tokens :
  tokenize_from text line = Ok tokens → lexes text (map kv_of tokens).
Proof.
  revert line tokens. induction text as [text IH] using length_ind.
  intros line tokens Htok line'. destruct text as [|c text].
  { injection Htok as <-. by exists []. }
  rewrite tokenize_from_cons in Htok |- *.
  destruct (first_match PATTERNS (c :: text)) as [[[ty v] rest]|] eqn:Hm;
    [|done].
  pose proof (first_match_app _ _ _ _ Hm) as [E Hv].
  assert (length rest < length (c :: text)) as Hlen.
  { rewrite E, length_app. destruct v; [done|]. simpl. lia. }
  destruct (tokenize_from rest (line + count_newlines v)) as [toks| |] eqn:Hr;
    simpl in Htok; [|done..].
  destruct (IH rest Hlen _ _ Hr (line' + count_newlines v))
    as (toks' & -> & Hkv).
  simpl. injection Htok as <-.
  case_decide.
  - eexists. split; [done|]. simpl. by rewrite Hkv.
  - eexists. split; [done|]. done.
Qed.

(** White space at the start of the text. *)
Lemma lexes_space ws rest kvs :
  Forall is_space ws → lexes rest kvs → lexes (ws ++ rest) kvs.
Proof.
  intros Hws Hrest. destruct ws as [|c ws]; [done|].
  apply Forall_cons in Hws as [Hc Hws]. apply Is_true_true in Hc.
  destruct (span is_space rest) as [ws' rest'] eqn:E.
  pose proof (span_app _ _ _ _ E) as ->.
  pose proof (span_Forall _ _ _ _ E) as Hws'.
  pose proof (span_stops _ _ _ _ E) as Hstop.
  assert (∀ d s, is_space d = true → Forall is_space s →
    first_match PATTERNS ((d :: s) ++ rest')
    = Some (WHITESPACE, d :: s, rest')) as Hm.
  { intros d s Hd Hs.
    assert (d ≠ 47 ∧ d ≠ 34 ∧ d ≠ 45 ∧ is_digit d = false ∧ d ≠ 116
            ∧ d ≠ 102 ∧ d ≠ 110 ∧ d ≠ 123 ∧ d ≠ 125 ∧ d ≠ 91 ∧ d ≠ 93
            ∧ d ≠ 58 ∧ d ≠ 44)%N as (?&?&?&?&?&?&?&?&?&?&?&?&?).
    { repeat split; try (intros ->; by vm_compute in Hd).
      destruct (is_digit d) eqn:Hdig; [|done].
      apply Is_true_true, is_digit_not_space in Hdig. congruence. }
    unfold PATTERNS, first_match. rewrite <- app_comm_cons.
    rewrite COMMENT_regex_none, STRING_regex_none, NUMBER_regex_none by done.
    unfold BOOLEAN_regex, NULL_regex. js_chars.
    rewrite !literal_none by done.
    unfold WHITESPACE_regex.
    rewrite app_comm_cons, span_exact; [done| |done].
    apply Forall_cons. split; [by apply Is_true_true|done]. }
  assert (lexes rest' kvs) as Hrest'.
  { destruct ws' as [|d ws']; [done|].
    apply Forall_cons in Hws' as [Hd Hws']. apply Is_true_true in Hd.
    destruct (Hrest 0) as (tokens & Htok & <-).
    rewrite <- app_comm_cons, tokenize_from_cons in Htok.
    rewrite app_comm_cons, (Hm d ws' Hd Hws') in Htok.
    destruct (tokenize_from rest' _) as [toks| |] eqn:Hr; simpl in Htok;
      [|done..].
    injection Htok as <-. by eapply lexes_any_line. }
  intros line.
  destruct (Hrest' (line + count_newlines (c :: ws ++ ws')))
    as (tokens & Htok & Hkv).
  exists tokens. split; [|done].
  replace ((c :: ws) ++ ws' ++ rest') with ((c :: ws ++ ws') ++ rest')
    by (simpl; by rewrite (assoc_L (++))).
  rewrite <- app_comm_cons, tokenize_from_cons, app_comm_cons.
  rewrite (Hm c (ws ++ ws') Hc) by (by apply Forall_app).
  by rewrite Htok.
Qed.

(** A delimiter, a colon or a comma at the start of the text. *)
Lemma lexes_char c ty rest kvs :
  (c, ty) ∈ [(123%N, LBRACE); (125%N, RBRACE); (91%N, LBRACKET);
             (93%N, RBRACKET); (58%N, COLON); (44%N, COMMA)] →
  lexes rest kvs → lexes (c :: rest) ((ty, [c]) :: kvs).
Proof.
  intros Hc Hrest. apply (lexes_token ty [c] rest); [|by set_unfold; naive_solver|done].
  unfold PATTERNS, first_match. change ([c] ++ rest) with (c :: rest).
  assert (c ≠ 47 ∧ c ≠ 34 ∧ c ≠ 45 ∧ is_digit c = false ∧ c ≠ 116
          ∧ c ≠ 102 ∧ c ≠ 110)%N as (?&?&?&?&?&?&?).
  { set_unfold. destruct Hc as [Hc|[Hc|[Hc|[Hc|[Hc|[Hc|[]]]]]]];
      injection Hc as -> ->; done. }
  rewrite COMMENT_regex_none, STRING_regex_none, NUMBER_regex_none by done.
  unfold BOOLEAN_regex, NULL_regex. js_chars.
  rewrite !literal_none by done.
  set_unfold. destruct Hc as [Hc|[Hc|[Hc|[Hc|[Hc|[Hc|[]]]]]]];
    injection Hc as -> ->; reflexivity.
Qed.

(** One of the words [true], [false] and [null] at the start of the
    text. *)
Lemma lexes_word word ty rest kvs :
  (word, ty) ∈ [(js "true", BOOLEAN); (js "false", BOOLEAN);
                (js "null", NULL)] →
  lexes rest kvs → lexes (word ++ rest) ((ty, word) :: kvs).
Proof.
  intros Hw Hrest.
  apply (lexes_token ty word rest); [|by set_unfold; naive_solver|done].
  unfold PATTERNS, first_match.
  set_unfold. destruct Hw as [Hw|[Hw|[Hw|[]]]]; injection Hw as -> ->.
  - change (js "true" ++ rest) with (116%N :: (js "rue" ++ rest)).
    rewrite COMMENT_regex_none, STRING_regex_none, NUMBER_regex_none by done.
    unfold BOOLEAN_regex.
    change (116%N :: (js "rue" ++ rest)) with (js "true" ++ rest).
    by rewrite literal_exact.
  - change (js "false" ++ rest) with (102%N :: (js "alse" ++ rest)).
    rewrite COMMENT_regex_none, STRING_regex_none, NUMBER_regex_none by done.
    unfold BOOLEAN_regex. js_chars. rewrite literal_none by done.
    change (102%N :: [97; 108; 115; 101]%N ++ rest)
      with ([102; 97; 108; 115; 101]%N ++ rest).
    by rewrite literal_exact.
  - change (js "null" ++ rest) with (110%N :: (js "ull" ++ rest)).
    rewrite COMMENT_regex_none, STRING_regex_none, NUMBER_regex_none by done.
    unfold BOOLEAN_regex, NULL_regex. js_chars. rewrite !literal_none by done.
    change (110%N :: [117; 108; 108]%N ++ rest)
      with ([110; 117; 108; 108]%N ++ rest).
    by rewrite literal_exact.
Qed.

(** A number literal at the start of the text. *)
Lemma lexes_number s rest kvs :
  number_literal s = true → number_follow rest →
  lexes rest kvs → lexes (s ++ rest) ((NUMBER, s) :: kvs).
Proof.
  intros Hs%number_literal_json Hfollow Hrest.
  apply (lexes_token NUMBER s rest); [|done|done].
  unfold PATTERNS, first_match.
  rewrite (NUMBER_regex_complete s rest Hs Hfollow).
  destruct Hs as (sign & i & f & e & -> & Hsign & Hi & _).
  assert (∃ c r, (sign ++ i ++ f ++ e) ++ rest = c :: r
                 ∧ c ≠ 47%N ∧ c ≠ 34%N) as (c & r & -> & ? & ?).
  { destruct Hsign as [-> | ->]; [|by eexists _, _].
    destruct Hi as [->|(d & ds & -> & Hd & _)].
    - by eexists _, _.
    - eexists _, _. split; [done|]. lia. }
  by rewrite COMMENT_regex_none, STRING_regex_none.
Qed.

(** ** Lexing a string that [JSON.stringify] wrote *)

Lemma string_tail_plain c s body rest :
  c ≠ 92%N → c ≠ 34%N →
  string_tail s = Some (body, rest) →
  string_tail (c :: s) = Some (c :: body, rest).
Proof.
  intros H1 H2 Hs. simpl.
  destruct (N.eqb_spec c 92); [done|]. destruct (N.eqb_spec c 34); [done|].
  by rewrite Hs.
Qed.

Lemma string_tail_escape d s body rest :
  is_line_terminator d = false →
  string_tail s = Some (body, rest) →
  string_tail (92%N :: d :: s) = Some (92%N :: d :: body, rest).
Proof. intros Hd Hs. simpl. by rewrite Hd, Hs. Qed.

Lemma hex_digit_plain n :
  (n < 16)%N → hex_digit n ≠ 92%N ∧ hex_digit n ≠ 34%N.
Proof.
  intros Hn. unfold hex_digit. destruct (N.ltb_spec n 10); lia.
Qed.

Lemma string_tail_unicode_escape c s body rest :
  string_tail s = Some (body, rest) →
  string_tail (unicode_escape c ++ s) = Some (unicode_escape c ++ body, rest).
Proof.
  intros Hs. unfold unicode_escape.
  change ([?a; ?b; ?c1; ?c2; ?c3; ?c4] ++ ?l)
    with (a :: b :: c1 :: c2 :: c3 :: c4 :: l).
  apply string_tail_escape; [done|].
  pose proof (hex_digit_plain ((c / 4096) `mod` 16)
                ltac:(apply N.mod_lt; lia)) as [??].
  pose proof (hex_digit_plain ((c / 256) `mod` 16)
                ltac:(apply N.mod_lt; lia)) as [??].
  pose proof (hex_digit_plain ((c / 16) `mod` 16)
                ltac:(apply N.mod_lt; lia)) as [??].
  pose proof (hex_digit_plain (c `mod` 16) ltac:(apply N.mod_lt; lia))
    as [??].
  by do 4 (apply string_tail_plain; [done|done|]).
Qed.

Lemma string_tail_quote_char c s body rest :
  string_tail s = Some (body, rest) →
  string_tail (quote_char c ++ s) = Some (quote_char c ++ body, rest).
Proof.
  intros Hs. unfold quote_char.
  repeat (match goal with
          | |- context [(c =? ?k)%N] => destruct (N.eqb_spec c k) as [->|?]
          end; [by apply string_tail_escape|]).
  destruct (N.ltb_spec c 32); [by apply string_tail_unicode_escape|].
  by apply string_tail_plain.
Qed.

Lemma string_tail_quote_body v rest :
  string_tail (quote_body v ++ QUOTE :: rest)
  = Some (quote_body v ++ [QUOTE], rest).
Proof.
  induction v as [v IH] using length_ind.
  destruct v as [|c v]; [done|]. cbn [quote_body].
  destruct (is_high_surrogate c) eqn:Hh.
  - assert (c ≠ 92 ∧ c ≠ 34)%N as [??].
    { unfold is_high_surrogate in Hh. char_tests; lia. }
    destruct v as [|d v].
    { by apply string_tail_unicode_escape. }
    destruct (is_low_surrogate d) eqn:Hl.
    + assert (d ≠ 92 ∧ d ≠ 34)%N as [??].
      { unfold is_low_surrogate in Hl. char_tests; lia. }
      rewrite <- !app_comm_cons.
      do 2 (apply string_tail_plain; [done|done|]).
      apply IH. simpl. lia.
    + rewrite <- !(assoc_L (++)). apply string_tail_unicode_escape.
      apply IH. simpl. lia.
  - destruct (is_low_surrogate c) eqn:Hl.
    + rewrite <- !(assoc_L (++)). apply string_tail_unicode_escape.
      apply IH. simpl. lia.
    + rewrite <- !(assoc_L (++)). apply string_tail_quote_char.
      apply IH. simpl. lia.
Qed.

(** A string literal written by [JSON.stringify] at the start of the
    text. *)
Lemma lexes_string v rest kvs :
  lexes rest kvs →
  lexes (JSON_stringify_string v ++ rest)
    ((STRING, JSON_stringify_string v) :: kvs).
Proof.
  intros Hrest.
  apply (lexes_token STRING (JSON_stringify_string v) rest); [|done|done].
  unfold PATTERNS, first_match, JSON_stringify_string.
  rewrite <- app_comm_cons, COMMENT_regex_none by done.
  unfold STRING_regex. change (QUOTE =? 34)%N with true. cbv iota.
  rewrite <- (assoc_L (++)). simpl.
  by rewrite string_tail_quote_body.
Qed.

(** ** Lexing a comment *)

Lemma block_comment_end_cons c s :
  block_comment_end (c :: s)
  = if (c =? 42)%N then
      match s with
      | d :: s2 =>
          if (d =? 47)%N then Some ([c; d], s2)
          else '(body, rest) ← block_comment_end s; Some (c :: body, rest)
      | [] => None
      end
    else '(body, rest) ← block_comment_end s; Some (c :: body, rest).
Proof. done. Qed.

Lemma block_comment_end_more s body r rest :
  block_comment_end s = Some (body, r) →
  block_comment_end (s ++ rest) = Some (body, r ++ rest).
Proof.
  revert body r. induction s as [|c s IH]; intros body r; [done|].
  rewrite <- app_comm_cons, !block_comment_end_cons.
  assert (('(body, rest) ← block_comment_end s; Some (c :: body, rest))
          = Some (body, r) →
          ('(body, rest) ← block_comment_end (s ++ rest); Some (c :: body, rest))
          = Some (body, r ++ rest)) as Hcont.
  { destruct (block_comment_end s) as [[b r']|]; [|done]. simpl.
    intros [= <- <-]. by rewrite (IH b r'). }
  destruct (c =? 42)%N; [|done].
  destruct s as [|d s]; [done|]. rewrite <- app_comm_cons.
  destruct (d =? 47)%N; [|done]. by intros [= <- <-].
Qed.

Lemma block_comment_end_prefix body r :
  block_comment_end (body ++ r) = Some (body, r) →
  block_comment_end body = Some (body, []).
Proof.
  revert r. induction body as [|c b IH]; intros r.
  { intros E. by apply block_comment_end_app in E as [_ ?]. }
  rewrite <- app_comm_cons, !block_comment_end_cons.
  assert (('(body, rest) ← block_comment_end (b ++ r); Some (c :: body, rest))
          = Some (c :: b, r) →
          ('(body, rest) ← block_comment_end b; Some (c :: body, rest))
          = Some (c :: b, [])) as Hcont.
  { destruct (block_comment_end (b ++ r)) as [[b0 r0]|] eqn:E; [|done].
    simpl. intros [= -> ->]. by rewrite (IH _ E). }
  destruct (c =? 42)%N; [|done].
  destruct b as [|d b].
  - simpl. destruct r as [|d r]; [done|].
    destruct (d =? 47)%N; [done|].
    destruct (block_comment_end (d :: r)) as [[b0 r0]|] eqn:E; [|done].
    simpl. intros [= -> ->]. by apply block_comment_end_app in E as [_ ?].
  - rewrite <- app_comm_cons. destruct (d =? 47)%N; [|done].
    intros [= E1 E2]. destruct b; [done|].
    apply (f_equal length) in E2. simpl in E2. rewrite length_app in E2. lia.
Qed.

Lemma block_comment_end_self s body r :
  block_comment_end s = Some (body, r) →
  block_comment_end body = Some (body, []).
Proof.
  intros E. pose proof (block_comment_end_app _ _ _ E) as [-> _].
  by apply block_comment_end_prefix in E.
Qed.

Lemma block_comment_end_last s :
  block_comment_end s = Some (s, []) → last s = Some 47%N.
Proof.
  induction s as [|c s IH]; [done|]. rewrite block_comment_end_cons.
  assert (('(body, rest) ← block_comment_end s; Some (c :: body, rest))
          = Some (c :: s, []) → last (c :: s) = Some 47%N) as Hcont.
  { destruct (block_comment_end s) as [[b r']|] eqn:E; [|done]. simpl.
    intros [= -> ->]. rewrite last_cons, (IH eq_refl). done. }
  destruct (c =? 42)%N; [|done].
  destruct s as [|d s]; [done|].
  destruct (N.eqb_spec d 47) as [->|?]; [|done]. by intros [= _ ->].
Qed.

Lemma comment_text_cases text :
  comment_text text →
  (∃ body, text = js "//" ++ body
           ∧ Forall (λ c, negb (is_line_terminator c)) body)
  ∨ (∃ s, text = js "/*" ++ s ∧ block_comment_end s = Some (s, [])).
Proof.
  unfold comment_text, COMMENT_regex.
  destruct text as [|c [|d s]]; [done..|].
  destruct ((c =? 47) && (d =? 47))%N eqn:E1.
  { char_tests. subst.
    destruct (span _ s) as [body r] eqn:E. intros [= -> ->].
    left. exists s. split; [done|]. by apply span_Forall in E. }
  destruct ((c =? 47) && (d =? 42))%N eqn:E2; [|done].
  assert (c = 47 ∧ d = 42)%N as [-> ->]
    by (apply andb_true_iff in E2 as [?%N.eqb_eq ?%N.eqb_eq]; done).
  destruct (block_comment_end s) as [[body r]|] eqn:E; [|done]. simpl.
  intros [= -> ->]. right. by exists s.
Qed.

Lemma COMMENT_regex_self text v rest :
  COMMENT_regex text = Some (v, rest) → comment_text v.
Proof.
  unfold comment_text, COMMENT_regex.
  destruct text as [|c [|d s]]; [done..|].
  destruct ((c =? 47) && (d =? 47))%N eqn:E1.
  { destruct (span _ s) as [body r] eqn:E. intros [= <- <-].
    rewrite E1.
    apply span_Forall in E.
    pose proof (span_exact _ body [] E I) as E'.
    rewrite app_nil_r in E'. by rewrite E'. }
  destruct ((c =? 47) && (d =? 42))%N eqn:E2; [|done].
  destruct (block_comment_end s) as [[body r]|] eqn:E; [|done]. simpl.
  intros [= <- <-]. rewrite E1, E2.
  by rewrite (block_comment_end_self _ _ _ E).
Qed.

Lemma COMMENT_regex_exact text rest :
  comment_text text → comment_follow rest →
  COMMENT_regex (text ++ rest) = Some (text, rest).
Proof.
  intros [(body & -> & Hbody)|(s & -> & Hs)]%comment_text_cases Hrest.
  - change (js "//" ++ body) with (47%N :: 47%N :: body).
    rewrite <- !app_comm_cons. unfold COMMENT_regex.
    change ((47 =? 47)%N && (47 =? 47)%N) with true. cbv iota.
    rewrite span_exact; [done|done|].
    destruct rest as [|c rest]; [done|]. simpl in *.
    unfold is_line_terminator.
    by destruct Hrest as [-> | ->].
  - change (js "/*" ++ s) with (47%N :: 42%N :: s).
    rewrite <- !app_comm_cons. unfold COMMENT_regex.
    change ((47 =? 47)%N && (42 =? 47)%N) with false.
    change ((47 =? 47)%N && (42 =? 42)%N) with true. cbv iota.
    by rewrite (block_comment_end_more _ _ _ rest Hs).
Qed.

Lemma comment_text_last text :
  comment_text text → ∃ c, last text = Some c ∧ c ≠ CR ∧ c ≠ LF.
Proof.
  intros [(body & -> & Hbody)|(s & -> & Hs)]%comment_text_cases.
  - destruct (last body) as [c|] eqn:E.
    + exists c. rewrite last_app, E. split; [done|].
      apply last_Some in E as [b' ->].
      apply Forall_app in Hbody as [_ [Hc _]%Forall_cons].
      apply Is_true_true, negb_true_iff in Hc.
      split; intros ->; done.
    + apply last_None in E as ->. by exists 47%N.
  - exists 47%N. rewrite last_app, (block_comment_end_last _ Hs). done.
Qed.

(** A comment at the start of the text. *)
Lemma lexes_comment text rest kvs :
  comment_text text → comment_follow rest →
  lexes rest kvs → lexes (text ++ rest) ((COMMENT, text) :: kvs).
Proof.
  intros Htext Hfollow Hrest.
  apply (lexes_token COMMENT text rest); [|done|done].
  unfold PATTERNS, first_match. by rewrite COMMENT_regex_exact.
Qed.

(** ** Comments under the rewriting of line terminators *)

Lemma block_tail_plain c s :
  c ≠ 42%N →
  block_comment_end (c :: s) = Some (c :: s, [])
  ↔ block_comment_end s = Some (s, []).
Proof.
  intros Hc. rewrite block_comment_end_cons.
  destruct (N.eqb_spec c 42); [done|].
  destruct (block_comment_end s) as [[b r]|]; simpl; [|done].
  split; [by intros [= -> ->]|by intros [= -> ->]].
Qed.

Lemma block_tail_star d s :
  d ≠ 47%N →
  block_comment_end (42%N :: d :: s) = Some (42%N :: d :: s, [])
  ↔ block_comment_end (d :: s) = Some (d :: s, []).
Proof.
  intros Hd. rewrite (block_comment_end_cons 42).
  change (42 =? 42)%N with true. cbv iota.
  destruct (N.eqb_spec d 47); [done|].
  destruct (block_comment_end (d :: s)) as [[b r]|]; simpl; [|done].
  split; [by intros [= -> ->]|by intros [= -> ->]].
Qed.

Lemma replace_newlines_head nl s :
  nl = [LF] ∨ nl = [CR; LF] →
  head s ≠ Some 47%N → head (replace_newlines nl s) ≠ Some 47%N.
Proof.
  intros Hnl. destruct s as [|c s]; [done|]. simpl. intros Hc.
  destruct (N.eqb_spec c CR) as [->|?].
  - destruct s as [|d s]; [done|].
    destruct (N.eqb_spec d LF); [|done]. by destruct Hnl as [-> | ->].
  - destruct (N.eqb_spec c LF); [|done]. by destruct Hnl as [-> | ->].
Qed.

Lemma block_tail_newline nl s :
  nl = [LF] ∨ nl = [CR; LF] →
  block_comment_end s = Some (s, []) →
  block_comment_end (nl ++ s) = Some (nl ++ s, []).
Proof.
  intros [-> | ->] Hs; simpl app.
  - by apply block_tail_plain.
  - by do 2 (apply block_tail_plain; [done|]).
Qed.

Lemma block_tail_replace nl s :
  nl = [LF] ∨ nl = [CR; LF] →
  block_comment_end s = Some (s, []) →
  block_comment_end (replace_newlines nl s)
  = Some (replace_newlines nl s, []).
Proof.
  intros Hnl. induction s as [s IH] using length_ind. intros Hs.
  destruct s as [|c s]; [done|].
  destruct (decide (c = 42%N)) as [->|Hc].
  - rewrite replace_newlines_cons by done.
    destruct s as [|d s]; [done|].
    destruct (decide (d = 47%N)) as [->|Hd].
    + rewrite block_comment_end_cons in Hs. simpl in Hs.
      injection Hs as _ ->. reflexivity.
    + apply (proj1 (block_tail_star d s Hd)) in Hs.
      apply (IH (d :: s)) in Hs; [|simpl; lia].
      pose proof (replace_newlines_head nl (d :: s) Hnl) as Hhead.
      destruct (replace_newlines nl (d :: s)) as [|d' s'] eqn:E; [done|].
      apply block_tail_star; [|done]. intros ->. by apply Hhead; [intros [=]|].
  - apply (proj1 (block_tail_plain c s Hc)) in Hs.
    destruct (decide (c = CR)) as [->|Hcr].
    + destruct s as [|d s]; [done|].
      destruct (decide (d = LF)) as [->|Hlf].
      * rewrite replace_newlines_CRLF.
        apply (proj1 (block_tail_plain LF s ltac:(done))) in Hs.
        apply block_tail_newline; [done|]. apply IH; [simpl; lia|done].
      * rewrite replace_newlines_CR by done.
        apply block_tail_plain; [done|]. apply IH; [simpl; lia|done].
    + destruct (decide (c = LF)) as [->|Hlf].
      * rewrite replace_newlines_LF.
        apply block_tail_newline; [done|]. apply IH; [simpl; lia|done].
      * rewrite replace_newlines_cons by done.
        apply block_tail_plain; [done|]. apply IH; [simpl; lia|done].
Qed.

Lemma comment_text_replace nl text :
  nl = [LF] ∨ nl = [CR; LF] →
  comment_text text → comment_text (replace_newlines nl text).
Proof.
  intros Hnl Htext.
  destruct (comment_text_cases _ Htext)
    as [(body & -> & Hbody)|(s & -> & Hs)].
  - rewrite replace_newlines_id; [done|].
    change (js "//" ++ body) with (47%N :: 47%N :: body).
    rewrite !not_elem_of_cons. split; [done|]. split; [done|].
    intros Hin. rewrite Forall_forall in Hbody. by apply Hbody in Hin.
  - change (js "/*" ++ s) with (47%N :: 42%N :: s).
    rewrite !replace_newlines_cons by done.
    unfold comment_text, COMMENT_regex.
    change ((47 =? 47)%N && (42 =? 47)%N) with false.
    change ((47 =? 47)%N && (42 =? 42)%N) with true. cbv iota.
    by rewrite (block_tail_replace nl s Hnl Hs).
Qed.

(** ** Scalars are printed without control characters *)

Lemma printable_replace nl s : printable s → replace_newlines nl s = s.
Proof.
  intros Hs. apply replace_newlines_id. intros Hin.
  unfold printable in Hs. rewrite Forall_forall in Hs.
  apply Hs in Hin. unfold LF in Hin. lia.
Qed.

Lemma printable_app s1 s2 : printable s1 → printable s2 → printable (s1 ++ s2).
Proof. intros. by apply Forall_app. Qed.

Lemma hex_digit_printable n : (32 ≤ hex_digit n)%N.
Proof. unfold hex_digit. destruct (N.ltb_spec n 10); lia. Qed.

Lemma unicode_escape_printable c : printable (unicode_escape c).
Proof.
  unfold unicode_escape. repeat apply Forall_cons_2;
    try apply hex_digit_printable; try lia. constructor.
Qed.

Lemma quote_char_printable c : printable (quote_char c).
Proof.
  unfold quote_char.
  repeat (match goal with
          | |- context [(c =? ?k)%N] => destruct (N.eqb_spec c k) as [->|?]
          end; [by repeat constructor|]).
  destruct (N.ltb_spec c 32); [apply unicode_escape_printable|].
  by repeat constructor.
Qed.

Lemma quote_body_printable v : printable (quote_body v).
Proof.
  induction v as [v IH] using length_ind.
  destruct v as [|c v]; [constructor|]. cbn [quote_body].
  destruct (is_high_surrogate c) eqn:Hh.
  - destruct v as [|d v]; [apply unicode_escape_printable|].
    destruct (is_low_surrogate d) eqn:Hl.
    + unfold is_high_surrogate, is_low_surrogate in *.
      apply Forall_cons_2; [char_tests; lia|].
      apply Forall_cons_2; [char_tests; lia|].
      apply IH. simpl. lia.
    + apply printable_app; [apply unicode_escape_printable|].
      apply IH. simpl. lia.
  - destruct (is_low_surrogate c).
    + apply printable_app; [apply unicode_escape_printable|].
      apply IH. simpl. lia.
    + apply printable_app; [apply quote_char_printable|].
      apply IH. simpl. lia.
Qed.

Lemma JSON_stringify_string_printable v : printable (JSON_stringify_string v).
Proof.
  unfold JSON_stringify_string. apply Forall_cons_2; [done|].
  apply printable_app; [apply quote_body_printable|by repeat constructor].
Qed.

Lemma digits_printable ds : Forall is_digit ds → printable ds.
Proof.
  intros Hds. eapply Forall_impl; [exact Hds|].
  intros c Hc. unfold is_digit in Hc.
  apply Is_true_true in Hc. char_tests. simpl. lia.
Qed.

Lemma json_number_printable s : json_number s → printable s.
Proof.
  intros (sign & i & f & e & -> & Hsign & Hi & Hf & He).
  repeat apply printable_app.
  - by destruct Hsign as [-> | ->]; repeat constructor.
  - destruct Hi as [->|(d & ds & -> & Hd & Hds)]; [by repeat constructor|].
    apply Forall_cons_2; [lia|by apply digits_printable].
  - destruct Hf as [->|(ds & -> & _ & Hds)]; [constructor|].
    apply Forall_cons_2; [done|by apply digits_printable].
  - destruct He as [->|(c & sg & ds & -> & Hc & Hsg & _ & Hds)];
      [constructor|].
    apply Forall_cons_2; [destruct Hc as [-> | ->]; done|].
    apply printable_app; [|by apply digits_printable].
    by destruct Hsg as [->|[-> | ->]]; repeat constructor.
Qed.

(** ** Induction on trees *)

Section AstInduction.
Context `{JsNumber}.
Variable P : AstNode → Prop.
Hypothesis Hstring : ∀ v raw, P (JsonString v raw).
Hypothesis Hnumber : ∀ v raw, P (JsonNumber v raw).
Hypothesis Hboolean : ∀ v raw, P (JsonBoolean v raw).
Hypothesis Hnull : ∀ raw, P (JsonNull raw).
Hypothesis Hcomment : ∀ c, P (Comment c).
Hypothesis Harray : ∀ children, Forall P children → P (JsonArray children).
Hypothesis Hobject : ∀ children,
  Forall (λ child, match child with
                   | OComment _ => True
                   | OPair _ val => P val
                   end) children →
  P (JsonObject children).

Lemma AstNode_nested_ind : ∀ node, P node.
Proof.
  fix IH 1. intros [v raw|v raw|v raw|raw|c|children|children].
  - apply Hstring.
  - apply Hnumber.
  - apply Hboolean.
  - apply Hnull.
  - apply Hcomment.
  - apply Harray. induction children as [|child later IHl]; constructor.
    + apply IH.
    + apply IHl.
  - apply Hobject. induction children as [|child later IHl]; constructor.
    + destruct child as [c|key val]; [exact I|apply IH].
    + apply IHl.
Qed.
End AstInduction.

(** ** Lexing a rendering *)

Lemma join_concat sep p ps :
  join sep (p :: ps) = p ++ concat (map (λ q, sep ++ q) ps).
Proof.
  revert p. induction ps as [|q ps IH]; intros p.
  - simpl. by rewrite app_nil_r.
  - rewrite join_cons, IH. simpl. by rewrite <- !(assoc_L (++)).
Qed.

Lemma join_nil sep : join sep [] = [].
Proof. done. Qed.

Lemma repeat_str_Forall (P : N → Prop) s n :
  Forall P s → Forall P (repeat_str s n).
Proof.
  intros Hs. induction n as [|n IH]; simpl; [constructor|].
  by apply Forall_app.
Qed.

Lemma indent_blank cfg n :
  Forall (λ c, c = TAB ∨ c = SPACE)
    (repeat_str (indentStr (new_MaaPipelineFormatter cfg)) n).
Proof.
  apply repeat_str_Forall. simpl.
  apply repeat_str_Forall.
  destruct (style (indent cfg)); apply Forall_cons_2; auto; constructor.
Qed.

Lemma blank_space s : Forall (λ c, c = TAB ∨ c = SPACE) s → Forall is_space s.
Proof. intros Hs. eapply Forall_impl; [exact Hs|]. by intros c [-> | ->]. Qed.

Lemma blank_replace nl s :
  Forall (λ c, c = TAB ∨ c = SPACE) s → replace_newlines nl s = s.
Proof.
  intros Hs. apply replace_newlines_id. intros Hin.
  rewrite Forall_forall in Hs. by destruct (Hs _ Hin).
Qed.

Lemma blank_last s :
  Forall (λ c, c = TAB ∨ c = SPACE) s → last s ≠ Some CR.
Proof.
  intros Hs Hlast. apply last_Some in Hlast as [s' ->].
  by apply Forall_app in Hs as [_ [[?|?] _]%Forall_cons].
Qed.

Section Relex.
Context `{JsNumberLaws}.
Variable cfg : MaaFormatConfig.
Local Abbreviation this := (new_MaaPipelineFormatter cfg).
Local Abbreviation nl := (newline_text cfg).

Lemma newline_text_cases : nl = [LF] ∨ nl = [CR; LF].
Proof. unfold newline_text. destruct (newline _); auto. Qed.

Lemma newline_text_space : Forall is_space nl.
Proof. destruct newline_text_cases as [-> | ->]; by repeat constructor. Qed.

Lemma value_follow_number rest : value_follow rest → number_follow rest.
Proof.
  destruct rest as [|c rest]; [done|]. simpl.
  intros [->|[->|[->|[-> | ->]]]]; done.
Qed.

Lemma stringify_number_cases v :
  (JSON_stringify_number v = js "null"
   ∧ number_tokens v = [(NULL, js "null")])
  ∨ (number_literal (JSON_stringify_number v) = true
     ∧ number_tokens v = [(NUMBER, JSON_stringify_number v)]).
Proof.
  unfold number_tokens.
  destruct (stringify_number_shape v) as [E|E].
  - left. rewrite E. split; [done|]. by case_decide.
  - right. split; [done|]. case_decide as Hn; [|done].
    rewrite Hn in E. by vm_compute in E.
Qed.

Lemma scalar_printable node level key mode :
  isScalar node → printable (formatNode this node level key mode).
Proof.
  destruct node as [v raw|v raw|v raw|raw|c|children|children]; try done;
    intros _; cbn [formatNode].
  - apply JSON_stringify_string_printable.
  - destruct (stringify_number_cases v) as [[-> _]|[E _]].
    + by repeat constructor.
    + by apply json_number_printable, number_literal_json.
  - by destruct v; repeat constructor.
  - by repeat constructor.
Qed.

Lemma relex_scalar node level key mode rest kvs :
  isScalar node → value_follow rest → lexes rest kvs →
  lexes (formatNode this node level key mode ++ rest)
    (node_tokens nl node ++ kvs).
Proof.
  destruct node as [v raw|v raw|v raw|raw|c|children|children]; try done;
    intros _ Hfollow Hrest; cbn [formatNode node_tokens].
  - by apply lexes_string.
  - destruct (stringify_number_cases v) as [[-> ->]|[E ->]].
    + apply lexes_word; [set_solver|done].
    + apply lexes_number; [done|by apply value_follow_number|done].
  - destruct v; (apply lexes_word; [set_solver|done]).
  - apply lexes_word; [set_solver|done].
Qed.

Lemma scalar_not_comment (node : AstNode) : isScalar node → isComment node = false.
Proof. by destruct node. Qed.

(** *** Inline arrays *)

Lemma relex_inline_items (later : list AstNode) rest kvs :
  Forall isScalar later → lexes rest kvs →
  lexes (concat (map (λ q, js ", " ++ q)
                   (map (λ child, formatNode this child 0 [] true) later))
         ++ js "]" ++ rest)
    (comma_token isComment later ++ array_tokens (node_tokens nl) later
     ++ (RBRACKET, js "]") :: kvs).
Proof.
  intros Hall Hrest. induction Hall as [|child later Hc Hall IH].
  - simpl. apply (lexes_char 93%N RBRACKET); [set_solver|done].
  - cbn [map concat array_tokens]. unfold comma_token at 1.
    cbn [existsb]. rewrite (scalar_not_comment child) by done. simpl negb.
    cbn [orb]. rewrite <- !(assoc_L (++)).
    change (js ", " ++ ?x) with (44%N :: ([SPACE] ++ x)).
    apply (lexes_char 44%N COMMA); [set_solver|].
    apply lexes_space; [by repeat constructor|].
    apply relex_scalar; [done| |done].
    destruct later; simpl; auto.
Qed.

Lemma relex_inline_array (children : list AstNode) rest kvs :
  Forall isScalar children → lexes rest kvs →
  lexes (formatInlineArray this children ++ rest)
    (node_tokens nl (JsonArray children) ++ kvs).
Proof.
  intros Hall Hrest. unfold formatInlineArray, formatInlineArray_body.
  cbn [node_tokens]. rewrite <- !(assoc_L (++)).
  change (js "[" ++ ?x) with (91%N :: x).
  change ([(LBRACKET, js "[")] ++ ?x) with ((LBRACKET, [91%N]) :: x).
  apply (lexes_char 91%N LBRACKET); [set_solver|].
  destruct Hall as [|child later Hc Hall].
  - rewrite join_nil. simpl.
    apply (lexes_char 93%N RBRACKET); [set_solver|done].
  - cbn [map]. rewrite join_concat. cbn [array_tokens].
    rewrite (scalar_not_comment child) by done.
    rewrite <- !(assoc_L (++)).
    apply relex_scalar; [done| |by apply relex_inline_items].
    destruct later; simpl; auto.
Qed.

Lemma inline_array_printable (children : list AstNode) :
  Forall isScalar children → printable (formatInlineArray this children).
Proof.
  intros Hall. unfold formatInlineArray, formatInlineArray_body.
  apply printable_app; [by repeat constructor|].
  apply printable_app; [|by repeat constructor].
  destruct Hall as [|child later Hc Hall]; [constructor|].
  cbn [map]. rewrite join_concat.
  apply printable_app; [by apply scalar_printable|].
  induction Hall as [|c l Hc' Hall IH]; [constructor|].
  cbn [map concat]. apply printable_app; [|done].
  apply printable_app; [by repeat constructor|by apply scalar_printable].
Qed.

(** *** Inline objects *)

Lemma relex_inline_fields (later : list (ObjectChild AstNode)) rest kvs :
  Forall scalar_pair later → lexes rest kvs →
  lexes (concat (map (λ q, js ", " ++ q)
                   (omap (λ child,
                      match child with
                      | OComment _ => None
                      | OPair key val =>
                          Some (JSON_stringify_string key ++ js ": "
                                ++ formatNode this val 0 [] true)
                      end) later))
         ++ js "}" ++ rest)
    (comma_token isOComment later
     ++ object_tokens nl (node_tokens nl) later
     ++ (RBRACE, js "}") :: kvs).
Proof.
  intros Hall Hrest. induction Hall as [|child later Hc Hall IH].
  - simpl. apply (lexes_char 125%N RBRACE); [set_solver|done].
  - destruct child as [c|key val]; [done|]. simpl in Hc.
    cbn [omap list_omap map concat object_tokens]. unfold comma_token at 1.
    cbn [existsb isOComment negb orb]. rewrite <- !(assoc_L (++)).
    change (js ", " ++ ?x) with (44%N :: ([SPACE] ++ x)).
    apply (lexes_char 44%N COMMA); [set_solver|].
    apply lexes_space; [by repeat constructor|].
    cbn [app]. apply lexes_string.
    change (js ": " ++ ?x) with (58%N :: ([SPACE] ++ x)).
    apply (lexes_char 58%N COLON); [set_solver|].
    apply lexes_space; [by repeat constructor|].
    apply relex_scalar; [done| |done].
    destruct later as [|[?|? ?] ?]; simpl; auto.
    by apply Forall_cons in Hall as [? _].
Qed.

Lemma relex_inline_object (children : list (ObjectChild AstNode)) rest kvs :
  Forall scalar_pair children → lexes rest kvs →
  lexes (formatInlineObject this children ++ rest)
    (node_tokens nl (JsonObject children) ++ kvs).
Proof.
  intros Hall Hrest. unfold formatInlineObject, formatInlineObject_body.
  cbn [node_tokens]. rewrite <- !(assoc_L (++)).
  change (js "{" ++ ?x) with (123%N :: x).
  change ([(LBRACE, js "{")] ++ ?x) with ((LBRACE, [123%N]) :: x).
  apply (lexes_char 123%N LBRACE); [set_solver|].
  destruct Hall as [|child later Hc Hall].
  - cbn [omap list_omap]. rewrite join_nil. simpl.
    apply (lexes_char 125%N RBRACE); [set_solver|done].
  - destruct child as [c|key val]; [done|]. simpl in Hc.
    cbn [omap list_omap]. rewrite join_concat. cbn [object_tokens].
    rewrite <- !(assoc_L (++)).
    cbn [app]. apply lexes_string.
    change (js ": " ++ ?x) with (58%N :: ([SPACE] ++ x)).
    apply (lexes_char 58%N COLON); [set_solver|].
    apply lexes_space; [by repeat constructor|].
    apply relex_scalar; [done| |by apply relex_inline_fields].
    destruct later as [|[?|? ?] ?]; simpl; auto.
    by apply Forall_cons in Hall as [? _].
Qed.

Lemma inline_object_printable (children : list (ObjectChild AstNode)) :
  Forall scalar_pair children → printable (formatInlineObject this children).
Proof.
  intros Hall. unfold formatInlineObject, formatInlineObject_body.
  apply printable_app; [by repeat constructor|].
  apply printable_app; [|by repeat constructor].
  assert (∀ key (val : AstNode), isScalar val →
    printable (JSON_stringify_string key ++ js ": "
               ++ formatNode this val 0 [] true)) as Hpart.
  { intros key val Hval.
    apply printable_app; [apply JSON_stringify_string_printable|].
    apply printable_app; [by repeat constructor|by apply scalar_printable]. }
  destruct Hall as [|child later Hc Hall]; [constructor|].
  destruct child as [c|key val]; [done|].
  cbn [omap list_omap]. rewrite join_concat.
  apply printable_app; [by apply Hpart|].
  induction Hall as [|c l Hc' Hall IH]; [constructor|].
  destruct c as [c|key' val']; [done|].
  cbn [omap list_omap map concat]. apply printable_app; [|done].
  apply printable_app; [by repeat constructor|by apply Hpart].
Qed.

(** *** Expanded containers *)

Lemma replace_newlines_prefix p s :
  LF ∉ p → last p ≠ Some CR →
  replace_newlines nl (p ++ s) = p ++ replace_newlines nl s.
Proof.
  intros Hp Hlast. rewrite replace_newlines_app by done.
  by rewrite (replace_newlines_id _ p).
Qed.

Lemma replace_newlines_suffix s q :
  last s ≠ Some CR → LF ∉ q →
  replace_newlines nl (s ++ q) = replace_newlines nl s ++ q.
Proof.
  intros Hlast Hq. rewrite replace_newlines_app by done.
  by rewrite (replace_newlines_id _ q).
Qed.

Lemma blank_no_LF s : Forall (λ c, c = TAB ∨ c = SPACE) s → LF ∉ s.
Proof.
  intros Hs Hin. rewrite Forall_forall in Hs. by destruct (Hs _ Hin).
Qed.

Lemma printable_no_LF s : printable s → LF ∉ s.
Proof.
  intros Hs Hin. unfold printable in Hs. rewrite Forall_forall in Hs.
  apply Hs in Hin. unfold LF in Hin. lia.
Qed.

Lemma printable_last s : printable s → last s ≠ Some CR.
Proof.
  intros Hs Hlast. apply last_Some in Hlast as [s' ->].
  apply Forall_app in Hs as [_ [Hc _]%Forall_cons]. unfold CR in Hc. lia.
Qed.

Lemma plain_last_CR s : plain_last s → last s ≠ Some CR.
Proof. intros (c & -> & Hc) [= ->]. by vm_compute in Hc. Qed.

Lemma comma_before_cases {A : Type} (isCmt : A → bool) later :
  (comma_before isCmt later = js "," ∧ comma_token isCmt later = [(COMMA, js ",")])
  ∨ (comma_before isCmt later = [] ∧ comma_token isCmt later = []).
Proof.
  unfold comma_before, comma_token. destruct (existsb _ later); auto.
Qed.

Lemma newline_start_nl s : newline_start (nl ++ s).
Proof.
  destruct newline_text_cases as [-> | ->]; eexists _, _; (split; [done|auto]).
Qed.

Lemma newline_start_follow s : newline_start s → value_follow s ∧ comment_follow s.
Proof. intros (c & r & -> & Hc). simpl. tauto. Qed.

Local Abbreviation relexes := (relexes cfg).

Lemma relex_blank_line s rest kvs :
  Forall (λ c, c = TAB ∨ c = SPACE) s →
  lexes rest kvs → lexes (nl ++ s ++ rest) kvs.
Proof.
  intros Hs Hrest. rewrite (assoc_L (++)). apply lexes_space; [|done].
  apply Forall_app. split; [apply newline_text_space|by apply blank_space].
Qed.

Lemma relex_array_lines level (children : list AstNode) E kvs :
  Forall relexes children → all_nodes wf_node children →
  newline_start E → lexes E kvs →
  newline_start
    (concat (map (λ l, nl ++ replace_newlines nl l)
               (array_child_lines cfg level children)) ++ E)
  ∧ lexes
      (concat (map (λ l, nl ++ replace_newlines nl l)
                 (array_child_lines cfg level children)) ++ E)
      (array_tokens (node_tokens nl) children ++ kvs).
Proof.
  intros Hall Hwf HE Hlex. induction Hall as [|child later Hc Hall IH].
  { done. }
  destruct Hwf as [Hwfc Hwf]. destruct (IH Hwf) as [Hstart Hrest].
  cbn [array_child_lines map concat array_tokens].
  rewrite <- !(assoc_L (++)). split; [apply newline_start_nl|].
  pose proof (indent_blank cfg (level + 1)) as Hblank.
  fold (child_indent cfg level) in Hblank.
  rewrite replace_newlines_prefix
    by (by apply blank_no_LF || by apply blank_last).
  rewrite <- !(assoc_L (++)). apply relex_blank_line; [done|].
  destruct (isComment child) eqn:Hcmt.
  - destruct child; try done. cbn [formatNode node_tokens app].
    rewrite app_nil_r. simpl in Hwfc.
    apply lexes_comment;
      [by apply comment_text_replace, Hwfc; apply newline_text_cases
      |by apply newline_start_follow|done].
  - pose proof (formatNode_plain_last this child (level + 1) [] false Hcmt)
      as Hplain.
    destruct (comma_before_cases isComment later) as [[-> ->]|[-> ->]].
    + rewrite replace_newlines_suffix
        by (by apply plain_last_CR || by apply printable_no_LF; repeat constructor).
      rewrite <- !(assoc_L (++)).
      apply Hc; [done|done|simpl; auto|].
      apply (lexes_char 44%N COMMA); [set_solver|done].
    + rewrite app_nil_r. cbn [app].
      apply Hc; [done|done|by apply newline_start_follow|done].
Qed.

Lemma relex_object_lines level (children : list (ObjectChild AstNode)) E kvs :
  Forall (λ child, match child with
                   | OComment _ => True
                   | OPair _ val => relexes val
                   end) children →
  all_values wf_node children →
  newline_start E → lexes E kvs →
  newline_start
    (concat (map (λ l, nl ++ replace_newlines nl l)
               (object_child_lines cfg level children)) ++ E)
  ∧ lexes
      (concat (map (λ l, nl ++ replace_newlines nl l)
                 (object_child_lines cfg level children)) ++ E)
      (object_tokens nl (node_tokens nl) children ++ kvs).
Proof.
  intros Hall Hwf HE Hlex. induction Hall as [|child later Hc Hall IH].
  { done. }
  pose proof (indent_blank cfg (level + 1)) as Hblank.
  fold (child_indent cfg level) in Hblank.
  rewrite object_child_lines_cons.
  destruct child as [c|key val].
  - destruct Hwf as [Hwfc Hwf]. destruct (IH Hwf) as [Hstart Hrest].
    cbn [map concat object_tokens].
    rewrite <- !(assoc_L (++)). split; [apply newline_start_nl|].
    rewrite replace_newlines_prefix
      by (by apply blank_no_LF || by apply blank_last).
    rewrite <- !(assoc_L (++)). apply relex_blank_line; [done|].
    apply lexes_comment;
      [by apply comment_text_replace, Hwfc; apply newline_text_cases
      |by apply newline_start_follow|done].
  - destruct Hwf as (Hcmt & Hwfc & Hwf). destruct (IH Hwf) as [Hstart Hrest].
    cbn [map concat object_tokens].
    rewrite <- !(assoc_L (++)). split; [apply newline_start_nl|].
    rewrite replace_newlines_prefix
      by (by apply blank_no_LF || by apply blank_last).
    pose proof (JSON_stringify_string_printable key) as Hkey.
    rewrite replace_newlines_prefix
      by (by apply printable_no_LF || by apply printable_last).
    rewrite (replace_newlines_prefix (js ": "));
      [|by apply printable_no_LF; repeat constructor
       |by apply printable_last; repeat constructor].
    rewrite <- !(assoc_L (++)). apply relex_blank_line; [done|].
    cbn [app]. apply lexes_string.
    change (js ": " ++ ?x) with (58%N :: ([SPACE] ++ x)).
    apply (lexes_char 58%N COLON); [set_solver|].
    apply lexes_space; [by repeat constructor|].
    pose proof (formatNode_plain_last this val (level + 1) key false Hcmt)
      as Hplain.
    destruct (comma_before_cases isOComment later) as [[-> ->]|[-> ->]].
    + rewrite replace_newlines_suffix
        by (by apply plain_last_CR || by apply printable_no_LF; repeat constructor).
      rewrite <- !(assoc_L (++)).
      apply Hc; [done|done|simpl; auto|].
      apply (lexes_char 44%N COMMA); [set_solver|done].
    + rewrite app_nil_r. cbn [app].
      apply Hc; [done|done|by apply newline_start_follow|done].
Qed.

Lemma array_lines_last level (children : list AstNode) :
  all_nodes wf_node children →
  Forall (λ p, last p ≠ Some CR) (array_child_lines cfg level children).
Proof.
  induction children as [|child later IH]; [constructor|].
  intros [Hwfc Hwf]. cbn [array_child_lines].
  apply Forall_cons. split; [|by apply IH].
  rewrite (assoc_L (++)).
  destruct (isComment child) eqn:Hcmt.
  - rewrite app_nil_r. destruct child; try done. cbn [formatNode].
    destruct (comment_text_last _ Hwfc) as (c' & Hc' & Hcr & _).
    rewrite last_app, Hc'. congruence.
  - pose proof (formatNode_plain_last this child (level + 1) [] false Hcmt)
      as (c' & Hc' & Hsp).
    destruct (comma_before_cases isComment later) as [[-> _]|[-> _]].
    + by rewrite last_app.
    + rewrite app_nil_r, last_app, Hc'. intros [= ->]. by vm_compute in Hsp.
Qed.

Lemma object_lines_last level (children : list (ObjectChild AstNode)) :
  all_values wf_node children →
  Forall (λ p, last p ≠ Some CR) (object_child_lines cfg level children).
Proof.
  induction children as [|child later IH]; [constructor|].
  rewrite object_child_lines_cons. destruct child as [c|key val].
  - intros [Hwfc Hwf]. apply Forall_cons. split; [|by apply IH].
    destruct (comment_text_last _ Hwfc) as (c' & Hc' & Hcr & _).
    rewrite last_app, Hc'. congruence.
  - intros (Hcmt & Hwfc & Hwf). apply Forall_cons. split; [|by apply IH].
    rewrite !(assoc_L (++)).
    pose proof (formatNode_plain_last this val (level + 1) key false Hcmt)
      as (c' & Hc' & Hsp).
    destruct (comma_before_cases isOComment later) as [[-> _]|[-> _]].
    + by rewrite last_app.
    + rewrite app_nil_r, last_app, Hc'. intros [= ->]. by vm_compute in Hsp.
Qed.
Lemma not_blocked_scalar (children : list AstNode) :
  Forall (λ c, ¬ blocks_inline c) children → Forall isScalar children.
Proof.
  intros Hall. eapply Forall_impl; [exact Hall|].
  intros [] Hc; try done; exfalso; apply Hc;
    unfold blocks_inline; simpl; auto.
Qed.

Lemma plain_fields_scalar (children : list (ObjectChild AstNode)) :
  all_values wf_node children →
  Forall (λ c, ¬ isOComment c) children →
  Forall (λ c, ¬ nested_value c) children →
  Forall scalar_pair children.
Proof.
  induction children as [|child later IH]; [constructor|].
  intros Hwf [Hc Hcs]%Forall_cons [Hn Hns]%Forall_cons.
  destruct child as [c|key val]; [by destruct Hc|].
  destruct Hwf as (Hcmt & _ & Hwf). constructor; [|by apply IH].
  destruct val; try done; exfalso; apply Hn; simpl; auto.
Qed.

Lemma closing_line level (close : N) ty rest kvs :
  (close, ty) ∈ [(123%N, LBRACE); (125%N, RBRACE); (91%N, LBRACKET);
                 (93%N, RBRACKET); (58%N, COLON); (44%N, COMMA)] →
  lexes rest kvs →
  lexes (nl ++ replace_newlines nl
                 (repeat_str (indentStr this) level ++ [close]) ++ rest)
    ((ty, [close]) :: kvs).
Proof.
  intros Hin Hrest. pose proof (indent_blank cfg level) as Hblank.
  rewrite replace_newlines_prefix
    by (by apply blank_no_LF || by apply blank_last).
  rewrite (replace_newlines_id _ [close]).
  2:{ intros Hc. assert (close = LF) as -> by set_solver. set_solver. }
  rewrite <- !(assoc_L (++)). apply relex_blank_line; [done|].
  by apply lexes_char.
Qed.

(** Every well-formed tree lexes back, from its rendering, to its own
    tokens. *)
Lemma relex_node node : relexes node.
Proof.
  induction node as [v raw|v raw|v raw|raw|c|children IH|children IH]
    using AstNode_nested_ind; intros Hwf Hcmt level key rest kvs Hfollow Hrest;
    try done.
  - rewrite printable_replace by by apply scalar_printable.
    by apply relex_scalar.
  - rewrite printable_replace by by apply scalar_printable.
    by apply relex_scalar.
  - rewrite printable_replace by by apply scalar_printable.
    by apply relex_scalar.
  - rewrite printable_replace by by apply scalar_printable.
    by apply relex_scalar.
  - rewrite formatNode_array_cases.
    destruct (shouldInlineArray this key children) eqn:Hinline.
    + apply shouldInlineArray_rule in Hinline.
      assert (Forall isScalar children) as Hsc.
      { destruct Hinline as [->|[Hb _]]; [constructor|].
        by apply not_blocked_scalar. }
      rewrite printable_replace by by apply inline_array_printable.
      by apply relex_inline_array.
    + unfold expanded_array. rewrite replace_newlines_join.
      2:{ apply Forall_app. split; [by repeat constructor|].
          apply Forall_app. split; [by apply array_lines_last|].
          repeat constructor. by rewrite last_app. }
      cbn [app map]. rewrite join_concat, map_app, map_app, concat_app.
      rewrite map_map. cbn [map concat node_tokens].
      rewrite app_nil_r, <- !(assoc_L (++)).
      apply (lexes_char 91%N LBRACKET); [set_solver|].
      apply relex_array_lines; [done|done|apply newline_start_nl|].
      apply (closing_line level 93%N RBRACKET); [set_solver|done].
  - rewrite formatNode_object_cases.
    destruct (shouldInlineObject this key children) eqn:Hinline.
    + apply shouldInlineObject_rule in Hinline.
      assert (Forall scalar_pair children) as Hsc.
      { destruct Hinline as [->|(_ & Hc & Hn & _)]; [constructor|].
        by apply plain_fields_scalar. }
      rewrite printable_replace by by apply inline_object_printable.
      by apply relex_inline_object.
    + unfold expanded_object. rewrite replace_newlines_join.
      2:{ apply Forall_app. split; [by repeat constructor|].
          apply Forall_app. split; [by apply object_lines_last|].
          repeat constructor. by rewrite last_app. }
      cbn [app map]. rewrite join_concat, map_app, map_app, concat_app.
      rewrite map_map. cbn [map concat node_tokens].
      rewrite app_nil_r, <- !(assoc_L (++)).
      apply (lexes_char 123%N LBRACE); [set_solver|].
      apply relex_object_lines; [done|done|apply newline_start_nl|].
      apply (closing_line level 125%N RBRACE); [set_solver|done].
Qed.
End Relex.

(** ** The comments that the tokenizer and the parser keep *)

Lemma first_match_comment text v rest :
  first_match PATTERNS text = Some (COMMENT, v, rest) →
  COMMENT_regex text = Some (v, rest).
Proof.
  unfold PATTERNS, first_match.
  destruct (COMMENT_regex text) as [[v0 r0]|]; [by intros [= <- <-]|].
  repeat match goal with
  | |- context [match ?r text with _ => _ end] =>
      destruct (r text) as [[? ?]|]; [done|]
  end.
  done.
Qed.

Lemma tokenize_loop_comments fuel text line tokens :
  tokenize_loop fuel text line = Ok tokens → lexed_comments tokens.
Proof.
  revert text line tokens. induction fuel as [|fuel IH]; intros text line tokens.
  { destruct text; [|done]. intros [= <-]. constructor. }
  destruct text as [|c text]; [intros [= <-]; constructor|].
  cbn [tokenize_loop].
  destruct (first_match PATTERNS (c :: text)) as [[[ty v] rest]|] eqn:Hm;
    [|done].
  destruct (tokenize_loop fuel rest _) as [toks| |] eqn:Hr; simpl; [|done..].
  apply IH in Hr. intros [= <-]. case_decide; [|done].
  constructor; [|done]. simpl. intros ->.
  apply first_match_comment in Hm. by eapply COMMENT_regex_self.
Qed.

Lemma tokenize_comments text tokens :
  tokenize text = Ok tokens → lexed_comments tokens.
Proof. apply tokenize_loop_comments. Qed.

Lemma token_comments_cons t tokens :
  token_comments (t :: tokens)
  = (if decide (type t = COMMENT) then [value t] else [])
    ++ token_comments tokens.
Proof.
  unfold token_comments. rewrite filter_cons. by case_decide.
Qed.

Section Conserve.
Context `{JsNumber}.

Lemma array_comments_app (l1 l2 : list AstNode) :
  array_comments node_comments (l1 ++ l2)
  = array_comments node_comments l1 ++ array_comments node_comments l2.
Proof.
  induction l1 as [|c l1 IH]; [done|]. simpl. by rewrite IH, (assoc_L (++)).
Qed.

Lemma object_comments_app (l1 l2 : list (ObjectChild AstNode)) :
  object_comments node_comments (l1 ++ l2)
  = object_comments node_comments l1 ++ object_comments node_comments l2.
Proof.
  induction l1 as [|[c|k v] l1 IH]; [done|..]; simpl.
  - by rewrite IH.
  - by rewrite IH, (assoc_L (++)).
Qed.

Lemma object_comments_map cs :
  object_comments node_comments (map OComment cs) = map text cs.
Proof. induction cs as [|c cs IH]; [done|]. simpl. by rewrite IH. Qed.

Lemma array_comments_map cs :
  array_comments node_comments (map Comment cs) = map text cs.
Proof. induction cs as [|c cs IH]; [done|]. simpl. by rewrite IH. Qed.

Lemma all_nodes_app (P : AstNode → Prop) l1 l2 :
  all_nodes P (l1 ++ l2) ↔ all_nodes P l1 ∧ all_nodes P l2.
Proof. induction l1 as [|c l1 IH]; simpl; [naive_solver|]. rewrite IH. tauto. Qed.

Lemma all_values_app (P : AstNode → Prop) l1 l2 :
  all_values P (l1 ++ l2) ↔ all_values P l1 ∧ all_values P l2.
Proof.
  induction l1 as [|[c|k v] l1 IH]; simpl; [naive_solver|..]; rewrite IH; tauto.
Qed.

Lemma all_values_map (P : AstNode → Prop) cs :
  Forall (λ c, comment_text (text c)) cs → all_values P (map OComment cs).
Proof. induction 1; simpl; auto. Qed.

Lemma all_nodes_map cs :
  Forall (λ c, comment_text (text c)) cs → all_nodes wf_node (map Comment cs).
Proof. induction 1; simpl; auto. Qed.

Lemma consume_type ty tokens t rest :
  consume (Some ty) tokens = Ok (t, rest) → tokens = t :: rest ∧ type t = ty.
Proof.
  unfold consume. destruct tokens as [|t' ts]; [done|].
  case_decide as Hty; [done|]. intros [= <- <-].
  split; [done|]. by destruct (decide (type t' = ty)).
Qed.

(** The leading comments: what [parseComments] adds are the comment
    tokens that it reads. *)
Lemma parseComments_comments comments tokens cs rest :
  parseComments comments tokens = (cs, rest) →
  lexed_comments tokens →
  ∃ cs', cs = comments ++ cs'
    ∧ Forall (λ c, comment_text (text c)) cs'
    ∧ token_comments tokens = map text cs' ++ token_comments rest
    ∧ lexed_comments rest.
Proof.
  revert comments. induction tokens as [|t ts IH]; intros comments; simpl.
  - intros [= <- <-] _. exists []. rewrite app_nil_r.
    repeat split; constructor.
  - case_decide as Ht.
    + intros E [Htc Hts]%Forall_cons.
      destruct (IH _ E Hts) as (cs' & -> & Hcs' & Htok & Hrest).
      exists (comment_of t :: cs'). rewrite <- (assoc_L (++)).
      split; [done|]. split; [constructor; [by apply Htc|done]|].
      split; [|done]. rewrite token_comments_cons, decide_True by done.
      simpl. by rewrite Htok.
    + intros [= <- <-] Hts. exists []. rewrite app_nil_r.
      repeat split; try done.
Qed.

(** The parser keeps every comment token as a comment of the tree. *)
Lemma parse_comments fuel :
  (∀ tokens node rest,
     parseValue fuel tokens = Ok (node, rest) → lexed_comments tokens →
     wf_node node ∧ lexed_comments rest
     ∧ token_comments tokens = node_comments node ++ token_comments rest)
  ∧ (∀ children tokens node rest,
       parseObject fuel children tokens = Ok (node, rest) →
       lexed_comments tokens → all_values wf_node children →
       wf_node node ∧ lexed_comments rest
       ∧ object_comments node_comments children ++ token_comments tokens
         = node_comments node ++ token_comments rest)
  ∧ (∀ children tokens node rest,
       parseArray fuel children tokens = Ok (node, rest) →
       lexed_comments tokens → all_nodes wf_node children →
       wf_node node ∧ lexed_comments rest
       ∧ array_comments node_comments children ++ token_comments tokens
         = node_comments node ++ token_comments rest).
Proof.
  induction fuel as [|fuel (IHv & IHo & IHa)]; [done|].
  split; [|split].
  - intros [|token tokens] node rest; [done|].
    rewrite parseValue_step, token_comments_cons.
    intros Hp [Htc Hts]%Forall_cons.
    destruct (type token) eqn:Hty; try done;
      rewrite ?decide_False by done; rewrite ?decide_True by done.
    + by apply (IHo [] _ _ _ Hp).
    + by apply (IHa [] _ _ _ Hp).
    + destruct (JSON_parse (value token)); simpl in Hp; [|done..].
      by injection Hp as <- <-.
    + by injection Hp as <- <-.
    + by injection Hp as <- <-.
    + by injection Hp as <- <-.
    + injection Hp as <- <-. split; [by apply Htc|done].
  - intros children [|token tokens] node rest; [done|].
    rewrite parseObject_step.
    intros Hp [Htc Hts]%Forall_cons Hwf.
    repeat case_decide; try done; rewrite token_comments_cons.
    + injection Hp as <- <-. by rewrite decide_False by congruence.
    + rewrite decide_True by done.
      apply IHo in Hp as (Hn & Hr & Hc); [|done|].
      * split; [done|]. split; [done|].
        rewrite <- Hc, object_comments_app. simpl.
        by rewrite <- (assoc_L (++)).
      * apply all_values_app. split; [done|]. simpl. auto.
    + rewrite decide_False by done. by apply IHo in Hp.
    + rewrite decide_False by done.
      destruct (JSON_parse (value token)); simpl in Hp; [|done..].
      destruct (parseComments [] tokens) as [cs1 r1] eqn:E1.
      destruct (parseComments_comments _ _ _ _ E1 Hts)
        as (cs1' & -> & Hcs1 & Ht1 & Hr1).
      destruct (consume (Some COLON) r1) as [[t r2]| |] eqn:Ec;
        simpl in Hp; [|done..].
      apply consume_type in Ec as [-> Htcolon].
      apply Forall_cons in Hr1 as [_ Hr2].
      destruct (parseComments [] r2) as [cs2 r3] eqn:E2.
      pose proof (parseComments_head _ _ _ _ E2) as Hhead.
      destruct (parseComments_comments _ _ _ _ E2 Hr2)
        as (cs2' & -> & Hcs2 & Ht2 & Hr3).
      destruct (parseValue fuel r3) as [[v r4]| |] eqn:Ev;
        simpl in Hp; [|done..].
      assert (isComment v = false) as Hv.
      { destruct r3 as [|t3 r3]; [by destruct fuel|].
        by eapply parseValue_not_comment. }
      apply IHv in Ev as (Hwv & Hr4 & Ht3); [|done].
      apply IHo in Hp as (Hn & Hr & Hc); [| done |].
      * split; [done|]. split; [done|]. rewrite <- Hc.
        rewrite !object_comments_app, !object_comments_map. simpl.
        rewrite Ht1, token_comments_cons, Ht2, Ht3.
        rewrite decide_False by (simpl in *; congruence).
        simpl. by rewrite app_nil_r, <- !(assoc_L (++)).
      * rewrite !all_values_app. simpl.
        split; [done|]. split; [by apply all_values_map|].
        split; [by apply all_values_map|]. auto.
  - intros children [|token tokens] node rest; [done|].
    rewrite parseArray_step.
    intros Hp Hall Hwf. pose proof Hall as [Htc Hts]%Forall_cons.
    repeat case_decide; try done.
    + injection Hp as <- <-.
      by rewrite token_comments_cons, decide_False by congruence.
    + rewrite token_comments_cons, decide_True by done.
      apply IHa in Hp as (Hn & Hr & Hc); [|done|].
      * split; [done|]. split; [done|].
        rewrite <- Hc, array_comments_app. simpl.
        by rewrite <- (assoc_L (++)).
      * apply all_nodes_app. split; [done|]. simpl. auto.
    + rewrite token_comments_cons, decide_False by done.
      by apply IHa in Hp.
    + destruct (parseValue fuel (token :: tokens)) as [[v r]| |] eqn:Ev;
        simpl in Hp; [|done..].
      apply IHv in Ev as (Hwv & Hr1 & Ht1); [|done].
      apply IHa in Hp as (Hn & Hr & Hc); [|done|].
      * split; [done|]. split; [done|]. rewrite <- Hc.
        rewrite array_comments_app, Ht1. simpl.
        by rewrite app_nil_r, <- !(assoc_L (++)).
      * apply all_nodes_app. split; [done|]. simpl. auto.
Qed.
End Conserve.

Section Root.
Context `{JsNumber}.

Lemma parse_rest_comments tokens root rest :
  parse_rest tokens = Ok (root, rest) → lexed_comments tokens →
  wf_node root ∧ isComment root = false
  ∧ (isObject root || isArray root →
     token_comments tokens = node_comments root ++ token_comments rest).
Proof.
  unfold parse_rest.
  destruct (parseComments [] tokens) as [cs r] eqn:E. intros Hp Htok.
  pose proof (parseComments_head _ _ _ _ E) as Hhead.
  destruct (parseComments_comments _ _ _ _ E Htok)
    as (cs' & -> & Hcs & Ht & Hr).
  simpl app in *. destruct r as [|t r]; simpl peek in Hp.
  { injection Hp as <- <-. split; [by apply all_values_map|].
    split; [done|]. intros _. simpl. by rewrite object_comments_map. }
  destruct (parseValue _ (t :: r)) as [[root0 rest0]| |] eqn:Ev;
    simpl in Hp; [|done..].
  injection Hp as <- <-.
  pose proof (parseValue_not_comment _ _ _ _ _ Hhead Ev) as Hnc.
  apply (proj1 (parse_comments _)) in Ev as (Hwf & _ & Hc); [|done].
  rewrite Ht, Hc.
  destruct root0 as [| | | | |children|children]; try done; simpl in *.
  - split; [apply all_nodes_app; split; [by apply all_nodes_map|done]|].
    split; [done|]. intros _.
    by rewrite array_comments_app, array_comments_map, (assoc_L (++)).
  - split; [apply all_values_app; split; [by apply all_values_map|done]|].
    split; [done|]. intros _.
    by rewrite object_comments_app, object_comments_map, (assoc_L (++)).
Qed.

Lemma kv_comments_app kvs1 kvs2 :
  kv_comments (kvs1 ++ kvs2) = kv_comments kvs1 ++ kv_comments kvs2.
Proof. unfold kv_comments. by rewrite filter_app, map_app. Qed.

Lemma token_comments_kv tokens :
  token_comments tokens = kv_comments (map kv_of tokens).
Proof.
  unfold token_comments, kv_comments.
  induction tokens as [|t tokens IH]; [done|].
  rewrite map_cons, !filter_cons. simpl.
  case_decide; simpl; by rewrite IH.
Qed.

Lemma comma_token_comments {A : Type} (isCmt : A → bool) later :
  kv_comments (comma_token isCmt later) = [].
Proof. unfold comma_token. by destruct (existsb _ later). Qed.

Lemma node_tokens_comments nl node :
  kv_comments (node_tokens nl node)
  = map (replace_newlines nl) (node_comments node).
Proof.
  induction node as [v raw|v raw|v raw|raw|c|children IH|children IH]
    using AstNode_nested_ind; try done.
  - simpl. unfold number_tokens. by case_decide.
  - cbn [node_tokens node_comments]. rewrite !kv_comments_app.
    change (kv_comments [_]) with (@nil jsstring). rewrite app_nil_r.
    cbn [app]. induction IH as [|child later Hc _ IHl]; [done|].
    cbn [array_tokens array_comments]. rewrite !kv_comments_app, map_app.
    rewrite Hc, IHl. f_equal.
    destruct (isComment child); [done|].
    by rewrite comma_token_comments.
  - cbn [node_tokens node_comments]. rewrite !kv_comments_app.
    change (kv_comments [_]) with (@nil jsstring). rewrite app_nil_r.
    cbn [app]. induction IH as [|child later Hc _ IHl]; [done|].
    destruct child as [c|key val]; cbn [object_tokens object_comments].
    + rewrite map_cons, <- IHl. done.
    + rewrite !kv_comments_app, map_app, Hc, IHl, comma_token_comments.
      done.
Qed.
End Root.

Section Output.
Context `{JsNumberLaws}.
Variable cfg : MaaFormatConfig.

Local Abbreviation this := (new_MaaPipelineFormatter cfg).
Local Abbreviation nl := (newline_text cfg).

(** The output for a tree lexes to the tokens of the tree. *)
Lemma relex_output root :
  wf_node root → isComment root = false →
  lexes (finish this (formatNode this root 0 [] false)) (node_tokens nl root).
Proof.
  intros Hwf Hcmt.
  pose proof (formatNode_plain_last this root 0 [] false Hcmt) as Hplain.
  pose proof (relex_node cfg root Hwf Hcmt 0 []) as Hlex.
  unfold finish.
  change (newline (file_handling (config this)))
    with (newline (file_handling cfg)).
  fold (newline_text cfg).
  set (f := formatNode this root 0 [] false) in *.
  rewrite (plain_last_endsWithLF f Hplain), andb_false_r. simpl negb.
  rewrite andb_true_r.
  destruct (insert_final_newline _).
  - rewrite bool_decide_eq_true_2 by (destruct Hplain as (? & ? & _); by destruct f).
    rewrite replace_newlines_app by by apply plain_last_CR.
    rewrite replace_newlines_LF. simpl replace_newlines. rewrite app_nil_r.
    rewrite <- (app_nil_r (node_tokens nl root)).
    pose proof (lexes_space nl [] [] (newline_text_space cfg) lexes_nil)
      as Hnl.
    rewrite app_nil_r in Hnl. apply Hlex; [|done].
    destruct (newline_text_cases cfg) as [-> | ->]; simpl; auto.
  - rewrite <- (app_nil_r (replace_newlines nl f)).
    rewrite <- (app_nil_r (node_tokens nl root)).
    apply Hlex; [done|apply lexes_nil].
Qed.
End Output.

(** ** The claims on the comments and on formatting twice *)

Lemma token_comments_app tokens1 tokens2 :
  token_comments (tokens1 ++ tokens2)
  = token_comments tokens1 ++ token_comments tokens2.
Proof. unfold token_comments. by rewrite filter_app, map_app. Qed.

(** C2, as amended.  For every document that the tokenizer and the
    parser accept, the output of [format] lexes again, and the texts of
    its comments are known from the tokens [read] that the parser reads,
    those up to the end of the root value, and from the root value.
    When the root value is an object or an array (a document of comments
    only gives an object), they are, in the same order, the texts of the
    comments of [read], the comments before the root value among them,
    with their line terminators rewritten to the configured style; they
    are the very texts of the input when none of them holds a line feed.
    When the root value is a scalar, the output has no comment.  In both
    cases the comments of the tokens [rest] that follow the root value
    are not in the output. *)
Theorem comment_conservation `{JsNumberLaws} cfg text tokens root rest :
  tokenize text = Ok tokens →
  parse_rest tokens = Ok (root, rest) →
  ∃ out tokens' read,
    format (new_MaaPipelineFormatter cfg) text = Ok out
    ∧ tokenize out = Ok tokens'
    ∧ tokens = read ++ rest
    ∧ token_comments tokens'
      = (if isObject root || isArray root
         then map (replace_newlines (newline_text cfg))
                (token_comments read)
         else [])
    ∧ (isObject root || isArray root →
       Forall (λ c, LF ∉ c) (token_comments read) →
       token_comments tokens' = token_comments read).
Proof.
  intros Htok Hparse.
  pose proof (tokenize_comments _ _ Htok) as Hlexed.
  destruct (parse_rest_comments _ _ _ Hparse Hlexed) as (Hwf & Hcmt & Hc).
  destruct (parse_rest_suffix _ _ _ Hparse) as [read ->].
  destruct (relex_output cfg root Hwf Hcmt 1) as (tokens' & Hout & Hkv).
  exists (finish (new_MaaPipelineFormatter cfg)
            (formatNode (new_MaaPipelineFormatter cfg) root 0 [] false)),
    tokens', read.
  assert (token_comments tokens'
          = map (replace_newlines (newline_text cfg)) (node_comments root))
    as Heq by (by rewrite token_comments_kv, Hkv, node_tokens_comments).
  assert (isObject root || isArray root →
          node_comments root = token_comments read) as Hroot.
  { intros Hroot. specialize (Hc Hroot).
    rewrite token_comments_app in Hc. by apply app_inv_tail in Hc. }
  split; [|split; [done|split; [done|split]]].
  - rewrite format_unfold, Htok. simpl. unfold parse. by rewrite Hparse.
  - rewrite Heq. destruct (isObject root || isArray root) eqn:E.
    + by rewrite Hroot.
    + by destruct root.
  - intros Hr Hall. rewrite Heq, (Hroot Hr).
    rewrite <- (map_id (token_comments read)) at 2.
    apply map_ext_Forall. eapply Forall_impl; [exact Hall|].
    intros c Hc'. by apply replace_newlines_id.
Qed.

Lemma comment_conservation_witness :
  ∃ out tokens',
    @format literal_numbers default_formatter trailing_comment = Ok out
    ∧ tokenize out = Ok tokens'
    ∧ token_comments tokens' = [js "// c"; js "/* d */"].
Proof.
  destruct (@comment_conservation literal_numbers literal_numbers_laws
              DEFAULT_CONFIG trailing_comment
              ([mkToken COMMENT (js "// c") 1; mkToken LBRACKET (js "[") 2;
                mkToken NUMBER (js "1") 2; mkToken COMMENT (js "/* d */") 2;
                mkToken RBRACKET (js "]") 2]
               ++ [mkToken COMMENT (js "// t") 2])
              (JsonArray
                 [Comment (mkComment (js "// c") false);
                  JsonNumber (js "1" : @num literal_numbers) (js "1");
                  Comment (mkComment (js "/* d */") true)])
              [mkToken COMMENT (js "// t") 2])
    as (out & tokens' & read & Hf & Ht & Hsplit & Hc & _).
  - vm_compute. reflexivity.
  - vm_compute. reflexivity.
  - apply app_inv_tail in Hsplit. subst read.
    exists out, tokens'. split; [exact Hf|]. split; [exact Ht|].
    rewrite Hc. vm_compute. reflexivity.
Defined.

(** C2, counterexamples: a comment before a number, a comment after an
    array and a comment of two lines that CR LF separates are in the
    input and not in the output, where the last has become another
    text. *)
Lemma comments_not_conserved :
  (tokenize commented_number
   = Ok [mkToken COMMENT (js "// c") 1; mkToken NUMBER (js "1") 2]
   ∧ @format literal_numbers default_formatter commented_number = Ok (js "1")
   ∧ tokenize (js "1") = Ok [mkToken NUMBER (js "1") 1])
  ∧ (tokenize (jsq "[1] // t")
     = Ok [mkToken LBRACKET (js "[") 1; mkToken NUMBER (js "1") 1;
           mkToken RBRACKET (js "]") 1; mkToken COMMENT (js "// t") 1]
     ∧ @format literal_numbers default_formatter (jsq "[1] // t")
       = Ok (js "[1]")
     ∧ tokenize (js "[1]")
       = Ok [mkToken LBRACKET (js "[") 1; mkToken NUMBER (js "1") 1;
             mkToken RBRACKET (js "]") 1])
  ∧ (tokenize crlf_comment
     = Ok [mkToken LBRACKET (js "[") 1;
           mkToken COMMENT (js "/* a" ++ [CR; LF] ++ js "b */") 1;
           mkToken RBRACKET (js "]") 2]
     ∧ @format literal_numbers default_formatter crlf_comment
       = Ok (js "[" ++ [LF; TAB] ++ js "/* a" ++ [LF] ++ js "b */" ++ [LF]
             ++ js "]")
     ∧ tokenize (js "[" ++ [LF; TAB] ++ js "/* a" ++ [LF] ++ js "b */" ++ [LF]
                 ++ js "]")
       = Ok [mkToken LBRACKET (js "[") 1;
             mkToken COMMENT (js "/* a" ++ [LF] ++ js "b */") 2;
             mkToken RBRACKET (js "]") 4]).
Proof. repeat split; vm_compute; reflexivity. Qed.

(** ** Reading back what was printed *)

Lemma hex_value_digit n : (n < 16)%N → hex_value (hex_digit n) = Some n.
Proof.
  intros Hn. unfold hex_value, hex_digit.
  destruct (N.ltb_spec n 10).
  - rewrite (proj2 (N.leb_le 48 (48 + n))) by lia.
    rewrite (proj2 (N.leb_le (48 + n) 57)) by lia.
    simpl. f_equal. lia.
  - rewrite (proj2 (N.leb_gt (87 + n) 57)) by lia. rewrite andb_false_r.
    rewrite (proj2 (N.leb_le 97 (87 + n))) by lia.
    rewrite (proj2 (N.leb_le (87 + n) 102)) by lia.
    simpl. f_equal. lia.
Qed.

Lemma hex_digits_value c :
  (c < 65536)%N →
  (((c / 4096) `mod` 16) * 4096 + ((c / 256) `mod` 16) * 256
   + ((c / 16) `mod` 16) * 16 + c `mod` 16 = c)%N.
Proof.
  intros Hc.
  pose proof (N.Div0.div_mod c 16) as H1.
  pose proof (N.Div0.div_mod (c / 16) 16) as H2.
  pose proof (N.Div0.div_mod (c / 256) 16) as H3.
  pose proof (N.Div0.div_mod (c / 4096) 16) as H4.
  rewrite (N.Div0.div_div c 16 16) in H2. change (16 * 16)%N with 256%N in H2.
  rewrite (N.Div0.div_div c 256 16) in H3.
  change (256 * 16)%N with 4096%N in H3.
  rewrite (N.Div0.div_div c 4096 16) in H4.
  change (4096 * 16)%N with 65536%N in H4.
  rewrite (N.div_small c 65536) in H4 by done.
  lia.
Qed.

Lemma unquote_unicode_escape c s r :
  (c < 65536)%N → unquote_body s = Some r →
  unquote_body (unicode_escape c ++ s) = Some (c :: r).
Proof.
  intros Hc Hs. unfold unicode_escape.
  change ([?a; ?b; ?c1; ?c2; ?c3; ?c4] ++ ?l)
    with (a :: b :: c1 :: c2 :: c3 :: c4 :: l).
  cbn [unquote_body].
  change (92 =? 34)%N with false. change (92 =? 92)%N with true.
  change (117 =? 117)%N with true. cbv iota.
  rewrite !hex_value_digit by (apply N.mod_lt; lia).
  simpl. rewrite Hs. simpl. by rewrite hex_digits_value.
Qed.

Lemma unquote_plain c s r :
  c ≠ 34%N → c ≠ 92%N → (32 ≤ c)%N → unquote_body s = Some r →
  unquote_body (c :: s) = Some (c :: r).
Proof.
  intros H1 H2 H3 Hs. cbn [unquote_body].
  rewrite (proj2 (N.eqb_neq c 34)), (proj2 (N.eqb_neq c 92)) by done.
  rewrite (proj2 (N.ltb_ge c 32)) by done. by rewrite Hs.
Qed.

Lemma unquote_quote_char c s r :
  unquote_body s = Some r → unquote_body (quote_char c ++ s) = Some (c :: r).
Proof.
  intros Hs. unfold quote_char.
  repeat (match goal with
          | |- context [(c =? ?k)%N] => destruct (N.eqb_spec c k) as [->|?]
          end; [simpl; by rewrite Hs|]).
  destruct (N.ltb_spec c 32); [apply unquote_unicode_escape; [lia|done]|].
  by apply unquote_plain.
Qed.

Lemma unquote_quote_body v : unquote_body (quote_body v ++ [QUOTE]) = Some v.
Proof.
  induction v as [v IH] using length_ind.
  destruct v as [|c v]; [done|]. cbn [quote_body].
  destruct (is_high_surrogate c) eqn:Hh.
  - assert (c ≠ 92 ∧ c ≠ 34 ∧ 32 ≤ c ∧ c < 65536)%N as (? & ? & ? & ?).
    { unfold is_high_surrogate in Hh. char_tests; lia. }
    destruct v as [|d v].
    { by apply unquote_unicode_escape. }
    destruct (is_low_surrogate d) eqn:Hl.
    + assert (d ≠ 92 ∧ d ≠ 34 ∧ 32 ≤ d)%N as (? & ? & ?).
      { unfold is_low_surrogate in Hl. char_tests; lia. }
      rewrite <- !app_comm_cons.
      do 2 (apply unquote_plain; [done|done|done|]).
      apply IH. simpl. lia.
    + rewrite <- (assoc_L (++)). apply unquote_unicode_escape; [done|].
      apply IH. simpl. lia.
  - destruct (is_low_surrogate c) eqn:Hl.
    + assert (c < 65536)%N.
      { unfold is_low_surrogate in Hl. char_tests; lia. }
      rewrite <- (assoc_L (++)). apply unquote_unicode_escape; [done|].
      apply IH. simpl. lia.
    + rewrite <- (assoc_L (++)). apply unquote_quote_char.
      apply IH. simpl. lia.
Qed.

Lemma JSON_parse_stringify v : JSON_parse (JSON_stringify_string v) = Ok v.
Proof.
  unfold JSON_parse, JSON_parse_string, JSON_stringify_string.
  change (QUOTE =? 34)%N with true. cbv iota.
  by rewrite unquote_quote_body.
Qed.

Lemma result_bind_Ok {A B : Type} (x : A) (f : A → result B) :
  (Ok x ≫= f) = f x.
Proof. done. Qed.

Section Reparse.
Context `{JsNumber}.
Variable nl : jsstring.

Lemma parseValue_mono fuel fuel' tokens out :
  parseValue fuel tokens = Ok out → fuel ≤ fuel' →
  parseValue fuel' tokens = Ok out.
Proof. intros E Hle. by eapply (proj1 (parse_fuel_mono fuel)). Qed.

Lemma parseObject_mono fuel fuel' children tokens out :
  parseObject fuel children tokens = Ok out → fuel ≤ fuel' →
  parseObject fuel' children tokens = Ok out.
Proof. intros E Hle. by eapply (proj1 (proj2 (parse_fuel_mono fuel))). Qed.

Lemma parseArray_mono fuel fuel' children tokens out :
  parseArray fuel children tokens = Ok out → fuel ≤ fuel' →
  parseArray fuel' children tokens = Ok out.
Proof. intros E Hle. by eapply (proj2 (proj2 (parse_fuel_mono fuel))). Qed.

(** The first token of the rendering of a value opens a value. *)
Lemma node_tokens_head node :
  isComment node = false →
  ∃ ty v more, node_tokens nl node = (ty, v) :: more
    ∧ ty ≠ COMMENT ∧ ty ≠ COMMA ∧ ty ≠ RBRACKET ∧ ty ≠ RBRACE.
Proof.
  destruct node as [v raw|v raw|v raw|raw|c|children|children]; try done;
    intros _; simpl.
  - by eexists _, _, _.
  - unfold number_tokens. case_decide; by eexists _, _, _.
  - by eexists _, _, _.
  - by eexists _, _, _.
  - by eexists _, _, _.
  - by eexists _, _, _.
Qed.

Lemma tokens_head_type ts ty v more rest :
  map kv_of ts = (ty, v) :: more →
  ∃ t ts', ts ++ rest = t :: ts' ++ rest ∧ ts = t :: ts'
    ∧ type t = ty ∧ value t = v ∧ map kv_of ts' = more.
Proof.
  destruct ts as [|t ts']; [done|]. intros [= Hty Hv Hmore].
  by exists t, ts'.
Qed.

Lemma parseComments_none t tokens :
  type t ≠ COMMENT → parseComments [] (t :: tokens) = ([], t :: tokens).
Proof. intros Hty. simpl. by rewrite decide_False. Qed.

Local Abbreviation reparses := (reparses nl).

Lemma reparse_array (children : list AstNode) :
  Forall reparses children → all_nodes wf_node children →
  ∀ acc ts rest,
    map kv_of ts
    = array_tokens (node_tokens nl) children ++ [(RBRACKET, js "]")] →
    ∃ fuel, parseArray fuel acc (ts ++ rest)
            = Ok (JsonArray (acc ++ map (reparsed nl) children), rest).
Proof.
  induction 1 as [|child later Hc _ IH]; intros Hwf acc ts rest Hts.
  { destruct ts as [|t [|??]]; try done. injection Hts as Hty Hv.
    exists 1. simpl app. rewrite parseArray_step, decide_True by done.
    by rewrite app_nil_r. }
  destruct Hwf as [Hwfc Hwf]. cbn [array_tokens] in Hts.
  destruct (isComment child) eqn:Hcmt.
  - destruct child; try done. cbn [node_tokens app] in Hts.
    destruct ts as [|t ts]; [done|]. injection Hts as Hty Hv Hts.
    destruct (IH Hwf (acc ++ [Comment (comment_of t)]) ts rest Hts)
      as (fuel & Hfuel).
    exists (S fuel). simpl app.
    rewrite parseArray_step, decide_False, decide_True by congruence.
    rewrite Hfuel, <- (assoc_L (++)). simpl.
    unfold comment_of, reparsed_comment. by rewrite Hv.
  - rewrite <- !(assoc_L (++)) in Hts.
    apply map_eq_app in Hts as (ts1 & ts2 & -> & Hts1 & Hts2).
    destruct (node_tokens_head child Hcmt)
      as (ty & v & more & Hhead & H1 & H2 & H3 & _).
    destruct (Hc Hwfc Hcmt ts1 (ts2 ++ rest) Hts1) as (fuel1 & Hfuel1).
    rewrite Hhead in Hts1.
    destruct (tokens_head_type _ _ _ _ (ts2 ++ rest) Hts1)
      as (t & ts1' & E & -> & Hty & _ & _).
    assert (∃ fuel2, parseArray fuel2 (acc ++ [reparsed nl child])
                       (ts2 ++ rest)
                     = Ok (JsonArray ((acc ++ [reparsed nl child])
                                      ++ map (reparsed nl) later), rest))
      as (fuel2 & Hfuel2).
    { unfold comma_token in Hts2. destruct (existsb _ later).
      - destruct ts2 as [|tc ts2]; [done|]. injection Hts2 as Htc _ Hts2.
        destruct (IH Hwf (acc ++ [reparsed nl child]) ts2 rest Hts2)
          as (fuel & Hfuel).
        exists (S fuel). simpl app.
        rewrite parseArray_step, !decide_False, decide_True by congruence.
        done.
      - apply (IH Hwf). exact Hts2. }
    exists (S (fuel1 `max` fuel2)). rewrite <- (assoc_L (++)).
    simpl app. rewrite parseArray_step, !decide_False by congruence.
    rewrite (parseValue_mono fuel1 _ _ _ Hfuel1) by lia. simpl.
    rewrite (parseArray_mono fuel2 _ _ _ _ Hfuel2) by lia.
    by rewrite <- (assoc_L (++)).
Qed.
Lemma reparse_object (children : list (ObjectChild AstNode)) :
  Forall (λ child, match child with
                   | OComment _ => True
                   | OPair _ val => reparses val
                   end) children →
  all_values wf_node children →
  ∀ acc ts rest,
    map kv_of ts
    = object_tokens nl (node_tokens nl) children ++ [(RBRACE, js "}")] →
    ∃ fuel, parseObject fuel acc (ts ++ rest)
            = Ok (JsonObject
                    (acc ++ map (λ child,
                              match child with
                              | OComment c => OComment (reparsed_comment nl c)
                              | OPair key val => OPair key (reparsed nl val)
                              end) children), rest).
Proof.
  induction 1 as [|child later Hc _ IH]; intros Hwf acc ts rest Hts.
  { destruct ts as [|t [|??]]; try done. injection Hts as Hty Hv.
    exists 1. simpl app. rewrite parseObject_step, decide_True by done.
    by rewrite app_nil_r. }
  destruct child as [c|key val].
  - destruct Hwf as [Hwfc Hwf]. cbn [object_tokens app] in Hts.
    destruct ts as [|t ts]; [done|]. injection Hts as Hty Hv Hts.
    destruct (IH Hwf (acc ++ [OComment (comment_of t)]) ts rest Hts)
      as (fuel & Hfuel).
    exists (S fuel). simpl app.
    rewrite parseObject_step, decide_False, decide_True by congruence.
    rewrite Hfuel, <- (assoc_L (++)). simpl.
    unfold comment_of, reparsed_comment. by rewrite Hv.
  - destruct Hwf as (Hcmt & Hwfc & Hwf). cbn [object_tokens app] in Hts.
    destruct ts as [|tk [|tc ts]]; [done..|].
    injection Hts as Htk Hvk Htc _ Hts.
    rewrite <- !(assoc_L (++)) in Hts.
    apply map_eq_app in Hts as (ts1 & ts2 & -> & Hts1 & Hts2).
    destruct (node_tokens_head val Hcmt)
      as (ty & v & more & Hhead & H1 & _).
    destruct (Hc Hwfc Hcmt ts1 (ts2 ++ rest) Hts1) as (fuel1 & Hfuel1).
    rewrite Hhead in Hts1.
    destruct (tokens_head_type _ _ _ _ (ts2 ++ rest) Hts1)
      as (t & ts1' & E & -> & Hty & _ & _).
    assert (∃ fuel2, parseObject fuel2 (acc ++ [OPair key (reparsed nl val)])
                       (ts2 ++ rest)
                     = Ok (JsonObject
                             ((acc ++ [OPair key (reparsed nl val)])
                              ++ map (λ child,
                                   match child with
                                   | OComment c =>
                                       OComment (reparsed_comment nl c)
                                   | OPair key val =>
                                       OPair key (reparsed nl val)
                                   end) later), rest))
      as (fuel2 & Hfuel2).
    { unfold comma_token in Hts2. destruct (existsb _ later).
      - destruct ts2 as [|tcm ts2]; [done|]. injection Hts2 as Htcm _ Hts2.
        destruct (IH Hwf (acc ++ [OPair key (reparsed nl val)]) ts2 rest Hts2)
          as (fuel & Hfuel).
        exists (S fuel). simpl app.
        rewrite parseObject_step, !decide_False, decide_True by congruence.
        done.
      - apply (IH Hwf). exact Hts2. }
    exists (S (fuel1 `max` fuel2)).
    simpl app in *. rewrite <- (assoc_L (++)).
    rewrite parseObject_step, !decide_False by congruence.
    rewrite decide_True by done.
    rewrite Hvk, JSON_parse_stringify, result_bind_Ok.
    rewrite parseComments_none by congruence. cbv beta iota.
    unfold consume. rewrite decide_False by (intros Hne; by apply Hne).
    rewrite result_bind_Ok. cbv beta iota.
    rewrite parseComments_none by congruence. cbv beta iota.
    rewrite (parseValue_mono fuel1 _ _ _ Hfuel1) by lia.
    rewrite result_bind_Ok. cbv beta iota. cbn [map app].
    rewrite (parseObject_mono fuel2 _ _ _ _ Hfuel2) by lia.
    by rewrite <- (assoc_L (++)).
Qed.

(** The parser reads the tokens of the rendering of a tree as the tree
    read back. *)
Lemma reparse_node node : reparses node.
Proof.
  induction node as [v raw|v raw|v raw|raw|c|children IH|children IH]
    using AstNode_nested_ind; intros Hwf Hcmt ts rest Hts; try done.
  - destruct ts as [|t [|??]]; try done. injection Hts as Hty Hv.
    exists 1. simpl app. rewrite parseValue_step, Hty, Hv.
    by rewrite JSON_parse_stringify.
  - cbn [node_tokens reparsed] in *. unfold number_tokens in Hts.
    exists 1. case_decide.
    + destruct ts as [|t [|??]]; try done. injection Hts as Hty Hv.
      simpl app. by rewrite parseValue_step, Hty, Hv.
    + destruct ts as [|t [|??]]; try done. injection Hts as Hty Hv.
      simpl app. by rewrite parseValue_step, Hty, Hv.
  - destruct ts as [|t [|??]]; try done. injection Hts as Hty Hv.
    exists 1. simpl app. rewrite parseValue_step, Hty, Hv.
    by destruct v.
  - destruct ts as [|t [|??]]; try done. injection Hts as Hty Hv.
    exists 1. simpl app. by rewrite parseValue_step, Hty, Hv.
  - cbn [node_tokens app] in Hts. destruct ts as [|t ts]; [done|].
    injection Hts as Hty Hv Hts.
    destruct (reparse_array children IH Hwf [] ts rest Hts) as (fuel & Hfuel).
    exists (S fuel). simpl app. by rewrite parseValue_step, Hty.
  - cbn [node_tokens app] in Hts. destruct ts as [|t ts]; [done|].
    injection Hts as Hty Hv Hts.
    destruct (reparse_object children IH Hwf [] ts rest Hts)
      as (fuel & Hfuel).
    exists (S fuel). simpl app. by rewrite parseValue_step, Hty.
Qed.
End Reparse.

(** ** Formatting the tree that is read back *)

Section Again.
Context `{JsNumberLaws}.
Variable cfg : MaaFormatConfig.

Local Abbreviation this := (new_MaaPipelineFormatter cfg).
Local Abbreviation nl := (newline_text cfg).
Local Abbreviation again := (reparsed nl).
Local Abbreviation again_child :=
  (λ child : ObjectChild AstNode,
     match child with
     | OComment c => OComment (reparsed_comment nl c)
     | OPair key val => OPair key (reparsed nl val)
     end).

Lemma reparsed_isComment node : isComment (again node) = isComment node.
Proof. destruct node; try done. simpl. by case_decide. Qed.

Lemma reparsed_isObject node : isObject (again node) = isObject node.
Proof. destruct node; try done. simpl. by case_decide. Qed.

Lemma reparsed_isArray node : isArray (again node) = isArray node.
Proof. destruct node; try done. simpl. by case_decide. Qed.

Lemma reparsed_isNumber node :
  stable_node nl node → isNumber (again node) = isNumber node.
Proof. destruct node; try done. simpl. intros Hs. by rewrite decide_False. Qed.

Lemma reparsed_isScalar node : isScalar (again node) = isScalar node.
Proof. destruct node; try done. simpl. by case_decide. Qed.

Lemma reparsed_isOComment child :
  isOComment (again_child child) = isOComment child.
Proof. by destruct child. Qed.

(** A scalar is printed as it was. *)
Lemma reparsed_scalar node level key mode :
  isScalar node →
  formatNode this (again node) level key mode
  = formatNode this node level key mode.
Proof.
  destruct node as [v raw|v raw|v raw|raw|c|children|children]; try done.
  intros _. simpl. case_decide as Hnull; [done|]. simpl.
  apply stringify_number_stable.
  by destruct (stringify_number_shape v).
Qed.

Lemma wf_reparsed node : wf_node node → wf_node (again node).
Proof.
  induction node as [v raw|v raw|v raw|raw|c|children IH|children IH]
    using AstNode_nested_ind; try done.
  - simpl. by case_decide.
  - simpl. apply comment_text_replace, newline_text_cases.
  - cbn [reparsed wf_node].
    induction IH as [|child later Hc _ IHl]; [done|].
    intros [Hwfc Hwf]. simpl. auto.
  - cbn [reparsed wf_node].
    induction IH as [|child later Hc _ IHl]; [done|].
    destruct child as [c|key val]; simpl.
    + intros [Hwfc Hwf]. split; [|by apply IHl].
      by apply comment_text_replace; [apply newline_text_cases|].
    + intros (Hcmt & Hwfc & Hwf). rewrite reparsed_isComment. auto.
Qed.

Lemma formatInlineArray_reparsed (children : list AstNode) :
  Forall isScalar children →
  formatInlineArray this (map again children)
  = formatInlineArray this children.
Proof.
  intros Hall. unfold formatInlineArray, formatInlineArray_body.
  do 3 f_equal. rewrite map_map. apply map_ext_Forall.
  eapply Forall_impl; [exact Hall|]. intros child Hc.
  by apply reparsed_scalar.
Qed.

Lemma formatInlineObject_reparsed (children : list (ObjectChild AstNode)) :
  Forall scalar_pair children →
  formatInlineObject this (map again_child children)
  = formatInlineObject this children.
Proof.
  intros Hall. unfold formatInlineObject, formatInlineObject_body.
  do 3 f_equal. induction Hall as [|child later Hc _ IH]; [done|].
  destruct child as [c|key val]; [done|]. simpl.
  f_equal; [|exact IH]. by rewrite (reparsed_scalar val 0 [] true Hc).
Qed.
Lemma bool_eq_iff (b1 b2 : bool) : (b1 = true ↔ b2 = true) → b1 = b2.
Proof. destruct b1, b2; naive_solver. Qed.

Lemma all_nodes_Forall (P : AstNode → Prop) children :
  all_nodes P children ↔ Forall P children.
Proof.
  induction children as [|c l IH]; simpl.
  - split; [constructor|done].
  - rewrite Forall_cons. by rewrite IH.
Qed.

Lemma blocks_inline_reparsed (children : list AstNode) :
  Forall (λ c, ¬ blocks_inline c) (map again children)
  ↔ Forall (λ c, ¬ blocks_inline c) children.
Proof.
  rewrite Forall_map. apply Forall_iff. intros c. unfold blocks_inline.
  by rewrite reparsed_isComment, reparsed_isObject, reparsed_isArray.
Qed.

Lemma isNumber_reparsed (children : list AstNode) :
  all_nodes (stable_node nl) children →
  Forall isNumber (map again children) ↔ Forall isNumber children.
Proof.
  intros Hst%all_nodes_Forall. rewrite Forall_map.
  induction Hst as [|c l Hc _ IH]; [done|].
  by rewrite !Forall_cons, IH, reparsed_isNumber.
Qed.

Lemma shouldInlineArray_reparsed k (children : list AstNode) :
  all_nodes (stable_node nl) children →
  shouldInlineArray this k (map again children)
  = shouldInlineArray this k children.
Proof.
  intros Hst. apply bool_eq_iff. rewrite !shouldInlineArray_rule.
  unfold array_inline_rule.
  rewrite blocks_inline_reparsed, (isNumber_reparsed _ Hst).
  split.
  - intros [Hnil|[Hb Hrest]]; [left; by destruct children|right].
    split; [done|]. rewrite formatInlineArray_reparsed in Hrest; [done|].
    by apply not_blocked_scalar.
  - intros [->|[Hb Hrest]]; [by left|right].
    split; [done|]. rewrite formatInlineArray_reparsed; [done|].
    by apply not_blocked_scalar.
Qed.

Lemma fields_reparsed (children : list (ObjectChild AstNode)) :
  (Forall (λ c, ¬ isOComment c) (map again_child children)
   ↔ Forall (λ c, ¬ isOComment c) children)
  ∧ (Forall (λ c, ¬ nested_value c) (map again_child children)
     ↔ Forall (λ c, ¬ nested_value c) children).
Proof.
  rewrite !Forall_map. split; apply Forall_iff; intros [c|key val]; try done.
  simpl. by rewrite reparsed_isObject, reparsed_isArray.
Qed.

Lemma shouldInlineObject_reparsed k (children : list (ObjectChild AstNode)) :
  all_values wf_node children →
  shouldInlineObject this k (map again_child children)
  = shouldInlineObject this k children.
Proof.
  intros Hwf. apply bool_eq_iff. rewrite !shouldInlineObject_rule.
  unfold object_inline_rule.
  destruct (fields_reparsed children) as [-> ->].
  split.
  - intros [Hnil|(Hk & Hc & Hn & Hlen)]; [left; by destruct children|right].
    rewrite formatInlineObject_reparsed in Hlen; [done|].
    by apply plain_fields_scalar.
  - intros [->|(Hk & Hc & Hn & Hlen)]; [by left|right].
    rewrite formatInlineObject_reparsed; [done|].
    by apply plain_fields_scalar.
Qed.
Local Abbreviation reformats := (reformats cfg).

Lemma comma_before_reparsed (later : list AstNode) :
  comma_before isComment (map again later) = comma_before isComment later.
Proof.
  unfold comma_before.
  assert (existsb (λ c, negb (isComment c)) (map again later)
          = existsb (λ c, negb (isComment c)) later) as ->; [|done].
  induction later as [|c l IH]; [done|]. simpl.
  by rewrite reparsed_isComment, IH.
Qed.

Lemma comma_before_fields (later : list (ObjectChild AstNode)) :
  comma_before isOComment (map again_child later)
  = comma_before isOComment later.
Proof.
  unfold comma_before.
  assert (existsb (λ c, negb (isOComment c)) (map again_child later)
          = existsb (λ c, negb (isOComment c)) later) as ->; [|done].
  induction later as [|c l IH]; [done|]. simpl.
  by rewrite reparsed_isOComment, IH.
Qed.

Lemma comma_before_printable {A : Type} (isCmt : A → bool) later :
  printable (comma_before isCmt later).
Proof.
  destruct (comma_before_cases isCmt later) as [[-> _]|[-> _]];
    by repeat constructor.
Qed.

(** The line of a child: the line terminators are those of the child. *)
Lemma line_replace level f comma :
  last f ≠ Some CR → printable comma →
  replace_newlines nl (child_indent cfg level ++ f ++ comma)
  = child_indent cfg level ++ replace_newlines nl f ++ comma.
Proof.
  intros Hf Hcomma.
  pose proof (indent_blank cfg (level + 1)) as Hblank.
  fold (child_indent cfg level) in Hblank.
  rewrite (replace_newlines_prefix cfg (child_indent cfg level))
    by (by apply blank_no_LF || by apply blank_last).
  by rewrite (replace_newlines_suffix cfg f comma)
    by (done || by apply printable_no_LF).
Qed.

Lemma pair_line_replace level key f comma :
  last f ≠ Some CR → printable comma →
  replace_newlines nl
    (child_indent cfg level ++ JSON_stringify_string key ++ js ": "
     ++ f ++ comma)
  = child_indent cfg level ++ JSON_stringify_string key ++ js ": "
    ++ replace_newlines nl f ++ comma.
Proof.
  intros Hf Hcomma.
  pose proof (indent_blank cfg (level + 1)) as Hblank.
  fold (child_indent cfg level) in Hblank.
  pose proof (JSON_stringify_string_printable key) as Hkey.
  rewrite (replace_newlines_prefix cfg (child_indent cfg level))
    by (by apply blank_no_LF || by apply blank_last).
  rewrite (replace_newlines_prefix cfg (JSON_stringify_string key))
    by (by apply printable_no_LF || by apply printable_last).
  change (replace_newlines nl (js ": " ++ ?s))
    with (js ": " ++ replace_newlines nl s).
  by rewrite (replace_newlines_suffix cfg f comma)
    by (done || by apply printable_no_LF).
Qed.

Lemma comment_last_CR text : comment_text text → last text ≠ Some CR.
Proof. intros (c & Hc & Hcr & _)%comment_text_last. congruence. Qed.

Lemma reformat_array_lines level (children : list AstNode) :
  Forall reformats children →
  all_nodes wf_node children → all_nodes (stable_node nl) children →
  map (replace_newlines nl) (array_child_lines cfg level (map again children))
  = map (replace_newlines nl) (array_child_lines cfg level children).
Proof.
  induction 1 as [|child later Hc _ IH]; [done|].
  intros [Hwfc Hwf] [Hstc Hst]. cbn [map array_child_lines].
  rewrite (IH Hwf Hst). f_equal.
  rewrite reparsed_isComment, comma_before_reparsed.
  destruct (isComment child) eqn:Hcmt.
  - destruct child; try done. cbn [reparsed formatNode].
    rewrite !app_nil_r. simpl in Hwfc, Hstc.
    pose proof (indent_blank cfg (level + 1)) as Hblank.
    fold (child_indent cfg level) in Hblank.
    rewrite !replace_newlines_prefix
      by (by apply blank_no_LF || by apply blank_last).
    by rewrite Hstc.
  - rewrite !line_replace;
      try apply comma_before_printable;
      try (apply plain_last_CR, formatNode_plain_last;
           by rewrite ?reparsed_isComment).
    by rewrite (Hc Hwfc Hstc).
Qed.

Lemma reformat_object_lines level (children : list (ObjectChild AstNode)) :
  Forall (λ child, match child with
                   | OComment _ => True
                   | OPair _ val => reformats val
                   end) children →
  all_values wf_node children → all_fields nl (stable_node nl) children →
  map (replace_newlines nl)
    (object_child_lines cfg level (map again_child children))
  = map (replace_newlines nl) (object_child_lines cfg level children).
Proof.
  induction 1 as [|child later Hc _ IH]; [done|].
  pose proof (indent_blank cfg (level + 1)) as Hblank.
  fold (child_indent cfg level) in Hblank.
  destruct child as [c|key val].
  - intros [Hwfc Hwf] [Hstc Hst].
    cbn [map]. rewrite !object_child_lines_cons. cbn [map].
    rewrite (IH Hwf Hst). f_equal.
    rewrite !replace_newlines_prefix
      by (by apply blank_no_LF || by apply blank_last).
    simpl. by rewrite Hstc.
  - intros (Hcmt & Hwfc & Hwf) [Hstc Hst].
    cbn [map]. rewrite !object_child_lines_cons. cbn [map].
    rewrite (IH Hwf Hst). f_equal.
    rewrite comma_before_fields.
    rewrite !pair_line_replace;
      try apply comma_before_printable;
      try (apply plain_last_CR, formatNode_plain_last;
           by rewrite ?reparsed_isComment).
    by rewrite (Hc Hwfc Hstc).
Qed.

(** The tree read back is rendered as the tree, up to the line
    terminators. *)
Lemma reformat_node node : reformats node.
Proof.
  induction node as [v raw|v raw|v raw|raw|c|children IH|children IH]
    using AstNode_nested_ind; intros Hwf Hst level key.
  - by rewrite reparsed_scalar.
  - by rewrite reparsed_scalar.
  - by rewrite reparsed_scalar.
  - by rewrite reparsed_scalar.
  - exact Hst.
  - cbn [reparsed]. rewrite !formatNode_array_cases.
    rewrite shouldInlineArray_reparsed by done.
    destruct (shouldInlineArray this key children) eqn:Hinline.
    + apply shouldInlineArray_rule in Hinline.
      rewrite formatInlineArray_reparsed; [done|].
      destruct Hinline as [->|[Hb _]]; [constructor|].
      by apply not_blocked_scalar.
    + unfold expanded_array.
      rewrite !replace_newlines_join.
      * rewrite !map_app. by rewrite reformat_array_lines.
      * apply Forall_app. split; [by repeat constructor|].
        apply Forall_app. split; [by apply array_lines_last|].
        repeat constructor. by rewrite last_app.
      * apply Forall_app. split; [by repeat constructor|].
        apply Forall_app. split.
        -- apply array_lines_last.
           by apply (wf_reparsed (JsonArray children)).
        -- repeat constructor. by rewrite last_app.
  - cbn [reparsed]. rewrite !formatNode_object_cases.
    rewrite shouldInlineObject_reparsed by done.
    destruct (shouldInlineObject this key children) eqn:Hinline.
    + apply shouldInlineObject_rule in Hinline.
      rewrite formatInlineObject_reparsed; [done|].
      destruct Hinline as [->|(_ & Hc & Hn & _)]; [constructor|].
      by apply plain_fields_scalar.
    + unfold expanded_object.
      rewrite !replace_newlines_join.
      * rewrite !map_app. by rewrite reformat_object_lines.
      * apply Forall_app. split; [by repeat constructor|].
        apply Forall_app. split; [by apply object_lines_last|].
        repeat constructor. by rewrite last_app.
      * apply Forall_app. split; [by repeat constructor|].
        apply Forall_app. split.
        -- apply object_lines_last.
           by apply (wf_reparsed (JsonObject children)).
        -- repeat constructor. by rewrite last_app.
Qed.
End Again.

(** ** Formatting twice *)

Section Twice.
Context `{JsNumberLaws}.
Variable cfg : MaaFormatConfig.

Local Abbreviation this := (new_MaaPipelineFormatter cfg).
Local Abbreviation nl := (newline_text cfg).

(** The last steps of [format] on a rendering that ends in a character
    other than white space. *)
Lemma finish_plain f :
  plain_last f →
  finish this f
  = replace_newlines nl f
    ++ (if insert_final_newline (posix cfg) then nl else []).
Proof.
  intros Hplain. unfold finish.
  change (newline (file_handling (config this)))
    with (newline (file_handling cfg)).
  fold (newline_text cfg).
  change (insert_final_newline (posix (config this)))
    with (insert_final_newline (posix cfg)).
  rewrite (plain_last_endsWithLF f Hplain), andb_false_r. simpl negb.
  rewrite andb_true_r.
  destruct (insert_final_newline _); [|by rewrite app_nil_r].
  rewrite bool_decide_eq_true_2
    by (destruct Hplain as (? & ? & _); by destruct f).
  rewrite replace_newlines_app by by apply plain_last_CR.
  by rewrite replace_newlines_LF, app_nil_r.
Qed.

(** The parser reads the tokens of an output as the tree read back. *)
Lemma parse_output root tokens :
  wf_node root → isComment root = false →
  map kv_of tokens = node_tokens nl root →
  parse tokens = Ok (reparsed nl root).
Proof.
  intros Hwf Hcmt Hkv.
  destruct (reparse_node nl root Hwf Hcmt tokens [] Hkv) as (fuel & Hfuel).
  rewrite app_nil_r in Hfuel.
  destruct (node_tokens_head nl root Hcmt)
    as (ty & v & more & Hhead & Hty & _).
  rewrite Hhead in Hkv. destruct tokens as [|t ts]; [done|].
  injection Hkv as Ht _ _.
  unfold parse, parse_rest. rewrite parseComments_none by congruence.
  simpl peek. cbv beta iota.
  set (F := 2 * length (t :: ts) + 1).
  assert (parseValue F (t :: ts) = Ok (reparsed nl root, [])) as ->.
  { pose proof (proj1 (parse_total F) (t :: ts) ltac:(unfold F; lia)) as Htot.
    pose proof (proj1 (parse_fuel_mono F) (t :: ts) _ (F `max` fuel)
                  eq_refl Htot ltac:(lia)) as E.
    rewrite <- E. apply (parseValue_mono fuel); [done|lia]. }
  simpl. by destruct (reparsed nl root).
Qed.
End Twice.

(** ** Carriage returns that no line feed follows *)

Lemma lone_cr_cons c s :
  lone_cr (c :: s)
  = ((c =? CR)%N
     && negb (match s with d :: _ => (d =? LF)%N | [] => false end))
    || lone_cr s.
Proof. done. Qed.

Lemma lone_cr_app s1 s2 :
  last s1 ≠ Some CR → lone_cr (s1 ++ s2) = lone_cr s1 || lone_cr s2.
Proof.
  induction s1 as [|c s1 IH]; [done|]. intros Hlast.
  rewrite <- app_comm_cons, !lone_cr_cons.
  destruct s1 as [|d s1].
  - simpl in Hlast. destruct (N.eqb_spec c CR) as [->|_]; [done|].
    by cbn [andb orb app lone_cr].
  - rewrite IH by (by rewrite last_cons_cons in Hlast).
    rewrite <- app_comm_cons. by rewrite orb_assoc.
Qed.

Lemma lone_cr_none s : CR ∉ s → lone_cr s = false.
Proof.
  induction s as [|c s IH]; [done|]. intros Hs.
  rewrite lone_cr_cons, IH by set_solver.
  destruct (N.eqb_spec c CR) as [->|_]; [set_solver|done].
Qed.

Lemma printable_no_CR s : printable s → CR ∉ s.
Proof.
  intros Hs Hin. eapply Forall_forall in Hs; [|exact Hin].
  unfold CR in Hs. lia.
Qed.

Lemma blank_no_CR s : Forall (λ c, c = TAB ∨ c = SPACE) s → CR ∉ s.
Proof.
  intros Hs Hin. eapply Forall_forall in Hs; [|exact Hin].
  by destruct Hs.
Qed.

(** The rewriting to CR LF keeps the carriage returns that no line feed
    follows, and makes no other. *)
Lemma lone_cr_replace s : lone_cr (replace_newlines [CR; LF] s) = lone_cr s.
Proof.
  induction s as [s IH] using length_ind.
  destruct s as [|c s]; [done|].
  destruct (decide (c = LF)) as [->|Hlf].
  { rewrite replace_newlines_LF.
    change (lone_cr ([CR; LF] ++ ?t)) with (lone_cr t).
    rewrite IH by (simpl; lia). done. }
  destruct (decide (c = CR)) as [->|Hcr].
  2:{ rewrite replace_newlines_cons by done.
      rewrite !lone_cr_cons, IH by (simpl; lia).
      destruct (N.eqb_spec c CR); [done|]. done. }
  destruct s as [|d s]; [done|].
  destruct (decide (d = LF)) as [->|Hd].
  { rewrite replace_newlines_CRLF.
    change (lone_cr ([CR; LF] ++ ?t)) with (lone_cr t).
    change (lone_cr (CR :: LF :: s)) with (lone_cr s).
    apply IH. simpl. lia. }
  rewrite replace_newlines_CR by done.
  rewrite !lone_cr_cons. rewrite IH by (simpl; lia).
  destruct (N.eqb_spec d LF) as [|_]; [done|].
  assert (match replace_newlines [CR; LF] (d :: s) with
          | d' :: _ => (d' =? LF)%N
          | [] => false
          end = false) as ->; [|done].
  destruct (decide (d = CR)) as [->|Hdcr].
  - destruct s as [|e s]; [done|].
    destruct (decide (e = LF)) as [->|He].
    + by rewrite replace_newlines_CRLF.
    + by rewrite replace_newlines_CR.
  - rewrite replace_newlines_cons by done. by apply N.eqb_neq.
Qed.

Lemma lone_cr_join parts :
  Forall (λ p, last p ≠ Some CR) parts →
  lone_cr (join [LF] parts) = existsb lone_cr parts.
Proof.
  induction 1 as [|p parts Hp Hparts IH]; [done|].
  destruct parts as [|q parts].
  - simpl. by rewrite orb_false_r.
  - rewrite join_cons, lone_cr_app by done.
    change (lone_cr ([LF] ++ ?t)) with (lone_cr t).
    by rewrite IH.
Qed.

Section Returns.
Context `{JsNumberLaws}.
Variable cfg : MaaFormatConfig.
Local Abbreviation this := (new_MaaPipelineFormatter cfg).

Lemma lone_cr_indent level s :
  lone_cr (child_indent cfg level ++ s) = lone_cr s.
Proof.
  pose proof (indent_blank cfg (level + 1)) as Hblank.
  fold (child_indent cfg level) in Hblank.
  rewrite lone_cr_app by (by apply blank_last).
  by rewrite lone_cr_none by (by apply blank_no_CR).
Qed.

Lemma lone_cr_comma {A : Type} (isCmt : A → bool) later s :
  last s ≠ Some CR →
  lone_cr (s ++ comma_before isCmt later) = lone_cr s.
Proof.
  intros Hs. rewrite lone_cr_app by done.
  rewrite (lone_cr_none (comma_before _ _)), orb_false_r; [done|].
  apply printable_no_CR, comma_before_printable.
Qed.

Lemma scalar_comments (children : list AstNode) :
  Forall isScalar children → array_comments node_comments children = [].
Proof.
  induction 1 as [|child later Hc _ IH]; [done|].
  cbn [array_comments]. rewrite IH. by destruct child.
Qed.

Lemma scalar_pair_comments (children : list (ObjectChild AstNode)) :
  Forall scalar_pair children → object_comments node_comments children = [].
Proof.
  induction 1 as [|child later Hc _ IH]; [done|].
  destruct child as [c|key val]; [done|].
  cbn [object_comments]. rewrite IH. by destruct val.
Qed.

Local Abbreviation returns_kept := (returns_kept cfg).

Lemma lone_cr_array_lines level (children : list AstNode) :
  Forall returns_kept children → all_nodes wf_node children →
  existsb lone_cr (array_child_lines cfg level children)
  = existsb lone_cr (array_comments node_comments children).
Proof.
  induction 1 as [|child later Hc _ IH]; [done|].
  intros [Hwfc Hwf]. cbn [array_child_lines array_comments existsb].
  rewrite existsb_app, (IH Hwf). f_equal.
  rewrite lone_cr_indent.
  destruct (isComment child) eqn:Hcmt.
  - rewrite app_nil_r. by apply Hc.
  - rewrite lone_cr_comma; [by apply Hc|].
    by apply plain_last_CR, formatNode_plain_last.
Qed.

Lemma lone_cr_object_lines level (children : list (ObjectChild AstNode)) :
  Forall (λ child, match child with
                   | OComment _ => True
                   | OPair _ val => returns_kept val
                   end) children →
  all_values wf_node children →
  existsb lone_cr (object_child_lines cfg level children)
  = existsb lone_cr (object_comments node_comments children).
Proof.
  induction 1 as [|child later Hc _ IH]; [done|].
  rewrite object_child_lines_cons. destruct child as [c|key val].
  - intros [Hwfc Hwf]. cbn [object_comments existsb].
    rewrite (IH Hwf). f_equal. apply lone_cr_indent.
  - intros (Hcmt & Hwfc & Hwf). cbn [object_comments existsb].
    rewrite existsb_app, (IH Hwf). f_equal.
    rewrite lone_cr_indent.
    rewrite lone_cr_app
      by apply printable_last, JSON_stringify_string_printable.
    rewrite lone_cr_none
      by apply printable_no_CR, JSON_stringify_string_printable.
    change (lone_cr (js ": " ++ ?t)) with (lone_cr t).
    rewrite lone_cr_comma; [by apply Hc|].
    by apply plain_last_CR, formatNode_plain_last.
Qed.

Lemma lone_cr_node node : returns_kept node.
Proof.
  induction node as [v raw|v raw|v raw|raw|c|children IH|children IH]
    using AstNode_nested_ind; intros Hwf level key.
  - by apply lone_cr_none, printable_no_CR, (scalar_printable cfg).
  - by apply lone_cr_none, printable_no_CR, (scalar_printable cfg).
  - by apply lone_cr_none, printable_no_CR, (scalar_printable cfg).
  - by apply lone_cr_none, printable_no_CR, (scalar_printable cfg).
  - cbn [formatNode node_comments existsb]. by rewrite orb_false_r.
  - rewrite formatNode_array_cases. cbn [node_comments].
    destruct (shouldInlineArray this key children) eqn:Hinline.
    + apply shouldInlineArray_rule in Hinline.
      assert (Forall isScalar children) as Hsc.
      { destruct Hinline as [->|[Hb _]]; [constructor|].
        by apply not_blocked_scalar. }
      rewrite scalar_comments by done.
      by apply lone_cr_none, printable_no_CR, inline_array_printable.
    + unfold expanded_array. rewrite lone_cr_join.
      * rewrite !existsb_app. cbn [existsb].
        rewrite (lone_cr_array_lines level children IH Hwf).
        rewrite (lone_cr_app (repeat_str (indentStr this) level))
          by apply blank_last, indent_blank.
        rewrite (lone_cr_none (repeat_str (indentStr this) level))
          by apply blank_no_CR, indent_blank.
        simpl. by rewrite !orb_false_r.
      * apply Forall_app. split; [by repeat constructor|].
        apply Forall_app. split; [by apply array_lines_last|].
        repeat constructor. by rewrite last_app.
  - rewrite formatNode_object_cases. cbn [node_comments].
    destruct (shouldInlineObject this key children) eqn:Hinline.
    + apply shouldInlineObject_rule in Hinline.
      assert (Forall scalar_pair children) as Hsc.
      { destruct Hinline as [->|(_ & Hc & Hn & _)]; [constructor|].
        by apply plain_fields_scalar. }
      rewrite scalar_pair_comments by done.
      by apply lone_cr_none, printable_no_CR, inline_object_printable.
    + unfold expanded_object. rewrite lone_cr_join.
      * rewrite !existsb_app. cbn [existsb].
        rewrite (lone_cr_object_lines level children IH Hwf).
        rewrite (lone_cr_app (repeat_str (indentStr this) level))
          by apply blank_last, indent_blank.
        rewrite (lone_cr_none (repeat_str (indentStr this) level))
          by apply blank_no_CR, indent_blank.
        simpl. by rewrite !orb_false_r.
      * apply Forall_app. split; [by repeat constructor|].
        apply Forall_app. split; [by apply object_lines_last|].
        repeat constructor. by rewrite last_app.
Qed.
End Returns.

(** C7, as amended.  With the style CRLF every line feed of the output
    follows a carriage return, and the output holds a carriage return
    that no line feed follows exactly when a comment of the parsed tree
    holds one: when none does, the carriage returns and the line feeds
    of the output are those of its CR LF pairs.  The output with a final
    newline is the output without it followed by one line terminator of
    the configured style, and the output without it does not end in a
    line terminator (nor in any other white space), so that there is
    exactly one line terminator at the end in the first case and none in
    the second. *)
Theorem newline_policy `{JsNumberLaws} cfg text :
  (∀ out,
     format (new_MaaPipelineFormatter (with_newline NL_CRLF cfg)) text = Ok out →
     lf_follows_cr out)
  ∧ (∀ tokens root out,
       tokenize text = Ok tokens →
       parse tokens = Ok root →
       format (new_MaaPipelineFormatter (with_newline NL_CRLF cfg)) text
       = Ok out →
       lone_cr out = existsb lone_cr (node_comments root))
  ∧ (∀ out,
       format (new_MaaPipelineFormatter (with_final_newline false cfg)) text
       = Ok out →
       format (new_MaaPipelineFormatter (with_final_newline true cfg)) text
       = Ok (out ++ newline_text cfg)
       ∧ plain_last out).
Proof.
  split; [|split].
  - intros out. rewrite format_unfold.
    destruct (tokenize text) as [tokens| |]; simpl; [|done..].
    destruct (parse tokens) as [ast| |]; simpl; [|done..].
    intros [= <-]. intros i. apply replace_newlines_crlf.
  - intros tokens root out Htok Hparse.
    rewrite format_unfold, Htok, result_bind_Ok, Hparse, result_bind_Ok.
    intros [= <-].
    pose proof (tokenize_comments _ _ Htok) as Hlexed.
    assert (∃ rest, parse_rest tokens = Ok (root, rest)) as (rest & Hrest).
    { unfold parse in Hparse.
      destruct (parse_rest tokens) as [[root0 rest]| |]; simpl in Hparse;
        [|done..].
      injection Hparse as <-. by exists rest. }
    destruct (parse_rest_comments _ _ _ Hrest Hlexed) as (Hwf & Hcmt & _).
    set (cfg' := with_newline NL_CRLF cfg).
    pose proof (formatNode_plain_last (new_MaaPipelineFormatter cfg')
                  root 0 [] false Hcmt) as Hplain.
    rewrite (finish_plain cfg' _ Hplain).
    change (newline_text cfg') with [CR; LF].
    destruct Hplain as (c & Hc & Hsp).
    assert (c ≠ LF ∧ c ≠ CR) as [Hlf Hcr].
    { split; intros ->; by vm_compute in Hsp. }
    rewrite lone_cr_app
      by (rewrite (replace_newlines_last _ _ c Hc Hlf Hcr); congruence).
    rewrite lone_cr_replace, (lone_cr_node cfg' root Hwf 0 []).
    by destruct (insert_final_newline (posix cfg')); rewrite orb_false_r.
  - intros out. rewrite !format_unfold.
    destruct (tokenize text) as [tokens| |]; simpl; [|done..].
    destruct (parse tokens) as [ast| |] eqn:Hp; simpl; [|done..].
    apply parse_not_comment in Hp.
    pose proof (formatNode_plain_last (new_MaaPipelineFormatter cfg)
                  ast 0 [] false Hp) as Hplain.
    unfold finish. simpl insert_final_newline.
    change (formatNode (new_MaaPipelineFormatter (with_final_newline _ cfg)))
      with (formatNode (new_MaaPipelineFormatter cfg)).
    change (formatNode (new_MaaPipelineFormatter (with_final_newline _ cfg)))
      with (formatNode (new_MaaPipelineFormatter cfg)).
    set (f := formatNode (new_MaaPipelineFormatter cfg) ast 0 [] false) in *.
    rewrite (plain_last_endsWithLF f Hplain).
    rewrite andb_false_r. simpl negb. rewrite andb_true_r.
    destruct Hplain as (c & Hc & Hsp).
    assert (c ≠ LF ∧ c ≠ CR) as [Hlf Hcr].
    { split; intros ->; by vm_compute in Hsp. }
    rewrite bool_decide_eq_true_2 by (by destruct f).
    intros [= <-].
    change (newline (file_handling (config (new_MaaPipelineFormatter
              (with_final_newline _ cfg))))) with (newline (file_handling cfg)).
    change (newline (file_handling (config (new_MaaPipelineFormatter
              (with_final_newline _ cfg))))) with (newline (file_handling cfg)).
    fold (newline_text cfg).
    rewrite replace_newlines_app by (rewrite Hc; congruence).
    split.
    + f_equal. f_equal. unfold newline_text.
      by destruct (newline (file_handling cfg)).
    + exists c. split; [|done]. by apply replace_newlines_last.
Qed.

Lemma newline_policy_witness :
  lone_cr (js "[" ++ [CR; LF; TAB] ++ js "/* a" ++ [CR; LF] ++ js "b */"
           ++ [CR; LF] ++ js "]")
  = false
  ∧ @format literal_numbers
      (new_MaaPipelineFormatter (with_final_newline true DEFAULT_CONFIG))
      (jsq "{'a': [1, '/*', {}]}")
    = Ok (join [LF]
            [ js "{";
              [TAB] ++ jsq "'a': [";
              [TAB; TAB] ++ js "1,";
              [TAB; TAB] ++ jsq "'/*',";
              [TAB; TAB] ++ js "{}";
              [TAB] ++ js "]";
              js "}" ]
          ++ [LF]).
Proof.
  split.
  - rewrite (proj1 (proj2 (@newline_policy literal_numbers
                             literal_numbers_laws DEFAULT_CONFIG
                             crlf_comment))
               [mkToken LBRACKET (js "[") 1;
                mkToken COMMENT (js "/* a" ++ [CR; LF] ++ js "b */") 1;
                mkToken RBRACKET (js "]") 2]
               (JsonArray
                  [Comment (mkComment (js "/* a" ++ [CR; LF] ++ js "b */")
                              true)])).
    + vm_compute. reflexivity.
    + vm_compute. reflexivity.
    + vm_compute. reflexivity.
    + vm_compute. reflexivity.
  - refine (proj1 (proj2 (proj2 (@newline_policy literal_numbers
                                   literal_numbers_laws DEFAULT_CONFIG
                                   (jsq "{'a': [1, '/*', {}]}"))) _ _)).
    vm_compute. reflexivity.
Defined.

(** C7, counterexample: with the style CRLF the carriage return of a
    block comment that no line feed follows is in the output as it is,
    before the letter [b]. *)
Lemma lone_return_kept :
  @format literal_numbers
    (new_MaaPipelineFormatter (with_newline NL_CRLF DEFAULT_CONFIG))
    lone_return_comment
  = Ok (js "[" ++ [CR; LF; TAB] ++ js "/*a" ++ [CR] ++ js "b*/" ++ [CR; LF]
        ++ js "]")
  ∧ lone_cr (js "[" ++ [CR; LF; TAB] ++ js "/*a" ++ [CR] ++ js "b*/"
             ++ [CR; LF] ++ js "]")
    = true
  ∧ (js "[" ++ [CR; LF; TAB] ++ js "/*a" ++ [CR] ++ js "b*/" ++ [CR; LF]
     ++ js "]") !! 7 = Some CR
  ∧ (js "[" ++ [CR; LF; TAB] ++ js "/*a" ++ [CR] ++ js "b*/" ++ [CR; LF]
     ++ js "]") !! 8 = Some 98%N.
Proof. repeat split; vm_compute; reflexivity. Qed.

(** X1.  Formatting is idempotent on the documents whose comments are
    stable and whose numbers are not printed as [null]: when every
    comment of the tree that [parse] builds is a text that a second
    rewriting of the line terminators leaves as the first one made it,
    and no number of the tree is printed as [null], the output of
    [format] is formatted to itself. *)
Theorem format_idempotent `{JsNumberLaws} cfg text tokens root :
  tokenize text = Ok tokens →
  parse tokens = Ok root →
  stable_node (newline_text cfg) root →
  ∃ out,
    format (new_MaaPipelineFormatter cfg) text = Ok out
    ∧ format (new_MaaPipelineFormatter cfg) out = Ok out.
Proof.
  intros Htok Hparse Hstable.
  pose proof (tokenize_comments _ _ Htok) as Hlexed.
  assert (∃ rest, parse_rest tokens = Ok (root, rest)) as (rest & Hrest).
  { unfold parse in Hparse.
    destruct (parse_rest tokens) as [[root0 rest]| |]; simpl in Hparse;
      [|done..].
    injection Hparse as <-. by exists rest. }
  destruct (parse_rest_comments _ _ _ Hrest Hlexed) as (Hwf & Hcmt & _).
  destruct (relex_output cfg root Hwf Hcmt 1) as (tokens' & Hout & Hkv).
  exists (finish (new_MaaPipelineFormatter cfg)
            (formatNode (new_MaaPipelineFormatter cfg) root 0 [] false)).
  split.
  { by rewrite format_unfold, Htok; simpl; rewrite Hparse. }
  rewrite format_unfold. unfold tokenize. rewrite Hout. simpl.
  rewrite (parse_output cfg root tokens' Hwf Hcmt Hkv). simpl. f_equal.
  rewrite !finish_plain
    by (apply formatNode_plain_last; by rewrite ?reparsed_isComment).
  by rewrite (reformat_node cfg root Hwf Hstable).
Qed.

Lemma format_idempotent_witness :
  ∃ out,
    @format literal_numbers default_formatter commented_object = Ok out
    ∧ @format literal_numbers default_formatter out = Ok out.
Proof.
  eapply (@format_idempotent literal_numbers literal_numbers_laws
            DEFAULT_CONFIG commented_object).
  - vm_compute. reflexivity.
  - vm_compute. reflexivity.
  - vm_compute. repeat split; (reflexivity || discriminate).
Defined.

(** ** Comments that are stable *)

Lemma replace_newlines_CRLF_head s :
  head (replace_newlines [CR; LF] s) ≠ Some LF.
Proof.
  destruct s as [|c s]; [done|]. simpl.
  destruct (N.eqb_spec c CR) as [->|Hcr].
  - destruct s as [|d s]; [done|]. by destruct (d =? LF)%N.
  - by destruct (N.eqb_spec c LF) as [->|Hlf]; [|intros [= ->]].
Qed.

(** With the style CRLF the rewriting is idempotent. *)
Lemma replace_newlines_CRLF_stable s :
  replace_newlines [CR; LF] (replace_newlines [CR; LF] s)
  = replace_newlines [CR; LF] s.
Proof.
  induction s as [s IH] using length_ind. destruct s as [|c s]; [done|].
  destruct (decide (c = LF)) as [->|Hlf].
  { rewrite replace_newlines_LF. cbn [app].
    rewrite replace_newlines_CRLF. cbn [app]. rewrite IH; [done|simpl; lia]. }
  destruct (decide (c = CR)) as [->|Hcr].
  2:{ rewrite !replace_newlines_cons by done.
      rewrite IH; [done|simpl; lia]. }
  destruct s as [|d s]; [done|].
  destruct (decide (d = LF)) as [->|Hd].
  { rewrite replace_newlines_CRLF. cbn [app].
    rewrite replace_newlines_CRLF. cbn [app]. rewrite IH; [done|simpl; lia]. }
  rewrite replace_newlines_CR by done.
  pose proof (replace_newlines_CRLF_head (d :: s)) as Hhead.
  pose proof (IH (d :: s) ltac:(simpl; lia)) as IHs.
  destruct (replace_newlines [CR; LF] (d :: s)) as [|x xs]; [done|].
  rewrite replace_newlines_CR by (intros ->; by apply Hhead).
  by rewrite IHs.
Qed.

Lemma replace_newlines_no_CR nl s :
  nl = [LF] → CR ∉ s → replace_newlines nl s = s.
Proof.
  intros -> Hs. induction s as [|c s IH]; [done|].
  apply not_elem_of_cons in Hs as [Hc Hs].
  destruct (decide (c = LF)) as [->|Hlf].
  - rewrite replace_newlines_LF. cbn [app]. by rewrite IH.
  - rewrite replace_newlines_cons by done. by rewrite IH.
Qed.

(** A comment is stable when the style is CRLF, and when it holds no
    carriage return. *)
Lemma stable_comment_cases cfg c :
  newline (file_handling cfg) = NL_CRLF ∨ CR ∉ text c →
  stable_comment (newline_text cfg) c.
Proof.
  unfold stable_comment, newline_text.
  destruct (newline (file_handling cfg)) eqn:E.
  - intros [?|Hc]; [done|]. by rewrite !(replace_newlines_no_CR [LF] (text c)).
  - intros _. apply replace_newlines_CRLF_stable.
Qed.

Lemma overflowing_numbers_laws : @JsNumberLaws overflowing_numbers.
Proof.
  split.
  - intros v. simpl. case_decide; [by left|].
    destruct (number_literal v) eqn:E; auto.
  - intros v. simpl. case_decide as Hv; [by vm_compute|].
    destruct (number_literal v) eqn:E; [|by vm_compute].
    intros _. by rewrite decide_False, E.
Qed.

(** C1.  Formatting is not idempotent.  The block comment of
    [stray_return_comment] holds CR CR LF: the first pass, with the
    default configuration, rewrites CR LF to LF and leaves a CR before
    it, and the second pass rewrites that CR LF to LF.  The numbers of
    the coordinates of [overflowing_roi] are printed as [null]: the first
    pass renders the array on one line, as coordinates, and the second
    pass, which reads no number there, expands the array, which is longer
    than the threshold.  In both cases the output of the second pass is
    not the output of the first. *)
Theorem format_twice_differs :
  (@format literal_numbers default_formatter stray_return_comment
   = Ok (join [LF] [js "["; [TAB] ++ js "/*" ++ [CR; LF] ++ js "*/"; js "]"])
   ∧ @format literal_numbers default_formatter
       (join [LF] [js "["; [TAB] ++ js "/*" ++ [CR; LF] ++ js "*/"; js "]"])
     = Ok (join [LF] [js "["; [TAB] ++ js "/*" ++ [LF] ++ js "*/"; js "]"])
   ∧ join [LF] [js "["; [TAB] ++ js "/*" ++ [CR; LF] ++ js "*/"; js "]"]
     ≠ join [LF] [js "["; [TAB] ++ js "/*" ++ [LF] ++ js "*/"; js "]"])
  ∧ (@format overflowing_numbers default_formatter overflowing_roi
     = Ok (join [LF]
             [ js "{";
               [TAB] ++ jsq "'roi': [null, null, null, null, null, null, null, null, null]";
               js "}" ])
     ∧ @format overflowing_numbers default_formatter
         (join [LF]
            [ js "{";
              [TAB] ++ jsq "'roi': [null, null, null, null, null, null, null, null, null]";
              js "}" ])
       = Ok (join [LF]
               ([ js "{"; [TAB] ++ jsq "'roi': [" ]
                ++ repeat ([TAB; TAB] ++ js "null,") 8
                ++ [ [TAB; TAB] ++ js "null"; [TAB] ++ js "]"; js "}" ]))
     ∧ join [LF]
         [ js "{";
           [TAB] ++ jsq "'roi': [null, null, null, null, null, null, null, null, null]";
           js "}" ]
       ≠ join [LF]
           ([ js "{"; [TAB] ++ jsq "'roi': [" ]
            ++ repeat ([TAB; TAB] ++ js "null,") 8
            ++ [ [TAB; TAB] ++ js "null"; [TAB] ++ js "]"; js "}" ])).
Proof. repeat split; vm_compute; (reflexivity || discriminate). Qed.

(** * Further properties of the formatter *)

(** ** The output is a document *)

(** X2.  The output of [format] is a document that the tokenizer and the
    parser accept: its tokens are the tokens of the tree of the input, and
    it is parsed to that tree read back, which has the same structure,
    keys, strings and booleans, the numbers read from their printed form
    and the comments with their line terminators rewritten. *)
Theorem format_output_parses `{JsNumberLaws} cfg text tokens root :
  tokenize text = Ok tokens →
  parse tokens = Ok root →
  ∃ out tokens',
    format (new_MaaPipelineFormatter cfg) text = Ok out
    ∧ tokenize out = Ok tokens'
    ∧ map kv_of tokens' = node_tokens (newline_text cfg) root
    ∧ parse tokens' = Ok (reparsed (newline_text cfg) root).
Proof.
  intros Htok Hparse.
  pose proof (tokenize_comments _ _ Htok) as Hlexed.
  assert (∃ rest, parse_rest tokens = Ok (root, rest)) as (rest & Hrest).
  { unfold parse in Hparse.
    destruct (parse_rest tokens) as [[root0 rest]| |]; simpl in Hparse;
      [|done..].
    injection Hparse as <-. by exists rest. }
  destruct (parse_rest_comments _ _ _ Hrest Hlexed) as (Hwf & Hcmt & _).
  destruct (relex_output cfg root Hwf Hcmt 1) as (tokens' & Hout & Hkv).
  exists (finish (new_MaaPipelineFormatter cfg)
            (formatNode (new_MaaPipelineFormatter cfg) root 0 [] false)),
    tokens'.
  split; [by rewrite format_unfold, Htok; simpl; rewrite Hparse|].
  split; [done|]. split; [done|]. by apply parse_output.
Qed.

Lemma format_output_parses_witness :
  ∃ out tokens',
    @format literal_numbers default_formatter commented_object = Ok out
    ∧ tokenize out = Ok tokens'
    ∧ @parse literal_numbers tokens'
      = Ok (JsonObject
              [OComment (mkComment (js "// c") false);
               OComment (mkComment (js "/* d" ++ [LF] ++ js "e */") true);
               OPair (js "a")
                 (JsonArray
                    [JsonNumber (js "1" : @num literal_numbers) (js "1");
                     JsonNumber (js "2" : @num literal_numbers) (js "2")]);
               OComment (mkComment (js "// f") false)]).
Proof.
  edestruct (@format_output_parses literal_numbers literal_numbers_laws
               DEFAULT_CONFIG commented_object)
    as (out & tokens' & Hf & Ht & _ & Hp).
  - vm_compute. reflexivity.
  - vm_compute. reflexivity.
  - exists out, tokens'. split; [exact Hf|]. split; [exact Ht|].
    rewrite Hp. vm_compute. reflexivity.
Defined.

(** ** A document without a value *)

Lemma tokenize_blank text : Forall is_space text → tokenize text = Ok [].
Proof.
  intros Hws.
  destruct (lexes_space text [] [] Hws lexes_nil 1) as (tokens & Htok & Hkv).
  rewrite app_nil_r in Htok. unfold tokenize. rewrite Htok.
  by destruct tokens.
Qed.

Lemma parseComments_only `{JsNumber} comments tokens :
  only_comments tokens →
  parseComments comments tokens = (comments ++ map comment_of tokens, []).
Proof.
  intros Hall. revert comments.
  induction Hall as [|t ts Ht _ IH]; intros comments; simpl.
  - by rewrite app_nil_r.
  - rewrite decide_True by done. by rewrite IH, <- (assoc_L (++)).
Qed.

Lemma parse_only_comments `{JsNumber} tokens :
  only_comments tokens →
  parse tokens = Ok (JsonObject (map OComment (map comment_of tokens))).
Proof.
  intros Hall. unfold parse, parse_rest.
  by rewrite (parseComments_only [] tokens Hall).
Qed.

(** X3.  A document of white space only, the empty one among them, is
    formatted to an empty object, followed by a line terminator when the
    final newline is asked for. *)
Theorem blank_document `{JsNumberLaws} cfg text :
  Forall is_space text →
  format (new_MaaPipelineFormatter cfg) text
  = Ok (js "{}" ++ (if insert_final_newline (posix cfg)
                    then newline_text cfg else [])).
Proof.
  intros Hws. rewrite format_unfold, (tokenize_blank text Hws). simpl.
  by rewrite finish_plain by (by exists 125%N).
Qed.

Lemma blank_document_witness :
  @format literal_numbers default_formatter ([SPACE; LF; TAB]) = Ok (js "{}").
Proof.
  refine (@blank_document literal_numbers literal_numbers_laws DEFAULT_CONFIG
            [SPACE; LF; TAB] _).
  repeat constructor.
Defined.

Lemma comment_lines `{JsNumber} cfg level (cs : list JsonComment) :
  object_child_lines cfg level (map OComment cs)
  = map (λ c, child_indent cfg level ++ text c) cs.
Proof.
  induction cs as [|c cs IH]; [done|].
  cbn [map]. by rewrite object_child_lines_cons, IH.
Qed.

(** X4.  A document of comments only is formatted to an object that
    holds the comments, one per line and indented once, with their line
    terminators rewritten. *)
Theorem comments_only_document `{JsNumberLaws} cfg text tokens :
  tokenize text = Ok tokens →
  only_comments tokens → tokens ≠ [] →
  format (new_MaaPipelineFormatter cfg) text
  = Ok (join (newline_text cfg)
          ([js "{"]
           ++ map (λ t, indentStr (new_MaaPipelineFormatter cfg)
                        ++ replace_newlines (newline_text cfg) (value t))
                tokens
           ++ [js "}"])
        ++ (if insert_final_newline (posix cfg)
            then newline_text cfg else [])).
Proof.
  intros Htok Hall Hne.
  pose proof (tokenize_comments _ _ Htok) as Hlexed.
  rewrite format_unfold, Htok, result_bind_Ok.
  rewrite (parse_only_comments tokens Hall), result_bind_Ok.
  set (children := map OComment (map comment_of tokens)).
  assert (all_values wf_node children) as Hwf.
  { unfold children. apply all_values_map.
    apply Forall_map. unfold lexed_comments, only_comments in *.
    rewrite Forall_forall in *. intros t Ht. simpl. apply Hlexed; auto. }
  rewrite finish_plain by (by apply formatNode_plain_last).
  do 2 f_equal. rewrite formatNode_object_cases.
  assert (shouldInlineObject (new_MaaPipelineFormatter cfg) [] children
          = false) as ->.
  { apply not_true_is_false. rewrite shouldInlineObject_rule.
    unfold children. destruct tokens as [|t ts]; [done|].
    intros [?|(_ & Hc & _)]; [done|].
    apply Forall_cons in Hc as [Hc _]. by apply Hc. }
  unfold expanded_object. rewrite replace_newlines_join.
  2:{ apply Forall_app. split; [by repeat constructor|].
      apply Forall_app. split; [by apply object_lines_last|].
      repeat constructor. by rewrite last_app. }
  f_equal. rewrite !map_app. f_equal. f_equal.
  unfold children. rewrite comment_lines, !map_map.
  apply map_ext. intros t. simpl.
  pose proof (indent_blank cfg 1) as Hblank.
  unfold child_indent. simpl repeat_str in *. rewrite app_nil_r in *.
  by rewrite replace_newlines_prefix
    by (by apply blank_no_LF || by apply blank_last).
Qed.

Lemma comments_only_document_witness :
  @format literal_numbers default_formatter (js "// a" ++ [LF] ++ js "/* b */")
  = Ok (join [LF] [js "{"; [TAB] ++ js "// a"; [TAB] ++ js "/* b */"; js "}"]).
Proof.
  refine (eq_trans
            (@comments_only_document literal_numbers literal_numbers_laws
               DEFAULT_CONFIG (js "// a" ++ [LF] ++ js "/* b */")
               [mkToken COMMENT (js "// a") 1; mkToken COMMENT (js "/* b */") 2]
               _ _ _) _).
  - vm_compute. reflexivity.
  - repeat constructor.
  - discriminate.
  - vm_compute. reflexivity.
Defined.

(** ** The tokens in the text *)

Lemma count_newlines_app s1 s2 :
  count_newlines (s1 ++ s2) = count_newlines s1 + count_newlines s2.
Proof. unfold count_newlines. by rewrite filter_app, length_app. Qed.

Lemma first_match_space text v rest :
  first_match PATTERNS text = Some (WHITESPACE, v, rest) → Forall is_space v.
Proof.
  unfold PATTERNS, first_match.
  repeat match goal with
  | |- context [match ?r text with _ => _ end] =>
      destruct (r text) as [[? ?]|] eqn:?; [done|]
  end.
  destruct (WHITESPACE_regex text) as [[v' r]|] eqn:E; [|done].
  intros [= <- <-]. unfold WHITESPACE_regex in E.
  destruct (span is_space text) as [ws r'] eqn:Hs.
  destruct ws; [done|]. injection E as <- <-.
  by apply span_Forall in Hs.
Qed.

(** X5.  The tokens of a text lie in it in their order, with white
    space only before, between and after them: the tokenizer drops
    nothing else.  No token is empty or is white space, and the line of a
    token is the line of the start plus the number of the line feeds
    before the token. *)
Theorem token_layout text line0 tokens :
  tokenize_from text line0 = Ok tokens →
  ∃ gaps tail,
    length gaps = length tokens
    ∧ Forall (Forall is_space) gaps ∧ Forall is_space tail
    ∧ text = interleave gaps tokens ++ tail
    ∧ Forall (λ t, type t ≠ WHITESPACE ∧ value t ≠ []) tokens
    ∧ ∀ i t, tokens !! i = Some t →
        line t = line0 + count_newlines (text_before i gaps tokens).
Proof.
  revert line0 tokens. induction text as [text IH] using length_ind.
  intros line0 tokens. destruct text as [|c text].
  { intros [= <-]. exists [], [].
    split; [done|]. split; [constructor|]. split; [constructor|].
    split; [done|]. split; [constructor|]. by intros i t. }
  rewrite tokenize_from_cons.
  destruct (first_match PATTERNS (c :: text)) as [[[ty v] rest]|] eqn:Hm;
    [|done].
  pose proof (first_match_app _ _ _ _ Hm) as [E Hv].
  assert (length rest < length (c :: text)) as Hlen.
  { rewrite E, length_app. destruct v; [done|]. simpl. lia. }
  destruct (tokenize_from rest (line0 + count_newlines v)) as [toks| |] eqn:Hr;
    simpl; [|done..].
  destruct (IH rest Hlen _ _ Hr)
    as (gaps & tail & Hlg & Hgaps & Htail & Hrest & Htoks & Hlines).
  intros [= <-]. rewrite E. case_decide as Hty.
  - exists ([] :: gaps), tail. repeat split; try done.
    + simpl. by rewrite Hlg.
    + by constructor.
    + simpl. by rewrite Hrest, <- (assoc_L (++)).
    + by constructor.
    + intros [|i] t; simpl.
      * intros [= <-]. unfold text_before, count_newlines. simpl. lia.
      * intros Ht. rewrite (Hlines i t Ht). unfold text_before. simpl.
        rewrite <- (assoc_L (++)), (count_newlines_app v). lia.
  - subst ty. pose proof (first_match_space _ _ _ Hm) as Hws.
    destruct gaps as [|g gaps]; destruct toks as [|t0 toks]; try done.
    + exists [], (v ++ tail). repeat split; try done.
      * by apply Forall_app.
      * simpl in *. by rewrite Hrest.
    + apply Forall_cons in Hgaps as [Hg Hgaps].
      exists ((v ++ g) :: gaps), tail. repeat split; try done.
      * constructor; [by apply Forall_app|done].
      * simpl in *. by rewrite Hrest, <- !(assoc_L (++)).
      * intros i t Ht. rewrite (Hlines i t Ht).
        unfold text_before. destruct i as [|i]; simpl.
        -- rewrite (count_newlines_app v). lia.
        -- rewrite <- !(assoc_L (++)), (count_newlines_app v). lia.
Qed.

Lemma token_layout_witness :
  ∃ gaps tail,
    js "[" ++ [LF; SPACE] ++ js "1"
    = interleave gaps
        [mkToken LBRACKET (js "[") 1; mkToken NUMBER (js "1") 2] ++ tail
    ∧ Forall (Forall is_space) gaps.
Proof.
  destruct (token_layout (js "[" ++ [LF; SPACE] ++ js "1") 1
              [mkToken LBRACKET (js "[") 1; mkToken NUMBER (js "1") 2])
    as (gaps & tail & _ & Hgaps & _ & Htext & _).
  - vm_compute. reflexivity.
  - exists gaps, tail. split; [exact Htext|exact Hgaps].
Defined.

(** X6.  The tokenizer fails with one error only: it names a character
    of the text at which no pattern matches, which is no white space, and
    the line of that character, counted from the line of the start by the
    line feeds before it. *)
Theorem tokenize_error text line0 e :
  tokenize_from text line0 = Throw e →
  ∃ pre c rest,
    text = pre ++ c :: rest
    ∧ first_match PATTERNS (c :: rest) = None
    ∧ is_space c = false
    ∧ e = Error (js "Unexpected character at line "
                 ++ nat_to_string (line0 + count_newlines pre)
                 ++ js ": " ++ [c]).
Proof.
  revert line0. induction text as [text IH] using length_ind.
  intros line0. destruct text as [|c text]; [done|].
  rewrite tokenize_from_cons.
  destruct (first_match PATTERNS (c :: text)) as [[[ty v] rest]|] eqn:Hm.
  - pose proof (first_match_app _ _ _ _ Hm) as [E Hv].
    assert (length rest < length (c :: text)) as Hlen.
    { rewrite E, length_app. destruct v; [done|]. simpl. lia. }
    destruct (tokenize_from rest (line0 + count_newlines v)) as [toks| |] eqn:Hr;
      simpl; [done| |done].
    intros [= <-].
    destruct (IH rest Hlen _ Hr) as (pre & d & rest' & -> & Hnone & Hd & ->).
    exists (v ++ pre), d, rest'. rewrite E, <- (assoc_L (++)).
    split; [done|]. split; [done|]. split; [done|].
    by rewrite count_newlines_app, Nat.add_assoc.
  - intros [= <-]. exists [], c, text.
    split; [done|]. split; [done|]. split.
    + destruct (is_space c) eqn:Hc; [|done].
      assert (WHITESPACE_regex (c :: text) ≠ None) as Hws.
      { unfold WHITESPACE_regex. simpl. rewrite Hc.
        by destruct (span is_space text). }
      revert Hm. unfold PATTERNS, first_match.
      repeat match goal with
      | |- context [match ?r (c :: text) with _ => _ end] =>
          destruct (r (c :: text)) as [[? ?]|] eqn:?; [done|]
      end.
      done.
    + unfold count_newlines. simpl. by rewrite Nat.add_0_r.
Qed.

Lemma tokenize_error_witness :
  ∃ pre c rest,
    js "[1," ++ [LF] ++ js "x]" = pre ++ c :: rest
    ∧ is_space c = false
    ∧ tokenize (js "[1," ++ [LF] ++ js "x]")
      = Throw (Error (js "Unexpected character at line "
                      ++ nat_to_string (1 + count_newlines pre)
                      ++ js ": " ++ [c])).
Proof.
  destruct (tokenize_error (js "[1," ++ [LF] ++ js "x]") 1
              (Error (js "Unexpected character at line 2: x")))
    as (pre & c & rest & Htext & _ & Hc & He).
  - vm_compute. reflexivity.
  - exists pre, c, rest. split; [exact Htext|]. split; [exact Hc|].
    rewrite <- He. vm_compute. reflexivity.
Defined.

Lemma block_comment_end_none s :
  includes s (js "*/") = false → block_comment_end s = None.
Proof.
  induction s as [|c s IH]; [done|]. cbn [includes].
  intros [Hstart Hrest]%orb_false_elim. specialize (IH Hrest).
  cbn [block_comment_end]. rewrite IH. simpl.
  destruct (N.eqb_spec c 42) as [->|?]; [|done].
  destruct s as [|d s]; [done|].
  destruct (N.eqb_spec d 47) as [->|?]; [|done].
  by destruct s; vm_compute in Hstart.
Qed.

Lemma string_tail_none s : QUOTE ∉ s → string_tail s = None.
Proof.
  induction s as [s IH] using length_ind. destruct s as [|c s]; [done|].
  intros [Hc Hs]%not_elem_of_cons. cbn [string_tail].
  rewrite (IH s) by (simpl; lia || done).
  rewrite (proj2 (N.eqb_neq c 34)) by done.
  destruct (c =? 92)%N; [|done].
  destruct s as [|d s]; [done|].
  apply not_elem_of_cons in Hs as [Hd Hs].
  rewrite (IH s) by (simpl; lia || done).
  by destruct (is_line_terminator d).
Qed.

Lemma block_comment_end_some s :
  includes s (js "*/") = true → block_comment_end s ≠ None.
Proof.
  induction s as [|c s IH]; [done|]. cbn [includes].
  intros Hin. cbn [block_comment_end].
  destruct (block_comment_end s) as [[body rest]|] eqn:E.
  { simpl. destruct (c =? 42)%N; [|done].
    destruct s as [|d s]; [done|]. by destruct (d =? 47)%N. }
  apply orb_prop in Hin as [Hstart|Hrest]; [|by apply IH in Hrest].
  change (js "*/") with [42%N; 47%N] in Hstart.
  destruct s as [|d s]; cbn [startsWith] in Hstart.
  { by rewrite andb_false_r in Hstart. }
  apply andb_prop in Hstart as [Hc [Hd _]%andb_prop].
  apply N.eqb_eq in Hc as <-. apply N.eqb_eq in Hd as <-. done.
Qed.

Lemma string_tail_some s : QUOTE ∈ s → string_tail s ≠ None.
Proof.
  induction s as [|c s IH]; [by intros ?%elem_of_nil|].
  intros Hin. cbn [string_tail].
  match goal with
  | |- match ?e with _ => _ end ≠ _ => destruct e as [r|]; [done|]
  end.
  destruct (N.eqb_spec c 34) as [->|Hc]; [done|].
  apply elem_of_cons in Hin as [Hq|Hin]; [by subst|].
  destruct (string_tail s) as [[body rest]|] eqn:E; [done|].
  by apply IH in Hin.
Qed.

(** X7.  The tokenizer fails at the opening of a block comment exactly
    when no [*/] follows it, and at an opening quote exactly when no
    quote at all follows it in the text: the error then names the slash,
    or the quote, and the line where it stands.  When a [*/] follows, a
    comment token is made there; when a quote follows, be it written
    after a backslash, the string pattern matches up to a quote and a
    string token is made there, so that the tokenizer goes on after that
    token. *)
Theorem unterminated_token_error line0 s :
  (includes s (js "*/") = false →
   tokenize_from (js "/*" ++ s) line0
   = Throw (Error (js "Unexpected character at line "
                   ++ nat_to_string line0 ++ js ": /")))
  ∧ (includes s (js "*/") = true →
     ∃ v rest,
       js "/*" ++ s = v ++ rest
       ∧ tokenize_from (js "/*" ++ s) line0
         = (tokens ← tokenize_from rest (line0 + count_newlines v);
            Ok (mkToken COMMENT v line0 :: tokens)))
  ∧ (QUOTE ∉ s →
     tokenize_from (QUOTE :: s) line0
     = Throw (Error (js "Unexpected character at line "
                     ++ nat_to_string line0 ++ js ": " ++ [QUOTE])))
  ∧ (QUOTE ∈ s →
     ∃ v rest,
       QUOTE :: s = v ++ rest
       ∧ tokenize_from (QUOTE :: s) line0
         = (tokens ← tokenize_from rest (line0 + count_newlines v);
            Ok (mkToken STRING v line0 :: tokens))).
Proof.
  split; [|split; [|split]].
  - intros Hs. change (js "/*" ++ s) with (47%N :: 42%N :: s).
    rewrite tokenize_from_cons.
    assert (first_match PATTERNS (47%N :: 42%N :: s) = None) as ->; [|done].
    unfold PATTERNS, first_match.
    assert (COMMENT_regex (47%N :: 42%N :: s) = None) as ->.
    { simpl. by rewrite (block_comment_end_none s Hs). }
    reflexivity.
  - intros Hs%block_comment_end_some.
    destruct (block_comment_end s) as [[body rest]|] eqn:E; [|done].
    exists (47%N :: 42%N :: body), rest.
    change (js "/*" ++ s) with (47%N :: 42%N :: s).
    assert (first_match PATTERNS (47%N :: 42%N :: s)
            = Some (COMMENT, 47%N :: 42%N :: body, rest)) as Hm.
    { unfold PATTERNS, first_match. simpl. by rewrite E. }
    split; [by apply first_match_app in Hm as [? _]|].
    by rewrite tokenize_from_cons, Hm.
  - intros Hs. rewrite tokenize_from_cons.
    assert (first_match PATTERNS (QUOTE :: s) = None) as ->; [|done].
    unfold PATTERNS, first_match.
    assert (COMMENT_regex (QUOTE :: s) = None) as -> by (by destruct s).
    assert (STRING_regex (QUOTE :: s) = None) as ->.
    { simpl. by rewrite (string_tail_none s Hs). }
    reflexivity.
  - intros Hs%string_tail_some.
    destruct (string_tail s) as [[body rest]|] eqn:E; [|done].
    exists (QUOTE :: body), rest.
    assert (first_match PATTERNS (QUOTE :: s)
            = Some (STRING, QUOTE :: body, rest)) as Hm.
    { unfold PATTERNS, first_match.
      assert (COMMENT_regex (QUOTE :: s) = None) as -> by (by destruct s).
      simpl. by rewrite E. }
    split; [by apply first_match_app in Hm as [? _]|].
    by rewrite tokenize_from_cons, Hm.
Qed.

Lemma unterminated_token_error_witness :
  tokenize (js "/* a *") = Throw (Error (js "Unexpected character at line 1: /"))
  ∧ tokenize (jsq "'a") = Throw (Error (jsq "Unexpected character at line 1: '"))
  ∧ ∃ v rest,
      QUOTE :: js "abc\" ++ [QUOTE] ++ js "def" = v ++ rest
      ∧ tokenize (QUOTE :: js "abc\" ++ [QUOTE] ++ js "def")
        = (tokens ← tokenize_from rest (1 + count_newlines v);
           Ok (mkToken STRING v 1 :: tokens)).
Proof.
  split; [|split].
  - refine (eq_trans (proj1 (unterminated_token_error 1 (js " a *")) _) _);
      vm_compute; reflexivity.
  - refine (eq_trans
              (proj1 (proj2 (proj2 (unterminated_token_error 1 (js "a")))) _)
              _).
    + vm_compute. set_solver.
    + vm_compute. reflexivity.
  - apply (proj2 (proj2 (proj2 (unterminated_token_error 1
                                  (js "abc\" ++ [QUOTE] ++ js "def"))))).
    vm_compute. set_solver.
Defined.

(** ** Commas *)

Section Commas.
Context `{JsNumber}.

Lemma drop_commas_cons t tokens :
  drop_commas (t :: tokens)
  = if decide (type t = COMMA) then drop_commas tokens
    else t :: drop_commas tokens.
Proof.
  unfold drop_commas. rewrite filter_cons.
  destruct (decide (type t = COMMA)); by case_decide.
Qed.

Lemma drop_commas_cons_keep t tokens :
  type t ≠ COMMA → drop_commas (t :: tokens) = t :: drop_commas tokens.
Proof. intros Ht. by rewrite drop_commas_cons, decide_False. Qed.

Lemma same_tokens_cons_inv ts' t ts :
  same_tokens ts' (t :: ts) →
  ∃ t' ts1, ts' = t' :: ts1 ∧ type t' = type t ∧ value t' = value t
    ∧ same_tokens ts1 ts.
Proof.
  unfold same_tokens. destruct ts' as [|t' ts1]; [done|].
  intros [= Hty Hv Hts]. by exists t', ts1.
Qed.

Lemma same_tokens_nil_inv ts' : same_tokens ts' [] → ts' = [].
Proof. unfold same_tokens. by destruct ts'. Qed.

Lemma comment_of_same t t' : value t' = value t → comment_of t' = comment_of t.
Proof. unfold comment_of. by intros ->. Qed.

(** The leading comments of the tokens without commas, when a token
    other than a comma ends the comments. *)
Lemma parseComments_commas comments ts ts' cs rest :
  parseComments comments ts = (cs, rest) →
  match rest with [] => True | t :: _ => type t ≠ COMMA end →
  same_tokens ts' (drop_commas ts) →
  ∃ rest', parseComments comments ts' = (cs, rest')
    ∧ same_tokens rest' (drop_commas rest).
Proof.
  revert comments ts'. induction ts as [|t ts IH]; intros comments ts'.
  - simpl. intros [= <- <-] _ ->%same_tokens_nil_inv. by exists [].
  - simpl. case_decide as Ht.
    + intros E Hrest. rewrite drop_commas_cons, decide_False by congruence.
      intros (t' & ts1 & -> & Hty & Hv & Hts)%same_tokens_cons_inv.
      simpl. rewrite decide_True by congruence.
      rewrite (comment_of_same t t' Hv). by apply IH.
    + intros [= <- <-] Hrest. rewrite drop_commas_cons, decide_False by done.
      intros Hts. exists ts'. split; [|done].
      apply same_tokens_cons_inv in Hts as (t' & ts1 & -> & Hty & _).
      simpl. by rewrite decide_False by congruence.
Qed.

(** A value that is parsed is parsed, to the same tree, from the tokens
    without their commas. *)
Lemma parse_commas fuel :
  (∀ ts ts' node rest,
     parseValue fuel ts = Ok (node, rest) →
     same_tokens ts' (drop_commas ts) →
     ∃ rest', parseValue fuel ts' = Ok (node, rest')
       ∧ same_tokens rest' (drop_commas rest))
  ∧ (∀ children ts ts' node rest,
       parseObject fuel children ts = Ok (node, rest) →
       same_tokens ts' (drop_commas ts) →
       ∃ rest', parseObject fuel children ts' = Ok (node, rest')
         ∧ same_tokens rest' (drop_commas rest))
  ∧ (∀ children ts ts' node rest,
       parseArray fuel children ts = Ok (node, rest) →
       same_tokens ts' (drop_commas ts) →
       ∃ rest', parseArray fuel children ts' = Ok (node, rest')
         ∧ same_tokens rest' (drop_commas rest)).
Proof.
  induction fuel as [|fuel (IHv & IHo & IHa)]; [done|].
  split; [|split].
  - intros [|t ts] ts' node rest; [done|].
    rewrite parseValue_step. intros Hp.
    assert (type t ≠ COMMA) as Hcomma.
    { intros Ht. by rewrite Ht in Hp. }
    rewrite drop_commas_cons, decide_False by done.
    intros (t' & ts1 & -> & Hty & Hv & Hts)%same_tokens_cons_inv.
    rewrite parseValue_step, Hty, Hv.
    destruct (type t) eqn:Et; try done.
    + by apply (IHo [] ts).
    + by apply (IHa [] ts).
    + destruct (JSON_parse (value t)); simpl in *; [|done..].
      injection Hp as <- <-. by exists ts1.
    + injection Hp as <- <-. by exists ts1.
    + injection Hp as <- <-. by exists ts1.
    + injection Hp as <- <-. by exists ts1.
    + injection Hp as <- <-. exists ts1.
      by rewrite (comment_of_same t t' Hv).
  - intros children [|t ts] ts' node rest; [done|].
    rewrite parseObject_step. intros Hp.
    assert (type t = COMMA ∨ type t ≠ COMMA) as [Hcomma|Hcomma]
      by (destruct (type t); auto).
    { rewrite drop_commas_cons, decide_True by done.
      rewrite !decide_False, decide_True in Hp by congruence.
      intros Hts. destruct (IHo _ _ _ _ _ Hp Hts) as (rest' & Hp' & Hr).
      exists rest'. split; [|done].
      apply (parseObject_mono fuel); [done|lia]. }
    rewrite drop_commas_cons, decide_False by done.
    intros (t' & ts1 & -> & Hty & Hv & Hts)%same_tokens_cons_inv.
    rewrite parseObject_step, Hty, Hv.
    repeat case_decide; try done.
    + injection Hp as <- <-. by exists ts1.
    + rewrite (comment_of_same t t' Hv). by apply (IHo _ ts).
    + destruct (JSON_parse (value t)) as [keyStr| |]; simpl in *; [|done..].
      destruct (parseComments [] ts) as [cs1 r1] eqn:E1.
      destruct (consume (Some COLON) r1) as [[tc r2]| |] eqn:Ec;
        simpl in Hp; [|done..].
      apply consume_type in Ec as [-> Htc].
      destruct (parseComments_commas _ _ _ _ _ E1 ltac:(simpl; congruence) Hts)
        as (r1' & -> & Hr1).
      rewrite drop_commas_cons, decide_False in Hr1 by congruence.
      apply same_tokens_cons_inv in Hr1 as (tc' & r2' & -> & Htc' & _ & Hr2).
      unfold consume at 1. rewrite decide_False by (intros Hne; apply Hne; congruence).
      rewrite result_bind_Ok. cbv beta iota.
      destruct (parseComments [] r2) as [cs2 r3] eqn:E2.
      destruct (parseValue fuel r3) as [[v r4]| |] eqn:Ev;
        simpl in Hp; [|done..].
      assert (match r3 with [] => True | t3 :: _ => type t3 ≠ COMMA end)
        as Hr3.
      { destruct r3 as [|t3 r3]; [done|]. intros Ht3.
        destruct fuel; [done|]. by rewrite parseValue_step, Ht3 in Ev. }
      destruct (parseComments_commas _ _ _ _ _ E2 Hr3 Hr2)
        as (r3' & -> & Hr3').
      destruct (IHv _ _ _ _ Ev Hr3') as (r4' & -> & Hr4).
      rewrite result_bind_Ok. cbv beta iota.
      by apply (IHo _ r4).
  - intros children [|t ts] ts' node rest; [done|].
    rewrite parseArray_step. intros Hp.
    assert (type t = COMMA ∨ type t ≠ COMMA) as [Hcomma|Hcomma]
      by (destruct (type t); auto).
    { rewrite drop_commas_cons, decide_True by done.
      rewrite !decide_False, decide_True in Hp by congruence.
      intros Hts. destruct (IHa _ _ _ _ _ Hp Hts) as (rest' & Hp' & Hr).
      exists rest'. split; [|done].
      apply (parseArray_mono fuel); [done|lia]. }
    intros Hts. pose proof Hts as Hts0.
    rewrite drop_commas_cons, decide_False in Hts by done.
    apply same_tokens_cons_inv in Hts as (t' & ts1 & -> & Hty & Hv & Hts).
    rewrite parseArray_step, Hty.
    repeat case_decide; try done.
    + injection Hp as <- <-. by exists ts1.
    + rewrite (comment_of_same t t' Hv). by apply (IHa _ ts).
    + destruct (parseValue fuel (t :: ts)) as [[v r]| |] eqn:Ev;
        simpl in Hp; [|done..].
      destruct (IHv _ _ _ _ Ev Hts0) as (r' & -> & Hr).
      rewrite result_bind_Ok. cbv beta iota.
      by apply (IHa _ r).
Qed.
End Commas.

Lemma parse_without_commas `{JsNumber} tokens tokens' root :
  parse tokens = Ok root →
  same_tokens tokens' (drop_commas tokens) →
  parse tokens' = Ok root.
Proof.
  unfold parse, parse_rest.
  destruct (parseComments [] tokens) as [cs r] eqn:E. intros Hp Hts.
  assert (match r with [] => True | t :: _ => type t ≠ COMMA end) as Hr.
  { destruct r as [|t r]; [done|]. intros Ht. simpl in Hp.
    by rewrite Ht in Hp. }
  destruct (parseComments_commas _ _ _ _ _ E Hr Hts) as (r' & -> & Hr').
  destruct r as [|t r].
  { apply same_tokens_nil_inv in Hr' as ->. exact Hp. }
  rewrite drop_commas_cons, decide_False in Hr' by done.
  pose proof Hr' as (t' & r1 & -> & _)%same_tokens_cons_inv.
  simpl peek in *. cbv beta iota in *.
  destruct (parseValue _ (t :: r)) as [[root0 rest0]| |] eqn:Ev;
    simpl in Hp; [|done..].
  rewrite <- drop_commas_cons_keep in Hr' by done.
  destruct (proj1 (parse_commas _) _ _ _ _ Ev Hr') as (rest' & Ev' & _).
  set (F := 2 * length (t :: r) + 1) in *.
  set (F' := 2 * length (t' :: r1) + 1).
  assert (parseValue F' (t' :: r1) = Ok (root0, rest')) as ->; [|done].
  pose proof (proj1 (parse_total F') (t' :: r1) ltac:(unfold F'; lia)) as Htot.
  pose proof (proj1 (parse_fuel_mono F') (t' :: r1) _ (F `max` F')
                eq_refl Htot ltac:(lia)) as E'.
  rewrite <- E'. apply (parseValue_mono F); [done|lia].
Qed.

(** X8.  The commas of a document are optional: a text whose tokens are
    those of a second text without its commas is formatted as the second
    text is, whenever that one is formatted. *)
Theorem commas_optional `{JsNumber} this text text' tokens tokens' out :
  tokenize text = Ok tokens →
  tokenize text' = Ok tokens' →
  same_tokens tokens' (drop_commas tokens) →
  format this text = Ok out →
  format this text' = Ok out.
Proof.
  intros Htok Htok' Hsame. rewrite !format_unfold, Htok, Htok', !result_bind_Ok.
  destruct (parse tokens) as [root| |] eqn:Hp; [|done..].
  by rewrite (parse_without_commas tokens tokens' root Hp Hsame).
Qed.

Lemma commas_optional_witness :
  @format literal_numbers default_formatter (js "[1 2]") = Ok (js "[1, 2]").
Proof.
  refine (@commas_optional literal_numbers default_formatter
            (js "[,1,,2,]") (js "[1 2]")
            [mkToken LBRACKET (js "[") 1; mkToken COMMA (js ",") 1;
             mkToken NUMBER (js "1") 1; mkToken COMMA (js ",") 1;
             mkToken COMMA (js ",") 1; mkToken NUMBER (js "2") 1;
             mkToken COMMA (js ",") 1; mkToken RBRACKET (js "]") 1]
            [mkToken LBRACKET (js "[") 1; mkToken NUMBER (js "1") 1;
             mkToken NUMBER (js "2") 1; mkToken RBRACKET (js "]") 1]
            (js "[1, 2]") _ _ _ _); vm_compute; reflexivity.
Defined.

(** ** Inline containers *)

Lemma printable_join sep parts :
  printable sep → Forall printable parts → printable (join sep parts).
Proof.
  intros Hsep Hparts. destruct Hparts as [|p ps Hp Hps]; [constructor|].
  rewrite join_concat. apply printable_app; [done|].
  induction Hps as [|q qs Hq _ IH]; [constructor|].
  cbn [map concat]. apply printable_app; [by apply printable_app|done].
Qed.

Section Inline.
Context `{JsNumberLaws}.
Variable cfg : MaaFormatConfig.

Local Abbreviation this := (new_MaaPipelineFormatter cfg).

Lemma inline_value_printable (val : AstNode) :
  ¬ (isObject val ∨ isArray val) →
  printable (formatNode this val 0 [] true).
Proof.
  intros Hval. destruct val as [v raw|v raw|v raw|raw|c|children|children];
    try (by apply (scalar_printable cfg)).
  - constructor.
  - exfalso. apply Hval. by right.
  - exfalso. apply Hval. by left.
Qed.

(** X9.  An array or an object that is rendered inline is on one line:
    its text holds no control character, so no line feed, carriage return
    or tab. *)
Theorem inline_one_line k level :
  (∀ children,
     shouldInlineArray this k children = true →
     printable (formatNode this (JsonArray children) level k false))
  ∧ (∀ children,
       shouldInlineObject this k children = true →
       printable (formatNode this (JsonObject children) level k false)).
Proof.
  split.
  - intros children Hin. rewrite formatNode_array_cases, Hin.
    apply shouldInlineArray_rule in Hin.
    apply (inline_array_printable cfg).
    destruct Hin as [->|[Hb _]]; [constructor|].
    by apply not_blocked_scalar.
  - intros children Hin. rewrite formatNode_object_cases, Hin.
    apply shouldInlineObject_rule in Hin.
    unfold formatInlineObject, formatInlineObject_body.
    apply printable_app; [by repeat constructor|].
    apply printable_app; [|by repeat constructor].
    apply printable_join; [by repeat constructor|].
    destruct Hin as [->|(_ & _ & Hn & _)]; [constructor|].
    induction Hn as [|child later Hc _ IH]; [constructor|].
    destruct child as [c|key val]; [exact IH|].
    cbn [omap list_omap]. constructor; [|exact IH].
    apply printable_app; [apply JSON_stringify_string_printable|].
    apply printable_app; [by repeat constructor|].
    by apply inline_value_printable.
Qed.
End Inline.

Lemma inline_one_line_witness :
  printable (formatNode default_formatter (JsonArray array_1_2) 3 (js "roi")
               false).
Proof.
  refine (proj1 (@inline_one_line literal_numbers literal_numbers_laws
                   DEFAULT_CONFIG (js "roi") 3) array_1_2 _).
  vm_compute. reflexivity.
Defined.

(** ** The errors of the parser *)

Section Errors.
Context `{JsNumber}.

Lemma parse_error_suffix tokens tokens' e :
  tokens `suffix_of` tokens' → parse_error tokens e → parse_error tokens' e.
Proof.
  intros [pre ->] He.
  assert (∀ t, t ∈ tokens → t ∈ pre ++ tokens) as Hin.
  { intros t Ht. apply elem_of_app. by right. }
  unfold parse_error in *. naive_solver.
Qed.

Lemma parse_error_cons t tokens e :
  parse_error tokens e → parse_error (t :: tokens) e.
Proof. apply parse_error_suffix. by apply suffix_cons_r. Qed.

Lemma JSON_parse_Throw v e :
  JSON_parse v = Throw e → e = SyntaxError ∧ JSON_parse_string v = None.
Proof.
  unfold JSON_parse. destruct (JSON_parse_string v); [done|].
  by intros [= <-].
Qed.

Lemma JSON_parse_fuel v : JSON_parse v ≠ OutOfFuel.
Proof. unfold JSON_parse. by destruct (JSON_parse_string v). Qed.

Lemma parse_errors_from fuel :
  (∀ tokens e, parseValue fuel tokens = Throw e → parse_error tokens e)
  ∧ (∀ children tokens e,
       parseObject fuel children tokens = Throw e → parse_error tokens e)
  ∧ (∀ children tokens e,
       parseArray fuel children tokens = Throw e → parse_error tokens e).
Proof.
  induction fuel as [|fuel (IHv & IHo & IHa)]; [done|].
  assert (∀ m, end_message m → ∀ tokens, parse_error tokens (Error m))
    as Hend.
  { intros m Hm tokens. right. left. by exists m. }
  split; [|split].
  - intros [|t tokens] e.
    { intros [= <-]. apply Hend. unfold end_message. auto. }
    rewrite parseValue_step. destruct (type t) eqn:Ht; try done.
    + intros E%IHo. by apply parse_error_cons.
    + intros [= <-]. right. right. left. exists t.
      split; [set_solver|]. split; [rewrite Ht; set_solver|done].
    + intros E%IHa. by apply parse_error_cons.
    + intros [= <-]. right. right. left. exists t.
      split; [set_solver|]. split; [rewrite Ht; set_solver|done].
    + intros [= <-]. right. right. left. exists t.
      split; [set_solver|]. split; [rewrite Ht; set_solver|done].
    + intros [= <-]. right. right. left. exists t.
      split; [set_solver|]. split; [rewrite Ht; set_solver|done].
    + destruct (JSON_parse (value t)) eqn:Ej; simpl; [done| |done].
      intros [= <-]. apply JSON_parse_Throw in Ej as [-> Ej].
      left. split; [done|]. exists t. split; [set_solver|done].
    + intros [= <-]. right. right. left. exists t.
      split; [set_solver|]. split; [rewrite Ht; set_solver|done].
  - intros children [|t tokens] e.
    { intros [= <-]. apply Hend. unfold end_message. auto. }
    rewrite parseObject_step. repeat case_decide; try done.
    + intros E%IHo. by apply parse_error_cons.
    + intros E%IHo. by apply parse_error_cons.
    + destruct (JSON_parse (value t)) eqn:Ej; simpl; [| |done].
      2:{ intros [= <-]. apply JSON_parse_Throw in Ej as [-> Ej].
          left. split; [done|]. exists t. split; [set_solver|done]. }
      destruct (parseComments [] tokens) as [cs1 r1] eqn:E1.
      apply parseComments_suffix in E1.
      destruct r1 as [|tc r2].
      { simpl. intros [= <-]. apply Hend. unfold end_message. auto. }
      unfold consume at 1. case_decide as Hc.
      { simpl. intros [= <-]. apply parse_error_cons.
        apply (parse_error_suffix (tc :: r2)); [done|].
        do 4 right. exists tc. split; [set_solver|done]. }
      rewrite result_bind_Ok. cbv beta iota.
      destruct (parseComments [] r2) as [cs2 r3] eqn:E3.
      apply parseComments_suffix in E3.
      assert (r3 `suffix_of` t :: tokens) as Hr3.
      { apply suffix_cons_r. etrans; [exact E3|].
        etrans; [|exact E1]. by apply suffix_cons_r. }
      destruct (parseValue fuel r3) as [[v r4]| |] eqn:E4; simpl; [| |done].
      * intros E%IHo. apply (proj1 (parse_suffix fuel)) in E4.
        apply (parse_error_suffix r4); [by etrans|done].
      * intros [= <-]. apply IHv in E4.
        by apply (parse_error_suffix r3).
    + intros [= <-]. do 3 right. left. exists t.
      split; [set_solver|]. split; [set_solver|done].
  - intros children [|t tokens] e.
    { intros [= <-]. apply Hend. unfold end_message. auto. }
    rewrite parseArray_step. repeat case_decide; try done.
    + intros E%IHa. by apply parse_error_cons.
    + intros E%IHa. by apply parse_error_cons.
    + destruct (parseValue fuel (t :: tokens)) as [[v r]| |] eqn:E;
        simpl; [| |done].
      * intros E'%IHa. apply (proj1 (parse_suffix fuel)) in E.
        by apply (parse_error_suffix r).
      * intros [= <-]. by apply IHv.
Qed.

(** X10.  The parser fails in five ways only: with the syntax error of
    [JSON.parse] on a string token that is no JSON string; with one of
    the three messages for the end of the tokens; or with a message for a
    token of the input that starts no value (with its line), that stands
    where a key is expected (without a line), or that stands where the
    colon after a key is expected (with the numbers of the token types
    and its line). *)
Theorem parse_errors tokens e :
  parse tokens = Throw e → parse_error tokens e.
Proof.
  unfold parse, parse_rest.
  destruct (parseComments [] tokens) as [cs r] eqn:E.
  apply parseComments_suffix in E.
  destruct r as [|t r]; [done|]. simpl peek. cbv beta iota.
  destruct (parseValue _ (t :: r)) as [[root rest]| |] eqn:Ev; simpl;
    [done| |done].
  intros [= <-]. apply (proj1 (parse_errors_from _)) in Ev.
  by apply (parse_error_suffix (t :: r)).
Qed.
End Errors.

Lemma parse_errors_witness :
  parse_error
    [mkToken LBRACE (js "{") 1; mkToken STRING (jsq "'a'") 1;
     mkToken NUMBER (js "1") 2]
    (Error (js "Expected token type 4, got 7 at line 2")).
Proof.
  apply (@parse_errors literal_numbers). vm_compute. reflexivity.
Defined.

(** ** Blank texts, and formatting again *)

Lemma span_all (p : N → bool) s : Forall p s → span p s = (s, []).
Proof.
  induction 1 as [|c s Hc _ IH]; [done|]. simpl.
  apply Is_true_true in Hc. by rewrite Hc, IH.
Qed.

Lemma span_snd_nil (p : N → bool) s : (span p s).2 = [] → Forall p s.
Proof.
  induction s as [|c s IH]; [constructor|]. simpl.
  destruct (p c) eqn:Hc; [|done].
  destruct (span p s) as [a b] eqn:E. simpl in *.
  intros Hb. constructor; [by rewrite Hc|by apply IH].
Qed.

Lemma trim_blank text : length (trim text) = 0 ↔ Forall is_space text.
Proof.
  unfold trim, trimEnd, trimStart. rewrite length_reverse. split.
  - intros Hlen%nil_length_inv.
    destruct (span is_space text) as [a b] eqn:E. simpl in *.
    pose proof (span_app _ _ _ _ E) as ->.
    pose proof (span_Forall _ _ _ _ E) as Ha.
    pose proof (span_stops _ _ _ _ E) as Hb.
    apply span_snd_nil in Hlen. apply Forall_reverse in Hlen.
    rewrite reverse_involutive in Hlen.
    destruct b as [|c b]; [by rewrite app_nil_r|].
    apply Forall_cons in Hlen as [Hc _]. simpl in Hb.
    apply Is_true_true in Hc. congruence.
  - intros Hall. rewrite (span_all _ _ Hall). done.
Qed.

Lemma format_total `{JsNumber} this text : format this text ≠ OutOfFuel.
Proof.
  rewrite format_unfold. pose proof (tokenize_from_total text 1) as Htok.
  fold (tokenize text) in Htok.
  destruct (tokenize text) as [tokens| |]; [|done..].
  rewrite result_bind_Ok.
  assert (parse tokens ≠ OutOfFuel) as Hp.
  { unfold parse, parse_rest.
    destruct (parseComments [] tokens) as [cs r].
    destruct r as [|t r]; [done|]. simpl peek. cbv beta iota.
    pose proof (proj1 (parse_total (2 * length (t :: r) + 1)) (t :: r)
                  ltac:(lia)) as Htot.
    by destruct (parseValue _ (t :: r)) as [[??]| |]. }
  by destruct (parse tokens).
Qed.

Lemma apply_whole text out :
  apply_edits text [mkTextEdit 0 (length text) out] = out.
Proof.
  unfold apply_edits, apply_edit. simpl.
  by rewrite drop_all, app_nil_r.
Qed.

(** The second pass of the formatter, on the output of the first. *)
Lemma format_again `{JsNumberLaws} cfg text tokens root :
  tokenize text = Ok tokens →
  parse tokens = Ok root →
  ∃ out out',
    format (new_MaaPipelineFormatter cfg) text = Ok out
    ∧ format (new_MaaPipelineFormatter cfg) out = Ok out'
    ∧ (stable_node (newline_text cfg) root → out' = out).
Proof.
  intros Htok Hparse.
  pose proof (tokenize_comments _ _ Htok) as Hlexed.
  assert (∃ rest, parse_rest tokens = Ok (root, rest)) as (rest & Hrest).
  { unfold parse in Hparse.
    destruct (parse_rest tokens) as [[root0 rest]| |]; simpl in Hparse;
      [|done..].
    injection Hparse as <-. by exists rest. }
  destruct (parse_rest_comments _ _ _ Hrest Hlexed) as (Hwf & Hcmt & _).
  destruct (relex_output cfg root Hwf Hcmt 1) as (tokens' & Hout & Hkv).
  eexists _, _. split; [|split].
  - by rewrite format_unfold, Htok, result_bind_Ok, Hparse, result_bind_Ok.
  - rewrite format_unfold. unfold tokenize. rewrite Hout, result_bind_Ok.
    by rewrite (parse_output cfg root tokens' Hwf Hcmt Hkv), result_bind_Ok.
  - intros Hstable.
    rewrite !finish_plain
      by (apply formatNode_plain_last; by rewrite ?reparsed_isComment).
    by rewrite (reformat_node cfg root Hwf Hstable).
Qed.

(** ** The configuration file *)

(** Two constant strings differ. *)
Ltac js_differ :=
  let E := fresh in intros E; vm_compute in E; discriminate E.

Section Config.
Context `{JsNumber}.
Variable ToBoolean_number : num → bool.

Local Abbreviation read := (readConfig ToBoolean_number).
Local Abbreviation merge := (merge_config ToBoolean_number).
Local Abbreviation merge_in := (merge_section ToBoolean_number).
Local Abbreviation truthy := (ToBoolean ToBoolean_number).
Local Abbreviation defaults := (config_object DEFAULT_CONFIG).

Lemma Object_assign_lookup target source k :
  k ≠ js "__proto__" →
  Object_assign target source !! k
  = match own_properties source !! k with
    | Some v => Some v
    | None => target !! k
    end.
Proof.
  intros Hk. unfold Object_assign.
  rewrite lookup_union, lookup_delete_ne by done.
  by destruct (own_properties source !! k), (target !! k).
Qed.

Lemma Object_assign_proto target source :
  Object_assign target source !! js "__proto__" = target !! js "__proto__".
Proof.
  unfold Object_assign. rewrite lookup_union, lookup_delete_eq.
  by destruct (target !! js "__proto__").
Qed.

Lemma merge_section_dom target given :
  dom target ⊆ dom (merge_in target given).
Proof.
  unfold merge_section. destruct given as [v|]; [|done].
  destruct (truthy v); [|done].
  unfold Object_assign. rewrite dom_union. set_solver.
Qed.

Lemma merge_section_proto target given :
  merge_in target given !! js "__proto__" = target !! js "__proto__".
Proof.
  unfold merge_section. destruct given as [v|]; [|done].
  destruct (truthy v); [|done]. apply Object_assign_proto.
Qed.

Lemma defaults_proto s : section_of s defaults !! js "__proto__" = None.
Proof. destruct s; vm_compute; reflexivity. Qed.

Lemma merge_config_section userConfig merged s :
  merge userConfig = Some merged →
  ∃ given, get_key userConfig (section_key s) = Some given
    ∧ section_of s merged = merge_in (section_of s defaults) given.
Proof.
  unfold merge_config.
  destruct (get_key userConfig (js "indent")) as [u1|] eqn:E1; [|done].
  destruct (get_key userConfig (js "posix")) as [u2|] eqn:E2; [|done].
  destruct (get_key userConfig (js "formatting")) as [u3|] eqn:E3; [|done].
  destruct (get_key userConfig (js "file_handling")) as [u4|] eqn:E4;
    [|done].
  destruct (get_key userConfig (js "version")) as [u5|] eqn:E5; [|done].
  simpl. intros [= <-]. destruct s; simpl; by eexists.
Qed.

Lemma merge_config_None userConfig :
  merge userConfig = None ↔ userConfig = JNull.
Proof. split; [by destruct userConfig|by intros ->]. Qed.
(** Looks a constant key up in a map that is written out. *)
Ltac lookup_key :=
  repeat first
    [ rewrite lookup_insert_eq
    | rewrite lookup_insert_ne by js_differ
    | rewrite lookup_singleton_eq
    | rewrite lookup_singleton_ne by js_differ ].

Lemma union_dom_subseteq (m d : gmap jsstring JsValue) :
  dom d ⊆ dom m → m ∪ d = m.
Proof.
  intros Hdom. apply map_eq. intros k. rewrite lookup_union.
  destruct (m !! k) as [x|] eqn:Hm; [by destruct (d !! k)|].
  apply not_elem_of_dom in Hm.
  assert (d !! k = None) as -> by (apply not_elem_of_dom; set_solver).
  done.
Qed.

Local Abbreviation merged_config := (merged_config ToBoolean_number).

Lemma defaults_merged : merged_config defaults.
Proof.
  split; [by eexists|]. intros s. split; [done|apply defaults_proto].
Qed.

Lemma read_merged parsed : merged_config (read parsed).1.
Proof.
  unfold readConfig. destruct parsed as [userConfig|]; simpl;
    [|apply defaults_merged].
  destruct (merge userConfig) as [m|] eqn:Hm; simpl; [|apply defaults_merged].
  split.
  - revert Hm. unfold merge_config.
    destruct (get_key userConfig (js "indent")) as [u1|]; [|done].
    destruct (get_key userConfig (js "posix")) as [u2|]; [|done].
    destruct (get_key userConfig (js "formatting")) as [u3|]; [|done].
    destruct (get_key userConfig (js "file_handling")) as [u4|]; [|done].
    destruct (get_key userConfig (js "version")) as [u5|]; [|done].
    simpl. intros [= <-]. simpl. unfold merge_version.
    destruct u5 as [v|]; [|by eexists].
    destruct (truthy v) eqn:Hv; [|by eexists].
    exists v. by rewrite Hv.
  - intros s. destruct (merge_config_section _ _ s Hm) as (given & _ & ->).
    split; [apply merge_section_dom|].
    rewrite merge_section_proto. apply defaults_proto.
Qed.

Lemma read_shown parsed :
  (read parsed).2 = true ↔ parsed = None ∨ parsed = Some JNull.
Proof.
  unfold readConfig. destruct parsed as [userConfig|]; simpl; [|naive_solver].
  destruct (merge userConfig) as [m|] eqn:Hm; simpl.
  - split; [done|]. intros [?|[= ->]]; done.
  - apply merge_config_None in Hm as ->. naive_solver.
Qed.

Lemma read_object m :
  merged_config m → read (Some (object_value m)) = (m, false).
Proof.
  intros [(v & Hv & Htrue%Is_true_true) Hsec]. unfold readConfig, merge_config.
  destruct m as [ver i p f h]. simpl in Hv. subst ver.
  pose proof (Hsec S_indent) as [Hi Hi']. pose proof (Hsec S_posix) as [Hp Hp'].
  pose proof (Hsec S_formatting) as [Hf Hf'].
  pose proof (Hsec S_file_handling) as [Hh Hh'].
  cbn [section_of c_indent c_posix c_formatting c_file_handling] in *.
  cbn [mbind option_bind object_value get_key c_version c_indent c_posix
         c_formatting c_file_handling].
  lookup_key.
  cbn [mbind option_bind merge_section merge_version ToBoolean].
  rewrite Htrue. unfold Object_assign. cbn [own_properties].
  rewrite !delete_id by done.
  by rewrite !union_dom_subseteq by done.
Qed.
End Config.

(** X13.  [readConfig] returns a configuration in every case.  Each
    section of it has every field of the defaults, no section has a
    property [__proto__], and its version is truthy.  The error message
    is shown exactly when the file cannot be read or parsed or holds
    [null], and the configuration is then the defaults. *)
Theorem config_fields `{JsNumber} (ToBoolean_number : num → bool) parsed :
  merged_config ToBoolean_number (readConfig ToBoolean_number parsed).1
  ∧ ((readConfig ToBoolean_number parsed).2 = true
     ↔ parsed = None ∨ parsed = Some JNull)
  ∧ ((readConfig ToBoolean_number parsed).2 = true →
     (readConfig ToBoolean_number parsed).1 = config_object DEFAULT_CONFIG).
Proof.
  split; [apply read_merged|]. split; [apply read_shown|].
  intros [-> | ->]%read_shown; done.
Qed.

(** X14.  The merge is one level deep.  In a section that the file gives
    with a truthy value, a property of that value takes the place of the
    default and the other fields keep their defaults; a section that the
    file does not give, or gives with a falsy value, is the section of
    the defaults. *)
Theorem config_override `{JsNumber} (ToBoolean_number : num → bool) :
  (∀ userConfig s given k,
     get_key userConfig (section_key s) = Some (Some given) →
     ToBoolean ToBoolean_number given →
     k ≠ js "__proto__" →
     section_of s (readConfig ToBoolean_number (Some userConfig)).1 !! k
     = match own_properties given !! k with
       | Some v => Some v
       | None => section_of s (config_object DEFAULT_CONFIG) !! k
       end)
  ∧ (∀ userConfig s given,
       get_key userConfig (section_key s) = Some given →
       (∀ v, given = Some v → ¬ ToBoolean ToBoolean_number v) →
       section_of s (readConfig ToBoolean_number (Some userConfig)).1
       = section_of s (config_object DEFAULT_CONFIG)).
Proof.
  split.
  - intros userConfig s given k Hget Htrue%Is_true_true Hk.
    unfold readConfig. simpl.
    destruct (merge_config _ userConfig) as [m|] eqn:Hm; simpl.
    2:{ apply merge_config_None in Hm as ->. by destruct s. }
    destruct (merge_config_section _ _ _ s Hm) as (given' & Hget' & ->).
    rewrite Hget in Hget'. injection Hget' as <-.
    unfold merge_section. rewrite Htrue. by apply Object_assign_lookup.
  - intros userConfig s given Hget Hfalse.
    unfold readConfig. simpl.
    destruct (merge_config _ userConfig) as [m|] eqn:Hm; simpl; [|done].
    destruct (merge_config_section _ _ _ s Hm) as (given' & Hget' & ->).
    rewrite Hget in Hget'. injection Hget' as <-.
    unfold merge_section. destruct given as [v|]; [|done].
    specialize (Hfalse v eq_refl).
    by destruct (ToBoolean _ v).
Qed.

Lemma config_override_witness :
  section_of S_indent (readConfig literal_truthy (Some width_only)).1
    !! js "width"
  = Some (JNum (js "4" : @num literal_numbers))
  ∧ section_of S_indent (readConfig literal_truthy (Some width_only)).1
      !! js "style"
    = Some (JStr (js "tab"))
  ∧ section_of S_posix (readConfig literal_truthy (Some width_only)).1
    = section_of S_posix (config_object DEFAULT_CONFIG).
Proof.
  split; [|split].
  - refine (eq_trans
              (proj1 (@config_override literal_numbers literal_truthy)
                 width_only S_indent
                 (JObj {[ js "width"
                          := JNum (js "4" : @num literal_numbers) ]})
                 (js "width") _ _ _) _).
    + vm_compute. reflexivity.
    + exact I.
    + vm_compute. discriminate.
    + vm_compute. reflexivity.
  - refine (eq_trans
              (proj1 (@config_override literal_numbers literal_truthy)
                 width_only S_indent
                 (JObj {[ js "width"
                          := JNum (js "4" : @num literal_numbers) ]})
                 (js "style") _ _ _) _).
    + vm_compute. reflexivity.
    + exact I.
    + vm_compute. discriminate.
    + vm_compute. reflexivity.
  - refine (proj2 (@config_override literal_numbers literal_truthy)
              width_only S_posix None _ _).
    + vm_compute. reflexivity.
    + discriminate.
Defined.

(** X15.  A configuration that [readConfig] has returned is read back
    as it is, with no error, from a file that holds it: the merge is
    idempotent.  So are the defaults, which the extension writes when it
    finds no file. *)
Theorem config_round_trip `{JsNumber} (ToBoolean_number : num → bool) parsed :
  readConfig ToBoolean_number
    (Some (object_value (readConfig ToBoolean_number parsed).1))
  = ((readConfig ToBoolean_number parsed).1, false)
  ∧ readConfig ToBoolean_number
      (Some (object_value (config_object DEFAULT_CONFIG)))
    = (config_object DEFAULT_CONFIG, false).
Proof.
  split; apply read_object; [apply read_merged|apply defaults_merged].
Qed.

(** ** The threshold *)

Section Threshold.
Context `{JsNumber}.

Lemma leaf_format (this1 this2 : MaaPipelineFormatter) (val : AstNode) :
  ¬ (isObject val ∨ isArray val) →
  formatNode this1 val 0 [] true = formatNode this2 val 0 [] true.
Proof.
  intros Hval. destruct val; try done; exfalso; apply Hval; simpl; auto.
Qed.

Lemma inline_array_text this1 this2 (children : list AstNode) :
  Forall (λ c, ¬ blocks_inline c) children →
  formatInlineArray this1 children = formatInlineArray this2 children.
Proof.
  intros Hall. unfold formatInlineArray, formatInlineArray_body.
  do 3 f_equal. apply map_ext_Forall.
  eapply Forall_impl; [exact Hall|]. intros c Hc.
  apply leaf_format. unfold blocks_inline in Hc. tauto.
Qed.

Lemma inline_object_text this1 this2 (children : list (ObjectChild AstNode)) :
  Forall (λ c, ¬ nested_value c) children →
  formatInlineObject this1 children = formatInlineObject this2 children.
Proof.
  intros Hall. unfold formatInlineObject, formatInlineObject_body.
  do 3 f_equal. induction Hall as [|child later Hc _ IH]; [done|].
  destruct child as [c|key val]; [exact IH|]. cbn [omap list_omap].
  f_equal; [|exact IH]. do 2 f_equal. by apply leaf_format.
Qed.

(** X16.  Raising the threshold never expands a container: an array or
    an object that is rendered inline with a threshold is rendered inline
    with every larger one, the rest of the configuration being the
    same. *)
Theorem threshold_monotone cfg n m k :
  n ≤ m →
  (∀ children,
     shouldInlineArray (new_MaaPipelineFormatter (with_threshold n cfg))
       k children = true →
     shouldInlineArray (new_MaaPipelineFormatter (with_threshold m cfg))
       k children = true)
  ∧ (∀ children,
       shouldInlineObject (new_MaaPipelineFormatter (with_threshold n cfg))
         k children = true →
       shouldInlineObject (new_MaaPipelineFormatter (with_threshold m cfg))
         k children = true).
Proof.
  intros Hle. split; intros children.
  - rewrite !shouldInlineArray_rule. unfold array_inline_rule.
    cbn [with_threshold formatting simple_array_threshold coordinate_fields
         control_flow_fields always_multiline_fields].
    intros [?|[Hb [?|[Hk Hlen]]]]; [by left|right; split; [done|by left]|].
    right. split; [done|]. right. split; [done|].
    rewrite (inline_array_text _
               (new_MaaPipelineFormatter (with_threshold n cfg))) by done.
    lia.
  - rewrite !shouldInlineObject_rule. unfold object_inline_rule.
    cbn [with_threshold formatting simple_array_threshold coordinate_fields
         control_flow_fields always_multiline_fields].
    intros [?|(Hk & Hc & Hn & Hlen)]; [by left|right].
    repeat split; try done.
    rewrite (inline_object_text _
               (new_MaaPipelineFormatter (with_threshold n cfg))) by done.
    lia.
Qed.
End Threshold.

Lemma threshold_monotone_witness :
  shouldInlineArray
    (new_MaaPipelineFormatter (with_threshold 80 DEFAULT_CONFIG))
    (js "k") array_1_2
  = true.
Proof.
  refine (proj1 (@threshold_monotone literal_numbers DEFAULT_CONFIG 6 80
                   (js "k") _) array_1_2 _).
  - lia.
  - vm_compute. reflexivity.
Defined.

(** ** The keys of a document in its output *)

Lemma startsWith_app s p b : startsWith s p = true → startsWith (s ++ b) p = true.
Proof.
  revert s. induction p as [|c p IH]; intros s.
  { intros _. by destruct s, b. }
  destruct s as [|d s]; [done|]. simpl.
  intros [-> Hs]%andb_prop. by rewrite IH.
Qed.

Lemma startsWith_self p b : startsWith (p ++ b) p = true.
Proof.
  induction p as [|c p IH]; [by destruct b|]. simpl.
  by rewrite N.eqb_refl, IH.
Qed.

Lemma startsWith_nil s : startsWith s [] = true.
Proof. by destruct s. Qed.

Lemma includes_cons c s p :
  includes (c :: s) p = startsWith (c :: s) p || includes s p.
Proof. done. Qed.

Lemma includes_app_l s b p : includes s p = true → includes (s ++ b) p = true.
Proof.
  induction s as [|c s IH].
  - simpl. rewrite orb_false_r. intros Hp. destruct p; [|done].
    by destruct b.
  - rewrite <- app_comm_cons, !includes_cons. intros [Hs|Hs]%orb_prop.
    + by rewrite (app_comm_cons s b c), (startsWith_app (c :: s) p b Hs).
    + rewrite IH by done. by rewrite orb_true_r.
Qed.

Lemma includes_app_r a s p : includes s p = true → includes (a ++ s) p = true.
Proof.
  intros Hs. induction a as [|c a IH]; [done|].
  rewrite <- app_comm_cons, includes_cons. by rewrite IH, orb_true_r.
Qed.

Lemma includes_self p b : includes (p ++ b) p = true.
Proof.
  destruct (p ++ b) eqn:E.
  - apply app_eq_nil in E as [-> _]. done.
  - rewrite includes_cons, <- E, startsWith_self. done.
Qed.

(** The text of a token is a part of the text. *)
Lemma token_in_text text line0 tokens t :
  tokenize_from text line0 = Ok tokens → t ∈ tokens →
  includes text (value t) = true.
Proof.
  revert line0 tokens. induction text as [text IH] using length_ind.
  intros line0 tokens. destruct text as [|c text].
  { intros [= <-]. by intros ?%elem_of_nil. }
  rewrite tokenize_from_cons.
  destruct (first_match PATTERNS (c :: text)) as [[[ty v] rest]|] eqn:Hm;
    [|done].
  pose proof (first_match_app _ _ _ _ Hm) as [E Hv].
  assert (length rest < length (c :: text)) as Hlen.
  { rewrite E, length_app. destruct v; [done|]. simpl. lia. }
  rewrite E.
  destruct (tokenize_from rest (line0 + count_newlines v)) as [toks| |] eqn:Hr;
    [rewrite result_bind_Ok|done..].
  intros [= <-] Hin.
  assert (t ∈ toks → includes (v ++ rest) (value t) = true) as Hrest.
  { intros Ht. apply includes_app_r. by eapply IH. }
  case_decide; [|by apply Hrest].
  apply elem_of_cons in Hin as [->|Hin]; [|by apply Hrest].
  apply includes_self.
Qed.

Section Keys.
Context `{JsNumber}.
Variable nl : jsstring.

Lemma array_tokens_item (children : list AstNode) child kv :
  child ∈ children → kv ∈ node_tokens nl child →
  kv ∈ array_tokens (node_tokens nl) children.
Proof.
  intros Hin Hkv. induction children as [|c l IH]; [by apply elem_of_nil in Hin|].
  cbn [array_tokens]. apply elem_of_cons in Hin as [<-|Hin]; set_solver.
Qed.

Lemma object_tokens_value (children : list (ObjectChild AstNode)) key val kv :
  OPair key val ∈ children → kv ∈ node_tokens nl val →
  kv ∈ object_tokens nl (node_tokens nl) children.
Proof.
  intros Hin Hkv.
  induction children as [|c l IH]; [by apply elem_of_nil in Hin|].
  apply elem_of_cons in Hin as [<-|Hin].
  - cbn [object_tokens]. set_solver.
  - destruct c; cbn [object_tokens]; set_solver.
Qed.

Lemma object_tokens_key (children : list (ObjectChild AstNode)) key val :
  OPair key val ∈ children →
  (STRING, JSON_stringify_string key)
  ∈ object_tokens nl (node_tokens nl) children.
Proof.
  intros Hin.
  induction children as [|c l IH]; [by apply elem_of_nil in Hin|].
  apply elem_of_cons in Hin as [<-|Hin].
  - cbn [object_tokens]. set_solver.
  - destruct c; cbn [object_tokens]; set_solver.
Qed.

Lemma key_token k root :
  has_key k root → (STRING, JSON_stringify_string k) ∈ node_tokens nl root.
Proof.
  induction 1 as [children val Hin|children key val Hin _ IH
                  |children child Hin _ IH]; cbn [node_tokens].
  - pose proof (object_tokens_key _ _ _ Hin). set_solver.
  - pose proof (object_tokens_value _ _ _ _ Hin IH). set_solver.
  - pose proof (array_tokens_item _ _ _ Hin IH). set_solver.
Qed.
End Keys.

(** X17.  The keys of a document are in its output: a key of an object
    of the parsed tree occurs in the output as [JSON.stringify] prints it.
    A JSON document with a key [roi], [recognition], [action] or [target]
    is therefore still taken for a pipeline file by its content once it
    is formatted. *)
Theorem keys_in_output `{JsNumberLaws} cfg text tokens root k :
  tokenize text = Ok tokens →
  parse tokens = Ok root →
  has_key k root →
  ∃ out,
    format (new_MaaPipelineFormatter cfg) text = Ok out
    ∧ includes out (JSON_stringify_string k) = true
    ∧ (k ∈ [js "roi"; js "recognition"; js "action"; js "target"] →
       ∀ extname basename toLowerCase filePatterns document,
         isJsonDocument extname toLowerCase document = true →
         getText document = out →
         isMaaPipelineJsonFile extname basename toLowerCase filePatterns
           document = true).
Proof.
  intros Htok Hparse Hkey.
  pose proof (tokenize_comments _ _ Htok) as Hlexed.
  assert (∃ rest, parse_rest tokens = Ok (root, rest)) as (rest & Hrest).
  { unfold parse in Hparse.
    destruct (parse_rest tokens) as [[root0 rest]| |]; simpl in Hparse;
      [|done..].
    injection Hparse as <-. by exists rest. }
  destruct (parse_rest_comments _ _ _ Hrest Hlexed) as (Hwf & Hcmt & _).
  destruct (relex_output cfg root Hwf Hcmt 1) as (tokens' & Hout & Hkv).
  set (out := finish (new_MaaPipelineFormatter cfg)
                (formatNode (new_MaaPipelineFormatter cfg) root 0 [] false))
    in *.
  assert (includes out (JSON_stringify_string k) = true) as Hinc.
  { pose proof (key_token (newline_text cfg) k root Hkey) as Hin.
    rewrite <- Hkv in Hin. apply list_elem_of_In, in_map_iff in Hin
      as (t & Ht & Hin%list_elem_of_In).
    injection Ht as _ <-. by eapply token_in_text. }
  exists out. split; [|split; [done|]].
  { by rewrite format_unfold, Htok, result_bind_Ok, Hparse. }
  intros Hk extname basename toLowerCase filePatterns document Hjson Htext.
  unfold isMaaPipelineJsonFile. rewrite Hjson, Htext. cbn [negb].
  destruct (existsb _ filePatterns); [done|].
  assert (includes out (jsq "'roi'") || includes out (jsq "'recognition'")
          || includes out (jsq "'action'") || includes out (jsq "'target'")
          = true) as ->; [|done].
  assert (JSON_stringify_string (js "roi") = jsq "'roi'") as Hroi
    by (vm_compute; reflexivity).
  assert (JSON_stringify_string (js "recognition") = jsq "'recognition'")
    as Hrecognition by (vm_compute; reflexivity).
  assert (JSON_stringify_string (js "action") = jsq "'action'") as Haction
    by (vm_compute; reflexivity).
  assert (JSON_stringify_string (js "target") = jsq "'target'") as Htarget
    by (vm_compute; reflexivity).
  repeat (apply elem_of_cons in Hk as [->|Hk]);
    [rewrite Hroi in Hinc|rewrite Hrecognition in Hinc
    |rewrite Haction in Hinc|rewrite Htarget in Hinc
    |by apply elem_of_nil in Hk];
    rewrite Hinc; by rewrite ?orb_true_r.
Qed.

Lemma keys_in_output_witness :
  ∃ out,
    @format literal_numbers default_formatter (jsq "{'roi':[1,2]}") = Ok out
    ∧ includes out (jsq "'roi'") = true.
Proof.
  destruct (@keys_in_output literal_numbers literal_numbers_laws
              DEFAULT_CONFIG (jsq "{'roi':[1,2]}")
              [mkToken LBRACE (js "{") 1; mkToken STRING (jsq "'roi'") 1;
               mkToken COLON (js ":") 1; mkToken LBRACKET (js "[") 1;
               mkToken NUMBER (js "1") 1; mkToken COMMA (js ",") 1;
               mkToken NUMBER (js "2") 1; mkToken RBRACKET (js "]") 1;
               mkToken RBRACE (js "}") 1]
              (JsonObject [OPair (js "roi") (JsonArray array_1_2)])
              (js "roi"))
    as (out & Hf & Hinc & _).
  - vm_compute. reflexivity.
  - vm_compute. reflexivity.
  - eapply key_of_object. apply list_elem_of_here.
  - exists out. split; [exact Hf|]. exact Hinc.
Defined.

(** ** The extension: formatting a document *)

Section Extension.
Context `{JsNumber}.
Variable ToBoolean_number : num → bool.
Variable repeat_count : JsValue → option nat.
Variable threshold_of : JsValue → nat.

Local Abbreviation load := (loadOrGenerateConfiguration ToBoolean_number).
Local Abbreviation formatter_of :=
  (formatter_config ToBoolean_number repeat_count threshold_of).
Local Abbreviation do_format :=
  (doFormat ToBoolean_number repeat_count threshold_of).
Local Abbreviation defaults := (config_object DEFAULT_CONFIG).

(** The workspace changes only when no configuration file is found. *)
Lemma load_workspace ws o :
  (load ws o).2 = ws
  ∨ (∃ w, ws = Some w ∧ root_config w = None ∧ vscode_config w = None
          ∧ (load ws o).1.1 = defaults
          ∧ ((load ws o).2 = Some generated
             ∨ (load ws o).2
               = Some {| root_config := None; vscode_directory := true;
                         vscode_config := None |})).
Proof.
  destruct ws as [w|]; [|by left]. simpl.
  destruct (root_config w) as [parsed|] eqn:Hroot.
  { unfold read_file. destruct (readConfig _ parsed). by left. }
  destruct (vscode_config w) as [parsed|] eqn:Hvs.
  { unfold read_file. destruct (readConfig _ parsed). by left. }
  destruct (negb (vscode_directory w) && negb (creates_directory o));
    [by left|].
  right. exists w. destruct (writes_file o); naive_solver.
Qed.

(** The configuration that is loaded does not depend on the outcomes
    of writing. *)
Lemma load_config ws o o' : (load ws o).1.1 = (load ws o').1.1.
Proof.
  destruct ws as [w|]; [|done]. simpl.
  destruct (root_config w) as [parsed|];
    [by destruct (read_file _ parsed)|].
  destruct (vscode_config w) as [parsed|];
    [by destruct (read_file _ parsed)|].
  by destruct (negb (vscode_directory w) && negb (creates_directory o)),
    (negb (vscode_directory w) && negb (creates_directory o')),
    (writes_file o), (writes_file o').
Qed.

(** The configuration that is loaded again, from the workspace that the
    first loading has left, is the configuration that was loaded. *)
Lemma load_again ws o o' :
  (load (load ws o).2 o').1.1 = (load ws o).1.1.
Proof.
  destruct (load_workspace ws o)
    as [->|(w & -> & Hroot & Hvs & -> & [-> | ->])].
  - apply load_config.
  - cbn [loadOrGenerateConfiguration generated root_config vscode_config].
    unfold read_file.
    by rewrite (read_object ToBoolean_number defaults
                  (defaults_merged ToBoolean_number)).
  - simpl. by destruct (writes_file o').
Qed.

Lemma doFormat_unfold ws o text :
  do_format ws o text
  = if decide (length (trim text) = 0) then Ok ([], [], ws)
    else
      match formatter_of (load ws o).1.1 with
      | inl error =>
          Ok ([], (load ws o).1.2 ++ [Formatting_failed error], (load ws o).2)
      | inr config =>
          match format (new_MaaPipelineFormatter config) text with
          | Ok formattedText =>
              if decide (formattedText ≠ text)
              then Ok ([mkTextEdit 0 (length text) formattedText],
                       (load ws o).1.2, (load ws o).2)
              else Ok ([], (load ws o).1.2, (load ws o).2)
          | Throw error =>
              Ok ([], (load ws o).1.2 ++ [Formatting_failed (Thrown error)],
                  (load ws o).2)
          | OutOfFuel => OutOfFuel
          end
      end.
Proof.
  unfold doFormat. by destruct (load ws o) as [[config shown] ws'].
Qed.

(** The messages of the loading are not the error of [doFormat]. *)
Lemma load_messages ws o error :
  Formatting_failed error ∉ (load ws o).1.2.
Proof.
  destruct ws as [w|]; [|by intros ?%elem_of_nil]. simpl.
  assert (∀ parsed,
    Formatting_failed error ∉ (read_file ToBoolean_number parsed).2) as Hread.
  { intros parsed. unfold read_file.
    destruct (readConfig _ parsed) as [c []]; simpl; set_solver. }
  destruct (root_config w) as [parsed|].
  { specialize (Hread parsed). by destruct (read_file _ parsed). }
  destruct (vscode_config w) as [parsed|].
  { specialize (Hread parsed). by destruct (read_file _ parsed). }
  destruct (negb (vscode_directory w) && negb (creates_directory o));
    [by intros ?%elem_of_nil|].
  destruct (writes_file o); simpl; set_solver.
Qed.

(** After the default configuration is created, it is what is found. *)
Lemma load_created ws o :
  Created_default_configuration ∈ (load ws o).1.2 →
  (load ws o).2 = Some generated
  ∧ ∀ o', load (Some generated) o' = (defaults, [], Some generated).
Proof.
  intros Hin. split.
  - revert Hin. destruct ws as [w|]; [|by intros ?%elem_of_nil]. simpl.
    assert (∀ parsed, Created_default_configuration
                      ∉ (read_file ToBoolean_number parsed).2) as Hread.
    { intros parsed. unfold read_file.
      destruct (readConfig _ parsed) as [c []]; simpl; set_solver. }
    destruct (root_config w) as [parsed|].
    { specialize (Hread parsed). by destruct (read_file _ parsed). }
    destruct (vscode_config w) as [parsed|].
    { specialize (Hread parsed). by destruct (read_file _ parsed). }
    destruct (negb (vscode_directory w) && negb (creates_directory o));
      [by intros ?%elem_of_nil|].
    destruct (writes_file o); [done|by intros ?%elem_of_nil].
  - intros o'.
    cbn [loadOrGenerateConfiguration generated root_config vscode_config].
    unfold read_file.
    by rewrite (read_object ToBoolean_number defaults
                  (defaults_merged ToBoolean_number)).
Qed.
End Extension.



